(** * CabanaMD long-range electrostatics: direct Ewald and SPME kernels

    Shallow embedding of
    - [ForceEwald] (init_coeff, compute: partial sums, k-space pass,
      real-space half-list kernel, self energy), and
    - [ForceSPME] / [TPME] (tune, oneDspline, oneDsplinederiv, oneDeuler,
      compute: real-space all-pairs loop, charge spreading, BC array,
      energy, self energy, force gathering).

    Conventions of the embedding.
    - A C++ [double] is read as a real number ([R]); the libm functions
      [sqrt], [exp], [log], [cos], [sin], [pow] are the corresponding
      functions of the real-number library; [erfc] is defined from the
      Gaussian integral.  Rounding is not modelled.
    - The named constants [PI], [PI_SQRT] are the decimal literals of the
      source.
    - A C++ [int] is read as an integer.  A theorem that rests on the value
      of an index carries the bound under which no intermediate value of
      the source leaves 32 bits.
    - A Kokkos view, a Cabana slice or an FFTW array is a store from integer
      index to value.  Its extent is kept next to it where the source
      allocates it, so an access outside the extent stays visible.  The
      store answers at every index, the memory of the source does not: a
      theorem on a loop that writes a view, or on a whole call, carries the
      hypotheses that keep every access inside the extent; where a loop only
      reads a view, its content is left arbitrary.
    - In the real-space pair kernels a division whose denominator is zero
      ends the run of the model with the fault [division_by_zero].  The
      source does not stop there: its double is inf or NaN and it runs on,
      outside the real numbers.  A theorem on a completed run excludes the
      zero denominator by hypothesis.  Elsewhere [/] is the division of the
      reals.
    - A method that mutates its object or its arguments is a function from
      the state to the state it leaves and a value or a fault; a C++
      exception and a failed [assert] are faults.
    - [Kokkos::parallel_for] over a range is the loop over that range in
      increasing index order; [Kokkos::parallel_reduce] takes the schedule
      (the chunks handed to the workers) as an argument. *)

From Stdlib Require Import Reals Lra Lia ZArith List Bool String Ascii FinFun.
From Stdlib Require Import FunctionalExtensionality Permutation.
Import ListNotations.

Open Scope R_scope.

(** ** Comparisons on doubles, as booleans *)

Definition Rleb (a b : R) : bool := if Rle_dec a b then true else false.
Definition Rltb (a b : R) : bool := if Rlt_dec a b then true else false.
Definition Rgeb (a b : R) : bool := Rleb b a.
Definition Rgtb (a b : R) : bool := Rltb b a.
Definition Rneb (a b : R) : bool := if Req_dec_T a b then false else true.

(** Case split on every comparison that occurs in the goal. *)
Ltac rcases :=
  unfold Rgeb, Rgtb, Rleb, Rltb, Rneb in *;
  repeat match goal with
         | |- context [Rle_dec ?a ?b] => destruct (Rle_dec a b)
         | |- context [Rlt_dec ?a ?b] => destruct (Rlt_dec a b)
         | |- context [Req_dec_T ?a ?b] => destruct (Req_dec_T a b)
         end;
  cbn [andb orb negb].

(** ** Constants of force_spme_cabana_neigh_impl.h *)

Definition PI : R := 3.141592653589793238462643.
Definition PI_SQRT : R := 1.772453850905516.
Definition PI_SQ : R := PI * PI.
Definition PI_DIV_SQ : R := 1.0 / PI_SQ.

(** ** TPME::oneDspline and TPME::oneDsplinederiv *)

Definition oneDspline (x : R) : R :=
  if Rgeb x 0.0 && Rltb x 1.0 then
    (1.0 / 6.0) * x * x * x
  else if Rgeb x 1.0 && Rleb x 2.0 then
    - (1.0 / 2.0) * x * x * x + 2.0 * x * x - 2.0 * x + (2.0 / 3.0)
  else 0.0.

Definition oneDsplinederiv (origx : R) : R :=
  let x := 2.0 - Rabs origx in
  let forcedir := if Rltb origx 0.0 then -1.0 else 1.0 in
  if Rgeb x 0.0 && Rltb x 1.0 then
    (1.0 / 2.0) * x * x * forcedir
  else if Rgeb x 1.0 && Rleb x 2.0 then
    (- (3.0 / 2.0) * x * x + 4.0 * x - 2.0) * forcedir
  else 0.0.

(** The weight that spread_q and gather_f give to a mesh point at signed
    distance [u] (in mesh spacings) from the particle. *)
Definition spreading_weight (u : R) : R := oneDspline (2.0 - Rabs u).

(** ** erfc of libm

    [erfc x = 1 - 2/sqrt(pi) * integral of exp(-t^2) from 0 to x], with the
    real number pi of the library (not the literal [PI] above). *)

Definition gauss (t : R) : R := exp (- (t * t)).

Lemma gauss_continuity : continuity gauss.
Proof. unfold gauss. reg. Qed.

Lemma gauss_integrable (a b : R) : Riemann_integrable gauss a b.
Proof.
  destruct (Rle_dec a b).
  - apply continuity_implies_RiemannInt;
      [assumption | intros; apply gauss_continuity].
  - apply RiemannInt_P1.
    apply continuity_implies_RiemannInt;
      [lra | intros; apply gauss_continuity].
Qed.

Definition erf (x : R) : R :=
  2 / sqrt Rtrigo1.PI * RiemannInt (gauss_integrable 0 x).

Definition erfc (x : R) : R := 1 - erf x.

(** ** std::ceil and std::round, converted to int *)

Definition ceil (r : R) : Z := (- Int_part (- r))%Z.
Definition round (r : R) : Z :=
  if Rleb 0 r then Int_part (r + 1 / 2) else (- Int_part (- r + 1 / 2))%Z.

(** ** Outcome of a kernel: a value, or a fault *)

Inductive fault : Type :=
| runtime_error (what : string)
| assertion_failed (what : string)
| division_by_zero.

Inductive outcome (A : Type) : Type :=
| Ok (a : A)
| Fault (e : fault).

Arguments Ok {A} a.
Arguments Fault {A} e.

(** Methods run on a mutable state [S]: they return the state they leave
    behind together with a value or the fault that stopped them. *)
Definition M (S A : Type) : Type := S -> S * outcome A.

Definition ret {S A : Type} (a : A) : M S A := fun s => (s, Ok a).

Definition throw {S A : Type} (e : fault) : M S A := fun s => (s, Fault e).

Definition bind {S A B : Type} (m : M S A) (k : A -> M S B) : M S B :=
  fun s =>
    match m s with
    | (s', Ok a) => k a s'
    | (s', Fault e) => (s', Fault e)
    end.

Definition get {S : Type} : M S S := fun s => (s, Ok s).

Definition modify {S : Type} (g : S -> S) : M S unit := fun s => (g s, Ok tt).

Notation "x <- m ;; k" := (bind m (fun x => k))
  (at level 61, m at next level, right associativity).
Notation "m ;; k" := (bind m (fun _ => k))
  (at level 61, right associativity).

(** Division of doubles, with the denominator checked.  At a zero
    denominator the double of the source is inf or NaN and the source runs
    on; the real numbers have no such value, and the run of the model ends
    there with [division_by_zero]. *)
Definition checked_div {S : Type} (a b : R) : M S R :=
  if Req_dec_T b 0 then throw division_by_zero else ret (a / b).

Notation "a /? b" := (checked_div a b) (at level 40, left associativity).

(** ** Loops *)

Definition zseq (lo : Z) (len : nat) : list Z :=
  map (fun i => (lo + Z.of_nat i)%Z) (seq 0 len).

(** [for (i = lo; i < hi; ++i)] *)
Definition range_lt (lo hi : Z) : list Z := zseq lo (Z.to_nat (hi - lo)).

(** [for (i = lo; i <= hi; ++i)] *)
Definition range_le (lo hi : Z) : list Z := zseq lo (Z.to_nat (hi - lo + 1)).

Definition for_each {S : Type} (l : list Z) (body : Z -> S -> S) (s : S) : S :=
  fold_left (fun s i => body i s) l s.

Fixpoint for_eachM {S : Type} (l : list Z) (body : Z -> M S unit) : M S unit :=
  match l with
  | [] => ret tt
  | i :: l' => body i ;; for_eachM l' body
  end.

(** ** Views and slices *)

Definition view1 := Z -> R.
Definition view2 := Z -> Z -> R.

Definition assign1 (v : view1) (i : Z) (a : R) : view1 :=
  fun j => if (j =? i)%Z then a else v j.

Definition assign2 (v : view2) (i d : Z) (a : R) : view2 :=
  fun j e => if (j =? i)%Z && (e =? d)%Z then a else v j e.

(** [Kokkos::atomic_add( &v( i ), a )] *)
Definition atomic_add1 (v : view1) (i : Z) (a : R) : view1 :=
  assign1 v i (v i + a).

Definition atomic_add2 (v : view2) (i d : Z) (a : R) : view2 :=
  assign2 v i d (v i d + a).

(** ** The particle system (the fields of [System] the kernels read)

    [x], [f], [q], [p] are the Positions, Forces, Charges and Potentials
    slices of [system->xvf]. *)

Record System : Type := mkSystem {
  N : Z;
  N_local : Z;
  N_max : Z;
  domain_x : R;
  domain_y : R;
  domain_z : R;
  x : view2;
  f : view2;
  q : view1;
  p : view1
}.

Definition set_p (s : System) (p' : view1) : System :=
  mkSystem (N s) (N_local s) (N_max s) (domain_x s) (domain_y s) (domain_z s)
           (x s) (f s) (q s) p'.

Definition set_f (s : System) (f' : view2) : System :=
  mkSystem (N s) (N_local s) (N_max s) (domain_x s) (domain_y s) (domain_z s)
           (x s) f' (q s) (p s).

(** [Cabana::NeighborList<t_neighbor>] *)
Record NeighborList : Type := mkNeighborList {
  numNeighbor : Z -> Z;
  getNeighbor : Z -> Z -> Z
}.

(** ** atof, on plain decimal numerals

    The C library function restricted to an optional sign, digits, and an
    optional fraction (no leading blanks, exponent, hexadecimal, inf or nan);
    what follows the numeral is ignored, and no numeral gives 0. *)

Definition digit_of (c : ascii) : option nat :=
  let n := nat_of_ascii c in
  if (48 <=? n)%nat && (n <=? 57)%nat then Some (n - 48)%nat else None.

Fixpoint atof_fraction (s : string) (scale acc : R) : R :=
  match s with
  | String c s' =>
      match digit_of c with
      | Some d => atof_fraction s' (scale / 10) (acc + INR d * (scale / 10))
      | None => acc
      end
  | EmptyString => acc
  end.

Fixpoint atof_digits (s : string) (acc : R) : R :=
  match s with
  | String c s' =>
      match digit_of c with
      | Some d => atof_digits s' (acc * 10 + INR d)
      | None => if Ascii.eqb c "."%char then atof_fraction s' 1 acc else acc
      end
  | EmptyString => acc
  end.

Definition atof (s : string) : R :=
  match s with
  | String c s' =>
      if Ascii.eqb c "-"%char then - atof_digits s' 0
      else if Ascii.eqb c "+"%char then atof_digits s' 0
      else atof_digits s 0
  | EmptyString => 0
  end.

(** * ForceEwald: the direct Ewald solver *)

Module ForceEwald.

(** The members of the solver that the kernels read. *)
Record t : Type := mk {
  half_neigh : bool;
  neigh_cut : R;
  neigh_list : NeighborList;
  _alpha : R;
  _r_max : R;
  _eps_r : R;
  _k_max : R
}.

(** [ForceEwald::init_coeff]: the three values are parsed into locals of the
    function; no member is assigned. *)
Definition init_coeff (this : t) (neigh_cut_ : R) (args : list string) : t :=
  let alpha := atof (nth 3 args EmptyString) in
  let rmax := atof (nth 4 args EmptyString) in
  let kmax := atof (nth 5 args EmptyString) in
  this.

(** ** The stages of [ForceEwald::compute] *)

(** init_parameters *)
Definition init_parameters (idx : Z) (s : System) : System :=
  let s := set_p s (assign1 (p s) idx 0.0) in
  let s := set_f s (assign2 (f s) idx 0 0.0) in
  let s := set_f s (assign2 (f s) idx 1 0.0) in
  set_f s (assign2 (f s) idx 2 0.0).

(** Number of k-vectors the view is allocated for. *)
Definition n_kvec (k_int : Z) : Z :=
  ((2 * k_int + 1) * (2 * k_int) * (2 * k_int + 1))%Z.

(** Index in the contribution array, as computed in the partial-sum pass. *)
Definition kidx_partial_sums (k_int kx ky kz : Z) : Z :=
  ((kz + k_int) * (2 * k_int + 1) * (2 * k_int + 1) * (2 * k_int + 1) +
   (ky + k_int) * (2 * k_int + 1) + (kx + k_int))%Z.

(** Index in the contribution array, as computed in the k-space pass. *)
Definition kidx_kspace_potential (k_int kx ky kz : Z) : Z :=
  ((kz + k_int) * (2 * k_int + 1) * (2 * k_int + 1) +
   (ky + k_int) * (2 * k_int + 1) + (kx + k_int))%Z.

(** Innermost body of partial_sums, for particle [idx] and one (kz, ky, kx). *)
Definition partial_sums_body (k_int : Z) (lx ly lz : R) (x : view2) (q : view1)
    (idx kz ky kx : Z) (U_trigonometric : view1) : view1 :=
  let qi := q idx in
  let _kz := 2.0 * PI / lz * IZR kz in
  let _ky := 2.0 * PI / ly * IZR ky in
  if (kx =? 0)%Z && (ky =? 0)%Z && (kz =? 0)%Z then U_trigonometric
  else
    let kidx := kidx_partial_sums k_int kx ky kz in
    let _kx := 2.0 * PI / lx * IZR kx in
    let kr := _kz * x idx 0%Z + _ky * x idx 1%Z + _kz * x idx 2%Z in
    let U_trigonometric :=
      atomic_add1 U_trigonometric (2 * kidx) (qi * cos kr) in
    atomic_add1 U_trigonometric (2 * kidx + 1) (qi * sin kr).

Definition partial_sums (k_int : Z) (lx ly lz : R) (x : view2) (q : view1)
    (idx : Z) (U_trigonometric : view1) : view1 :=
  for_each (range_le (- k_int) k_int) (fun kz U =>
    for_each (range_le (- k_int) k_int) (fun ky U =>
      for_each (range_le (- k_int) k_int) (fun kx U =>
        partial_sums_body k_int lx ly lz x q idx kz ky kx U) U) U)
    U_trigonometric.

(** Innermost body of kspace_potential. *)
Definition kspace_potential_body (k_int : Z) (lx ly lz alpha : R)
    (U_trigonometric : view1) (idx kz ky kx : Z) (s : System) : System :=
  let coeff := 4.0 * PI / (lx * ly * lz) in
  let qi := q s idx in
  let k2 := 2.0 * PI / lz * IZR kz in
  let k1 := 2.0 * PI / ly * IZR ky in
  if (kx =? 0)%Z && (ky =? 0)%Z && (kz =? 0)%Z then s
  else
    let kidx := kidx_kspace_potential k_int kx ky kz in
    let k0 := 2.0 * PI / lx * IZR kx in
    let k := fun dim : Z =>
               if (dim =? 0)%Z then k0 else if (dim =? 1)%Z then k1 else k2 in
    let kk := k0 * k0 + k1 * k1 + k2 * k2 in
    let kr := k0 * x s idx 0%Z + k1 * x s idx 1%Z + k2 * x s idx 2%Z in
    let k_coeff := exp (- kk / (4 * alpha * alpha)) / kk in
    let contrib :=
      coeff * k_coeff *
      (U_trigonometric (2 * kidx)%Z * U_trigonometric (2 * kidx)%Z +
       U_trigonometric (2 * kidx + 1)%Z * U_trigonometric (2 * kidx + 1)%Z) in
    let s := set_p s (atomic_add1 (p s) idx contrib) in
    for_each (range_lt 0 3) (fun dim s =>
      set_f s (atomic_add2 (f s) idx dim
                 (k_coeff * 2.0 * qi * k dim *
                  (U_trigonometric (2 * kidx + 1)%Z * cos kr -
                   U_trigonometric (2 * kidx)%Z * sin kr)))) s.

Definition kspace_potential (k_int : Z) (lx ly lz alpha : R)
    (U_trigonometric : view1) (idx : Z) (s : System) : System :=
  for_each (range_le (- k_int) k_int) (fun kz s =>
    for_each (range_le (- k_int) k_int) (fun ky s =>
      for_each (range_le (- k_int) k_int) (fun kx s =>
        kspace_potential_body k_int lx ly lz alpha U_trigonometric
                              idx kz ky kx s) s) s) s.

(** Body of the neighbor loop of force_contribs: the pair (idx, j). *)
Definition force_contribs_pair (alpha : R) (idx j : Z) : M System unit :=
  s <- get ;;
  let rx := x s idx 0%Z in
  let ry := x s idx 1%Z in
  let rz := x s idx 2%Z in
  let qi := q s idx in
  let dx := x s j 0%Z - rx in
  let dy := x s j 1%Z - ry in
  let dz := x s j 2%Z - rz in
  let d := sqrt (dx * dx + dy * dy + dz * dz) in
  let qj := q s j in
  (* potential computation *)
  contrib <- (0.5 * qi * qj * erfc (alpha * d)) /? d ;;
  modify (fun s => set_p s (atomic_add1 (p s) idx contrib)) ;;
  modify (fun s => set_p s (atomic_add1 (p s) j contrib)) ;;
  (* force computation *)
  f_fact <- (qi * qj *
             (2.0 * sqrt (alpha / PI) * exp (- alpha * d * d) +
              erfc (sqrt alpha * d))) /? (d * d) ;;
  modify (fun s => set_f s (atomic_add2 (f s) idx 0 (f_fact * dx))) ;;
  modify (fun s => set_f s (atomic_add2 (f s) idx 1 (f_fact * dy))) ;;
  modify (fun s => set_f s (atomic_add2 (f s) idx 2 (f_fact * dz))) ;;
  modify (fun s => set_f s (atomic_add2 (f s) j 0 (- f_fact * dx))) ;;
  modify (fun s => set_f s (atomic_add2 (f s) j 1 (- f_fact * dy))) ;;
  modify (fun s => set_f s (atomic_add2 (f s) j 2 (- f_fact * dz))).

Definition force_contribs (alpha : R) (neigh_list : NeighborList) (idx : Z)
  : M System unit :=
  let num_n := numNeighbor neigh_list idx in
  for_eachM (range_lt 0 num_n) (fun ij =>
    let j := getNeighbor neigh_list idx ij in
    force_contribs_pair alpha idx j).

(** calc_Uself *)
Definition calc_Uself (alpha : R) (idx : Z) (s : System) : System :=
  set_p s (assign1 (p s) idx (p s idx + - alpha / PI_SQRT * q s idx * q s idx)).

Section Compute.

(** [MPI_Allreduce( MPI_IN_PLACE, buf, count, MPI_DOUBLE, MPI_SUM, comm )]:
    the buffer after the reduction, given the count and the local buffer. *)
Variable MPI_Allreduce_sum : Z -> view1 -> view1.

(** Content of the memory that [U_trigonometric] is allocated in. *)
Variable memory : view1.

(** [ForceEwald::compute] *)
Definition compute (this : t) : M System unit :=
  system <- get ;;
  let N_local := N_local system in
  let N_max := N_max system in
  let alpha := _alpha this in
  let r_max := _r_max this in
  let eps_r := _eps_r this in
  let k_max := _k_max this in
  (* initialize potential and force to zero *)
  modify (for_each (range_lt 0 N_max) init_parameters) ;;
  (* determine number of required sine / cosine values *)
  let k_int := (ceil k_max + 1)%Z in
  let n_kvec := n_kvec k_int in
  let U_trigonometric :=
    for_each (range_lt 0 (2 * n_kvec))
             (fun idx U => assign1 U idx 0.0) memory in
  let lx := domain_x system in
  let ly := domain_y system in
  let lz := domain_z system in
  (* compute partial sums *)
  let U_trigonometric :=
    for_each (range_lt 0 N_max)
             (partial_sums k_int lx ly lz (x system) (q system))
             U_trigonometric in
  (* reduce the partial results *)
  let U_trigonometric := MPI_Allreduce_sum (2 * n_kvec) U_trigonometric in
  modify (for_each (range_lt 0 N_max)
                   (kspace_potential k_int lx ly lz alpha U_trigonometric)) ;;
  (* real-space contribution *)
  for_eachM (range_lt 0 N_local) (force_contribs alpha (neigh_list this)) ;;
  (* check if the particle array was reduced to the correct size again *)
  (if (N_max =? N_local)%Z then ret tt
   else throw (assertion_failed "N_max == N_local")) ;;
  (* self-energy contribution *)
  modify (for_each (range_lt 0 N_max) (calc_Uself alpha)).

End Compute.

(** [ForceEwald::compute_energy] *)
Definition compute_energy (this : t) (system : System) : R := 0.0.

(** [ForceEwald::name] *)
Definition name : string := "Ewald".

End ForceEwald.

(** * ForceSPME / TPME: the smooth particle mesh Ewald solver *)

(** The mesh container: Position and Charge slices of the [ParticleList]. *)
Record Mesh : Type := mkMesh {
  mesh_size : Z;
  meshr : view2;
  meshq : view1
}.

Definition set_meshq (m : Mesh) (meshq' : view1) : Mesh :=
  mkMesh (mesh_size m) (meshr m) meshq'.

(** [fftw_complex *]: real and imaginary part per index. *)
Definition cview := Z -> R * R.

Definition cassign (v : cview) (i : Z) (c : R * R) : cview :=
  fun j => if (j =? i)%Z then c else v j.

(** A boolean used as a factor or a summand. *)
Definition b2r (b : bool) : R := if b then 1 else 0.

(** [Kokkos::parallel_reduce] over the chunks of a schedule: every worker
    starts from the accumulator 0 and runs its chunk in order; the results
    of the workers are added. *)
Fixpoint reduce_chunk {S : Type} (body : Z -> R -> M S R) (chunk : list Z)
    (acc : R) : M S R :=
  match chunk with
  | [] => ret acc
  | i :: chunk' => acc' <- body i acc ;; reduce_chunk body chunk' acc'
  end.

Fixpoint parallel_reduce {S : Type} (schedule : list (list Z))
    (body : Z -> R -> M S R) : M S R :=
  match schedule with
  | [] => ret 0.0
  | chunk :: schedule' =>
      part <- reduce_chunk body chunk 0.0 ;;
      rest <- parallel_reduce schedule' body ;;
      ret (part + rest)
  end.

(** The schedule of the serial execution space: one worker, whole range. *)
Definition serial (n : Z) : list (list Z) := [range_lt 0 n].

Module ForceSPME.

Record t : Type := mk {
  half_neigh : bool;
  _alpha : R;
  _r_max : R;
  _k_max : R;
  _eps_r : R
}.

Definition set_alpha (this : t) (v : R) : t :=
  mk (half_neigh this) v (_r_max this) (_k_max this) (_eps_r this).
Definition set_r_max (this : t) (v : R) : t :=
  mk (half_neigh this) (_alpha this) v (_k_max this) (_eps_r this).
Definition set_k_max (this : t) (v : R) : t :=
  mk (half_neigh this) (_alpha this) (_r_max this) v (_eps_r this).
Definition set_half_neigh (this : t) (b : bool) : t :=
  mk b (_alpha this) (_r_max this) (_k_max this) (_eps_r this).

(** Modelled from the spec: [lx], [ly], [lz] are used by [tune] and by
    [TPME::compute] without a declaration.  They are the edges of the domain
    ("cubic domain of edge L"), as [ForceEwald::compute] reads them from the
    system. *)
Definition lx (system : System) : R := domain_x system.
Definition ly (system : System) : R := domain_y system.
Definition lz (system : System) : R := domain_z system.

(** Modelled from the spec: [r] and [particles] are used by [TPME::compute]
    without a declaration.  [r] is the particle position ("position (3
    floating-point coordinates)"), the Positions slice [x]; the size of
    [particles] is the number of particles [n_max] of the function. *)
Definition r (system : System) : view2 := x system.
Definition particles_size (system : System) : Z := N system.

(** [pow] of libm, on a positive base. *)
Definition pow (b e : R) : R := Rpower b e.

Definition EXECUTION_TIME_RATIO_K_R : R := 2.0.

(** [ForceSPME::tune].  The state is the solver; the system is only read. *)
Definition tune (accuracy : R) (system : System) : M t unit :=
  if Rneb (domain_x system) (domain_y system)
     || Rneb (domain_x system) (domain_z system)
  then throw (runtime_error "SPME needs symmetric system size for now.")
  else
    let lx := lx system in
    let N := IZR (N system) in
    let p := - ln accuracy in
    modify (fun this => set_alpha this
      (pow EXECUTION_TIME_RATIO_K_R (1.0 / 6.0) * sqrt (p / PI) *
       pow N (1.0 / 6.0) / lx)) ;;
    modify (fun this => set_k_max this
      (pow EXECUTION_TIME_RATIO_K_R (1.0 / 6.0) * sqrt (p / PI) *
       pow N (1.0 / 6.0) / lx * 2.0 * PI)) ;;
    modify (fun this => set_r_max this
      (pow EXECUTION_TIME_RATIO_K_R (1.0 / 6.0) * sqrt (p / PI) /
       pow N (1.0 / 6.0) * lx)) ;;
    modify (fun this => set_alpha this (sqrt p / _r_max this)) ;;
    modify (fun this => set_k_max this (2.0 * sqrt p * _alpha this)).

(** [ForceSPME( double accuracy, System* system, bool half_neigh_ )] *)
Definition construct_tuned (accuracy : R) (system : System) (half_neigh_ : bool)
  : M t unit :=
  modify (fun this => set_half_neigh this half_neigh_) ;;
  (if half_neigh_ then ret tt
   else throw (assertion_failed "half_neigh == true")) ;;
  modify (fun this => set_r_max this 0.0) ;;
  tune accuracy system.

(** [ForceSPME( double alpha, double r_max, bool half_neigh_ )] *)
Definition construct (alpha r_max : R) (half_neigh_ : bool) : M t unit :=
  modify (fun this => set_half_neigh this half_neigh_) ;;
  (if half_neigh_ then ret tt
   else throw (assertion_failed "half_neigh == true")) ;;
  modify (fun this => set_r_max this r_max) ;;
  modify (fun this => set_alpha this alpha).

(** [TPME::oneDeuler] *)
Definition oneDeuler (k meshwidth : Z) : R :=
  let term (l : Z) (acc : R * R) : R * R :=
    (fst acc +
       oneDspline (Rmin (4.0 - (IZR l + 1.0)) (IZR l + 1.0)) *
       cos (2.0 * PI * IZR k * IZR l / IZR meshwidth),
     snd acc +
       oneDspline (Rmin (4.0 - (IZR l + 1.0)) (IZR l + 1.0)) *
       sin (2.0 * PI * IZR k * IZR l / IZR meshwidth)) in
  let denom := for_each (range_lt 0 3) term (0.0, 0.0) in
  let denomreal := fst denom in
  let denomimag := snd denom in
  let numreal := cos (2.0 * PI * 3.0 * IZR k / IZR meshwidth) in
  let numimag := sin (2.0 * PI * 3.0 * IZR k / IZR meshwidth) in
  (numreal * numreal + numimag * numimag) /
  (denomreal * denomreal + denomimag * denomimag).

(** ** The stages of [TPME::compute]

    The state of the call is the particle system together with the mesh. *)

Definition World : Type := (System * Mesh)%type.

Definition on_system (g : System -> System) : M World unit :=
  modify (fun w : World => (g (fst w), snd w)).

Definition on_mesh (g : Mesh -> Mesh) : M World unit :=
  modify (fun w : World => (fst w, g (snd w))).

(** init_p *)
Definition init_p (idx : Z) (s : System) : System :=
  let s := set_p s (assign1 (p s) idx 0.0) in
  let s := set_f s (assign2 (f s) idx 0 0.0) in
  let s := set_f s (assign2 (f s) idx 1 0.0) in
  set_f s (assign2 (f s) idx 2 0.0).

(** Body of the px loop of the real-space all-pairs sum, for particles
    [i], [j] and the periodic image (px, py, pz); the value is [contrib]. *)
Definition realspace_image (alpha r_max lx ly lz : R) (i j pz py px : Z)
  : M World R :=
  w <- get ;;
  let s := fst w in
  let dx := r s i 0%Z - (r s j 0%Z + IZR px * lx) in
  let dy := r s i 1%Z - (r s j 1%Z + IZR py * ly) in
  let dz := r s i 2%Z - (r s j 2%Z + IZR pz * lz) in
  let d := sqrt (dx * dx + dy * dy + dz * dz) in
  contrib <- (if Rleb d r_max && Rgeb (Rabs d) 1e-12
              then (0.5 * q s i * q s j * erfc (alpha * d)) /? d
              else ret 0.0) ;;
  f_fact <- (b2r (Rleb d r_max && Rgeb (Rabs d) 1e-12) *
             q s i * q s j *
             (2.0 * sqrt (alpha / PI) * exp (- alpha * d * d) +
              erfc (sqrt alpha * d))) /?
            (d * d + b2r (Rleb (Rabs d) 1e-12)) ;;
  on_system (fun s => set_f s (atomic_add2 (f s) i 0 (f_fact * dx))) ;;
  on_system (fun s => set_f s (atomic_add2 (f s) i 1 (f_fact * dy))) ;;
  on_system (fun s => set_f s (atomic_add2 (f s) i 2 (f_fact * dz))) ;;
  ret contrib.

(** Body of the inner reduction: particle [j] against particle [i], over
    all periodic images; [Ur_j] is the accumulator of the worker. *)
Definition realspace_pair (alpha r_max lx ly lz : R) (per_shells i j : Z)
    (Ur_j : R) : M World R :=
  reduce_chunk (fun pz Ur_j =>
    reduce_chunk (fun py Ur_j =>
      reduce_chunk (fun px Ur_j =>
        contrib <- realspace_image alpha r_max lx ly lz i j pz py px ;;
        ret (Ur_j + contrib))
        (range_le (- per_shells) per_shells) Ur_j)
      (range_le (- per_shells) per_shells) Ur_j)
    (range_le (- per_shells) per_shells) Ur_j.

(** [xdist] of spread_q: distance along one axis to the nearest of the
    particle and its two images at +1.0 and -1.0. *)
Definition spread_dist (m r : R) : R :=
  Rmin (Rmin (Rabs (m - r)) (Rabs (m - (r + 1.0)))) (Rabs (m - (r - 1.0))).

(** Body of the particle loop of spread_q, for mesh point [idx]. *)
Definition spread_q_body (spacing : R) (s : System) (idx pidx : Z) (m : Mesh)
  : Mesh :=
  let xdist := spread_dist (meshr m idx 0%Z) (r s pidx 0%Z) in
  let ydist := spread_dist (meshr m idx 1%Z) (r s pidx 1%Z) in
  let zdist := spread_dist (meshr m idx 2%Z) (r s pidx 2%Z) in
  if Rleb xdist (2.0 * spacing) && Rleb ydist (2.0 * spacing)
     && Rleb zdist (2.0 * spacing)
  then
    set_meshq m (assign1 (meshq m) idx
      (meshq m idx +
       q s pidx * oneDspline (2.0 - xdist / spacing) *
       oneDspline (2.0 - ydist / spacing) *
       oneDspline (2.0 - zdist / spacing)))
  else m.

Definition spread_q (spacing : R) (s : System) (idx : Z) (m : Mesh) : Mesh :=
  for_each (range_lt 0 (particles_size s)) (spread_q_body spacing s idx) m.

(** Body of the kz loop of BC_functor. *)
Definition BC_functor_body (meshwidth : Z) (alpha lx ly lz : R) (kx ky kz : Z)
    (BC : cview) : cview :=
  let idx := (kx + ky * meshwidth + kz * meshwidth * meshwidth)%Z in
  if (kx + ky + kz >? 0)%Z then
    let mx := if Rgtb (IZR kx) (IZR meshwidth / 2.0)
              then (kx - meshwidth)%Z else kx in
    let my := if Rgtb (IZR ky) (IZR meshwidth / 2.0)
              then (ky - meshwidth)%Z else ky in
    let mz := if Rgtb (IZR kz) (IZR meshwidth / 2.0)
              then (kz - meshwidth)%Z else kz in
    let m2 := IZR (mx * mx + my * my + mz * mz) in
    cassign BC idx
      (oneDeuler kx meshwidth * oneDeuler ky meshwidth *
       oneDeuler kz meshwidth *
       exp (- PI * PI * m2 / (alpha * alpha)) / (PI * lx * ly * lz * m2),
       0.0)
  else cassign BC idx (0.0, 0.0).

Definition BC_functor (meshwidth : Z) (alpha lx ly lz : R) (kx : Z) (BC : cview)
  : cview :=
  for_each (range_lt 0 meshwidth) (fun ky BC =>
    for_each (range_lt 0 meshwidth) (fun kz BC =>
      BC_functor_body meshwidth alpha lx ly lz kx ky kz BC) BC) BC.

(** copy_charge *)
Definition copy_charge (meshq : view1) (idx : Z) (Qr : cview) : cview :=
  cassign Qr idx (meshq idx, 0.0).

(** update_q *)
Definition update_q (BC : cview) (idx : Z) (Qktest : cview) : cview :=
  cassign Qktest idx
    (fst (Qktest idx) * fst (BC idx), snd (Qktest idx) * fst (BC idx)).

(** Body of the self-energy reduction; [Uself_part] is the accumulator of
    the worker. *)
Definition self_energy_body (alpha : R) (idx : Z) (Uself_part : R) : M World R :=
  w <- get ;;
  let Uself_part :=
    Uself_part + - alpha / PI_SQRT * q (fst w) idx * q (fst w) idx in
  on_system (fun s => set_p s (assign1 (p s) idx (p s idx + Uself_part))) ;;
  ret Uself_part.

(** [xdist] of gather_f: signed distance along one axis from the mesh point
    to the nearest of the particle and its two images at +1.0 and -1.0. *)
Definition gather_dist (m r : R) : R :=
  let closestpart := r in
  let xdist := closestpart - m in
  let closestpart :=
    if Rgtb (Rabs xdist) (Rabs (m - (r + 1.0))) then r + 1.0 else closestpart in
  let closestpart :=
    if Rgtb (Rabs xdist) (Rabs (m - (r - 1.0))) then r - 1.0 else closestpart in
  closestpart - m.

(** Body of the mesh loop of gather_f, for particle [pidx]. *)
Definition gather_f_body (spacing : R) (m : Mesh) (Qktest : cview)
    (pidx idx : Z) (s : System) : System :=
  let xdist := gather_dist (meshr m idx 0%Z) (r s pidx 0%Z) in
  let ydist := gather_dist (meshr m idx 1%Z) (r s pidx 1%Z) in
  let zdist := gather_dist (meshr m idx 2%Z) (r s pidx 2%Z) in
  if Rleb (Rabs xdist) (2.0 * spacing) && Rleb (Rabs ydist) (2.0 * spacing)
     && Rleb (Rabs zdist) (2.0 * spacing)
  then
    let s := set_f s (assign2 (f s) pidx 0
      (f s pidx 0%Z +
       q s pidx * oneDsplinederiv (xdist / spacing) *
       oneDspline (2.0 - Rabs ydist / spacing) *
       oneDspline (2.0 - Rabs zdist / spacing) * fst (Qktest idx))) in
    let s := set_f s (assign2 (f s) pidx 1
      (f s pidx 1%Z +
       q s pidx * oneDspline (2.0 - Rabs xdist / spacing) *
       oneDsplinederiv (ydist / spacing) *
       oneDspline (2.0 - Rabs zdist / spacing) * fst (Qktest idx))) in
    set_f s (assign2 (f s) pidx 2
      (f s pidx 2%Z +
       q s pidx * oneDspline (2.0 - Rabs xdist / spacing) *
       oneDspline (2.0 - Rabs ydist / spacing) *
       oneDsplinederiv (zdist / spacing) * fst (Qktest idx)))
  else s.

Definition gather_f (spacing : R) (m : Mesh) (Qktest : cview) (pidx : Z)
    (s : System) : System :=
  for_each (range_lt 0 (mesh_size m)) (gather_f_body spacing m Qktest pidx) s.

Section Compute.

(** The FFT backend: [fftw_plan_dft_3d] with FFTW_BACKWARD, resp.
    FFTW_FORWARD, followed by [fftw_execute], on a cubic mesh of the given
    width. *)
Variable fft_backward : Z -> cview -> cview.
Variable fft_forward : Z -> cview -> cview.

(** Content of a fresh [fftw_malloc] block, by the name of the pointer. *)
Variable fftw_malloc : string -> cview.

(** [Udip] is added to the energy and not declared in the function. *)
Variable Udip : R.

(** How a range of the given size is split among the workers. *)
Variable schedule : Z -> list (list Z).

(** [TPME::compute] (host branch of the FFT code). *)
Definition compute (this : t) : M World R :=
  w <- get ;;
  let system := fst w in
  (* For now, force symmetry *)
  if Rneb (domain_x system) (domain_y system)
     || Rneb (domain_x system) (domain_z system)
  then throw (runtime_error "SPME needs symmetric system size for now.")
  else
    let lx := lx system in
    let ly := ly system in
    let lz := lz system in
    (* Number of particles *)
    let n_max := N system in
    (* Number of mesh points *)
    let meshsize := mesh_size (snd w) in
    (* Set the potential of each particle to zero *)
    on_system (for_each (range_lt 0 n_max) init_p) ;;
    let alpha := _alpha this in
    let r_max := _r_max this in
    let eps_r := _eps_r this in
    (* computation real-space contribution: plain all to all comparison *)
    Ur <- parallel_reduce (schedule n_max) (fun i Ur_i =>
      if (i <? n_max)%Z then
        ratio <- r_max /? lx ;;
        let per_shells := ceil ratio in
        Ur_inner <- parallel_reduce (schedule n_max)
                      (realspace_pair alpha r_max lx ly lz per_shells i) ;;
        on_system (fun s => set_p s (assign1 (p s) i (p s i + Ur_inner))) ;;
        ret (Ur_i + Ur_inner)
      else ret Ur_i) ;;
    (* First, spread the charges onto the mesh *)
    w <- get ;;
    let spacing := meshr (snd w) 1%Z 0%Z - meshr (snd w) 0%Z 0%Z in
    on_mesh (for_each (range_lt 0 meshsize) (spread_q spacing (fst w))) ;;
    let meshwidth := round (pow (IZR meshsize) (1.0 / 3.0)) in
    let BC :=
      for_each (range_lt 0 meshwidth) (BC_functor meshwidth alpha lx ly lz)
               (fftw_malloc "BC") in
    (* Copy charges into real input array *)
    w <- get ;;
    let Qr :=
      for_each (range_lt 0 meshsize) (copy_charge (meshq (snd w)))
               (fftw_malloc "Qr") in
    (* IFFT on Q *)
    let Qktest := fft_backward meshwidth Qr in
    (* update the energy *)
    Uk <- parallel_reduce (schedule meshsize) (fun idx Uk_part =>
      ret (Uk_part +
           fst (BC idx) * (fst (Qktest idx) * fst (Qktest idx) +
                           snd (Qktest idx) * snd (Qktest idx)))) ;;
    (* update Q for later force calcs *)
    let Qktest := for_each (range_lt 0 n_max) (update_q BC) Qktest in
    (* FFT forward on altered Q array *)
    let Qktest := fft_forward meshwidth Qktest in
    let Uk := Uk * 0.5 in
    (* computation of self-energy contribution *)
    Uself <- parallel_reduce (schedule n_max) (self_energy_body alpha) ;;
    let total_energy := Ur + Uk + Uself + Udip in
    (* Now, compute forces on each particle *)
    on_system (for_each (range_lt 0 n_max) (gather_f spacing (snd w) Qktest)) ;;
    ret total_energy.

End Compute.

End ForceSPME.

(** * Reference quantities and sample inputs used by the theorems *)

(** The domain test at the head of [tune] and of [compute]. *)
Definition noncubic (system : System) : bool :=
  Rneb (domain_x system) (domain_y system)
  || Rneb (domain_x system) (domain_z system).

Definition cube10 : System :=
  mkSystem 1000 1000 1000 10 10 10
           (fun _ _ => 0) (fun _ _ => 0) (fun _ => 0) (fun _ => 0).

Definition solver0 : ForceSPME.t := ForceSPME.mk true 0 0 0 1.

Definition brick : System :=
  mkSystem 2 2 2 1 2 3
           (fun _ _ => 0) (fun _ _ => 7) (fun _ => 1) (fun _ => 7).

Definition mesh0 : Mesh := mkMesh 0 (fun _ _ => 0) (fun _ => 0).

(** The dot product of the wave-vector [2 PI (kx/lx, ky/ly, kz/lz)] with the
    position of particle [idx], as the specification of the partial-sum pass
    words it. *)
Definition wave_vector_dot_position (lx ly lz : R) (x : view2)
    (idx kx ky kz : Z) : R :=
  2.0 * PI / lx * IZR kx * x idx 0%Z +
  2.0 * PI / ly * IZR ky * x idx 1%Z +
  2.0 * PI / lz * IZR kz * x idx 2%Z.

(** One particle of charge 1 at (1, 0, 0). *)
Definition x_unit : view2 := fun _ d => if (d =? 0)%Z then 1 else 0.
Definition q_one : view1 := fun _ => 1.
Definition zero_view : view1 := fun _ => 0.

(** Two particles of charge 1, potentials and forces at 0. *)
Definition two_unit_charges : System :=
  mkSystem 2 2 2 1 1 1 (fun _ _ => 0) (fun _ _ => 0) (fun _ => 1) (fun _ => 0).

(** Distance of the pair (i, j), as force_contribs computes it. *)
Definition pair_distance (s : System) (i j : Z) : R :=
  let dx := x s j 0%Z - x s i 0%Z in
  let dy := x s j 1%Z - x s i 1%Z in
  let dz := x s j 2%Z - x s i 2%Z in
  sqrt (dx * dx + dy * dy + dz * dz).

(** The pairwise screened-Coulomb potential of the specification, as a
    function of the separation [r]. *)
Definition screened_coulomb (qi qj alpha : R) (r : R) : R :=
  qi * qj * erfc (alpha * r) / r.

(** [contrib] and [f_fact] of force_contribs at separation [d]. *)
Definition ewald_contrib (qi qj alpha d : R) : R :=
  0.5 * qi * qj * erfc (alpha * d) / d.

Definition ewald_f_fact (qi qj alpha d : R) : R :=
  qi * qj *
  (2.0 * sqrt (alpha / PI) * exp (- alpha * d * d) + erfc (sqrt alpha * d)) /
  (d * d).

(** Euclidean norm of the force on a particle. *)
Definition force_norm (s : System) (i : Z) : R :=
  sqrt (f s i 0%Z * f s i 0%Z + f s i 1%Z * f s i 1%Z + f s i 2%Z * f s i 2%Z).

(** Two particles of charge 1 on the x axis, at distance [d]; particle 1 is
    the only neighbor of particle 0. *)
Definition pair_on_axis (d : R) : System :=
  mkSystem 2 2 2 10 10 10
           (fun i e => if (i =? 1)%Z && (e =? 0)%Z then d else 0)
           (fun _ _ => 0) (fun _ => 1) (fun _ => 0).

Definition half_list_01 : NeighborList :=
  mkNeighborList (fun i => if (i =? 0)%Z then 1%Z else 0%Z) (fun _ _ => 1%Z).

(** Distance of particle [i] to the periodic image (px, py, pz) of particle
    [j], as the real-space loop of [TPME::compute] computes it. *)
Definition image_distance (s : System) (lx ly lz : R) (i j pz py px : Z) : R :=
  let dx := ForceSPME.r s i 0%Z - (ForceSPME.r s j 0%Z + IZR px * lx) in
  let dy := ForceSPME.r s i 1%Z - (ForceSPME.r s j 1%Z + IZR py * ly) in
  let dz := ForceSPME.r s i 2%Z - (ForceSPME.r s j 2%Z + IZR pz * lz) in
  sqrt (dx * dx + dy * dy + dz * dz).

(** Two systems with the same particle counts, domain, positions and
    charges. *)
Definition same_inputs (s1 s2 : System) : Prop :=
  N s1 = N s2 /\ N_local s1 = N_local s2 /\ N_max s1 = N_max s2 /\
  domain_x s1 = domain_x s2 /\ domain_y s1 = domain_y s2 /\
  domain_z s1 = domain_z s2 /\ x s1 = x s2 /\ q s1 = q s2.

(** ... whose potentials and forces agree on the particles in [P]. *)
Definition sim (P : Z -> Prop) (s1 s2 : System) : Prop :=
  same_inputs s1 s2 /\
  forall k, P k ->
    p s1 k = p s2 k /\ forall e, (0 <= e < 3)%Z -> f s1 k e = f s2 k e.

(** A method respects a relation between states when, run on two related
    states, it gives the same value or fault and leaves related states. *)
Definition respects {S A : Type} (Rel : S -> S -> Prop) (m : M S A) : Prop :=
  forall s1 s2, Rel s1 s2 ->
    snd (m s1) = snd (m s2) /\ Rel (fst (m s1)) (fst (m s2)).

(** Potential and the three force components of particle [k] are zero. *)
Definition zero_at (s : System) (k : Z) : Prop :=
  p s k = 0 /\ forall e, (0 <= e < 3)%Z -> f s k e = 0.

(** The system with other entry values in its Potentials and Forces
    slices. *)
Definition with_entry_values (s : System) (p' : view1) (f' : view2) : System :=
  set_f (set_p s p') f'.

(** The same relation on the state of [TPME::compute]: the meshes are
    equal. *)
Definition simW (P : Z -> Prop) (w1 w2 : ForceSPME.World) : Prop :=
  sim P (fst w1) (fst w2) /\ snd w1 = snd w2.

(** Sum of [g] over a list of indices. *)
Definition sum_over (l : list Z) (g : Z -> R) : R :=
  fold_right (fun i acc => g i + acc) 0 l.

(** Modelled from the spec: the builder of the mesh container is not among
    the sources.  The mesh is "a fixed-size 3D cubic lattice", "uniformly
    spaced": [M] points per axis at spacing [h] from the origin, no charge
    yet, point [ix + iy * M + iz * M * M] at [(ix h, iy h, iz h)], the
    index order of BC_functor. *)
Definition cubic_mesh (M : Z) (h : R) : Mesh :=
  mkMesh (M * (M * M))
         (fun idx d =>
            h * IZR (if (d =? 0)%Z then idx mod M
                     else if (d =? 1)%Z then (idx / M) mod M
                     else idx / M / M))
         (fun _ => 0).

Definition total_mesh_charge (m : Mesh) : R :=
  sum_over (range_lt 0 (mesh_size m)) (meshq m).

(** The charge-spreading stage of [TPME::compute]. *)
Definition spread_stage (s : System) (m : Mesh) : Mesh :=
  let spacing := meshr m 1%Z 0%Z - meshr m 0%Z 0%Z in
  for_each (range_lt 0 (mesh_size m)) (ForceSPME.spread_q spacing s) m.

(** Weight that spread_q gives, along one axis, to a mesh coordinate [m] for
    a particle coordinate [r]: the spline value when the test on the
    distance passes, nothing otherwise. *)
Definition axis_weight (spacing m r : R) : R :=
  if Rleb (ForceSPME.spread_dist m r) (2.0 * spacing)
  then oneDspline (2.0 - ForceSPME.spread_dist m r / spacing)
  else 0.

(** Sum of the weights of one axis over the [M] mesh coordinates. *)
Definition axis_weight_sum (M : Z) (h r : R) : R :=
  sum_over (range_lt 0 M) (fun i => axis_weight h (h * IZR i) r).

(** One particle of charge 1 at the centre (4,4,4) of a box of edge 8. *)
Definition central_particle : System :=
  mkSystem 1 1 1 8 8 8 (fun _ _ => 4) (fun _ _ => 0) (fun _ => 1) (fun _ => 0).

(** One particle of charge 1 at the centre of the unit box. *)
Definition unit_box_particle : System :=
  mkSystem 1 1 1 1 1 1 (fun _ _ => 1 / 2) (fun _ _ => 0) (fun _ => 1)
           (fun _ => 0).

(** What spread_q adds to mesh point [idx] for particle [pidx]: the charge
    times the three axis weights. *)
Definition spread_term (spacing : R) (s : System) (m : Mesh) (idx pidx : Z) : R :=
  q s pidx *
  axis_weight spacing (meshr m idx 0%Z) (x s pidx 0%Z) *
  axis_weight spacing (meshr m idx 1%Z) (x s pidx 1%Z) *
  axis_weight spacing (meshr m idx 2%Z) (x s pidx 2%Z).

(** A method keeps an invariant of the state. *)
Definition keeps {S A : Type} (Inv : S -> Prop) (m : M S A) : Prop :=
  forall s, Inv s -> Inv (fst (m s)).

(** A cubic polynomial, by its coefficients. *)
Definition cubic (a b c d : R) : R -> R :=
  fun u => a * u * u * u + b * u * u + c * u + d.

(** Potential and force of two systems agree on the particles below [n]. *)
Definition agree_below (n : Z) (s1 s2 : System) : Prop :=
  forall k, (0 <= k < n)%Z ->
    p s1 k = p s2 k /\ forall e, (0 <= e < 3)%Z -> f s1 k e = f s2 k e.


(** ** The C++ [int] *)

(** Largest value of a 32-bit [int]. *)
Definition INT_MAX : Z := 2147483647.

(** ** Quantities of the Ewald passes, named for the theorems on whole loops *)

(** [k[dim]], [k_coeff], [contrib] and the force term of one iteration
    (kz, ky, kx) of kspace_potential. *)
Definition kspace_k (lx ly lz : R) (kx ky kz dim : Z) : R :=
  if (dim =? 0)%Z then 2.0 * PI / lx * IZR kx
  else if (dim =? 1)%Z then 2.0 * PI / ly * IZR ky
  else 2.0 * PI / lz * IZR kz.

Definition kspace_k_coeff (lx ly lz alpha : R) (kx ky kz : Z) : R :=
  let kk := kspace_k lx ly lz kx ky kz 0 * kspace_k lx ly lz kx ky kz 0 +
            kspace_k lx ly lz kx ky kz 1 * kspace_k lx ly lz kx ky kz 1 +
            kspace_k lx ly lz kx ky kz 2 * kspace_k lx ly lz kx ky kz 2 in
  exp (- kk / (4 * alpha * alpha)) / kk.

Definition kspace_contrib (k_int : Z) (lx ly lz alpha : R) (U : view1)
    (kz ky kx : Z) : R :=
  if (kx =? 0)%Z && (ky =? 0)%Z && (kz =? 0)%Z then 0
  else
    let kidx := ForceEwald.kidx_kspace_potential k_int kx ky kz in
    4.0 * PI / (lx * ly * lz) * kspace_k_coeff lx ly lz alpha kx ky kz *
    (U (2 * kidx)%Z * U (2 * kidx)%Z + U (2 * kidx + 1)%Z * U (2 * kidx + 1)%Z).

Definition kspace_force (k_int : Z) (lx ly lz alpha : R) (U : view1)
    (x : view2) (q : view1) (idx dim kz ky kx : Z) : R :=
  if (kx =? 0)%Z && (ky =? 0)%Z && (kz =? 0)%Z then 0
  else if (0 <=? dim)%Z && (dim <? 3)%Z then
    let kidx := ForceEwald.kidx_kspace_potential k_int kx ky kz in
    let kr := kspace_k lx ly lz kx ky kz 0 * x idx 0%Z +
              kspace_k lx ly lz kx ky kz 1 * x idx 1%Z +
              kspace_k lx ly lz kx ky kz 2 * x idx 2%Z in
    kspace_k_coeff lx ly lz alpha kx ky kz * 2.0 * q idx *
    kspace_k lx ly lz kx ky kz dim *
    (U (2 * kidx + 1)%Z * cos kr - U (2 * kidx)%Z * sin kr)
  else 0.

(** Sum over the cube of wave-vectors visited by the two passes. *)
Definition sum_over_wave_vectors (k_int : Z) (g : Z -> Z -> Z -> R) : R :=
  sum_over (range_le (- k_int) k_int) (fun kz =>
    sum_over (range_le (- k_int) k_int) (fun ky =>
      sum_over (range_le (- k_int) k_int) (fun kx => g kz ky kx))).

(** [s'] is [s] with [dp] added to the potentials and [df] to the forces. *)
Definition adds (s s' : System) (dp : Z -> R) (df : Z -> Z -> R) : Prop :=
  same_inputs s s' /\
  (forall k, p s' k = p s k + dp k) /\
  (forall k e, f s' k e = f s k e + df k e).

(** The pair (i, j) is at distance zero. *)
Definition coincident (s : System) (i j : Z) : bool :=
  if Req_dec_T (pair_distance s i j) 0 then true else false.

(** Some entry of the neighbor list of [idx] is at distance zero. *)
Definition has_coincident_neighbor (neigh_list : NeighborList) (s : System)
    (idx : Z) : bool :=
  existsb (fun ij => coincident s idx (getNeighbor neigh_list idx ij))
          (range_lt 0 (numNeighbor neigh_list idx)).

(** The neighbor list names particles of the slices only: the locally owned
    particles are among the [N_max] elements of the slices, and so is
    every neighbor of one of them. *)
Definition neighbors_in_slices (neigh_list : NeighborList) (s : System) : Prop :=
  (0 <= N_local s <= N_max s)%Z /\
  forall idx ij,
    (0 <= idx < N_local s)%Z -> (0 <= ij < numNeighbor neigh_list idx)%Z ->
    (0 <= getNeighbor neigh_list idx ij < N_max s)%Z.

(** Sum of one force component over a list of particles. *)
Definition total_force (particles : list Z) (s : System) (e : Z) : R :=
  sum_over particles (fun k => f s k e).

(** ** Quantities of the mesh stages of [TPME::compute] *)

(** [idx] of BC_functor for the wave-vector (kx, ky, kz). *)
Definition BC_index (meshwidth kx ky kz : Z) : Z :=
  (kx + ky * meshwidth + kz * meshwidth * meshwidth)%Z.

(** What BC_functor stores at [BC[idx]] for the wave-vector (kx, ky, kz). *)
Definition BC_entry (meshwidth : Z) (alpha lx ly lz : R) (kx ky kz : Z)
  : R * R :=
  if (kx + ky + kz >? 0)%Z then
    let mx := if Rgtb (IZR kx) (IZR meshwidth / 2.0)
              then (kx - meshwidth)%Z else kx in
    let my := if Rgtb (IZR ky) (IZR meshwidth / 2.0)
              then (ky - meshwidth)%Z else ky in
    let mz := if Rgtb (IZR kz) (IZR meshwidth / 2.0)
              then (kz - meshwidth)%Z else kz in
    let m2 := IZR (mx * mx + my * my + mz * mz) in
    (ForceSPME.oneDeuler kx meshwidth * ForceSPME.oneDeuler ky meshwidth *
     ForceSPME.oneDeuler kz meshwidth *
     exp (- PI * PI * m2 / (alpha * alpha)) / (PI * lx * ly * lz * m2),
     0.0)
  else (0.0, 0.0).

(** The entry of the wave-vector that [idx] stands for. *)
Definition BC_at (meshwidth : Z) (alpha lx ly lz : R) (idx : Z) : R * R :=
  BC_entry meshwidth alpha lx ly lz (idx mod meshwidth)
           ((idx / meshwidth) mod meshwidth) (idx / meshwidth / meshwidth).

(** What a call of [TPME::compute] needs to stay inside its arrays: the
    particle slices hold the [N] particles of the loops, the mesh is a cube
    of [M]^3 points (BC_functor and the FFT plans run over [meshwidth]^3
    points of arrays allocated with [meshsize] elements) with at least two
    points ([meshr( 1, 0 )] is read) and at least [N] points (update_q runs
    over [n_max] elements of Qktest and BC), and the spacing read off the
    first two points is not zero (spread_q and gather_f divide by it). *)
Definition mesh_fits (s : System) (m : Mesh) (M : Z) : Prop :=
  (0 <= N s <= N_max s)%Z /\
  (0 < M)%Z /\ mesh_size m = (M * M * M)%Z /\ (2 <= mesh_size m)%Z /\
  (N s <= mesh_size m)%Z /\
  meshr m 1%Z 0%Z - meshr m 0%Z 0%Z <> 0.

(** A schedule hands out indices of its range only. *)
Definition schedule_in_range (schedule : Z -> list (list Z)) : Prop :=
  forall n i, In i (List.concat (schedule n)) -> (0 <= i < n)%Z.

(** A solver with alpha = 1 and r_max = 1/2. *)
Definition solver_half : ForceSPME.t := ForceSPME.mk true 1 (1 / 2) 1 1.

(** A method ends normally from every state that satisfies [Inv], and
    leaves a state that satisfies it. *)
Definition succeeds {S A : Type} (Inv : S -> Prop) (m : M S A) : Prop :=
  forall s, Inv s -> Inv (fst (m s)) /\ exists a, snd (m s) = Ok a.

(** First moment of the mesh charge along one axis, and of the particle
    charges. *)
Definition mesh_first_moment (m : Mesh) (axis : Z) : R :=
  sum_over (range_lt 0 (mesh_size m)) (fun k => meshq m k * meshr m k axis).

Definition charge_first_moment (s : System) (axis : Z) : R :=
  sum_over (range_lt 0 (N s)) (fun pidx => q s pidx * x s pidx axis).

(** The factor that gather_f takes along one axis for a mesh coordinate
    [mc] and a particle coordinate [rc]: the derivative of the spline on the
    axis of the force component, the spline on the two other axes, and
    nothing when the test on the distance fails. *)
Definition gather_factor (spacing : R) (deriv : bool) (mc rc : R) : R :=
  if Rleb (Rabs (ForceSPME.gather_dist mc rc)) (2.0 * spacing) then
    if deriv then oneDsplinederiv (ForceSPME.gather_dist mc rc / spacing)
    else oneDspline (2.0 - Rabs (ForceSPME.gather_dist mc rc) / spacing)
  else 0.

(** What gather_f adds to [f( pidx, e )] for the mesh point [idx]. *)
Definition gather_term (spacing : R) (s : System) (m : Mesh) (Qktest : cview)
    (pidx e idx : Z) : R :=
  if (0 <=? e)%Z && (e <? 3)%Z then
    q s pidx *
    gather_factor spacing (e =? 0)%Z (meshr m idx 0%Z) (x s pidx 0%Z) *
    gather_factor spacing (e =? 1)%Z (meshr m idx 1%Z) (x s pidx 1%Z) *
    gather_factor spacing (e =? 2)%Z (meshr m idx 2%Z) (x s pidx 2%Z) *
    fst (Qktest idx)
  else 0.

(** The coordinate [r] lies between the lattice coordinates [n] and [n + 1]
    of a lattice of [M] points at spacing [h], the four lattice coordinates
    [n - 1 .. n + 2] are on the lattice, and no image of [r] at +1.0 or
    -1.0 comes within two spacings of a lattice coordinate. *)
Definition interior_without_alias (M : Z) (h r : R) : Prop :=
  exists n, (1 <= n)%Z /\ (n + 2 < M)%Z /\
    h * IZR n <= r <= h * IZR (n + 1) /\
    forall i, (0 <= i < M)%Z -> Rabs (h * IZR i - r) + 2 * h < 1.

(** What force_contribs adds for the pair (i, j): to the potential of
    particle [k], and to the component [e] of its force. *)
Definition pair_potential_term (s : System) (alpha : R) (i j k : Z) : R :=
  let c := ewald_contrib (q s i) (q s j) alpha (pair_distance s i j) in
  (if (k =? i)%Z then c else 0) + (if (k =? j)%Z then c else 0).

Definition pair_force_term (s : System) (alpha : R) (i j k e : Z) : R :=
  let F := ewald_f_fact (q s i) (q s j) alpha (pair_distance s i j) in
  if (0 <=? e)%Z && (e <? 3)%Z then
    (if (k =? i)%Z then F * (x s j e - x s i e) else 0) +
    (if (k =? j)%Z then - F * (x s j e - x s i e) else 0)
  else 0.

(** ** The real-space loop of [TPME::compute] *)

(** Body of the outer reduction of the real-space loop, for particle [i];
    [Ur_i] is the accumulator of the worker. *)
Definition realspace_particle (alpha r_max lx ly lz : R) (n_max : Z)
    (schedule : list (list Z)) (i : Z) (Ur_i : R) : M ForceSPME.World R :=
  if (i <? n_max)%Z then
    ratio <- r_max /? lx ;;
    let per_shells := ceil ratio in
    Ur_inner <- parallel_reduce schedule
                  (ForceSPME.realspace_pair alpha r_max lx ly lz per_shells i) ;;
    ForceSPME.on_system
      (fun s => set_p s (assign1 (p s) i (p s i + Ur_inner))) ;;
    ret (Ur_i + Ur_inner)
  else ret Ur_i.

(** [contrib], [f_fact] and the separation vector of particle [i] and the
    image (px, py, pz) of particle [j]. *)
Definition image_contrib (s : System) (alpha r_max lx ly lz : R)
    (i j pz py px : Z) : R :=
  let d := image_distance s lx ly lz i j pz py px in
  if Rleb d r_max && Rgeb (Rabs d) 1e-12
  then 0.5 * q s i * q s j * erfc (alpha * d) / d
  else 0.0.

Definition image_f_fact (s : System) (alpha r_max lx ly lz : R)
    (i j pz py px : Z) : R :=
  let d := image_distance s lx ly lz i j pz py px in
  b2r (Rleb d r_max && Rgeb (Rabs d) 1e-12) * q s i * q s j *
  (2.0 * sqrt (alpha / PI) * exp (- alpha * d * d) + erfc (sqrt alpha * d)) /
  (d * d + b2r (Rleb (Rabs d) 1e-12)).

Definition image_separation (s : System) (lx ly lz : R) (i j pz py px e : Z)
  : R :=
  if (e =? 0)%Z then x s i 0%Z - (x s j 0%Z + IZR px * lx)
  else if (e =? 1)%Z then x s i 1%Z - (x s j 1%Z + IZR py * ly)
  else if (e =? 2)%Z then x s i 2%Z - (x s j 2%Z + IZR pz * lz)
  else 0.

(** What the image (px, py, pz) of particle [j] adds to [f( i, e )]. *)
Definition image_force (s : System) (alpha r_max lx ly lz : R)
    (i j e pz py px : Z) : R :=
  image_f_fact s alpha r_max lx ly lz i j pz py px *
  image_separation s lx ly lz i j pz py px e.

(** Sum over the cube of periodic images visited for one pair. *)
Definition sum_over_images (per_shells : Z) (g : Z -> Z -> Z -> R) : R :=
  sum_over (range_le (- per_shells) per_shells) (fun pz =>
    sum_over (range_le (- per_shells) per_shells) (fun py =>
      sum_over (range_le (- per_shells) per_shells) (fun px => g pz py px))).

(** Running [m] from [w] ends normally with the value [v], leaves the mesh
    as it was, and adds [dp] to the potentials and [df] to the forces. *)
Definition yields (m : M ForceSPME.World R) (w : ForceSPME.World) (v : R)
    (dp : Z -> R) (df : Z -> Z -> R) : Prop :=
  exists w', m w = (w', Ok v) /\ snd w' = snd w /\
             adds (fst w) (fst w') dp df.
(** ** The energy returned by [TPME::compute], term by term *)

(** [Ur]: the sum over the scheduled pairs of particles and their periodic
    images of [contrib]. *)
Definition realspace_energy (this : ForceSPME.t)
    (schedule : Z -> list (list Z)) (s : System) : R :=
  let J := List.concat (schedule (N s)) in
  sum_over J (fun i =>
    sum_over J (fun j =>
      sum_over_images (ceil (ForceSPME._r_max this / domain_x s))
        (image_contrib s (ForceSPME._alpha this) (ForceSPME._r_max this)
                       (domain_x s) (domain_y s) (domain_z s) i j))).

(** [Uself] *)
Definition self_energy (this : ForceSPME.t) (schedule : Z -> list (list Z))
    (s : System) : R :=
  sum_over (List.concat (schedule (N s)))
           (fun idx => - ForceSPME._alpha this / PI_SQRT * q s idx * q s idx).

(** The array BC as [TPME::compute] fills it for a mesh of [meshsize]
    points. *)
Definition BC_array (fftw_malloc : string -> cview) (this : ForceSPME.t)
    (s : System) (meshsize : Z) : cview :=
  let meshwidth := round (ForceSPME.pow (IZR meshsize) (1.0 / 3.0)) in
  for_each (range_lt 0 meshwidth)
           (ForceSPME.BC_functor meshwidth (ForceSPME._alpha this)
                                 (domain_x s) (domain_y s) (domain_z s))
           (fftw_malloc "BC"%string).

(** The array Qr: the mesh charge as real parts, imaginary parts 0. *)
Definition Qr_array (fftw_malloc : string -> cview) (m : Mesh) : cview :=
  for_each (range_lt 0 (mesh_size m)) (ForceSPME.copy_charge (meshq m))
           (fftw_malloc "Qr"%string).

(** [Uk] before the factor 0.5, for the mesh [m] that the spreading stage
    has left: the sum over the scheduled mesh points of
    [BC[idx][0] * |Qktest[idx]|^2], Qktest the inverse transform of Qr. *)
Definition kspace_energy (fft_backward : Z -> cview -> cview)
    (fftw_malloc : string -> cview) (schedule : Z -> list (list Z))
    (this : ForceSPME.t) (s : System) (m : Mesh) : R :=
  let meshwidth := round (ForceSPME.pow (IZR (mesh_size m)) (1.0 / 3.0)) in
  let BC := BC_array fftw_malloc this s (mesh_size m) in
  let Qktest := fft_backward meshwidth (Qr_array fftw_malloc m) in
  sum_over (List.concat (schedule (mesh_size m))) (fun idx =>
    fst (BC idx) * (fst (Qktest idx) * fst (Qktest idx) +
                    snd (Qktest idx) * snd (Qktest idx))).

(** Modelled from the spec: the FFT library is not among the sources.
    "apply an inverse 3D discrete Fourier transform to the real-valued
    mesh-charge array (treated as complex with zero imaginary part)": the
    transform that [fftw_plan_dft_3d( n, n, n, in, out, sign, flags )] and
    [fftw_execute] compute, unnormalised, on the n^3 elements in row-major
    order,
      out[k0,k1,k2] = sum over (j0,j1,j2) of
        in[j0,j1,j2] * exp (sign * 2 pi i * (k0 j0 + k1 j1 + k2 j2) / n),
    with sign +1 for FFTW_BACKWARD (the inverse transform) and -1 for
    FFTW_FORWARD.  Here pi is the real number, not the literal [PI] of the
    source. *)
Definition dft_angle (sign : R) (n k j : Z) : R :=
  sign * (2 * Rtrigo1.PI) *
  IZR ((k / n / n) * (j / n / n) + ((k / n) mod n) * ((j / n) mod n) +
       (k mod n) * (j mod n)) / IZR n.

Definition dft_3d (sign : R) (n : Z) (v : cview) : cview :=
  fun k =>
    (sum_over (range_lt 0 (n * (n * n))) (fun j =>
       fst (v j) * cos (dft_angle sign n k j) -
       snd (v j) * sin (dft_angle sign n k j)),
     sum_over (range_lt 0 (n * (n * n))) (fun j =>
       fst (v j) * sin (dft_angle sign n k j) +
       snd (v j) * cos (dft_angle sign n k j))).


(** ** Facts about the boolean comparisons *)

Lemma Rleb_true a b : a <= b -> Rleb a b = true.
Proof. intros H; unfold Rleb; destruct (Rle_dec a b); [reflexivity | contradiction]. Qed.

Lemma Rleb_false a b : b < a -> Rleb a b = false.
Proof. intros H; unfold Rleb; destruct (Rle_dec a b); [lra | reflexivity]. Qed.

Lemma Rltb_true a b : a < b -> Rltb a b = true.
Proof. intros H; unfold Rltb; destruct (Rlt_dec a b); [reflexivity | contradiction]. Qed.

Lemma Rltb_false a b : b <= a -> Rltb a b = false.
Proof. intros H; unfold Rltb; destruct (Rlt_dec a b); [lra | reflexivity]. Qed.

Lemma Rneb_true a b : a <> b -> Rneb a b = true.
Proof. intros H; unfold Rneb; destruct (Req_dec_T a b); [contradiction | reflexivity]. Qed.

Lemma Rneb_false a b : a = b -> Rneb a b = false.
Proof. intros H; unfold Rneb; destruct (Req_dec_T a b); [reflexivity | contradiction]. Qed.


(** ** Calculus helpers: cubic pieces glued at a knot *)

Lemma cubic_derivable_pt_lim a b c d x :
  derivable_pt_lim (cubic a b c d) x (3 * a * x * x + 2 * b * x + c).
Proof.
  unfold cubic.
  pose proof (derivable_pt_lim_id x) as Hid.
  pose proof (derivable_pt_lim_const a x) as Ha.
  pose proof (derivable_pt_lim_const b x) as Hb.
  pose proof (derivable_pt_lim_const c x) as Hc.
  pose proof (derivable_pt_lim_const d x) as Hd.
  pose proof (derivable_pt_lim_mult _ _ _ _ _ Ha Hid) as Hau.
  pose proof (derivable_pt_lim_mult _ _ _ _ _ Hau Hid) as Hauu.
  pose proof (derivable_pt_lim_mult _ _ _ _ _ Hauu Hid) as Hauuu.
  pose proof (derivable_pt_lim_mult _ _ _ _ _ Hb Hid) as Hbu.
  pose proof (derivable_pt_lim_mult _ _ _ _ _ Hbu Hid) as Hbuu.
  pose proof (derivable_pt_lim_mult _ _ _ _ _ Hc Hid) as Hcu.
  pose proof (derivable_pt_lim_plus _ _ _ _ _ Hauuu Hbuu) as H1.
  pose proof (derivable_pt_lim_plus _ _ _ _ _ H1 Hcu) as H2.
  pose proof (derivable_pt_lim_plus _ _ _ _ _ H2 Hd) as H3.
  unfold mult_fct, plus_fct, fct_cte, id in H3.
  replace (3 * a * x * x + 2 * b * x + c) with
    (((0 * x + a * 1) * x + a * x * 1) * x + a * x * x * 1 +
     ((0 * x + b * 1) * x + b * x * 1) + (0 * x + c * 1) + 0) by ring.
  exact H3.
Qed.

(** A function that coincides with [g1] just left of [x] and with [g2] just
    right of [x], both with derivative [l] at [x], has derivative [l]. *)
Lemma derivable_pt_lim_glue (f g1 g2 : R -> R) (lo x hi l : R) :
  lo < x < hi ->
  (forall z, lo <= z <= x -> f z = g1 z) ->
  (forall z, x <= z <= hi -> f z = g2 z) ->
  derivable_pt_lim g1 x l ->
  derivable_pt_lim g2 x l ->
  derivable_pt_lim f x l.
Proof.
  intros Hx Hl Hr D1 D2 eps Heps.
  destruct (D1 eps Heps) as [d1 Hd1].
  destruct (D2 eps Heps) as [d2 Hd2].
  assert (Hpos : 0 < Rmin (Rmin (x - lo) (hi - x)) (Rmin d1 d2)).
  { repeat apply Rmin_glb_lt; try lra; [apply (cond_pos d1) | apply (cond_pos d2)]. }
  exists (mkposreal _ Hpos).
  intros h Hh Hlt. cbn in Hlt.
  assert (Hb1 : Rabs h < x - lo).
  { eapply Rlt_le_trans; [exact Hlt|].
    eapply Rle_trans; [apply Rmin_l | apply Rmin_l]. }
  assert (Hb2 : Rabs h < hi - x).
  { eapply Rlt_le_trans; [exact Hlt|].
    eapply Rle_trans; [apply Rmin_l | apply Rmin_r]. }
  assert (Hb3 : Rabs h < d1).
  { eapply Rlt_le_trans; [exact Hlt|].
    eapply Rle_trans; [apply Rmin_r | apply Rmin_l]. }
  assert (Hb4 : Rabs h < d2).
  { eapply Rlt_le_trans; [exact Hlt|].
    eapply Rle_trans; [apply Rmin_r | apply Rmin_r]. }
  destruct (Rle_dec h 0) as [Hneg | Hposh].
  - rewrite (Hl (x + h)), (Hl x).
    + apply Hd1; assumption.
    + lra.
    + unfold Rabs in Hb1; destruct (Rcase_abs h); lra.
  - rewrite (Hr (x + h)), (Hr x).
    + apply Hd2; assumption.
    + lra.
    + unfold Rabs in Hb2; destruct (Rcase_abs h); lra.
Qed.

(** ** The five cubic pieces of the spreading weight *)

Lemma spreading_weight_outside u : u <= -2 \/ 2 <= u -> spreading_weight u = 0.
Proof.
  intros H; unfold spreading_weight, oneDspline, Rabs.
  destruct (Rcase_abs u); rcases; try lra; nra.
Qed.

Lemma spreading_weight_left_outer u :
  -2 <= u <= -1 -> spreading_weight u = cubic (1/6) 1 2 (4/3) u.
Proof.
  intros H; unfold spreading_weight, oneDspline, cubic, Rabs.
  destruct (Rcase_abs u); rcases; try lra; nra.
Qed.

Lemma spreading_weight_left_inner u :
  -1 <= u <= 0 -> spreading_weight u = cubic (-1/2) (-1) 0 (2/3) u.
Proof.
  intros H; unfold spreading_weight, oneDspline, cubic, Rabs.
  destruct (Rcase_abs u); rcases; try lra; nra.
Qed.

Lemma spreading_weight_right_inner u :
  0 <= u <= 1 -> spreading_weight u = cubic (1/2) (-1) 0 (2/3) u.
Proof.
  intros H; unfold spreading_weight, oneDspline, cubic, Rabs.
  destruct (Rcase_abs u); rcases; try lra; nra.
Qed.

Lemma spreading_weight_right_outer u :
  1 <= u <= 2 -> spreading_weight u = cubic (-1/6) 1 (-2) (4/3) u.
Proof.
  intros H; unfold spreading_weight, oneDspline, cubic, Rabs.
  destruct (Rcase_abs u); rcases; try lra; nra.
Qed.

Lemma zero_is_cubic u : 0 = cubic 0 0 0 0 u.
Proof. unfold cubic; ring. Qed.

Lemma spreading_weight_outside_cubic u :
  u <= -2 \/ 2 <= u -> spreading_weight u = cubic 0 0 0 0 u.
Proof.
  intros H; rewrite spreading_weight_outside by exact H. apply zero_is_cubic.
Qed.

(** Value of the code's derivative routine on each piece. *)
Lemma oneDsplinederiv_pieces u :
  (u <= -2 \/ 2 <= u -> oneDsplinederiv u = 0) /\
  (-2 <= u <= -1 -> oneDsplinederiv u = - (3 * (1/6) * u * u + 2 * 1 * u + 2)) /\
  (-1 <= u <= 0 -> oneDsplinederiv u = - (3 * (-1/2) * u * u + 2 * (-1) * u + 0)) /\
  (0 <= u <= 1 -> oneDsplinederiv u = - (3 * (1/2) * u * u + 2 * (-1) * u + 0)) /\
  (1 <= u <= 2 -> oneDsplinederiv u = - (3 * (-1/6) * u * u + 2 * 1 * u + -2)).
Proof.
  repeat split; intros H; unfold oneDsplinederiv, Rabs;
    destruct (Rcase_abs u); rcases; try lra; nra.
Qed.

Ltac glue_pieces lo hi L1 L2 a1 b1 c1 d1 a2 b2 c2 d2 :=
  apply (derivable_pt_lim_glue _ (cubic a1 b1 c1 d1) (cubic a2 b2 c2 d2) lo _ hi);
  [ lra
  | intros; apply L1; lra
  | intros; apply L2; lra
  | |].

Lemma spreading_weight_derivable_pt_lim u :
  derivable_pt_lim spreading_weight u (- oneDsplinederiv u).
Proof.
  destruct (oneDsplinederiv_pieces u) as (Hout & Hlo & Hli & Hri & Hro).
  destruct (Rtotal_order u (-2)) as [H | [H | H]].
  { (* left of the support *)
    glue_pieces (u - 1) (-2) spreading_weight_outside_cubic spreading_weight_outside_cubic
                0 0 0 0 0 0 0 0;
      (rewrite Hout by lra;
       replace (- 0) with (3 * 0 * u * u + 2 * 0 * u + 0) by ring;
       apply cubic_derivable_pt_lim). }
  { (* knot -2 *)
    glue_pieces (-3) (-1) spreading_weight_outside_cubic spreading_weight_left_outer
                0 0 0 0 (1/6) 1 2 (4/3).
    - rewrite Hout by lra.
      replace (- 0) with (3 * 0 * u * u + 2 * 0 * u + 0) by ring.
      apply cubic_derivable_pt_lim.
    - rewrite Hlo by lra. rewrite Ropp_involutive. apply cubic_derivable_pt_lim. }
  destruct (Rtotal_order u (-1)) as [H1 | [H1 | H1]].
  { glue_pieces (-2) (-1) spreading_weight_left_outer spreading_weight_left_outer
                (1/6) 1 2 (4/3) (1/6) 1 2 (4/3);
      (rewrite Hlo by lra; rewrite Ropp_involutive; apply cubic_derivable_pt_lim). }
  { (* knot -1 *)
    glue_pieces (-2) 0 spreading_weight_left_outer spreading_weight_left_inner
                (1/6) 1 2 (4/3) (-1/2) (-1) 0 (2/3).
    - rewrite Hlo by lra. rewrite Ropp_involutive. apply cubic_derivable_pt_lim.
    - rewrite Hli by lra. rewrite Ropp_involutive. apply cubic_derivable_pt_lim. }
  destruct (Rtotal_order u 0) as [H0 | [H0 | H0]].
  { glue_pieces (-1) 0 spreading_weight_left_inner spreading_weight_left_inner
                (-1/2) (-1) 0 (2/3) (-1/2) (-1) 0 (2/3);
      (rewrite Hli by lra; rewrite Ropp_involutive; apply cubic_derivable_pt_lim). }
  { (* knot 0: the two inner pieces meet with slope 0 *)
    glue_pieces (-1) 1 spreading_weight_left_inner spreading_weight_right_inner
                (-1/2) (-1) 0 (2/3) (1/2) (-1) 0 (2/3).
    - rewrite Hli by lra. rewrite Ropp_involutive. apply cubic_derivable_pt_lim.
    - rewrite Hri by lra. rewrite Ropp_involutive. apply cubic_derivable_pt_lim. }
  destruct (Rtotal_order u 1) as [H2 | [H2 | H2]].
  { glue_pieces 0 1 spreading_weight_right_inner spreading_weight_right_inner
                (1/2) (-1) 0 (2/3) (1/2) (-1) 0 (2/3);
      (rewrite Hri by lra; rewrite Ropp_involutive; apply cubic_derivable_pt_lim). }
  { (* knot 1 *)
    glue_pieces 0 2 spreading_weight_right_inner spreading_weight_right_outer
                (1/2) (-1) 0 (2/3) (-1/6) 1 (-2) (4/3).
    - rewrite Hri by lra. rewrite Ropp_involutive. apply cubic_derivable_pt_lim.
    - rewrite Hro by lra. rewrite Ropp_involutive. apply cubic_derivable_pt_lim. }
  destruct (Rtotal_order u 2) as [H3 | [H3 | H3]].
  { glue_pieces 1 2 spreading_weight_right_outer spreading_weight_right_outer
                (-1/6) 1 (-2) (4/3) (-1/6) 1 (-2) (4/3);
      (rewrite Hro by lra; rewrite Ropp_involutive; apply cubic_derivable_pt_lim). }
  { (* knot 2 *)
    glue_pieces 1 3 spreading_weight_right_outer spreading_weight_outside_cubic
                (-1/6) 1 (-2) (4/3) 0 0 0 0.
    - rewrite Hro by lra. rewrite Ropp_involutive. apply cubic_derivable_pt_lim.
    - rewrite Hout by lra.
      replace (- 0) with (3 * 0 * u * u + 2 * 0 * u + 0) by ring.
      apply cubic_derivable_pt_lim. }
  (* right of the support *)
  glue_pieces 2 (u + 1) spreading_weight_outside_cubic spreading_weight_outside_cubic
              0 0 0 0 0 0 0 0;
    (rewrite Hout by lra;
     replace (- 0) with (3 * 0 * u * u + 2 * 0 * u + 0) by ring;
     apply cubic_derivable_pt_lim).
Qed.

Lemma oneDsplinederiv_odd u : oneDsplinederiv (- u) = - oneDsplinederiv u.
Proof.
  unfold oneDsplinederiv. rewrite Rabs_Ropp.
  unfold Rabs; destruct (Rcase_abs u); rcases; try lra; nra.
Qed.

(** C9 (as amended).  [oneDsplinederiv] is odd, and at every real [u] (in
    particular on the support [|u| <= 2]) it is the NEGATIVE of the analytic
    derivative with respect to [u] of the spreading weight
    [oneDspline (2 - |u|)]: the routine returns the slope of the cubic in its
    own argument [x = 2 - |u|], signed by [forcedir]. *)
Theorem oneDsplinederiv_is_minus_weight_slope :
  (forall u, oneDsplinederiv (- u) = - oneDsplinederiv u) /\
  (forall u, derivable_pt_lim (fun v => oneDspline (2.0 - Rabs v)) u
                              (- oneDsplinederiv u)).
Proof.
  split.
  - exact oneDsplinederiv_odd.
  - intros u. exact (spreading_weight_derivable_pt_lim u).
Qed.

(** C9 (as stated) fails at [u = 1], inside the support: there the weight
    [oneDspline (2 - |u|)] has slope [-1/2], and the routine returns [1/2]. *)
Lemma oneDsplinederiv_not_weight_slope_at_1 :
  Rabs 1 <= 2 /\
  oneDsplinederiv 1 = 1 / 2 /\
  derivable_pt_lim (fun v => oneDspline (2.0 - Rabs v)) 1 (- (1 / 2)) /\
  ~ derivable_pt_lim (fun v => oneDspline (2.0 - Rabs v)) 1 (oneDsplinederiv 1).
Proof.
  assert (Hval : oneDsplinederiv 1 = 1 / 2).
  { unfold oneDsplinederiv, Rabs; destruct (Rcase_abs 1); rcases; lra. }
  assert (Hd : derivable_pt_lim (fun v => oneDspline (2.0 - Rabs v)) 1 (- (1 / 2))).
  { rewrite <- Hval. exact (spreading_weight_derivable_pt_lim 1). }
  repeat split.
  - rewrite Rabs_R1; lra.
  - exact Hval.
  - exact Hd.
  - intros Hbad. rewrite Hval in Hbad.
    pose proof (uniqueness_limite _ _ _ _ Hd Hbad). lra.
Qed.

(** ** Loops, ranges and stores *)

Lemma in_zseq (lo : Z) (len : nat) (i : Z) :
  In i (zseq lo len) <-> (lo <= i < lo + Z.of_nat len)%Z.
Proof.
  unfold zseq. rewrite in_map_iff. split.
  - intros (k & <- & Hk). apply in_seq in Hk. lia.
  - intros H. exists (Z.to_nat (i - lo)). split; [lia|]. apply in_seq. lia.
Qed.

Lemma in_range_lt (lo hi i : Z) : In i (range_lt lo hi) <-> (lo <= i < hi)%Z.
Proof. unfold range_lt. rewrite in_zseq. lia. Qed.

Lemma in_range_le (lo hi i : Z) : In i (range_le lo hi) <-> (lo <= i <= hi)%Z.
Proof. unfold range_le. rewrite in_zseq. lia. Qed.

Lemma assign1_same (v : view1) (i : Z) (a : R) : assign1 v i a i = a.
Proof. unfold assign1. rewrite Z.eqb_refl. reflexivity. Qed.

Lemma assign1_other (v : view1) (i j : Z) (a : R) :
  j <> i -> assign1 v i a j = v j.
Proof.
  intros H. unfold assign1. destruct (Z.eqb_spec j i); [contradiction | reflexivity].
Qed.

(** A property of the state that every iteration preserves holds after the
    loop. *)
Lemma for_each_invariant {S : Type} (P : S -> Prop) (l : list Z)
    (body : Z -> S -> S) (s : S) :
  P s -> (forall i s, In i l -> P s -> P (body i s)) -> P (for_each l body s).
Proof.
  unfold for_each. revert s. induction l as [| i l IH]; intros s Hs Hbody.
  - exact Hs.
  - cbn [fold_left]. apply IH.
    + apply Hbody; [left; reflexivity | exact Hs].
    + intros j s' Hj. apply Hbody. right; exact Hj.
Qed.

(** ** Bounds on the two values of pi *)

Lemma literal_PI_bounds : 3 < PI < 4.
Proof. unfold PI. lra. Qed.

Lemma library_PI_gt_3 : 3 < Rtrigo1.PI.
Proof. pose proof PI2_3_2. lra. Qed.

(** ** erfc: value at 0, a lower bound, and the derivative *)

Lemma erfc_0 : erfc 0 = 1.
Proof. unfold erfc, erf. rewrite RiemannInt_P9. lra. Qed.

Lemma gauss_pos (t : R) : 0 < gauss t.
Proof. unfold gauss. apply exp_pos. Qed.

Lemma gauss_le_1 (t : R) : gauss t <= 1.
Proof.
  unfold gauss. rewrite <- exp_0.
  destruct (Req_dec (t * t) 0) as [H0 | H0].
  - rewrite H0, Ropp_0. lra.
  - left. apply exp_increasing. nra.
Qed.

Lemma sqrt_library_PI_bounds : 17 / 10 < sqrt Rtrigo1.PI <= 2.
Proof.
  pose proof library_PI_gt_3 as H3. pose proof PI_4 as H4. split.
  - replace (17 / 10) with (sqrt (289 / 100)).
    + apply sqrt_lt_1; lra.
    + replace (289 / 100) with ((17 / 10) * (17 / 10)) by lra.
      apply sqrt_square. lra.
  - replace 2 with (sqrt 4).
    + apply sqrt_le_1; lra.
    + replace 4 with (2 * 2) by lra. apply sqrt_square. lra.
Qed.

Lemma gauss_integral_le (x : R) :
  0 <= x -> RiemannInt (gauss_integrable 0 x) <= x.
Proof.
  intros Hx.
  assert (Hc : Riemann_integrable (fct_cte 1) 0 x) by apply RiemannInt_P14.
  apply Rle_trans with (RiemannInt Hc).
  - apply RiemannInt_P19; [exact Hx |].
    intros t _. unfold fct_cte. apply gauss_le_1.
  - rewrite RiemannInt_P15. lra.
Qed.

Lemma gauss_integral_nonneg (x : R) :
  0 <= x -> 0 <= RiemannInt (gauss_integrable 0 x).
Proof.
  intros Hx.
  assert (Hc : Riemann_integrable (fct_cte 0) 0 x) by apply RiemannInt_P14.
  apply Rle_trans with (RiemannInt Hc).
  - rewrite RiemannInt_P15. lra.
  - apply RiemannInt_P19; [exact Hx |].
    intros t _. unfold fct_cte. left. apply gauss_pos.
Qed.

(** For [0 <= x], [1 - 2 x / sqrt pi <= erfc x <= 1]. *)
Lemma erfc_bounds (x : R) :
  0 <= x -> 1 - 2 / sqrt Rtrigo1.PI * x <= erfc x <= 1.
Proof.
  intros Hx. unfold erfc, erf.
  pose proof (gauss_integral_le x Hx) as Hle.
  pose proof (gauss_integral_nonneg x Hx) as Hge.
  destruct sqrt_library_PI_bounds as [Hlo Hhi].
  assert (Hc : 0 < 2 / sqrt Rtrigo1.PI).
  { apply Rdiv_lt_0_compat; lra. }
  split; nra.
Qed.

(** The integral from 0 has the integrand as its derivative. *)
Lemma gauss_integral_derivable_pt_lim (x : R) :
  derivable_pt_lim (fun y => RiemannInt (gauss_integrable 0 y)) x (gauss x).
Proof.
  set (a := Rmin 0 x - 1). set (b := Rmax 0 x + 1).
  assert (Ha0 : a < 0) by (unfold a; pose proof (Rmin_l 0 x); lra).
  assert (Hax : a < x) by (unfold a; pose proof (Rmin_r 0 x); lra).
  assert (Hb0 : 0 < b) by (unfold b; pose proof (Rmax_l 0 x); lra).
  assert (Hxb : x < b) by (unfold b; pose proof (Rmax_r 0 x); lra).
  assert (h : a <= b) by lra.
  assert (C0 : forall t : R, a <= t <= b -> continuity_pt gauss t).
  { intros t _. apply gauss_continuity. }
  pose proof (@RiemannInt_P27 gauss a b x h C0 (conj Hax Hxb)) as Hprim.
  set (C := RiemannInt (gauss_integrable a 0)).
  assert (Hshift :
    derivable_pt_lim (fun y => primitive h (FTC_P1 h C0) y - C) x (gauss x)).
  { replace (gauss x) with (gauss x - 0) by ring.
    apply (derivable_pt_lim_minus (primitive h (FTC_P1 h C0)) (fct_cte C)).
    - exact Hprim.
    - apply derivable_pt_lim_const. }
  apply (derivable_pt_lim_locally_ext
           (fun y => primitive h (FTC_P1 h C0) y - C) _ x a b (gauss x)).
  - split; assumption.
  - intros y [Hay Hyb]. unfold primitive.
    destruct (Rle_dec a y) as [Hle1 | Hn1]; [| lra].
    destruct (Rle_dec y b) as [Hle2 | Hn2]; [| lra].
    unfold C.
    rewrite <- (RiemannInt_P26 (gauss_integrable a 0) (gauss_integrable 0 y)
                               (FTC_P1 h C0 Hle1 Hle2)).
    ring.
  - exact Hshift.
Qed.

Lemma erfc_derivable_pt_lim (x : R) :
  derivable_pt_lim erfc x (- (2 / sqrt Rtrigo1.PI) * exp (- (x * x))).
Proof.
  unfold erfc, erf.
  replace (- (2 / sqrt Rtrigo1.PI) * exp (- (x * x)))
    with (0 - (2 / sqrt Rtrigo1.PI) * gauss x) by (unfold gauss; ring).
  apply (derivable_pt_lim_minus (fct_cte 1)
           (fun y => 2 / sqrt Rtrigo1.PI * RiemannInt (gauss_integrable 0 y))).
  - apply derivable_pt_lim_const.
  - apply (derivable_pt_lim_scal
             (fun y => RiemannInt (gauss_integrable 0 y))).
    apply gauss_integral_derivable_pt_lim.
Qed.

(** * ForceEwald::init_coeff *)

Lemma init_coeff_keeps_solver (this : ForceEwald.t) (neigh_cut_ : R)
    (args : list string) :
  ForceEwald.init_coeff this neigh_cut_ args = this.
Proof. reflexivity. Qed.

Lemma atof_sample_values :
  atof "0.5" = 0.5 /\ atof "3.0" = 3.0 /\ atof "4.0" = 4.0.
Proof.
  unfold atof; cbn.
  repeat match goal with
         | |- context [digit_of ?c] =>
             let v := eval vm_compute in (digit_of c) in
             change (digit_of c) with v
         end.
  cbn [INR]. repeat split; lra.
Qed.

(** C7 (code defect).  A solver whose three parameters are 0 is handed the
    arguments [0.5], [3.0], [4.0] at positions 3, 4, 5: the arguments parse
    to 0.5, 3 and 4, and after [init_coeff] the parameters of the solver are
    still 0, so none of them has the parsed value. *)
Theorem init_coeff_drops_parsed_values :
  let list0 := mkNeighborList (fun _ => 0%Z) (fun _ _ => 0%Z) in
  let this := ForceEwald.mk true 2.5 list0 0 0 0 0 in
  let args := ["pair_coeff"; "1"; "1"; "0.5"; "3.0"; "4.0"]%string in
  let this' := ForceEwald.init_coeff this 2.5 args in
  atof (nth 3 args EmptyString) = 0.5 /\
  atof (nth 4 args EmptyString) = 3.0 /\
  atof (nth 5 args EmptyString) = 4.0 /\
  ForceEwald._alpha this' = 0 /\
  ForceEwald._r_max this' = 0 /\
  ForceEwald._k_max this' = 0 /\
  ForceEwald._alpha this' <> atof (nth 3 args EmptyString) /\
  ForceEwald._r_max this' <> atof (nth 4 args EmptyString) /\
  ForceEwald._k_max this' <> atof (nth 5 args EmptyString).
Proof.
  destruct atof_sample_values as (H1 & H2 & H3).
  cbn [nth ForceEwald.init_coeff ForceEwald._alpha ForceEwald._r_max
       ForceEwald._k_max].
  rewrite H1, H2, H3. repeat split; lra.
Qed.

(** * ForceSPME::tune and the cubic-domain check *)

Lemma noncubic_false (system : System) :
  domain_x system = domain_y system ->
  domain_x system = domain_z system ->
  noncubic system = false.
Proof.
  intros Hy Hz. unfold noncubic. rewrite !Rneb_false by assumption. reflexivity.
Qed.

Lemma noncubic_true (system : System) :
  ~ (domain_x system = domain_y system /\ domain_x system = domain_z system) ->
  noncubic system = true.
Proof.
  intros H. unfold noncubic, Rneb.
  destruct (Req_dec_T (domain_x system) (domain_y system)) as [Hy | Hy];
    destruct (Req_dec_T (domain_x system) (domain_z system)) as [Hz | Hz];
    try reflexivity.
  exfalso; apply H; split; assumption.
Qed.

(** C5.  On a cubic domain of edge [L], with [N] particles and target
    accuracy [eps], [tune] ends normally and leaves in the solver
    [r_max = ratio^(1/6) * sqrt(p/PI) / N^(1/6) * L] with [ratio = 2] and
    [p = - ln eps], [alpha = sqrt p / r_max] and [k_max = 2 * sqrt p * alpha]
    ([PI] is the constant of the source). *)
Theorem tune_final_parameters (this : ForceSPME.t) (eps L : R) (system : System) :
  domain_x system = L -> domain_y system = L -> domain_z system = L ->
  0 < L -> 0 < eps < 1 -> (0 < N system)%Z ->
  let p := - ln eps in
  let r_max :=
    (Rpower 2 (1 / 6) * sqrt (p / PI) / Rpower (IZR (N system)) (1 / 6)) * L in
  let alpha := sqrt p / r_max in
  let k_max := 2 * sqrt p * alpha in
  exists this',
    ForceSPME.tune eps system this = (this', Ok tt) /\
    ForceSPME._r_max this' = r_max /\
    ForceSPME._alpha this' = alpha /\
    ForceSPME._k_max this' = k_max.
Proof.
  intros Hx Hy Hz HL Heps HN p r_max alpha k_max.
  unfold ForceSPME.tune.
  change (Rneb (domain_x system) (domain_y system)
          || Rneb (domain_x system) (domain_z system)) with (noncubic system).
  rewrite noncubic_false by congruence.
  eexists. split; [reflexivity |].
  cbn [ForceSPME._r_max ForceSPME._alpha ForceSPME._k_max ForceSPME.set_alpha
       ForceSPME.set_r_max ForceSPME.set_k_max].
  unfold ForceSPME.pow, ForceSPME.EXECUTION_TIME_RATIO_K_R, ForceSPME.lx.
  rewrite Hx.
  subst p r_max alpha k_max.
  replace (1.0 / 6.0) with (1 / 6) by lra.
  replace 2.0 with 2 by lra.
  repeat split; reflexivity.
Qed.

Lemma tune_final_parameters_witness :
  let p := - ln 0.00001 in
  let r_max := (Rpower 2 (1 / 6) * sqrt (p / PI) / Rpower (IZR 1000) (1 / 6)) * 10 in
  let alpha := sqrt p / r_max in
  let k_max := 2 * sqrt p * alpha in
  exists this',
    ForceSPME.tune 0.00001 cube10 solver0 = (this', Ok tt) /\
    ForceSPME._r_max this' = r_max /\
    ForceSPME._alpha this' = alpha /\
    ForceSPME._k_max this' = k_max.
Proof.
  apply (tune_final_parameters solver0 0.00001 10 cube10);
    try reflexivity; try lra; cbn; lia.
Defined.

(** C6.  On a domain whose three edges are not all equal, [tune] and
    [compute] both stop with the runtime error of the configuration check,
    and the state they leave is the state they were called on: the solver
    for [tune], the particle system and the mesh for [compute]. *)
Theorem noncubic_domain_is_rejected
    (fft_backward fft_forward : Z -> cview -> cview)
    (fftw_malloc : string -> cview) (Udip : R) (schedule : Z -> list (list Z))
    (this : ForceSPME.t) (accuracy : R) (system : System) (mesh : Mesh) :
  ~ (domain_x system = domain_y system /\ domain_x system = domain_z system) ->
  ForceSPME.tune accuracy system this =
    (this, Fault (runtime_error "SPME needs symmetric system size for now."))
  /\
  ForceSPME.compute fft_backward fft_forward fftw_malloc Udip schedule this
                    (system, mesh) =
    ((system, mesh),
     Fault (runtime_error "SPME needs symmetric system size for now.")).
Proof.
  intros H. pose proof (noncubic_true system H) as Hn.
  unfold noncubic in Hn. split.
  - unfold ForceSPME.tune. rewrite Hn. reflexivity.
  - unfold ForceSPME.compute, bind, get. cbn [fst snd]. rewrite Hn. reflexivity.
Qed.

Lemma noncubic_domain_is_rejected_witness :
  ForceSPME.tune 0.00001 brick solver0 =
    (solver0, Fault (runtime_error "SPME needs symmetric system size for now."))
  /\
  ForceSPME.compute (fun _ v => v) (fun _ v => v) (fun _ _ => (0, 0)) 0 serial
                    solver0 (brick, mesh0) =
    ((brick, mesh0),
     Fault (runtime_error "SPME needs symmetric system size for now.")).
Proof.
  apply (noncubic_domain_is_rejected (fun _ v => v) (fun _ v => v)
           (fun _ _ => (0, 0)) 0 serial solver0 0.00001 brick mesh0).
  cbn. lra.
Defined.

(** * ForceEwald: the partial-sum pass against the k-space pass *)

Lemma kidx_difference (k_int kx ky kz : Z) :
  (ForceEwald.kidx_partial_sums k_int kx ky kz -
   ForceEwald.kidx_kspace_potential k_int kx ky kz =
   (kz + k_int) * (2 * k_int + 1) * (2 * k_int + 1) * (2 * k_int))%Z.
Proof.
  unfold ForceEwald.kidx_partial_sums, ForceEwald.kidx_kspace_potential. ring.
Qed.

(** The two passes compute the same index only on the plane
    [kz = - k_int]. *)
Lemma kidx_passes_agree_iff (k_int kx ky kz : Z) :
  (1 <= k_int)%Z ->
  ForceEwald.kidx_partial_sums k_int kx ky kz =
  ForceEwald.kidx_kspace_potential k_int kx ky kz <-> kz = (- k_int)%Z.
Proof.
  intros Hk. pose proof (kidx_difference k_int kx ky kz) as Hd. split.
  - intros Heq. rewrite Heq, Z.sub_diag in Hd. symmetry in Hd.
    apply Z.mul_eq_0 in Hd. destruct Hd as [Hd | Hd]; [| lia].
    apply Z.mul_eq_0 in Hd. destruct Hd as [Hd | Hd]; [| lia].
    apply Z.mul_eq_0 in Hd. destruct Hd as [Hd | Hd]; lia.
  - intros ->. replace (- k_int + k_int)%Z with 0%Z in Hd by lia.
    rewrite !Z.mul_0_l in Hd. lia.
Qed.

Lemma atomic_add1_same (v : view1) (i : Z) (a : R) :
  atomic_add1 v i a i = v i + a.
Proof. unfold atomic_add1. apply assign1_same. Qed.

Lemma atomic_add1_other (v : view1) (i j : Z) (a : R) :
  j <> i -> atomic_add1 v i a j = v j.
Proof. unfold atomic_add1. apply assign1_other. Qed.

Lemma partial_sums_body_other (k_int : Z) (lx ly lz : R) (x : view2) (q : view1)
    (idx kz ky kx : Z) (U : view1) (slot : Z) :
  slot <> (2 * ForceEwald.kidx_partial_sums k_int kx ky kz)%Z ->
  slot <> (2 * ForceEwald.kidx_partial_sums k_int kx ky kz + 1)%Z ->
  ForceEwald.partial_sums_body k_int lx ly lz x q idx kz ky kx U slot = U slot.
Proof.
  intros H1 H2. unfold ForceEwald.partial_sums_body.
  destruct ((kx =? 0)%Z && (ky =? 0)%Z && (kz =? 0)%Z); [reflexivity |].
  cbv zeta. rewrite !atomic_add1_other by assumption. reflexivity.
Qed.

(** What the body leaves in the two slots it computes, for a wave-vector
    other than (0,0,0). *)
Lemma partial_sums_body_written (k_int : Z) (lx ly lz : R) (x : view2)
    (q : view1) (idx kz ky kx : Z) (U : view1) :
  (kx =? 0)%Z && (ky =? 0)%Z && (kz =? 0)%Z = false ->
  let kidx := ForceEwald.kidx_partial_sums k_int kx ky kz in
  let kr := 2.0 * PI / lz * IZR kz * x idx 0%Z +
            2.0 * PI / ly * IZR ky * x idx 1%Z +
            2.0 * PI / lz * IZR kz * x idx 2%Z in
  ForceEwald.partial_sums_body k_int lx ly lz x q idx kz ky kx U (2 * kidx)%Z =
    U (2 * kidx)%Z + q idx * cos kr /\
  ForceEwald.partial_sums_body k_int lx ly lz x q idx kz ky kx U (2 * kidx + 1)%Z =
    U (2 * kidx + 1)%Z + q idx * sin kr.
Proof.
  intros Hnz kidx kr. unfold ForceEwald.partial_sums_body. rewrite Hnz.
  cbv zeta. fold kidx. fold kr. split.
  - rewrite atomic_add1_other by lia. apply atomic_add1_same.
  - rewrite atomic_add1_same. rewrite atomic_add1_other by lia. reflexivity.
Qed.

(** A slot that no wave-vector of the pass computes keeps its content. *)
Lemma partial_sums_untouched (k_int : Z) (lx ly lz : R) (x : view2) (q : view1)
    (idx : Z) (U : view1) (slot : Z) :
  (forall kx ky kz,
     (- k_int <= kx <= k_int)%Z -> (- k_int <= ky <= k_int)%Z ->
     (- k_int <= kz <= k_int)%Z ->
     slot <> (2 * ForceEwald.kidx_partial_sums k_int kx ky kz)%Z /\
     slot <> (2 * ForceEwald.kidx_partial_sums k_int kx ky kz + 1)%Z) ->
  ForceEwald.partial_sums k_int lx ly lz x q idx U slot = U slot.
Proof.
  intros H. unfold ForceEwald.partial_sums.
  apply (for_each_invariant (fun U' : view1 => U' slot = U slot));
    [reflexivity |].
  intros kz U1 Hkz HU1. apply in_range_le in Hkz.
  apply (for_each_invariant (fun U' : view1 => U' slot = U slot));
    [exact HU1 |].
  intros ky U2 Hky HU2. apply in_range_le in Hky.
  apply (for_each_invariant (fun U' : view1 => U' slot = U slot));
    [exact HU2 |].
  intros kx U3 Hkx HU3. apply in_range_le in Hkx.
  destruct (H kx ky kz Hkx Hky Hkz) as [Ha Hb].
  rewrite partial_sums_body_other by assumption. exact HU3.
Qed.

Lemma partial_sums_body_re (k_int : Z) (lx ly lz : R) (x : view2) (q : view1)
    (idx kz ky kx : Z) (U : view1) (slot : Z) :
  (kx =? 0)%Z && (ky =? 0)%Z && (kz =? 0)%Z = false ->
  slot = (2 * ForceEwald.kidx_partial_sums k_int kx ky kz)%Z ->
  ForceEwald.partial_sums_body k_int lx ly lz x q idx kz ky kx U slot =
    U slot + q idx * cos (2.0 * PI / lz * IZR kz * x idx 0%Z +
                          2.0 * PI / ly * IZR ky * x idx 1%Z +
                          2.0 * PI / lz * IZR kz * x idx 2%Z).
Proof.
  intros Hnz ->. apply (partial_sums_body_written k_int lx ly lz x q idx kz ky kx U Hnz).
Qed.

Lemma partial_sums_body_im (k_int : Z) (lx ly lz : R) (x : view2) (q : view1)
    (idx kz ky kx : Z) (U : view1) (slot : Z) :
  (kx =? 0)%Z && (ky =? 0)%Z && (kz =? 0)%Z = false ->
  slot = (2 * ForceEwald.kidx_partial_sums k_int kx ky kz + 1)%Z ->
  ForceEwald.partial_sums_body k_int lx ly lz x q idx kz ky kx U slot =
    U slot + q idx * sin (2.0 * PI / lz * IZR kz * x idx 0%Z +
                          2.0 * PI / ly * IZR ky * x idx 1%Z +
                          2.0 * PI / lz * IZR kz * x idx 2%Z).
Proof.
  intros Hnz ->. apply (partial_sums_body_written k_int lx ly lz x q idx kz ky kx U Hnz).
Qed.

(** Unroll the pass for [k_int = 1] and follow one slot through it. *)
Ltac follow_slot :=
  unfold ForceEwald.partial_sums;
  change (range_le (- (1)) 1) with [(-1)%Z; 0%Z; 1%Z];
  cbn [for_each fold_left];
  repeat first
    [ rewrite partial_sums_body_other
        by (unfold ForceEwald.kidx_partial_sums; lia)
    | rewrite partial_sums_body_re
        by (reflexivity || (unfold ForceEwald.kidx_partial_sums; lia))
    | rewrite partial_sums_body_im
        by (reflexivity || (unfold ForceEwald.kidx_partial_sums; lia)) ].

(** C1 (code defect).  Cubic box of edge 4, [k_int = 1], one particle of
    charge 1 at (1,0,0), accumulator zeroed, wave-vector (kx,ky,kz) = (1,0,0).
    - The k-space pass reads slots 28 and 29 for this wave-vector; the
      partial-sum pass leaves 0 in both and writes slots 64 and 65 instead,
      beyond the 36 entries the view is allocated with.
    - What it writes is [q cos 0 = 1] and [q sin 0 = 0]: the phase is taken
      with [_kz] in place of [_kx].  For the dot product of the wave-vector
      with the position, [q sin (k.r)] is positive and [q cos (k.r)] is
      below 1.
    - The view is allocated for 18 wave-vectors, not for 26. *)
Theorem partial_sums_slot_and_phase_mismatch :
  let U := ForceEwald.partial_sums 1 4 4 4 x_unit q_one 0 zero_view in
  let slot_read := (2 * ForceEwald.kidx_kspace_potential 1 1 0 0)%Z in
  let slot_written := (2 * ForceEwald.kidx_partial_sums 1 1 0 0)%Z in
  let kr := wave_vector_dot_position 4 4 4 x_unit 0 1 0 0 in
  slot_read = 28%Z /\ slot_written = 64%Z /\
  U slot_read = 0 /\ U (slot_read + 1)%Z = 0 /\
  U slot_written = 1 /\ U (slot_written + 1)%Z = 0 /\
  q_one 0%Z * cos kr < 1 /\ 0 < q_one 0%Z * sin kr /\
  (2 * ForceEwald.n_kvec 1)%Z = 36%Z /\
  ForceEwald.n_kvec 1 <> ((2 * 1 + 1) * (2 * 1 + 1) * (2 * 1 + 1) - 1)%Z.
Proof.
  assert (Hkr : wave_vector_dot_position 4 4 4 x_unit 0 1 0 0 = PI / 2).
  { unfold wave_vector_dot_position, x_unit. cbn [Z.eqb]. lra. }
  assert (Hsin : 0 < sin (PI / 2)).
  { pose proof literal_PI_bounds. pose proof library_PI_gt_3.
    apply sin_gt_0; lra. }
  cbv zeta. rewrite Hkr.
  change (2 * ForceEwald.kidx_kspace_potential 1 1 0 0)%Z with 28%Z.
  change (2 * ForceEwald.kidx_partial_sums 1 1 0 0)%Z with 64%Z.
  change (28 + 1)%Z with 29%Z. change (64 + 1)%Z with 65%Z.
  split; [reflexivity |]. split; [reflexivity |].
  split.
  { rewrite partial_sums_untouched; [reflexivity |].
    intros kx ky kz Hx Hy Hz. unfold ForceEwald.kidx_partial_sums. lia. }
  split.
  { rewrite partial_sums_untouched; [reflexivity |].
    intros kx ky kz Hx Hy Hz. unfold ForceEwald.kidx_partial_sums. lia. }
  split.
  { follow_slot. unfold zero_view, q_one, x_unit. cbn [Z.eqb].
    match goal with |- context [cos ?a] => replace a with 0 by lra end.
    rewrite cos_0. lra. }
  split.
  { follow_slot. unfold zero_view, q_one, x_unit. cbn [Z.eqb].
    match goal with |- context [sin ?a] => replace a with 0 by lra end.
    rewrite sin_0. lra. }
  split.
  { unfold q_one. rewrite Rmult_1_l.
    destruct (COS_bound (PI / 2)) as [_ Hle].
    destruct Hle as [Hlt | Heq]; [exact Hlt |].
    pose proof (sin2_cos2 (PI / 2)) as Hsc. rewrite Heq in Hsc.
    unfold Rsqr in Hsc. nra. }
  split.
  { unfold q_one. lra. }
  split; [reflexivity |].
  unfold ForceEwald.n_kvec. lia.
Qed.

(** * The self-energy stage *)

(** ** ForceEwald: calc_Uself *)

Lemma calc_Uself_p (alpha : R) (idx i : Z) (s : System) :
  p (ForceEwald.calc_Uself alpha idx s) i =
  if (i =? idx)%Z then p s idx + - alpha / PI_SQRT * q s idx * q s idx
  else p s i.
Proof. reflexivity. Qed.

Lemma calc_Uself_q (alpha : R) (idx : Z) (s : System) :
  q (ForceEwald.calc_Uself alpha idx s) = q s.
Proof. reflexivity. Qed.

(** Over any visiting order without repetition, every visited particle
    receives its own self term once, and no other potential changes. *)
Lemma calc_Uself_loop (alpha : R) (order : list Z) (s : System) :
  NoDup order ->
  let s' := for_each order (ForceEwald.calc_Uself alpha) s in
  q s' = q s /\
  forall i,
    p s' i = if in_dec Z.eq_dec i order
             then p s i + - alpha / PI_SQRT * q s i * q s i
             else p s i.
Proof.
  revert s. induction order as [| idx order IH]; intros s Hnd.
  - cbn. split; [reflexivity | intros i; reflexivity].
  - inversion Hnd as [| ? ? Hnotin Hnd']; subst.
    cbn [for_each fold_left].
    destruct (IH (ForceEwald.calc_Uself alpha idx s) Hnd') as [Hq Hp].
    unfold for_each in Hq, Hp. split.
    + rewrite Hq. reflexivity.
    + intros i. rewrite Hp, calc_Uself_p, calc_Uself_q.
      destruct (in_dec Z.eq_dec i order) as [Hin | Hnin];
        destruct (in_dec Z.eq_dec i (idx :: order)) as [Hin' | Hnin'];
        destruct (Z.eqb_spec i idx) as [-> | Hne];
        try reflexivity; try contradiction.
      * exfalso; apply Hnin'; right; exact Hin.
      * destruct Hin' as [Heq | Hin']; [congruence | contradiction].
      * exfalso; apply Hnin'; left; reflexivity.
Qed.

Lemma NoDup_zseq (lo : Z) (len : nat) : NoDup (zseq lo len).
Proof.
  unfold zseq. apply Injective_map_NoDup; [| apply seq_NoDup].
  intros a b H. lia.
Qed.

(** The stage as [compute] runs it: every particle below [N_max] receives
    [- alpha / PI_SQRT * q_i^2]. *)
Lemma calc_Uself_stage (alpha : R) (s : System) (i : Z) :
  (0 <= i < N_max s)%Z ->
  p (for_each (range_lt 0 (N_max s)) (ForceEwald.calc_Uself alpha) s) i =
  p s i + - alpha / PI_SQRT * q s i * q s i.
Proof.
  intros Hi.
  destruct (calc_Uself_loop alpha (range_lt 0 (N_max s)) s (NoDup_zseq _ _))
    as [_ Hp].
  rewrite Hp. destruct (in_dec Z.eq_dec i (range_lt 0 (N_max s))) as [_ | Hn].
  - reflexivity.
  - exfalso. apply Hn. apply in_range_lt. exact Hi.
Qed.

(** ** TPME: the self-energy reduction *)

(** C4 (code defect).  Two particles of charge 1, [alpha = 1], potentials 0
    before the stage.  The reduction of [TPME::compute] returns the right
    total [- 2 / PI_SQRT], but it adds the running sum of the worker to
    [p(idx)]: visiting 0 then 1, particle 1 receives [- 2 / PI_SQRT], twice
    its self term; visiting 1 then 0, it is particle 0 that does; with one
    worker per particle each receives [- 1 / PI_SQRT]. *)
Theorem self_energy_reduction_adds_running_sum :
  let w := (two_unit_charges, mesh0) in
  let run schedule :=
    parallel_reduce schedule (ForceSPME.self_energy_body 1) w in
  let p_after schedule := p (fst (fst (run schedule))) in
  snd (run (serial 2)) = Ok (- 2 / PI_SQRT) /\
  p_after (serial 2) 0%Z = - 1 / PI_SQRT /\
  p_after (serial 2) 1%Z = - 2 / PI_SQRT /\
  p_after (serial 2) 1%Z <> - 1 / PI_SQRT * (q two_unit_charges 1%Z
                                              * q two_unit_charges 1%Z) /\
  p_after [[1%Z; 0%Z]] 0%Z = - 2 / PI_SQRT /\
  p_after [[1%Z; 0%Z]] 1%Z = - 1 / PI_SQRT /\
  p_after [[0%Z]; [1%Z]] 0%Z = - 1 / PI_SQRT /\
  p_after [[0%Z]; [1%Z]] 1%Z = - 1 / PI_SQRT.
Proof.
  assert (HP : 0 < PI_SQRT) by (unfold PI_SQRT; lra).
  assert (Hinv : 0 < / PI_SQRT) by (apply Rinv_0_lt_compat; exact HP).
  cbv zeta.
  change (serial 2) with [[0%Z; 1%Z]].
  cbn -[PI_SQRT Rplus Rmult Rdiv Ropp Rinv].
  unfold Rdiv.
  repeat split; try (f_equal; lra); lra.
Qed.

(** * The real-space kernels *)

(** ** ForceEwald: force_contribs *)

(** A pair at distance 0 stops the kernel at its first division; nothing
    has been written. *)
Lemma force_contribs_pair_coincident (alpha : R) (i j : Z) (s : System) :
  pair_distance s i j = 0 ->
  ForceEwald.force_contribs_pair alpha i j s = (s, Fault division_by_zero).
Proof.
  unfold pair_distance. cbv zeta. intros Hd.
  unfold ForceEwald.force_contribs_pair, bind, get, checked_div.
  cbv zeta. rewrite Hd.
  destruct (Req_dec_T 0 0) as [_ | Hn]; [reflexivity | contradiction].
Qed.

(** A pair at nonzero distance: what the kernel adds. *)
Lemma force_contribs_pair_effect (alpha : R) (i j : Z) (s : System) :
  pair_distance s i j <> 0 ->
  let d := pair_distance s i j in
  let c := ewald_contrib (q s i) (q s j) alpha d in
  let F := ewald_f_fact (q s i) (q s j) alpha d in
  exists s',
    ForceEwald.force_contribs_pair alpha i j s = (s', Ok tt) /\
    x s' = x s /\ q s' = q s /\
    (forall k, p s' k = p s k + (if (k =? i)%Z then c else 0)
                              + (if (k =? j)%Z then c else 0)) /\
    (forall k e, (0 <= e < 3)%Z ->
       f s' k e =
       f s k e + (if (k =? i)%Z then F * (x s j e - x s i e) else 0)
               + (if (k =? j)%Z then - F * (x s j e - x s i e) else 0)).
Proof.
  intros Hd d c F.
  assert (Hdd : d * d <> 0).
  { intros H0. apply Rmult_integral in H0. destruct H0; contradiction. }
  unfold ForceEwald.force_contribs_pair, bind, get, checked_div, modify, ret.
  cbv zeta. fold (pair_distance s i j). fold d.
  destruct (Req_dec_T d 0) as [H0 | _]; [contradiction |].
  destruct (Req_dec_T (d * d) 0) as [H0 | _]; [contradiction |].
  eexists. split; [reflexivity |].
  cbn [x q p f set_p set_f].
  split; [reflexivity |]. split; [reflexivity |]. split.
  - intros k. unfold atomic_add1, assign1, c, ewald_contrib.
    repeat match goal with
           | |- context [(?a =? ?b)%Z] => destruct (Z.eqb_spec a b)
           end; subst; try congruence; lra.
  - intros k e He. unfold atomic_add2, assign2, F, ewald_f_fact.
    assert (He3 : e = 0%Z \/ e = 1%Z \/ e = 2%Z) by lia.
    destruct He3 as [-> | [-> | ->]]; cbn [Z.eqb Pos.eqb];
      rewrite ?andb_true_r, ?andb_false_r;
      repeat match goal with
             | |- context [(?a =? ?b)%Z] => destruct (Z.eqb_spec a b)
             end; subst; try congruence; lra.
Qed.

(** The analytic gradient of the pairwise potential
    [qi qj erfc(alpha r) / r] with respect to the separation. *)
Lemma screened_coulomb_gradient (qi qj alpha r : R) :
  r <> 0 ->
  derivable_pt_lim (screened_coulomb qi qj alpha) r
    (- (qi * qj *
        (erfc (alpha * r) +
         2 / sqrt Rtrigo1.PI * alpha * r * exp (- ((alpha * r) * (alpha * r))))
        / (r * r))).
Proof.
  intros Hr.
  pose proof (derivable_pt_lim_id r) as Hid.
  pose proof (derivable_pt_lim_scal id alpha r 1 Hid) as Hlin.
  pose proof (erfc_derivable_pt_lim (alpha * r)) as Herfc.
  pose proof (derivable_pt_lim_comp (mult_real_fct alpha id) erfc r _ _
                Hlin Herfc) as Hcomp.
  pose proof (derivable_pt_lim_scal _ (qi * qj) r _ Hcomp) as Hnum.
  pose proof (derivable_pt_lim_div _ id r _ 1 Hnum Hid Hr) as Hdiv.
  apply (derivable_pt_lim_ext
           (mult_real_fct (qi * qj) (comp erfc (mult_real_fct alpha id)) / id)%F).
  - intros z. reflexivity.
  - match goal with
    | H : derivable_pt_lim _ r ?l |- derivable_pt_lim _ r ?l' =>
        replace l' with l; [exact H |]
    end.
    unfold mult_real_fct, comp, id, Rsqr. field. split; [| exact Hr].
    pose proof sqrt_library_PI_bounds. lra.
Qed.

Lemma pair_on_axis_distance (d : R) :
  0 <= d -> pair_distance (pair_on_axis d) 0 1 = d.
Proof.
  intros Hd. unfold pair_distance, pair_on_axis. cbn [x Z.eqb Pos.eqb andb].
  replace ((d - 0) * (d - 0) + (0 - 0) * (0 - 0) + (0 - 0) * (0 - 0))
    with (d * d) by ring.
  apply sqrt_square. exact Hd.
Qed.

Lemma sqrt_inv_literal_PI_bounds : 1 / 2 < sqrt (1 / PI) < 6 / 10.
Proof.
  pose proof literal_PI_bounds as [H3 H4].
  assert (Hinv : 1 / 4 < 1 / PI < 1 / 3).
  { split.
    - unfold Rdiv. rewrite !Rmult_1_l. apply Rinv_lt_contravar; lra.
    - unfold Rdiv. rewrite !Rmult_1_l. apply Rinv_lt_contravar; lra. }
  split.
  - replace (1 / 2) with (sqrt (1 / 4)).
    + apply sqrt_lt_1; lra.
    + replace (1 / 4) with ((1 / 2) * (1 / 2)) by lra. apply sqrt_square. lra.
  - replace (6 / 10) with (sqrt (36 / 100)).
    + apply sqrt_lt_1; lra.
    + replace (36 / 100) with ((6 / 10) * (6 / 10)) by lra.
      apply sqrt_square. lra.
Qed.

(** C2 (code defect).  Two particles of charge 1 at distance 1/2 on the x
    axis, [alpha = 1], forces and potentials 0 before the pair is visited.
    - As claimed, both potentials receive [0.5 qi qj erfc(alpha d) / d] and
      the two forces are opposite, so of the same norm.
    - That norm is [2 (2 sqrt(1/PI) exp(-1/4) + erfc(1/2))].  The negative
      gradient of [qi qj erfc(alpha r) / r] at [r = 1/2] is
      [G = 4 erfc(1/2) + 4 / sqrt(pi) exp(-1/4)], which is larger. *)
Theorem force_contribs_norm_is_not_the_gradient :
  let s := pair_on_axis (1 / 2) in
  let d := pair_distance s 0 1 in
  let G := 4 * erfc (1 / 2) + 4 / sqrt Rtrigo1.PI * exp (- (1 / 4)) in
  exists s',
    ForceEwald.force_contribs_pair 1 0 1 s = (s', Ok tt) /\
    d = 1 / 2 /\
    p s' 0%Z = 0.5 * q s 0%Z * q s 1%Z * erfc (1 * d) / d /\
    p s' 1%Z = 0.5 * q s 0%Z * q s 1%Z * erfc (1 * d) / d /\
    (forall e, (0 <= e < 3)%Z -> f s' 1%Z e = - f s' 0%Z e) /\
    force_norm s' 0 = force_norm s' 1 /\
    force_norm s' 0 = 2 * (2 * sqrt (1 / PI) * exp (- (1 / 4)) + erfc (1 / 2)) /\
    derivable_pt_lim (screened_coulomb (q s 0%Z) (q s 1%Z) 1) d (- G) /\
    force_norm s' 0 < G.
Proof.
  intros s d G.
  assert (Hd : d = 1 / 2) by (apply pair_on_axis_distance; lra).
  assert (Hd0 : pair_distance s 0 1 <> 0) by (fold d; lra).
  destruct (force_contribs_pair_effect 1 0 1 s Hd0) as (s' & Hrun & _ & _ & Hp & Hf).
  fold d in Hp, Hf. cbv zeta in Hp, Hf.
  (* numeric facts *)
  pose proof sqrt_inv_literal_PI_bounds as [HT1 HT2].
  destruct sqrt_library_PI_bounds as [HS1 HS2].
  assert (Hu : 1 / 2 <= / sqrt Rtrigo1.PI < 10 / 17).
  { split.
    - replace (1 / 2) with (/ 2) by lra. apply Rinv_le_contravar; lra.
    - replace (10 / 17) with (/ (17 / 10)) by field.
      apply Rinv_lt_contravar; [nra | lra]. }
  assert (HE : 0 < exp (- (1 / 4)) < 1).
  { split; [apply exp_pos |].
    apply Rlt_le_trans with (exp 0); [apply exp_increasing; lra |].
    rewrite exp_0. lra. }
  assert (Hc : 1 - / sqrt Rtrigo1.PI <= erfc (1 / 2)).
  { destruct (erfc_bounds (1 / 2)) as [Hlo _]; [lra |].
    unfold Rdiv in Hlo |- *. lra. }
  (* the force on particle 0 *)
  assert (HF : ewald_f_fact (q s 0%Z) (q s 1%Z) 1 d =
               4 * (2 * sqrt (1 / PI) * exp (- (1 / 4)) + erfc (1 / 2))).
  { unfold ewald_f_fact. rewrite Hd. cbn [q s pair_on_axis].
    rewrite sqrt_1.
    replace (- (1) * (1 / 2) * (1 / 2)) with (- (1 / 4)) by lra.
    replace (1 * (1 / 2)) with (1 / 2) by lra. lra. }
  assert (Hf0 : f s' 0%Z 0%Z = 2 * (2 * sqrt (1 / PI) * exp (- (1 / 4)) + erfc (1 / 2))
                /\ f s' 0%Z 1%Z = 0 /\ f s' 0%Z 2%Z = 0).
  { repeat split; rewrite Hf by lia; rewrite HF;
      cbn [f x s pair_on_axis Z.eqb andb Pos.eqb]; lra. }
  assert (Hf1 : forall e, (0 <= e < 3)%Z -> f s' 1%Z e = - f s' 0%Z e).
  { intros e He. rewrite !Hf by lia.
    cbn [f x s pair_on_axis Z.eqb andb Pos.eqb]. lra. }
  destruct Hf0 as (Hfx & Hfy & Hfz).
  set (Fc := 2 * (2 * sqrt (1 / PI) * exp (- (1 / 4)) + erfc (1 / 2))) in *.
  assert (HFc : 0 < Fc).
  { unfold Fc. assert (0 < sqrt (1 / PI) * exp (- (1 / 4))) by nra. lra. }
  assert (Hnorm0 : force_norm s' 0 = Fc).
  { unfold force_norm. rewrite Hfx, Hfy, Hfz.
    replace (Fc * Fc + 0 * 0 + 0 * 0) with (Fc * Fc) by ring.
    apply sqrt_square. lra. }
  exists s'. split; [exact Hrun |]. split; [exact Hd |].
  split.
  { rewrite Hp. cbn [p s pair_on_axis Z.eqb Pos.eqb]. unfold ewald_contrib.
    lra. }
  split.
  { rewrite Hp. cbn [p s pair_on_axis Z.eqb Pos.eqb]. unfold ewald_contrib.
    lra. }
  split; [exact Hf1 |].
  split.
  { unfold force_norm. rewrite !Hf1 by lia. f_equal. ring. }
  split; [exact Hnorm0 |].
  split.
  { pose proof (screened_coulomb_gradient (q s 0%Z) (q s 1%Z) 1 d) as Hg.
    match type of Hg with
    | _ -> derivable_pt_lim _ _ ?l => replace (- G) with l; [apply Hg; lra |]
    end.
    unfold G. rewrite Hd. cbn [q s pair_on_axis].
    replace (1 * (1 / 2) * (1 * (1 / 2))) with (1 / 4) by lra.
    replace (1 * (1 / 2)) with (1 / 2) by lra.
    unfold Rdiv. field. lra. }
  rewrite Hnorm0. unfold Fc, G.
  assert (Hprod : - (1 / 10) < exp (- (1 / 4)) * (/ sqrt Rtrigo1.PI - sqrt (1 / PI))).
  { assert (0 < exp (- (1 / 4)) * (/ sqrt Rtrigo1.PI - sqrt (1 / PI) + 1 / 10)) by
      (apply Rmult_lt_0_compat; lra).
    nra. }
  unfold Rdiv in *. nra.
Qed.

(** ** TPME: the all-pairs loop is guarded *)

(** For every pair and every image the body ends normally: each of its
    divisions has a nonzero denominator.  Beyond [r_max], and below the
    distance 1e-12, the contribution to the potential is 0 and the force is
    left as it was. *)
Lemma realspace_image_guarded (alpha r_max lx ly lz : R) (i j pz py px : Z)
    (w : ForceSPME.World) :
  let d := image_distance (fst w) lx ly lz i j pz py px in
  exists w' contrib,
    ForceSPME.realspace_image alpha r_max lx ly lz i j pz py px w =
      (w', Ok contrib) /\
    snd w' = snd w /\ x (fst w') = x (fst w) /\ q (fst w') = q (fst w) /\
    p (fst w') = p (fst w) /\
    (r_max < d \/ d < 1e-12 ->
     contrib = 0 /\ forall k e, f (fst w') k e = f (fst w) k e).
Proof.
  intros d.
  assert (Hd0 : 0 <= d) by (unfold d, image_distance; apply sqrt_pos).
  unfold ForceSPME.realspace_image, bind, get.
  cbv zeta. fold (image_distance (fst w) lx ly lz i j pz py px). fold d.
  rewrite (Rabs_pos_eq d Hd0).
  unfold checked_div, ret, throw, ForceSPME.on_system, modify.
  unfold Rgeb, Rleb, b2r.
  destruct (Rle_dec d r_max) as [Hr | Hr];
    destruct (Rle_dec 1e-12 d) as [Ht | Ht];
    destruct (Rle_dec d 1e-12) as [Hs | Hs]; cbn [andb];
    repeat match goal with
           | |- context [Req_dec_T ?a 0] =>
               destruct (Req_dec_T a 0); [exfalso; nra |]
           end;
    (eexists; eexists; split; [reflexivity |]);
    cbn [fst snd x q p f set_f];
    (split; [reflexivity |]); (split; [reflexivity |]);
    (split; [reflexivity |]); (split; [reflexivity |]);
    intros [Hbig | Hsmall]; try lra;
    (split; [lra |]);
    intros k e; unfold atomic_add2, assign2;
    repeat match goal with
           | |- context [(?a =? ?b)%Z] => destruct (Z.eqb_spec a b)
           end; cbn [andb]; subst; try reflexivity; try lia; unfold Rdiv; ring.
Qed.

(** * Charge spreading *)

(** ** Finite sums *)

Lemma sum_over_app (l1 l2 : list Z) (g : Z -> R) :
  sum_over (l1 ++ l2) g = sum_over l1 g + sum_over l2 g.
Proof.
  unfold sum_over. induction l1 as [| i l1 IH]; cbn [app fold_right].
  - lra.
  - rewrite IH. lra.
Qed.

Lemma sum_over_ext (l : list Z) (g1 g2 : Z -> R) :
  (forall i, In i l -> g1 i = g2 i) -> sum_over l g1 = sum_over l g2.
Proof.
  unfold sum_over. induction l as [| i l IH]; intros H; cbn [fold_right].
  - reflexivity.
  - rewrite (H i) by (left; reflexivity). rewrite IH; [reflexivity |].
    intros j Hj. apply H. right; exact Hj.
Qed.

Lemma sum_over_scal (l : list Z) (c : R) (g : Z -> R) :
  sum_over l (fun i => c * g i) = c * sum_over l g.
Proof.
  unfold sum_over. induction l as [| i l IH]; cbn [fold_right].
  - lra.
  - rewrite IH. lra.
Qed.

Lemma sum_over_scal_r (l : list Z) (c : R) (g : Z -> R) :
  sum_over l (fun i => g i * c) = sum_over l g * c.
Proof.
  unfold sum_over. induction l as [| i l IH]; cbn [fold_right].
  - lra.
  - rewrite IH. lra.
Qed.

Lemma sum_over_plus (l : list Z) (g1 g2 : Z -> R) :
  sum_over l (fun i => g1 i + g2 i) = sum_over l g1 + sum_over l g2.
Proof.
  unfold sum_over. induction l as [| i l IH]; cbn [fold_right].
  - lra.
  - rewrite IH. lra.
Qed.

Lemma sum_over_zero (l : list Z) (g : Z -> R) :
  (forall i, In i l -> g i = 0) -> sum_over l g = 0.
Proof.
  unfold sum_over. induction l as [| i l IH]; intros H; cbn [fold_right].
  - reflexivity.
  - rewrite (H i) by (left; reflexivity). rewrite IH; [lra |].
    intros j Hj. apply H. right; exact Hj.
Qed.

Lemma sum_over_swap (l1 l2 : list Z) (g : Z -> Z -> R) :
  sum_over l1 (fun i => sum_over l2 (fun j => g i j)) =
  sum_over l2 (fun j => sum_over l1 (fun i => g i j)).
Proof.
  induction l1 as [| i l1 IH].
  - cbn. symmetry. apply sum_over_zero. intros; reflexivity.
  - change (sum_over (i :: l1) (fun i0 => sum_over l2 (fun j => g i0 j)))
      with (sum_over l2 (fun j => g i j) +
            sum_over l1 (fun i0 => sum_over l2 (fun j => g i0 j))).
    rewrite IH, <- sum_over_plus. apply sum_over_ext. intros j _. reflexivity.
Qed.

(** The indicator of one index of a list without repetition. *)
Lemma sum_over_indicator (l : list Z) (k : Z) (g : Z -> R) :
  NoDup l ->
  sum_over l (fun i => if (k =? i)%Z then g i else 0) =
  if in_dec Z.eq_dec k l then g k else 0.
Proof.
  intros Hnd. induction Hnd as [| i l Hni Hnd IH].
  - reflexivity.
  - change (sum_over (i :: l) (fun i0 => if (k =? i0)%Z then g i0 else 0))
      with ((if (k =? i)%Z then g i else 0) +
            sum_over l (fun i0 => if (k =? i0)%Z then g i0 else 0)).
    rewrite IH.
    destruct (Z.eqb_spec k i) as [Heq | Hne].
    + subst k.
      destruct (in_dec Z.eq_dec i l) as [Hin | Hnin]; [contradiction |].
      destruct (in_dec Z.eq_dec i (i :: l)) as [Hin' | Hnin']; [lra |].
      exfalso. apply Hnin'. left; reflexivity.
    + destruct (in_dec Z.eq_dec k l) as [Hk | Hk];
        destruct (in_dec Z.eq_dec k (i :: l)) as [Hk' | Hk']; try lra.
      * exfalso. apply Hk'. right; exact Hk.
      * destruct Hk' as [Heq | Hk']; [congruence | contradiction].
Qed.

Lemma zseq_shift (lo : Z) (len : nat) :
  zseq lo len = map (fun i => (i + lo)%Z) (zseq 0 len).
Proof.
  unfold zseq. rewrite map_map. apply map_ext. intros; lia.
Qed.

Lemma sum_over_map (l : list Z) (h : Z -> Z) (g : Z -> R) :
  sum_over (map h l) g = sum_over l (fun i => g (h i)).
Proof.
  unfold sum_over. induction l as [| i l IH]; cbn [map fold_right].
  - reflexivity.
  - rewrite IH. reflexivity.
Qed.

Lemma map_seq_shift {A : Type} (g : nat -> A) (n1 start len : nat) :
  map g (seq (n1 + start) len) = map (fun i => g (n1 + i)%nat) (seq start len).
Proof.
  revert start. induction len as [| len IH]; intros start; cbn [seq map].
  - reflexivity.
  - f_equal. rewrite <- IH. f_equal. f_equal. lia.
Qed.

Lemma zseq_add (lo : Z) (n1 n2 : nat) :
  zseq lo (n1 + n2) = zseq lo n1 ++ zseq (lo + Z.of_nat n1) n2.
Proof.
  unfold zseq. rewrite seq_app, map_app. f_equal.
  replace (0 + n1)%nat with (n1 + 0)%nat by lia.
  rewrite map_seq_shift. apply map_ext. intros i. lia.
Qed.

(** A range of [a * b] indices, summed by blocks of [a]. *)
Lemma sum_over_blocks (a b : nat) (g : Z -> R) :
  sum_over (zseq 0 (b * a)) g =
  sum_over (zseq 0 b)
           (fun j => sum_over (zseq 0 a) (fun i => g (i + Z.of_nat a * j)%Z)).
Proof.
  induction b as [| b IH].
  - reflexivity.
  - replace (S b * a)%nat with (b * a + a)%nat by lia.
    rewrite zseq_add, sum_over_app, IH.
    replace (S b) with (b + 1)%nat by lia.
    rewrite zseq_add, sum_over_app. f_equal.
    change (zseq (0 + Z.of_nat b) 1) with [(0 + Z.of_nat b + Z.of_nat 0)%Z].
    unfold sum_over at 2. cbn [fold_right]. rewrite Rplus_0_r.
    rewrite (zseq_shift (0 + Z.of_nat (b * a))), sum_over_map.
    apply sum_over_ext. intros i _. f_equal. lia.
Qed.

(** ** What the spreading loops add to the mesh charge *)

Lemma spread_q_body_effect (spacing : R) (s : System) (idx pidx : Z) (m : Mesh) :
  let m' := ForceSPME.spread_q_body spacing s idx pidx m in
  mesh_size m' = mesh_size m /\ meshr m' = meshr m /\
  forall k, meshq m' k =
            meshq m k + (if (k =? idx)%Z then spread_term spacing s m idx pidx
                         else 0).
Proof.
  cbv zeta. unfold ForceSPME.spread_q_body, spread_term, axis_weight.
  unfold ForceSPME.r. cbv zeta.
  destruct (Rleb (ForceSPME.spread_dist (meshr m idx 0%Z) (x s pidx 0%Z))
                 (2.0 * spacing));
    destruct (Rleb (ForceSPME.spread_dist (meshr m idx 1%Z) (x s pidx 1%Z))
                   (2.0 * spacing));
    destruct (Rleb (ForceSPME.spread_dist (meshr m idx 2%Z) (x s pidx 2%Z))
                   (2.0 * spacing));
    cbn [andb mesh_size meshr meshq set_meshq];
    (split; [reflexivity |]); (split; [reflexivity |]);
    intros k; unfold assign1; destruct (Z.eqb_spec k idx); subst; lra.
Qed.

Lemma spread_q_effect (spacing : R) (s : System) (idx : Z) (particles : list Z)
    (m : Mesh) :
  let m' := for_each particles (ForceSPME.spread_q_body spacing s idx) m in
  mesh_size m' = mesh_size m /\ meshr m' = meshr m /\
  forall k, meshq m' k =
            meshq m k +
            (if (k =? idx)%Z
             then sum_over particles (spread_term spacing s m idx) else 0).
Proof.
  cbv zeta. revert m. induction particles as [| pidx l IH]; intros m.
  - cbn. repeat split. intros k. destruct (k =? idx)%Z; lra.
  - cbn [for_each fold_left].
    destruct (spread_q_body_effect spacing s idx pidx m) as (Hs & Hr & Hq).
    destruct (IH (ForceSPME.spread_q_body spacing s idx pidx m))
      as (Hs' & Hr' & Hq').
    unfold for_each in *. rewrite Hs', Hr', Hs, Hr.
    split; [reflexivity |]. split; [reflexivity |].
    intros k. rewrite Hq', Hq.
    assert (Hterm : forall p0,
              spread_term spacing s
                (ForceSPME.spread_q_body spacing s idx pidx m) idx p0 =
              spread_term spacing s m idx p0).
    { intros p0. unfold spread_term. rewrite Hr. reflexivity. }
    rewrite (sum_over_ext l
               (spread_term spacing s
                  (ForceSPME.spread_q_body spacing s idx pidx m) idx)
               (spread_term spacing s m idx))
      by (intros; apply Hterm).
    change (sum_over (pidx :: l) (spread_term spacing s m idx))
      with (spread_term spacing s m idx pidx +
            sum_over l (spread_term spacing s m idx)).
    destruct (k =? idx)%Z; lra.
Qed.

Lemma spread_loop_effect (spacing : R) (s : System) (points : list Z)
    (m : Mesh) :
  NoDup points ->
  let m' := for_each points (ForceSPME.spread_q spacing s) m in
  mesh_size m' = mesh_size m /\ meshr m' = meshr m /\
  forall k, meshq m' k =
            meshq m k +
            (if in_dec Z.eq_dec k points
             then sum_over (range_lt 0 (N s)) (spread_term spacing s m k)
             else 0).
Proof.
  intros Hnd. cbv zeta. revert m.
  induction Hnd as [| idx l Hni Hnd IH]; intros m.
  - cbn. repeat split. intros k. lra.
  - cbn [for_each fold_left].
    destruct (spread_q_effect spacing s idx (range_lt 0 (N s)) m)
      as (Hs & Hr & Hq).
    change (for_each (range_lt 0 (N s)) (ForceSPME.spread_q_body spacing s idx) m)
      with (ForceSPME.spread_q spacing s idx m) in Hs, Hr, Hq.
    destruct (IH (ForceSPME.spread_q spacing s idx m)) as (Hs' & Hr' & Hq').
    unfold for_each in *. rewrite Hs', Hr', Hs, Hr.
    split; [reflexivity |]. split; [reflexivity |].
    intros k. rewrite Hq', Hq.
    assert (Hterm : forall p0,
              spread_term spacing s (ForceSPME.spread_q spacing s idx m) k p0 =
              spread_term spacing s m k p0).
    { intros p0. unfold spread_term. rewrite Hr. reflexivity. }
    rewrite (sum_over_ext (range_lt 0 (N s))
               (spread_term spacing s (ForceSPME.spread_q spacing s idx m) k)
               (spread_term spacing s m k))
      by (intros; apply Hterm).
    destruct (Z.eqb_spec k idx) as [Heq | Hne].
    + subst k.
      destruct (in_dec Z.eq_dec idx l) as [Hin | _]; [contradiction |].
      destruct (in_dec Z.eq_dec idx (idx :: l)) as [_ | Hn]; [lra |].
      exfalso. apply Hn. left; reflexivity.
    + destruct (in_dec Z.eq_dec k l) as [Hin | Hnin];
        destruct (in_dec Z.eq_dec k (idx :: l)) as [Hin' | Hnin']; try lra.
      * exfalso. apply Hnin'. right; exact Hin.
      * destruct Hin' as [Heq | Hin']; [congruence | contradiction].
Qed.

(** The total mesh charge after the stage: what was there, plus, for every
    particle, its charge times the weights of all mesh points. *)
Lemma spread_stage_total (s : System) (m : Mesh) :
  let spacing := meshr m 1%Z 0%Z - meshr m 0%Z 0%Z in
  total_mesh_charge (spread_stage s m) =
  total_mesh_charge m +
  sum_over (range_lt 0 (N s))
           (fun pidx =>
              sum_over (range_lt 0 (mesh_size m))
                       (fun k => spread_term spacing s m k pidx)).
Proof.
  cbv zeta. unfold total_mesh_charge, spread_stage. cbv zeta.
  set (spacing := meshr m 1%Z 0%Z - meshr m 0%Z 0%Z).
  destruct (spread_loop_effect spacing s (range_lt 0 (mesh_size m)) m
              (NoDup_zseq _ _)) as (Hs & _ & Hq).
  cbv zeta in Hs, Hq. rewrite Hs.
  rewrite (sum_over_ext _ _
             (fun k => meshq m k +
                       sum_over (range_lt 0 (N s)) (spread_term spacing s m k))).
  - rewrite sum_over_plus. f_equal.
    apply (sum_over_swap (range_lt 0 (mesh_size m)) (range_lt 0 (N s))
                         (fun k pidx => spread_term spacing s m k pidx)).
  - intros k Hk. rewrite Hq.
    destruct (in_dec Z.eq_dec k (range_lt 0 (mesh_size m))); [reflexivity |].
    contradiction.
Qed.

(** ** The cubic lattice: the weights of the mesh points factor by axis *)

Lemma range_lt_0_nat (n : nat) : range_lt 0 (Z.of_nat n) = zseq 0 n.
Proof. unfold range_lt. f_equal. lia. Qed.

Lemma sum_over_product (Mn : nat) (A B : Z -> R) :
  let M := Z.of_nat Mn in
  sum_over (zseq 0 (Mn * Mn)) (fun k => A (k mod M)%Z * B (k / M)%Z) =
  sum_over (zseq 0 Mn) A * sum_over (zseq 0 Mn) B.
Proof.
  cbv zeta. rewrite sum_over_blocks.
  rewrite (sum_over_ext (zseq 0 Mn) _
             (fun j => sum_over (zseq 0 Mn) A * B j)).
  - rewrite sum_over_scal. reflexivity.
  - intros j Hj. apply in_zseq in Hj.
    rewrite <- sum_over_scal_r. apply sum_over_ext. intros i Hi.
    apply in_zseq in Hi.
    replace ((i + Z.of_nat Mn * j) mod Z.of_nat Mn)%Z with i.
    + replace ((i + Z.of_nat Mn * j) / Z.of_nat Mn)%Z with j; [reflexivity |].
      rewrite Z.mul_comm, Z.div_add by lia. rewrite Z.div_small by lia. lia.
    + rewrite Z.mul_comm, Z.mod_add by lia. rewrite Z.mod_small by lia.
      reflexivity.
Qed.

Lemma cubic_mesh_spacing (Mn : nat) (h : R) :
  (2 <= Mn)%nat ->
  let m := cubic_mesh (Z.of_nat Mn) h in
  meshr m 1%Z 0%Z - meshr m 0%Z 0%Z = h.
Proof.
  intros HM. cbv zeta. unfold cubic_mesh. cbn [meshr Z.eqb].
  rewrite Z.mod_1_l by lia. rewrite Z.mod_0_l by lia. lra.
Qed.

Lemma cubic_mesh_weights_factor (Mn : nat) (h : R) (s : System) (pidx : Z) :
  (2 <= Mn)%nat ->
  let M := Z.of_nat Mn in
  let m := cubic_mesh M h in
  sum_over (range_lt 0 (mesh_size m)) (fun k => spread_term h s m k pidx) =
  q s pidx * axis_weight_sum M h (x s pidx 0%Z) *
  axis_weight_sum M h (x s pidx 1%Z) * axis_weight_sum M h (x s pidx 2%Z).
Proof.
  intros HM. cbv zeta. unfold axis_weight_sum. rewrite !range_lt_0_nat.
  set (M := Z.of_nat Mn).
  set (A := fun i : Z => axis_weight h (h * IZR i) (x s pidx 0%Z)).
  set (B := fun i : Z => axis_weight h (h * IZR i) (x s pidx 1%Z)).
  set (C := fun i : Z => axis_weight h (h * IZR i) (x s pidx 2%Z)).
  change (mesh_size (cubic_mesh M h)) with (M * (M * M))%Z.
  replace (M * (M * M))%Z with (Z.of_nat (Mn * Mn * Mn)) by (unfold M; lia).
  rewrite range_lt_0_nat, sum_over_blocks.
  rewrite (sum_over_ext (zseq 0 (Mn * Mn)) _
             (fun j => q s pidx * sum_over (zseq 0 Mn) A *
                       (B (j mod M)%Z * C (j / M)%Z))).
  - rewrite sum_over_scal.
    pose proof (sum_over_product Mn B C) as HP. cbv zeta in HP. fold M in HP.
    rewrite HP. ring.
  - intros j Hj. apply in_zseq in Hj.
    rewrite <- sum_over_scal, <- sum_over_scal_r.
    apply sum_over_ext. intros i Hi. apply in_zseq in Hi.
    unfold spread_term, cubic_mesh. cbn [meshr Z.eqb Pos.eqb].
    fold M.
    replace ((i + M * j) mod M)%Z with i.
    + replace ((i + M * j) / M)%Z with j; [unfold A, B, C; ring |].
      rewrite Z.mul_comm, Z.div_add by (unfold M; lia).
      rewrite Z.div_small by (unfold M; lia). lia.
    + rewrite Z.mul_comm, Z.mod_add by (unfold M; lia).
      rewrite Z.mod_small by (unfold M; lia). reflexivity.
Qed.

(** Spreading onto an empty cubic lattice: the total mesh charge is the sum
    over the particles of the charge times the three axis sums. *)
Lemma spread_stage_cubic_mesh_total (Mn : nat) (h : R) (s : System) :
  (2 <= Mn)%nat ->
  let M := Z.of_nat Mn in
  total_mesh_charge (spread_stage s (cubic_mesh M h)) =
  sum_over (range_lt 0 (N s))
           (fun pidx =>
              q s pidx * axis_weight_sum M h (x s pidx 0%Z) *
              axis_weight_sum M h (x s pidx 1%Z) *
              axis_weight_sum M h (x s pidx 2%Z)).
Proof.
  intros HM. cbv zeta. rewrite spread_stage_total. cbv zeta.
  rewrite (cubic_mesh_spacing Mn h HM).
  assert (H0 : total_mesh_charge (cubic_mesh (Z.of_nat Mn) h) = 0).
  { unfold total_mesh_charge. apply sum_over_zero. intros; reflexivity. }
  rewrite H0, Rplus_0_l.
  apply sum_over_ext. intros pidx _.
  apply (cubic_mesh_weights_factor Mn h s pidx HM).
Qed.

(** ** The weights of one axis at sample positions *)

Ltac spread_dist_is d0 :=
  match goal with
  | |- context [ForceSPME.spread_dist ?m ?r] =>
      let H := fresh "Hdist" in
      assert (H : ForceSPME.spread_dist m r = d0);
      [ unfold ForceSPME.spread_dist, Rmin, Rabs;
        repeat match goal with
               | |- context [Rcase_abs ?a] => destruct (Rcase_abs a)
               | |- context [Rle_dec ?a ?b] => destruct (Rle_dec a b)
               end;
        repeat match goal with
               | H0 : context [Rle_dec ?a ?b] |- _ => destruct (Rle_dec a b)
               end; lra
      | rewrite !H; clear H ]
  end.

Ltac axis_weight_is d0 :=
  unfold axis_weight; spread_dist_is d0;
  unfold oneDspline; rcases; lra.

Lemma axis_weights_box8 :
  axis_weight 1 (1 * IZR 0) 4 = 0 /\ axis_weight 1 (1 * IZR 1) 4 = 0 /\
  axis_weight 1 (1 * IZR 2) 4 = 1 / 6 /\ axis_weight 1 (1 * IZR 3) 4 = 2 / 3 /\
  axis_weight 1 (1 * IZR 4) 4 = 2 / 3 /\ axis_weight 1 (1 * IZR 5) 4 = 2 / 3 /\
  axis_weight 1 (1 * IZR 6) 4 = 1 / 6 /\ axis_weight 1 (1 * IZR 7) 4 = 0.
Proof.
  repeat split.
  - axis_weight_is 3.
  - axis_weight_is 2.
  - axis_weight_is 1.
  - axis_weight_is 0.
  - axis_weight_is 0.
  - axis_weight_is 0.
  - axis_weight_is 1.
  - axis_weight_is 2.
Qed.

(** In the box of edge 8 with spacing 1, the mesh coordinates 3 and 5 are
    at distance 1 from the particle at 4, and the test against the images
    at 4 + 1.0 and 4 - 1.0 gives them distance 0. *)
Lemma axis_weight_sum_box8 : axis_weight_sum 8 1 4 = 7 / 3.
Proof.
  unfold axis_weight_sum.
  change (range_lt 0 8) with [0; 1; 2; 3; 4; 5; 6; 7]%Z.
  unfold sum_over. cbn [fold_right].
  destruct axis_weights_box8 as (H0 & H1 & H2 & H3 & H4 & H5 & H6 & H7).
  rewrite H0, H1, H2, H3, H4, H5, H6, H7. lra.
Qed.

Lemma axis_weights_unit_box :
  axis_weight (1 / 8) (1 / 8 * IZR 0) (1 / 2) = 0 /\
  axis_weight (1 / 8) (1 / 8 * IZR 1) (1 / 2) = 0 /\
  axis_weight (1 / 8) (1 / 8 * IZR 2) (1 / 2) = 0 /\
  axis_weight (1 / 8) (1 / 8 * IZR 3) (1 / 2) = 1 / 6 /\
  axis_weight (1 / 8) (1 / 8 * IZR 4) (1 / 2) = 2 / 3 /\
  axis_weight (1 / 8) (1 / 8 * IZR 5) (1 / 2) = 1 / 6 /\
  axis_weight (1 / 8) (1 / 8 * IZR 6) (1 / 2) = 0 /\
  axis_weight (1 / 8) (1 / 8 * IZR 7) (1 / 2) = 0.
Proof.
  repeat split.
  - axis_weight_is (1 / 2).
  - axis_weight_is (3 / 8).
  - axis_weight_is (1 / 4).
  - axis_weight_is (1 / 8).
  - axis_weight_is 0.
  - axis_weight_is (1 / 8).
  - axis_weight_is (1 / 4).
  - axis_weight_is (3 / 8).
Qed.

Lemma axis_weight_sum_unit_box : axis_weight_sum 8 (1 / 8) (1 / 2) = 1.
Proof.
  unfold axis_weight_sum.
  change (range_lt 0 8) with [0; 1; 2; 3; 4; 5; 6; 7]%Z.
  unfold sum_over. cbn [fold_right].
  destruct axis_weights_unit_box as (H0 & H1 & H2 & H3 & H4 & H5 & H6 & H7).
  rewrite H0, H1, H2, H3, H4, H5, H6, H7. lra.
Qed.

(** C8 (code defect).  One particle of charge 1 at the centre (4,4,4) of a
    cubic box of edge 8, spread onto the empty 8 x 8 x 8 lattice of spacing
    1.  The particle is four spacings from every face.  The total mesh
    charge after the stage is (7/3)^3 = 343/27, not the charge 1 of the
    particle: the nearest-image test of spread_q uses the period 1.0 where
    the box edge is 8.  With the same lattice scaled to the unit box
    (spacing 1/8, particle at the centre) the total is 1. *)
Theorem spread_q_period_one_breaks_conservation :
  total_mesh_charge (spread_stage central_particle (cubic_mesh 8 1)) = 343 / 27 /\
  sum_over (range_lt 0 (N central_particle)) (q central_particle) = 1 /\
  total_mesh_charge (spread_stage central_particle (cubic_mesh 8 1)) <>
    sum_over (range_lt 0 (N central_particle)) (q central_particle) /\
  total_mesh_charge (spread_stage unit_box_particle (cubic_mesh 8 (1 / 8))) = 1.
Proof.
  assert (H8 : total_mesh_charge (spread_stage central_particle (cubic_mesh 8 1))
               = 343 / 27).
  { change (cubic_mesh 8 1) with (cubic_mesh (Z.of_nat 8) 1).
    rewrite (spread_stage_cubic_mesh_total 8 1 central_particle) by lia.
    change (Z.of_nat 8) with 8%Z.
    change (range_lt 0 (N central_particle)) with [0%Z].
    unfold sum_over. cbn [fold_right q x central_particle].
    rewrite axis_weight_sum_box8. lra. }
  assert (Hq : sum_over (range_lt 0 (N central_particle)) (q central_particle) = 1).
  { change (range_lt 0 (N central_particle)) with [0%Z].
    unfold sum_over. cbn [fold_right q central_particle]. lra. }
  split; [exact H8 |]. split; [exact Hq |]. split; [rewrite H8, Hq; lra |].
  change (cubic_mesh 8 (1 / 8)) with (cubic_mesh (Z.of_nat 8) (1 / 8)).
  rewrite (spread_stage_cubic_mesh_total 8 (1 / 8) unit_box_particle) by lia.
  change (Z.of_nat 8) with 8%Z.
  change (range_lt 0 (N unit_box_particle)) with [0%Z].
  unfold sum_over. cbn [fold_right q x unit_box_particle].
  rewrite axis_weight_sum_unit_box. lra.
Qed.

(** ** Partition of unity of the spline weights

    Where the images at +1.0 and -1.0 stay out of the stencil, the weights
    of one axis over the lattice sum to 1. *)

Lemma spline_partition_of_unity (s : R) :
  0 <= s <= 1 ->
  spreading_weight (- 1 - s) + spreading_weight (- s) +
  spreading_weight (1 - s) + spreading_weight (2 - s) = 1.
Proof.
  intros Hs.
  rewrite (spreading_weight_left_outer (- 1 - s)) by lra.
  rewrite (spreading_weight_left_inner (- s)) by lra.
  rewrite (spreading_weight_right_inner (1 - s)) by lra.
  rewrite (spreading_weight_right_outer (2 - s)) by lra.
  unfold cubic. field.
Qed.

Lemma Rabs_div_pos (t h : R) : 0 < h -> Rabs (t / h) = Rabs t / h.
Proof.
  intros Hh. unfold Rdiv. rewrite Rabs_mult.
  rewrite (Rabs_pos_eq (/ h)); [reflexivity |].
  left. apply Rinv_0_lt_compat. exact Hh.
Qed.

(** Without an image within two spacings, the test of spread_q selects the
    particle itself, and the weight is the spline of the true offset. *)
Lemma axis_weight_without_alias (h m r : R) :
  0 < h -> Rabs (m - r) + 2 * h < 1 ->
  axis_weight h m r = spreading_weight ((m - r) / h).
Proof.
  intros Hh Hfar.
  assert (Hdist :
    (Rabs (m - r) <= 2 * h -> ForceSPME.spread_dist m r = Rabs (m - r)) /\
    (2 * h < Rabs (m - r) -> 2 * h < ForceSPME.spread_dist m r)).
  { unfold ForceSPME.spread_dist, Rmin, Rabs in *.
    destruct (Rcase_abs (m - r)); destruct (Rcase_abs (m - (r + 1.0)));
      destruct (Rcase_abs (m - (r - 1.0)));
      repeat match goal with
             | |- context [Rle_dec ?a ?b] => destruct (Rle_dec a b)
             end;
      repeat match goal with
             | H0 : context [Rle_dec ?a ?b] |- _ => destruct (Rle_dec a b)
             end; split; intros; lra. }
  destruct Hdist as [Hnear Hout].
  unfold axis_weight, spreading_weight.
  rewrite (Rabs_div_pos _ _ Hh).
  destruct (Rle_dec (Rabs (m - r)) (2 * h)) as [Hle | Hgt].
  - rewrite (Hnear Hle). rewrite Rleb_true by lra. reflexivity.
  - assert (Hbig : 2 * h < ForceSPME.spread_dist m r) by (apply Hout; lra).
    rewrite Rleb_false by lra.
    assert (Hx : 2.0 - Rabs (m - r) / h < 0).
    { assert (2 < Rabs (m - r) / h).
      { apply Rmult_lt_reg_r with h; [exact Hh |].
        unfold Rdiv. rewrite Rmult_assoc, Rinv_l by lra. lra. }
      lra. }
    unfold oneDspline. rcases; lra.
Qed.

Lemma sum_over_four (lo : Z) (g : Z -> R) :
  sum_over (zseq lo 4) g = g lo + g (lo + 1)%Z + g (lo + 2)%Z + g (lo + 3)%Z.
Proof.
  unfold zseq, sum_over. cbn [seq map fold_right].
  replace (lo + Z.of_nat 0)%Z with lo by lia.
  replace (lo + Z.of_nat 1)%Z with (lo + 1)%Z by lia.
  replace (lo + Z.of_nat 2)%Z with (lo + 2)%Z by lia.
  replace (lo + Z.of_nat 3)%Z with (lo + 3)%Z by lia.
  lra.
Qed.

(** A particle coordinate between the lattice coordinates [n] and [n + 1],
    with the four lattice coordinates [n - 1 .. n + 2] on the lattice. *)
Lemma axis_weight_sum_interior (Mn : nat) (n : Z) (h r : R) :
  0 < h ->
  (1 <= n)%Z -> (n + 2 < Z.of_nat Mn)%Z ->
  h * IZR n <= r <= h * IZR (n + 1) ->
  (forall i, (0 <= i < Z.of_nat Mn)%Z -> Rabs (h * IZR i - r) + 2 * h < 1) ->
  axis_weight_sum (Z.of_nat Mn) h r = 1.
Proof.
  intros Hh Hn1 Hn2 Hr Hfar.
  set (s := r / h - IZR n).
  assert (Hrh : r / h = IZR n + s) by (unfold s; ring).
  assert (Hs : 0 <= s <= 1).
  { rewrite plus_IZR in Hr. unfold s. split.
    - apply Rmult_le_reg_r with h; [exact Hh |].
      replace ((r / h - IZR n) * h) with (r - h * IZR n) by (field; lra). lra.
    - apply Rmult_le_reg_r with h; [exact Hh |].
      replace ((r / h - IZR n) * h) with (r - h * IZR n) by (field; lra). lra. }
  unfold axis_weight_sum. rewrite range_lt_0_nat.
  rewrite (sum_over_ext _ _ (fun i => spreading_weight (IZR i - IZR n - s))).
  2:{ intros i Hi. apply in_zseq in Hi.
      rewrite axis_weight_without_alias by (try exact Hh; apply Hfar; lia).
      f_equal. replace (IZR i - IZR n - s) with (IZR i - r / h) by lra.
      field. lra. }
  set (a := Z.to_nat (n - 1)).
  replace Mn with (a + (4 + (Mn - a - 4)))%nat by lia.
  rewrite zseq_add, sum_over_app, zseq_add, sum_over_app, sum_over_four.
  rewrite (sum_over_zero (zseq 0 a)).
  2:{ intros i Hi. apply in_zseq in Hi. apply spreading_weight_outside. left.
      assert (IZR i <= IZR n - 2).
      { rewrite <- (minus_IZR n 2). apply IZR_le. lia. }
      lra. }
  rewrite (sum_over_zero (zseq (0 + Z.of_nat a + Z.of_nat 4) (Mn - a - 4))).
  2:{ intros i Hi. apply in_zseq in Hi. apply spreading_weight_outside. right.
      assert (IZR n + 3 <= IZR i).
      { rewrite <- (plus_IZR n 3). apply IZR_le. lia. }
      lra. }
  replace (0 + Z.of_nat a)%Z with (n - 1)%Z by lia.
  replace (n - 1 + 1)%Z with n by lia.
  replace (n - 1 + 2)%Z with (n + 1)%Z by lia.
  replace (n - 1 + 3)%Z with (n + 2)%Z by lia.
  rewrite minus_IZR, !plus_IZR.
  pose proof (spline_partition_of_unity s Hs) as Hpu.
  replace (IZR n - 1 - IZR n - s) with (- 1 - s) by ring.
  replace (IZR n - IZR n - s) with (- s) by ring.
  replace (IZR n + 1 - IZR n - s) with (1 - s) by ring.
  replace (IZR n + 2 - IZR n - s) with (2 - s) by ring.
  lra.
Qed.

(** Charge conservation where the claim's rationale applies: particles
    whose coordinates are interior to the lattice and without an image
    within two spacings of a lattice coordinate. *)
Lemma spread_stage_conserves_charge_without_alias (Mn : nat) (h : R)
    (s : System) :
  (2 <= Mn)%nat -> 0 < h ->
  (forall pidx axis, (0 <= pidx < N s)%Z -> (0 <= axis < 3)%Z ->
     exists n, (1 <= n)%Z /\ (n + 2 < Z.of_nat Mn)%Z /\
       h * IZR n <= x s pidx axis <= h * IZR (n + 1) /\
       forall i, (0 <= i < Z.of_nat Mn)%Z ->
                 Rabs (h * IZR i - x s pidx axis) + 2 * h < 1) ->
  total_mesh_charge (spread_stage s (cubic_mesh (Z.of_nat Mn) h)) =
  sum_over (range_lt 0 (N s)) (q s).
Proof.
  intros HM Hh Hint.
  rewrite (spread_stage_cubic_mesh_total Mn h s HM).
  apply sum_over_ext. intros pidx Hp. apply in_range_lt in Hp.
  assert (Haxis : forall axis, (0 <= axis < 3)%Z ->
            axis_weight_sum (Z.of_nat Mn) h (x s pidx axis) = 1).
  { intros axis Ha. destruct (Hint pidx axis Hp Ha) as (n & H1 & H2 & H3 & H4).
    apply (axis_weight_sum_interior Mn n h _ Hh H1 H2 H3 H4). }
  rewrite (Haxis 0%Z), (Haxis 1%Z), (Haxis 2%Z) by lia. ring.
Qed.

(** * Methods that respect a relation between states *)

Section Respects.

Context {S : Type} (Rel : S -> S -> Prop).

Lemma respects_ret {A : Type} (a : A) : respects Rel (ret a).
Proof. intros s1 s2 H. split; [reflexivity | exact H]. Qed.

Lemma respects_throw {A : Type} (e : fault) : respects Rel (@throw S A e).
Proof. intros s1 s2 H. split; [reflexivity | exact H]. Qed.

Lemma respects_checked_div (a b : R) : respects Rel (@checked_div S a b).
Proof.
  unfold checked_div. destruct (Req_dec_T b 0);
    [apply respects_throw | apply respects_ret].
Qed.

Lemma respects_bind {A B : Type} (m : M S A) (k : A -> M S B) :
  respects Rel m -> (forall a, respects Rel (k a)) -> respects Rel (bind m k).
Proof.
  intros Hm Hk s1 s2 H. unfold bind.
  destruct (Hm s1 s2 H) as [Hv Hs].
  destruct (m s1) as [s1' [a1 | e1]]; destruct (m s2) as [s2' [a2 | e2]];
    cbn [fst snd] in *; try discriminate.
  - inversion Hv; subst. apply Hk. exact Hs.
  - cbn [fst snd]. inversion Hv; subst. split; [reflexivity | exact Hs].
Qed.

Lemma respects_modify (g : S -> S) :
  (forall s1 s2, Rel s1 s2 -> Rel (g s1) (g s2)) -> respects Rel (modify g).
Proof.
  intros Hg s1 s2 H. split; [reflexivity | apply Hg; exact H].
Qed.

(** After [get], the rest of the method may read the state. *)
Lemma respects_get_bind {B : Type} (k : S -> M S B) :
  (forall s1 s2, Rel s1 s2 ->
     snd (k s1 s1) = snd (k s2 s2) /\ Rel (fst (k s1 s1)) (fst (k s2 s2))) ->
  respects Rel (bind get k).
Proof. intros Hk s1 s2 H. unfold bind, get. apply Hk. exact H. Qed.

Lemma respects_reduce_chunk (body : Z -> R -> M S R) (chunk : list Z) (acc : R) :
  (forall i a, respects Rel (body i a)) ->
  respects Rel (reduce_chunk body chunk acc).
Proof.
  intros Hb. revert acc. induction chunk as [| i chunk IH]; intros acc;
    cbn [reduce_chunk].
  - apply respects_ret.
  - apply respects_bind; [apply Hb | intros a; apply IH].
Qed.

Lemma respects_parallel_reduce (schedule : list (list Z))
    (body : Z -> R -> M S R) :
  (forall i a, respects Rel (body i a)) ->
  respects Rel (parallel_reduce schedule body).
Proof.
  intros Hb. induction schedule as [| chunk schedule IH];
    cbn [parallel_reduce].
  - apply respects_ret.
  - apply respects_bind; [apply respects_reduce_chunk; exact Hb |].
    intros part. apply respects_bind; [exact IH |].
    intros rest. apply respects_ret.
Qed.

End Respects.

Lemma for_each_preserves {S : Type} (Rel : S -> S -> Prop) (l : list Z)
    (body1 body2 : Z -> S -> S) (s1 s2 : S) :
  Rel s1 s2 ->
  (forall i t1 t2, In i l -> Rel t1 t2 -> Rel (body1 i t1) (body2 i t2)) ->
  Rel (for_each l body1 s1) (for_each l body2 s2).
Proof.
  unfold for_each. revert s1 s2.
  induction l as [| i l IH]; intros s1 s2 H Hb; cbn [fold_left].
  - exact H.
  - apply IH.
    + apply Hb; [left; reflexivity | exact H].
    + intros j t1 t2 Hj. apply Hb. right; exact Hj.
Qed.

(** ** Updates of the potential and force slices *)

Lemma same_inputs_refl (s : System) : same_inputs s s.
Proof. unfold same_inputs. repeat split. Qed.

Lemma sim_set_p (P : Z -> Prop) (s1 s2 : System) (i : Z) (c : R) :
  sim P s1 s2 ->
  sim P (set_p s1 (atomic_add1 (p s1) i c)) (set_p s2 (atomic_add1 (p s2) i c)).
Proof.
  intros [Hst Hpf]. split; [exact Hst |].
  intros k Hk. destruct (Hpf k Hk) as [Hp Hf].
  cbn [p f set_p]. split; [| exact Hf].
  unfold atomic_add1, assign1.
  destruct (Z.eqb_spec k i) as [Heq | Hne]; [| exact Hp].
  subst k. rewrite Hp. reflexivity.
Qed.

Lemma sim_set_f (P : Z -> Prop) (s1 s2 : System) (i d : Z) (c : R) :
  sim P s1 s2 ->
  sim P (set_f s1 (atomic_add2 (f s1) i d c))
        (set_f s2 (atomic_add2 (f s2) i d c)).
Proof.
  intros [Hst Hpf]. split; [exact Hst |].
  intros k Hk. destruct (Hpf k Hk) as [Hp Hf].
  cbn [p f set_f]. split; [exact Hp |].
  intros e He. unfold atomic_add2, assign2.
  destruct (Z.eqb_spec k i) as [Heq | Hne];
    destruct (Z.eqb_spec e d) as [Heq' | Hne']; cbn [andb];
    try (apply Hf; exact He).
  subst k e. rewrite (Hf d He). reflexivity.
Qed.

(** Assigning the same value on both sides makes particle [i] agree. *)
Lemma sim_assign_p (P : Z -> Prop) (s1 s2 : System) (i : Z) (c : R) :
  sim P s1 s2 ->
  sim P (set_p s1 (assign1 (p s1) i c)) (set_p s2 (assign1 (p s2) i c)).
Proof.
  intros [Hst Hpf]. split; [exact Hst |].
  intros k Hk. destruct (Hpf k Hk) as [Hp Hf].
  cbn [p f set_p]. split; [| exact Hf].
  unfold assign1. destruct (Z.eqb_spec k i); [reflexivity | exact Hp].
Qed.

Lemma sim_assign_f (P : Z -> Prop) (s1 s2 : System) (i d : Z) (c : R) :
  sim P s1 s2 ->
  sim P (set_f s1 (assign2 (f s1) i d c)) (set_f s2 (assign2 (f s2) i d c)).
Proof.
  intros [Hst Hpf]. split; [exact Hst |].
  intros k Hk. destruct (Hpf k Hk) as [Hp Hf].
  cbn [p f set_f]. split; [exact Hp |].
  intros e He. unfold assign2.
  destruct ((k =? i)%Z && (e =? d)%Z); [reflexivity | apply Hf; exact He].
Qed.

(** * The zeroing stage and what follows it *)

Lemma bind_get {S A : Type} (k : S -> M S A) (s : S) : bind get k s = k s s.
Proof. reflexivity. Qed.

Lemma bind_modify {S A : Type} (g : S -> S) (k : unit -> M S A) (s : S) :
  bind (modify g) k s = k tt (g s).
Proof. reflexivity. Qed.

Lemma init_parameters_same_inputs (idx : Z) (s0 s : System) :
  same_inputs s0 s -> same_inputs s0 (ForceEwald.init_parameters idx s).
Proof. intros H. exact H. Qed.

Lemma init_parameters_zero_at (idx k : Z) (s : System) :
  zero_at s k \/ k = idx -> zero_at (ForceEwald.init_parameters idx s) k.
Proof.
  intros H. unfold zero_at, ForceEwald.init_parameters.
  cbn [p f set_p set_f]. split.
  - unfold assign1. destruct (Z.eqb_spec k idx) as [Heq | Hne]; [lra |].
    destruct H as [[Hp _] | Hk]; [exact Hp | contradiction].
  - intros e He. unfold assign2.
    destruct (Z.eqb_spec k idx) as [Heq | Hne]; cbn [andb].
    + assert (He3 : e = 0%Z \/ e = 1%Z \/ e = 2%Z) by lia.
      destruct He3 as [-> | [-> | ->]]; cbn [Z.eqb Pos.eqb]; lra.
    + destruct H as [[_ Hf] | Hk]; [apply Hf; exact He | contradiction].
Qed.

(** The zeroing loop: every visited particle has potential and force 0
    after it, and the inputs are as before. *)
Lemma init_loop_zero (l : list Z) (s : System) :
  let s' := for_each l ForceEwald.init_parameters s in
  same_inputs s s' /\ forall k, In k l -> zero_at s' k.
Proof.
  cbv zeta. split.
  - apply (for_each_invariant (same_inputs s)); [apply same_inputs_refl |].
    intros i t _ Ht. apply init_parameters_same_inputs. exact Ht.
  - assert (Hgen : forall (done : Z -> Prop) (t : System),
               (forall k, done k -> zero_at t k) ->
               forall k, done k \/ In k l ->
                         zero_at (for_each l ForceEwald.init_parameters t) k).
    { induction l as [| i l IH]; intros done t Hdone k Hk.
      - destruct Hk as [Hk | []]. apply Hdone; exact Hk.
      - cbn [for_each fold_left].
        apply (IH (fun k => done k \/ k = i)).
        + intros k' [Hk' | Hk']; apply init_parameters_zero_at;
            [left; apply Hdone; exact Hk' | right; exact Hk'].
        + destruct Hk as [Hk | [Hk | Hk]];
            [left; left; exact Hk | left; right; symmetry; exact Hk
            | right; exact Hk]. }
    intros k Hk. apply (Hgen (fun _ => False)); [intros ? [] | right; exact Hk].
Qed.

Lemma same_inputs_sym (s1 s2 : System) : same_inputs s1 s2 -> same_inputs s2 s1.
Proof. unfold same_inputs. intuition congruence. Qed.

Lemma same_inputs_trans (s1 s2 s3 : System) :
  same_inputs s1 s2 -> same_inputs s2 s3 -> same_inputs s1 s3.
Proof. unfold same_inputs. intuition congruence. Qed.

(** After the zeroing loop two systems with the same inputs agree on every
    particle of the range. *)
Lemma init_loop_sim (n : Z) (s1 s2 : System) :
  same_inputs s1 s2 ->
  sim (fun k => (0 <= k < n)%Z)
      (for_each (range_lt 0 n) ForceEwald.init_parameters s1)
      (for_each (range_lt 0 n) ForceEwald.init_parameters s2).
Proof.
  intros H.
  destruct (init_loop_zero (range_lt 0 n) s1) as [H1 Z1].
  destruct (init_loop_zero (range_lt 0 n) s2) as [H2 Z2].
  split.
  - eapply same_inputs_trans; [apply same_inputs_sym; exact H1 |].
    eapply same_inputs_trans; [exact H | exact H2].
  - intros k Hk. apply in_range_lt in Hk.
    destruct (Z1 k Hk) as [Hp1 Hf1]. destruct (Z2 k Hk) as [Hp2 Hf2].
    split; [congruence |]. intros e He. rewrite Hf1, Hf2 by exact He.
    reflexivity.
Qed.

(** ** The stages of ForceEwald::compute respect agreement *)


(** ** The stages of TPME::compute respect agreement *)

Lemma x_set_f (s : System) (v : view2) : x (set_f s v) = x s.
Proof. reflexivity. Qed.

Lemma q_set_f (s : System) (v : view2) : q (set_f s v) = q s.
Proof. reflexivity. Qed.

Lemma init_p_is_init_parameters : ForceSPME.init_p = ForceEwald.init_parameters.
Proof. reflexivity. Qed.

Lemma on_system_respects (P : Z -> Prop) (g : System -> System) :
  (forall s1 s2, sim P s1 s2 -> sim P (g s1) (g s2)) ->
  respects (simW P) (ForceSPME.on_system g).
Proof.
  intros Hg. unfold ForceSPME.on_system. apply respects_modify.
  intros [s1 m1] [s2 m2] [Hs Hm]. cbn [fst snd] in *.
  split; cbn [fst snd]; [apply Hg; exact Hs | exact Hm].
Qed.

Ltac respects_steps P :=
  repeat first
    [ apply respects_bind; [| intros ?]
    | apply respects_checked_div
    | apply respects_ret
    | apply respects_throw
    | apply (on_system_respects P); intros ? ? ?;
      first [apply sim_set_p; assumption | apply sim_set_f; assumption] ].

Lemma realspace_image_respects (P : Z -> Prop) (alpha r_max lx ly lz : R)
    (i j pz py px : Z) :
  respects (simW P) (ForceSPME.realspace_image alpha r_max lx ly lz i j pz py px).
Proof.
  unfold ForceSPME.realspace_image.
  apply respects_get_bind. intros w1 w2 H.
  pose proof H as [[(_ & _ & _ & _ & _ & _ & Hx & Hq) _] _].
  cbv zeta. unfold ForceSPME.r. rewrite Hx, Hq.
  match goal with
  | |- snd (?m w1) = snd (_ w2) /\ _ =>
      assert (Hm : respects (simW P) m); [| exact (Hm w1 w2 H)]
  end.
  apply respects_bind.
  { match goal with
    | |- respects _ (if ?b then _ else _) => destruct b
    end; [apply respects_checked_div | apply respects_ret]. }
  intros contrib. respects_steps P.
Qed.

Lemma realspace_pair_respects (P : Z -> Prop) (alpha r_max lx ly lz : R)
    (per_shells i j : Z) (Ur_j : R) :
  respects (simW P)
           (ForceSPME.realspace_pair alpha r_max lx ly lz per_shells i j Ur_j).
Proof.
  unfold ForceSPME.realspace_pair.
  apply respects_reduce_chunk. intros pz a1.
  apply respects_reduce_chunk. intros py a2.
  apply respects_reduce_chunk. intros px a3.
  apply respects_bind; [apply realspace_image_respects |].
  intros contrib. apply respects_ret.
Qed.

Lemma self_energy_body_respects (P : Z -> Prop) (alpha : R) (idx : Z) (acc : R) :
  respects (simW P) (ForceSPME.self_energy_body alpha idx acc).
Proof.
  unfold ForceSPME.self_energy_body.
  apply respects_get_bind. intros w1 w2 H.
  pose proof H as [[(_ & _ & _ & _ & _ & _ & _ & Hq) _] _].
  cbv zeta. rewrite Hq.
  match goal with
  | |- snd (?m w1) = snd (_ w2) /\ _ =>
      assert (Hm : respects (simW P) m); [| exact (Hm w1 w2 H)]
  end.
  apply respects_bind; [| intros ?; apply respects_ret].
  apply (on_system_respects P). intros s1 s2 Hs.
  apply (sim_set_p P s1 s2 idx). exact Hs.
Qed.

Lemma gather_f_body_sim (P : Z -> Prop) (spacing : R) (m : Mesh)
    (Qktest : cview) (pidx idx : Z) (s1 s2 : System) :
  sim P s1 s2 ->
  sim P (ForceSPME.gather_f_body spacing m Qktest pidx idx s1)
        (ForceSPME.gather_f_body spacing m Qktest pidx idx s2).
Proof.
  intros H. pose proof H as [(_ & _ & _ & _ & _ & _ & Hx & Hq) _].
  unfold ForceSPME.gather_f_body, ForceSPME.r. cbv zeta.
  rewrite ?x_set_f, ?q_set_f, Hx, Hq.
  match goal with
  | |- sim _ (if ?b then _ else _) _ => destruct b
  end; [| exact H].
  apply (sim_set_f P _ _ pidx 2).
  apply (sim_set_f P _ _ pidx 1).
  apply (sim_set_f P _ _ pidx 0).
  exact H.
Qed.

Lemma gather_f_sim (P : Z -> Prop) (spacing : R) (m : Mesh) (Qktest : cview)
    (pidx : Z) (s1 s2 : System) :
  sim P s1 s2 ->
  sim P (ForceSPME.gather_f spacing m Qktest pidx s1)
        (ForceSPME.gather_f spacing m Qktest pidx s2).
Proof.
  intros H. unfold ForceSPME.gather_f.
  apply for_each_preserves; [exact H |].
  intros idx t1 t2 _ Ht. apply gather_f_body_sim. exact Ht.
Qed.

(** Charge spreading reads the system through positions and charges
    only. *)
Lemma spread_q_same_inputs (spacing : R) (s1 s2 : System) (idx : Z) (m : Mesh) :
  N s1 = N s2 -> x s1 = x s2 -> q s1 = q s2 ->
  ForceSPME.spread_q spacing s1 idx m = ForceSPME.spread_q spacing s2 idx m.
Proof.
  intros HN Hx Hq. unfold ForceSPME.spread_q, ForceSPME.particles_size.
  rewrite HN.
  apply (for_each_preserves eq); [reflexivity |].
  intros pidx m1 m2 _ ->. unfold ForceSPME.spread_q_body, ForceSPME.r.
  rewrite Hx, Hq. reflexivity.
Qed.

Lemma on_mesh_respects (P : Z -> Prop) (g : Mesh -> Mesh) :
  respects (simW P) (ForceSPME.on_mesh g).
Proof.
  unfold ForceSPME.on_mesh. apply respects_modify.
  intros [s1 m1] [s2 m2] [Hs Hm]. cbn [fst snd] in *.
  split; cbn [fst snd]; [exact Hs | rewrite Hm; reflexivity].
Qed.

(** Run on two systems with the same inputs and on the same mesh,
    [TPME::compute] ends with the same energy or the same fault and with the
    same mesh; when the domain is cubic, also with the same potential and
    force on every particle below [N]. *)
Lemma spme_compute_same_inputs
    (fft_backward fft_forward : Z -> cview -> cview)
    (fftw_malloc : string -> cview) (Udip : R) (schedule : Z -> list (list Z))
    (this : ForceSPME.t) (s1 s2 : System) (m : Mesh) :
  same_inputs s1 s2 ->
  let run s :=
    ForceSPME.compute fft_backward fft_forward fftw_malloc Udip schedule this
                      (s, m) in
  snd (run s1) = snd (run s2) /\
  snd (fst (run s1)) = snd (fst (run s2)) /\
  (domain_x s1 = domain_y s1 /\ domain_x s1 = domain_z s1 ->
   sim (fun k => (0 <= k < N s1)%Z) (fst (fst (run s1))) (fst (fst (run s2)))).
Proof.
  intros H run. subst run. cbv beta.
  pose proof H as (HN & _ & _ & Hdx & Hdy & Hdz & Hx & Hq).
  unfold ForceSPME.compute. rewrite !bind_get. cbv zeta. cbn [fst snd].
  unfold ForceSPME.lx, ForceSPME.ly, ForceSPME.lz.
  rewrite Hdx, Hdy, Hdz, HN.
  destruct (Rneb (domain_x s2) (domain_y s2) || Rneb (domain_x s2) (domain_z s2))
    eqn:Hcub.
  { cbn [throw fst snd]. split; [reflexivity |]. split; [reflexivity |].
    intros [Hy Hz]. exfalso.
    assert (Hf : noncubic s2 = false)
      by (apply noncubic_false; congruence).
    unfold noncubic in Hf. congruence. }
  unfold ForceSPME.on_system at 1 3. rewrite !bind_modify. cbn [fst snd].
  assert (Hinit : simW (fun k => (0 <= k < N s2)%Z)
            (for_each (range_lt 0 (N s2)) ForceSPME.init_p s1, m)
            (for_each (range_lt 0 (N s2)) ForceSPME.init_p s2, m)).
  { split; [| reflexivity]. cbn [fst].
    rewrite init_p_is_init_parameters. apply init_loop_sim. exact H. }
  match goal with
  | |- snd (?rest ?w1) = snd (_ ?w2) /\ _ =>
      assert (Hm : respects (simW (fun i => (0 <= i < N s2)%Z)) rest)
  end.
  2:{ destruct (Hm _ _ Hinit) as [Hv [Hs Hmesh]].
      split; [exact Hv |]. split; [exact Hmesh |]. intros _. exact Hs. }
  set (P := fun k => (0 <= k < N s2)%Z).
  apply respects_bind.
  { apply respects_parallel_reduce. intros i Ur_i.
    destruct (i <? N s2)%Z; [| apply respects_ret].
    apply respects_bind; [apply respects_checked_div |]. intros ratio.
    apply respects_bind.
    { apply respects_parallel_reduce. intros j Ur_j.
      apply realspace_pair_respects. }
    intros Ur_inner. respects_steps P. }
  intros Ur. apply respects_get_bind. intros w1 w2 Hw.
  pose proof Hw as [[(HN' & _ & _ & _ & _ & _ & Hx' & Hq') _] Hmesh].
  cbv zeta. rewrite Hmesh.
  assert (Hspread :
    ForceSPME.spread_q (meshr (snd w2) 1%Z 0%Z - meshr (snd w2) 0%Z 0%Z)
                       (fst w1) =
    ForceSPME.spread_q (meshr (snd w2) 1%Z 0%Z - meshr (snd w2) 0%Z 0%Z)
                       (fst w2)).
  { extensionality idx. extensionality m'.
    apply spread_q_same_inputs; assumption. }
  rewrite Hspread.
  match goal with
  | |- snd (?k w1) = snd (_ w2) /\ _ =>
      assert (Hk : respects (simW P) k); [| exact (Hk w1 w2 Hw)]
  end.
  apply respects_bind; [apply on_mesh_respects |]. intros _.
  apply respects_get_bind. intros w3 w4 Hw'.
  pose proof Hw' as [_ Hmesh']. rewrite Hmesh'.
  match goal with
  | |- snd (?k w3) = snd (_ w4) /\ _ =>
      assert (Hk : respects (simW P) k); [| exact (Hk w3 w4 Hw')]
  end.
  apply respects_bind.
  { apply respects_parallel_reduce. intros idx Uk_part. apply respects_ret. }
  intros Uk. apply respects_bind.
  { apply respects_parallel_reduce. intros idx acc.
    apply self_energy_body_respects. }
  intros Uself. apply respects_bind; [| intros _; apply respects_ret].
  apply (on_system_respects P). intros t1 t2 Ht.
  apply for_each_preserves; [exact Ht |].
  intros pidx u1 u2 _ Hu. apply gather_f_sim. exact Hu.
Qed.

(** * The inputs of a force evaluation are left as they were *)

Section Keeps.

Context {S : Type} (Inv : S -> Prop).

Lemma keeps_ret {A : Type} (a : A) : keeps Inv (ret a).
Proof. intros s H. exact H. Qed.

Lemma keeps_throw {A : Type} (e : fault) : keeps Inv (@throw S A e).
Proof. intros s H. exact H. Qed.

Lemma keeps_checked_div (a b : R) : keeps Inv (@checked_div S a b).
Proof.
  unfold checked_div. destruct (Req_dec_T b 0);
    [apply keeps_throw | apply keeps_ret].
Qed.

Lemma keeps_bind {A B : Type} (m : M S A) (k : A -> M S B) :
  keeps Inv m -> (forall a, keeps Inv (k a)) -> keeps Inv (bind m k).
Proof.
  intros Hm Hk s H. unfold bind. specialize (Hm s H).
  destruct (m s) as [s' [a | e]]; cbn [fst] in *.
  - apply Hk. exact Hm.
  - exact Hm.
Qed.

Lemma keeps_modify (g : S -> S) :
  (forall s, Inv s -> Inv (g s)) -> keeps Inv (modify g).
Proof. intros Hg s H. apply Hg. exact H. Qed.

Lemma keeps_get_bind {B : Type} (k : S -> M S B) :
  (forall s0, keeps Inv (k s0)) -> keeps Inv (bind get k).
Proof. intros Hk s H. unfold bind, get. apply Hk. exact H. Qed.

End Keeps.

Lemma same_inputs_set_p (s0 s : System) (v : view1) :
  same_inputs s0 s -> same_inputs s0 (set_p s v).
Proof. intros H. exact H. Qed.

Lemma same_inputs_set_f (s0 s : System) (v : view2) :
  same_inputs s0 s -> same_inputs s0 (set_f s v).
Proof. intros H. exact H. Qed.

Ltac keeps_steps :=
  repeat first
    [ apply keeps_bind; [| intros ?]
    | apply keeps_checked_div
    | apply keeps_ret
    | apply keeps_throw
    | apply keeps_modify; intros ? ?;
      first [apply same_inputs_set_p; assumption
            | apply same_inputs_set_f; assumption] ].

Lemma kspace_potential_keeps_inputs (s0 : System) (k_int : Z)
    (lx ly lz alpha : R) (U : view1) (idx : Z) (s : System) :
  same_inputs s0 s ->
  same_inputs s0 (ForceEwald.kspace_potential k_int lx ly lz alpha U idx s).
Proof.
  intros H. unfold ForceEwald.kspace_potential.
  apply (for_each_invariant (same_inputs s0)); [exact H |]. intros kz t _ Ht.
  apply (for_each_invariant (same_inputs s0)); [exact Ht |]. intros ky u _ Hu.
  apply (for_each_invariant (same_inputs s0)); [exact Hu |]. intros kx v _ Hv.
  unfold ForceEwald.kspace_potential_body. cbv zeta.
  destruct ((kx =? 0)%Z && (ky =? 0)%Z && (kz =? 0)%Z); [exact Hv |].
  apply (for_each_invariant (same_inputs s0)).
  - apply same_inputs_set_p. exact Hv.
  - intros dim w _ Hw. apply same_inputs_set_f. exact Hw.
Qed.

Lemma on_system_keeps (s0 : System) (g : System -> System) :
  (forall s, same_inputs s0 s -> same_inputs s0 (g s)) ->
  keeps (fun w : ForceSPME.World => same_inputs s0 (fst w))
        (ForceSPME.on_system g).
Proof.
  intros Hg. unfold ForceSPME.on_system. apply keeps_modify.
  intros w Hw. cbn [fst]. apply Hg. exact Hw.
Qed.

Ltac keepsW_steps s0 :=
  repeat first
    [ apply keeps_bind; [| intros ?]
    | apply keeps_checked_div
    | apply keeps_ret
    | apply keeps_throw
    | apply (on_system_keeps s0); intros ? ?;
      first [apply same_inputs_set_p; assumption
            | apply same_inputs_set_f; assumption] ].

Lemma gather_f_keeps_inputs (s0 : System) (spacing : R) (m : Mesh)
    (Qktest : cview) (pidx : Z) (s : System) :
  same_inputs s0 s ->
  same_inputs s0 (ForceSPME.gather_f spacing m Qktest pidx s).
Proof.
  intros H. unfold ForceSPME.gather_f.
  apply (for_each_invariant (same_inputs s0)); [exact H |].
  intros idx t _ Ht. unfold ForceSPME.gather_f_body. cbv zeta.
  match goal with
  | |- same_inputs _ (if ?b then _ else _) => destruct b
  end; [| exact Ht].
  repeat apply same_inputs_set_f. exact Ht.
Qed.


(** * The real-space kernel of ForceEwald is not guarded *)

Lemma force_contribs_single_neighbor (alpha : R) (s : System) :
  ForceEwald.force_contribs alpha half_list_01 0 s =
  (ForceEwald.force_contribs_pair alpha 0 1 ;; ret tt) s.
Proof. reflexivity. Qed.

(** C3 (code defect).  [force_contribs] of ForceEwald has neither the
    distance test nor the guard of the all-pairs loop of [TPME::compute].
    - Two particles at the same position, one the neighbor of the other:
      for every [alpha] the kernel stops at the division by [d = 0], and so
      does [ForceEwald::compute], whatever the parameters of the solver.
    - Two particles at distance 2 with [alpha = 1/10]: the kernel has no
      cutoff to compare with, and both potentials receive
      [0.5 erfc(0.2) / 2 > 0] whatever [r_max] is. *)
Theorem force_contribs_has_no_guard :
  (forall alpha,
     pair_distance (pair_on_axis 0) 0 1 = 0 /\
     ForceEwald.force_contribs alpha half_list_01 0 (pair_on_axis 0) =
       (pair_on_axis 0, Fault division_by_zero)) /\
  (forall MPI_Allreduce_sum memory cut alpha r_max eps_r k_max,
     snd (ForceEwald.compute MPI_Allreduce_sum memory
            (ForceEwald.mk true cut half_list_01 alpha r_max eps_r k_max)
            (pair_on_axis 0)) = Fault division_by_zero) /\
  (exists s',
     pair_distance (pair_on_axis 2) 0 1 = 2 /\
     ForceEwald.force_contribs (1 / 10) half_list_01 0 (pair_on_axis 2) =
       (s', Ok tt) /\
     p s' 0%Z = 0.5 * erfc (1 / 10 * 2) / 2 /\ 0 < p s' 0%Z /\
     p s' 1%Z = 0.5 * erfc (1 / 10 * 2) / 2).
Proof.
  split.
  - intros alpha.
    assert (Hd : pair_distance (pair_on_axis 0) 0 1 = 0)
      by (apply pair_on_axis_distance; lra).
    split; [exact Hd |].
    rewrite force_contribs_single_neighbor. unfold bind.
    rewrite (force_contribs_pair_coincident alpha 0 1 _ Hd). reflexivity.
  - split.
    { intros MPI_Allreduce_sum memory cut alpha r_max eps_r k_max.
      unfold ForceEwald.compute. rewrite bind_get. cbv zeta.
      rewrite !bind_modify.
      cbn [ForceEwald.neigh_list ForceEwald._alpha N_local N_max pair_on_axis].
      change (range_lt 0 2) with [0%Z; 1%Z]. cbn [for_eachM].
      match goal with
      | |- snd (bind (bind (ForceEwald.force_contribs _ _ _) _) _ ?t) = _ =>
          set (after_kspace := t)
      end.
      assert (Hd : pair_distance after_kspace 0 1 = 0).
      { assert (Hin : same_inputs (pair_on_axis 0) after_kspace).
        { unfold after_kspace.
          apply (for_each_invariant (same_inputs (pair_on_axis 0))).
          - destruct (init_loop_zero (range_lt 0 2) (pair_on_axis 0))
              as [Hsame _]. exact Hsame.
          - intros i t _ Ht. apply kspace_potential_keeps_inputs. exact Ht. }
        destruct Hin as (_ & _ & _ & _ & _ & _ & Hx & _).
        unfold pair_distance. rewrite <- Hx.
        apply (pair_on_axis_distance 0). lra. }
      unfold bind at 1 2. rewrite force_contribs_single_neighbor.
      unfold bind at 1.
      rewrite (force_contribs_pair_coincident alpha 0 1 _ Hd). reflexivity. }
    assert (Hd : pair_distance (pair_on_axis 2) 0 1 = 2)
      by (apply pair_on_axis_distance; lra).
    assert (Hd0 : pair_distance (pair_on_axis 2) 0 1 <> 0) by lra.
    destruct (force_contribs_pair_effect (1 / 10) 0 1 _ Hd0)
      as (s' & Hrun & _ & _ & Hp & _).
    cbv zeta in Hp. rewrite Hd in Hp.
    exists s'. split; [exact Hd |]. split.
    { rewrite force_contribs_single_neighbor. unfold bind. rewrite Hrun.
      reflexivity. }
    assert (Hp0 : p s' 0%Z = 0.5 * erfc (1 / 10 * 2) / 2).
    { rewrite Hp. unfold ewald_contrib.
      cbn [p q pair_on_axis Z.eqb Pos.eqb]. lra. }
    assert (Hp1 : p s' 1%Z = 0.5 * erfc (1 / 10 * 2) / 2).
    { rewrite Hp. unfold ewald_contrib.
      cbn [p q pair_on_axis Z.eqb Pos.eqb]. lra. }
    split; [exact Hp0 |]. split; [| exact Hp1].
    rewrite Hp0.
    destruct (erfc_bounds (1 / 10 * 2)) as [Hlo _]; [lra |].
    destruct sqrt_library_PI_bounds as [HS1 HS2].
    assert (Hu : / sqrt Rtrigo1.PI < 10 / 17).
    { replace (10 / 17) with (/ (17 / 10)) by field.
      apply Rinv_lt_contravar; [nra | lra]. }
    unfold Rdiv in *. lra.
Qed.


(** * Further properties of the kernels *)

(** ** The index maps of the contribution array *)

Lemma mixed_radix_unique (B u c u' c' : Z) :
  (0 <= c < B)%Z -> (0 <= c' < B)%Z -> (u * B + c = u' * B + c')%Z ->
  u = u' /\ c = c'.
Proof. intros Hc Hc' H. assert (u = u') by nia. subst. lia. Qed.

(** The cube of an odd radix [2 k + 1] with [0 <= k <= K]. *)
Lemma radix_cube_le (K k : Z) :
  (0 <= k <= K)%Z ->
  ((2 * k + 1) * (2 * k + 1) * (2 * k + 1)
   <= (2 * K + 1) * (2 * K + 1) * (2 * K + 1))%Z.
Proof.
  intros Hk.
  assert (H2 : ((2 * k + 1) * (2 * k + 1) <= (2 * K + 1) * (2 * K + 1))%Z)
    by nia.
  apply Z.mul_le_mono_nonneg; lia.
Qed.

(** X1. The index of the k-space pass enumerates the cube of wave-vectors.
    For k_int <= 511 and wave-vectors with components in [-k_int, k_int]:
    the index lies in [0, (2 k_int + 1)^3), two wave-vectors with the same
    index are equal, and 2 kidx + 1, the largest value the source computes
    from it, does not exceed INT_MAX, so that the [int] arithmetic of the
    source gives the integers of the statement. *)
Theorem kidx_kspace_potential_enumerates (k_int kx ky kz kx' ky' kz' : Z) :
  (k_int <= 511)%Z ->
  (- k_int <= kx <= k_int)%Z -> (- k_int <= ky <= k_int)%Z ->
  (- k_int <= kz <= k_int)%Z ->
  (- k_int <= kx' <= k_int)%Z -> (- k_int <= ky' <= k_int)%Z ->
  (- k_int <= kz' <= k_int)%Z ->
  (0 <= ForceEwald.kidx_kspace_potential k_int kx ky kz
     < (2 * k_int + 1) * (2 * k_int + 1) * (2 * k_int + 1))%Z /\
  (2 * ForceEwald.kidx_kspace_potential k_int kx ky kz + 1 <= INT_MAX)%Z /\
  (ForceEwald.kidx_kspace_potential k_int kx ky kz =
   ForceEwald.kidx_kspace_potential k_int kx' ky' kz' ->
   kx = kx' /\ ky = ky' /\ kz = kz').
Proof.
  intros Hk Hx Hy Hz Hx' Hy' Hz'.
  pose proof (radix_cube_le 511 k_int ltac:(lia)) as Hcube.
  change ((2 * 511 + 1) * (2 * 511 + 1) * (2 * 511 + 1))%Z
    with 1070599167%Z in Hcube.
  unfold ForceEwald.kidx_kspace_potential, INT_MAX.
  set (B := (2 * k_int + 1)%Z) in *.
  assert (HB : (1 <= B)%Z) by (unfold B; lia).
  assert (Hrange : (0 <= (kz + k_int) * B * B + (ky + k_int) * B + (kx + k_int)
                      < B * B * B)%Z).
  { clear Hcube Hk. split; [nia |].
    assert (((kz + k_int) * B * B + (ky + k_int) * B + (kx + k_int)
             <= (B - 1) * B * B + (B - 1) * B + (B - 1))%Z) by (unfold B in *; nia).
    nia. }
  split; [exact Hrange |]. split; [lia |].
  intros H. clear Hcube Hk Hrange.
  destruct (mixed_radix_unique B ((kz + k_int) * B + (ky + k_int)) (kx + k_int)
              ((kz' + k_int) * B + (ky' + k_int)) (kx' + k_int)) as [H1 H2];
    [unfold B; lia | unfold B; lia | lia |].
  destruct (mixed_radix_unique B (kz + k_int) (ky + k_int)
              (kz' + k_int) (ky' + k_int)) as [H3 H4];
    [unfold B; lia | unfold B; lia | lia |].
  lia.
Qed.

Lemma kidx_kspace_potential_enumerates_witness :
  (0 <= ForceEwald.kidx_kspace_potential 2 1 0 (-1)
     < (2 * 2 + 1) * (2 * 2 + 1) * (2 * 2 + 1))%Z /\
  (2 * ForceEwald.kidx_kspace_potential 2 1 0 (-1) + 1 <= INT_MAX)%Z /\
  (ForceEwald.kidx_kspace_potential 2 1 0 (-1) =
   ForceEwald.kidx_kspace_potential 2 1 0 (-1) ->
   1 = 1 /\ 0 = 0 /\ (-1) = (-1))%Z.
Proof.
  apply (kidx_kspace_potential_enumerates 2 1 0 (-1) 1 0 (-1)); lia.
Defined.

(** X2. For k_int <= 511 the extent [2 * n_kvec] of the contribution
    array and the slots of the k-space pass stay within the [int] of the
    source, and the k-space pass reads inside the extent exactly for the
    wave-vectors with kz < k_int: the array is allocated for
    (2 k_int + 1) * (2 k_int) * (2 k_int + 1) wave-vectors, and the plane
    kz = k_int is indexed beyond it. *)
Theorem kspace_potential_slot_in_extent_iff (k_int kx ky kz : Z) :
  (k_int <= 511)%Z ->
  (- k_int <= kx <= k_int)%Z -> (- k_int <= ky <= k_int)%Z ->
  (- k_int <= kz <= k_int)%Z ->
  let kidx := ForceEwald.kidx_kspace_potential k_int kx ky kz in
  (0 <= 2 * kidx)%Z /\ (2 * kidx + 1 <= INT_MAX)%Z /\
  (0 <= 2 * ForceEwald.n_kvec k_int <= INT_MAX)%Z /\
  ((2 * kidx + 1 < 2 * ForceEwald.n_kvec k_int)%Z <-> (kz < k_int)%Z).
Proof.
  intros Hk Hx Hy Hz. cbv zeta.
  pose proof (radix_cube_le 511 k_int ltac:(lia)) as Hcube.
  change ((2 * 511 + 1) * (2 * 511 + 1) * (2 * 511 + 1))%Z
    with 1070599167%Z in Hcube.
  unfold ForceEwald.kidx_kspace_potential, ForceEwald.n_kvec, INT_MAX.
  set (B := (2 * k_int + 1)%Z) in *.
  assert (HB : (1 <= B)%Z) by (unfold B; lia).
  assert (Hlow : (0 <= (ky + k_int) * B + (kx + k_int) < B * B)%Z).
  { clear Hcube Hk. split; [nia |].
    assert (((ky + k_int) * B + (kx + k_int) <= (B - 1) * B + (B - 1))%Z)
      by (unfold B in *; nia).
    nia. }
  assert (Hhigh : (0 <= (kz + k_int) * B * B <= (B - 1) * B * B)%Z)
    by (clear Hcube Hk; unfold B in *; nia).
  assert (Hext : (0 <= B * (2 * k_int) * B <= B * B * B)%Z)
    by (clear Hcube Hk; unfold B in *; nia).
  assert (Hsplit : ((B - 1) * B * B + B * B = B * B * B)%Z) by ring.
  split; [lia |]. split; [lia |]. split; [lia |].
  clear Hcube Hk Hext Hsplit. split.
  - intros H. destruct (Z.eq_dec kz k_int) as [-> |]; [| lia].
    exfalso. replace (k_int + k_int)%Z with (2 * k_int)%Z in H by lia. nia.
  - intros H.
    assert (((kz + k_int) * B * B <= (2 * k_int - 1) * B * B)%Z) by nia.
    nia.
Qed.

Lemma kspace_potential_slot_in_extent_iff_witness :
  let kidx := ForceEwald.kidx_kspace_potential 2 1 0 2 in
  (0 <= 2 * kidx)%Z /\ (2 * kidx + 1 <= INT_MAX)%Z /\
  (0 <= 2 * ForceEwald.n_kvec 2 <= INT_MAX)%Z /\
  ((2 * kidx + 1 < 2 * ForceEwald.n_kvec 2)%Z <-> (2 < 2)%Z).
Proof.
  apply (kspace_potential_slot_in_extent_iff 2 1 0 2); lia.
Defined.

(** X3. The index of the partial-sum pass strides the kz planes by
    (2 k_int + 1)^3.  For 1 <= k_int <= 90, where 2 kidx + 1 does not
    exceed INT_MAX and the [int] arithmetic of the source gives the
    integers of the statement, it separates the wave-vectors of the cube
    and lies inside the extent of the contribution array only on the plane
    kz = - k_int. *)
Theorem partial_sums_slot_in_extent_iff (k_int kx ky kz kx' ky' kz' : Z) :
  (1 <= k_int <= 90)%Z ->
  (- k_int <= kx <= k_int)%Z -> (- k_int <= ky <= k_int)%Z ->
  (- k_int <= kz <= k_int)%Z ->
  (- k_int <= kx' <= k_int)%Z -> (- k_int <= ky' <= k_int)%Z ->
  (- k_int <= kz' <= k_int)%Z ->
  let kidx := ForceEwald.kidx_partial_sums k_int kx ky kz in
  (0 <= 2 * kidx)%Z /\ (2 * kidx + 1 <= INT_MAX)%Z /\
  ((2 * kidx + 1 < 2 * ForceEwald.n_kvec k_int)%Z <-> kz = (- k_int)%Z) /\
  (kidx = ForceEwald.kidx_partial_sums k_int kx' ky' kz' ->
   kx = kx' /\ ky = ky' /\ kz = kz').
Proof.
  intros Hk Hx Hy Hz Hx' Hy' Hz'. cbv zeta.
  pose proof (radix_cube_le 90 k_int ltac:(lia)) as Hcube.
  change ((2 * 90 + 1) * (2 * 90 + 1) * (2 * 90 + 1))%Z
    with 5929741%Z in Hcube.
  unfold ForceEwald.kidx_partial_sums, ForceEwald.n_kvec, INT_MAX.
  set (B := (2 * k_int + 1)%Z) in *.
  assert (HB : (3 <= B)%Z) by (unfold B; lia).
  assert (Hlow : forall a b, (- k_int <= a <= k_int)%Z -> (- k_int <= b <= k_int)%Z ->
            (0 <= (b + k_int) * B + (a + k_int) < B * B)%Z).
  { clear Hcube. intros a b Ha Hb. split; [nia |].
    assert (((b + k_int) * B + (a + k_int) <= (B - 1) * B + (B - 1))%Z)
      by (unfold B in *; nia).
    nia. }
  pose proof (Hlow kx ky Hx Hy) as L1. pose proof (Hlow kx' ky' Hx' Hy') as L2.
  assert (HBB : (B * B < B * B * B)%Z) by (clear Hcube; nia).
  assert (Htop : (0 <= (kz + k_int) * B * B * B <= 180 * 5929741)%Z).
  { replace ((kz + k_int) * B * B * B)%Z with ((kz + k_int) * (B * B * B))%Z
      by ring.
    split; [apply Z.mul_nonneg_nonneg; lia |].
    apply Z.mul_le_mono_nonneg; lia. }
  split; [lia |]. split; [lia |].
  clear Hcube Htop. assert (Hk1 : (1 <= k_int)%Z) by lia. clear Hk.
  split; [split |].
  - intros H. destruct (Z.eq_dec kz (- k_int)) as [-> |]; [reflexivity |].
    exfalso.
    assert ((1 * (B * B * B) <= (kz + k_int) * B * B * B)%Z) by nia.
    assert ((2 * k_int * (B * B) < B * (B * B))%Z) by (unfold B in *; nia).
    nia.
  - intros ->. replace (- k_int + k_int)%Z with 0%Z by lia. nia.
  - intros H.
    destruct (mixed_radix_unique (B * B * B) (kz + k_int)
                ((ky + k_int) * B + (kx + k_int))
                (kz' + k_int) ((ky' + k_int) * B + (kx' + k_int)))
      as [H1 H2]; [lia | lia | lia |].
    destruct (mixed_radix_unique B (ky + k_int) (kx + k_int)
                (ky' + k_int) (kx' + k_int)) as [H3 H4];
      [unfold B; lia | unfold B; lia | lia |].
    lia.
Qed.

Lemma partial_sums_slot_in_extent_iff_witness :
  let kidx := ForceEwald.kidx_partial_sums 1 1 0 0 in
  (0 <= 2 * kidx)%Z /\ (2 * kidx + 1 <= INT_MAX)%Z /\
  ((2 * kidx + 1 < 2 * ForceEwald.n_kvec 1)%Z <-> 0%Z = (- 1)%Z) /\
  (kidx = ForceEwald.kidx_partial_sums 1 1 0 0 ->
   (1 = 1 /\ 0 = 0 /\ 0 = 0)%Z).
Proof.
  apply (partial_sums_slot_in_extent_iff 1 1 0 0 1 0 0); lia.
Defined.
(** ** Ranges have no repeated index *)

Lemma NoDup_range_le (lo hi : Z) : NoDup (range_le lo hi).
Proof. apply NoDup_zseq. Qed.

Lemma NoDup_range_lt (lo hi : Z) : NoDup (range_lt lo hi).
Proof. apply NoDup_zseq. Qed.

(** ** Loops that add to the potentials and forces *)

Lemma adds_ext (s s' : System) (dp dp' : Z -> R) (df df' : Z -> Z -> R) :
  adds s s' dp df ->
  (forall k, dp k = dp' k) -> (forall k e, df k e = df' k e) ->
  adds s s' dp' df'.
Proof.
  intros (Hs & Hp & Hf) Edp Edf. split; [exact Hs |]. split.
  - intros k. rewrite Hp, Edp. reflexivity.
  - intros k e. rewrite Hf, Edf. reflexivity.
Qed.

Lemma for_each_adds (s0 : System) (l : list Z) (body : Z -> System -> System)
    (dp : Z -> Z -> R) (df : Z -> Z -> Z -> R) :
  (forall i s, same_inputs s0 s -> adds s (body i s) (dp i) (df i)) ->
  forall s, same_inputs s0 s ->
    adds s (for_each l body s)
         (fun k => sum_over l (fun i => dp i k))
         (fun k e => sum_over l (fun i => df i k e)).
Proof.
  intros Hbody. induction l as [| i l IH]; intros s Hs.
  - split; [apply same_inputs_refl |]. cbn. split; intros; lra.
  - change (for_each (i :: l) body s) with (for_each l body (body i s)).
    destruct (Hbody i s Hs) as (Hs1 & Hp1 & Hf1).
    destruct (IH (body i s) (same_inputs_trans _ _ _ Hs Hs1))
      as (Hs2 & Hp2 & Hf2).
    split; [exact (same_inputs_trans _ _ _ Hs1 Hs2) |].
    unfold sum_over in *. cbn [fold_right]. split.
    + intros k. rewrite Hp2, Hp1. lra.
    + intros k e. rewrite Hf2, Hf1. lra.
Qed.

Lemma sum_over_if (l : list Z) (b : bool) (g : Z -> R) :
  sum_over l (fun i => if b then g i else 0) =
  if b then sum_over l g else 0.
Proof.
  destruct b; [reflexivity |]. apply sum_over_zero. reflexivity.
Qed.

(** ** The k-space pass as a sum over the wave-vectors *)

Lemma kspace_potential_body_adds (k_int : Z) (lx ly lz alpha : R) (U : view1)
    (idx kz ky kx : Z) (s : System) :
  adds s (ForceEwald.kspace_potential_body k_int lx ly lz alpha U idx kz ky kx s)
       (fun k => if (k =? idx)%Z
                 then kspace_contrib k_int lx ly lz alpha U kz ky kx else 0)
       (fun k e => if (k =? idx)%Z
                   then kspace_force k_int lx ly lz alpha U (x s) (q s)
                                     idx e kz ky kx
                   else 0).
Proof.
  unfold adds, ForceEwald.kspace_potential_body, kspace_contrib, kspace_force,
    kspace_k_coeff, kspace_k.
  cbv zeta.
  destruct ((kx =? 0)%Z && (ky =? 0)%Z && (kz =? 0)%Z).
  { split; [apply same_inputs_refl |].
    split; intros; destruct (_ =? idx)%Z; lra. }
  change (range_lt 0 3) with [0%Z; 1%Z; 2%Z]. cbn [for_each fold_left].
  split; [unfold same_inputs; cbn; repeat split; reflexivity |].
  cbn [p f x q set_p set_f Z.eqb Pos.eqb].
  split.
  - intros k. unfold atomic_add1, assign1.
    destruct (Z.eqb_spec k idx); subst; lra.
  - intros k e. unfold atomic_add2, assign2.
    destruct (Z.eqb_spec k idx); subst; cbn [andb].
    + rewrite !Z.eqb_refl. cbn [andb].
      destruct (Z.eqb_spec e 0) as [-> |];
        [cbn [Z.eqb Pos.eqb Z.leb Z.ltb Z.compare andb]; lra |].
      destruct (Z.eqb_spec e 1) as [-> |];
        [cbn [Z.eqb Pos.eqb Z.leb Z.ltb Z.compare Pos.compare
                    Pos.compare_cont andb]; lra |].
      destruct (Z.eqb_spec e 2) as [-> |];
        [cbn [Z.eqb Pos.eqb Z.leb Z.ltb Z.compare Pos.compare
                    Pos.compare_cont andb]; lra |].
      destruct (Z.leb_spec 0 e); destruct (Z.ltb_spec e 3); cbn [andb];
        try lra; lia.
    + lra.
Qed.

Lemma kspace_potential_adds (s0 : System) (k_int : Z) (lx ly lz alpha : R)
    (U : view1) (idx : Z) (s : System) :
  same_inputs s0 s ->
  adds s (ForceEwald.kspace_potential k_int lx ly lz alpha U idx s)
       (fun k => if (k =? idx)%Z
                 then sum_over_wave_vectors k_int
                        (kspace_contrib k_int lx ly lz alpha U)
                 else 0)
       (fun k e => if (k =? idx)%Z
                   then sum_over_wave_vectors k_int
                          (kspace_force k_int lx ly lz alpha U (x s0) (q s0)
                                        idx e)
                   else 0).
Proof.
  intros Hs. unfold ForceEwald.kspace_potential, sum_over_wave_vectors.
  set (K := range_le (- k_int) k_int).
  eapply adds_ext.
  - apply (for_each_adds s0 K _
             (fun kz k =>
                if (k =? idx)%Z
                then sum_over K (fun ky => sum_over K (fun kx =>
                       kspace_contrib k_int lx ly lz alpha U kz ky kx))
                else 0)
             (fun kz k e =>
                if (k =? idx)%Z
                then sum_over K (fun ky => sum_over K (fun kx =>
                       kspace_force k_int lx ly lz alpha U (x s0) (q s0)
                                    idx e kz ky kx))
                else 0)); [| exact Hs].
    intros kz s1 Hs1. eapply adds_ext.
    + apply (for_each_adds s0 K _
               (fun ky k =>
                  if (k =? idx)%Z
                  then sum_over K (fun kx =>
                         kspace_contrib k_int lx ly lz alpha U kz ky kx)
                  else 0)
               (fun ky k e =>
                  if (k =? idx)%Z
                  then sum_over K (fun kx =>
                         kspace_force k_int lx ly lz alpha U (x s0) (q s0)
                                      idx e kz ky kx)
                  else 0)); [| exact Hs1].
      intros ky s2 Hs2. eapply adds_ext.
      * apply (for_each_adds s0 K _
                 (fun kx k =>
                    if (k =? idx)%Z
                    then kspace_contrib k_int lx ly lz alpha U kz ky kx
                    else 0)
                 (fun kx k e =>
                    if (k =? idx)%Z
                    then kspace_force k_int lx ly lz alpha U (x s0) (q s0)
                                      idx e kz ky kx
                    else 0)); [| exact Hs2].
        intros kx s3 Hs3.
        pose proof (kspace_potential_body_adds k_int lx ly lz alpha U
                      idx kz ky kx s3) as H.
        destruct Hs3 as (_ & _ & _ & _ & _ & _ & Hx & Hq).
        rewrite <- Hx, <- Hq in H. exact H.
      * intros k. apply sum_over_if.
      * intros k e. apply sum_over_if.
    + intros k. apply sum_over_if.
    + intros k e. apply sum_over_if.
  - intros k. apply sum_over_if.
  - intros k e. apply sum_over_if.
Qed.

Lemma in_range_lt_dec (n k : Z) (a : R) :
  (if in_dec Z.eq_dec k (range_lt 0 n) then a else 0) =
  (if (0 <=? k)%Z && (k <? n)%Z then a else 0).
Proof.
  destruct (in_dec Z.eq_dec k (range_lt 0 n)) as [Hin | Hin];
    rewrite in_range_lt in Hin;
    destruct (Z.leb_spec 0 k); destruct (Z.ltb_spec k n); cbn [andb];
    try reflexivity; lia.
Qed.

(** X5. The k-space loop over the particles 0 .. n-1 adds to the potential
    of every particle of the range one and the same amount, the sum over the
    wave-vectors of coeff * k_coeff * (Re^2 + Im^2): it depends neither on
    the position nor on the charge of the particle.  To the force of a
    particle it adds the sum over the wave-vectors of the force terms of
    that particle; an uncharged particle receives no force.  Particles
    outside the range, and counts, domain, positions and charges, are left
    as they were. *)
Theorem kspace_potential_loop_effect (k_int : Z) (lx ly lz alpha : R)
    (U : view1) (n : Z) (s : System) :
  let s' := for_each (range_lt 0 n)
              (ForceEwald.kspace_potential k_int lx ly lz alpha U) s in
  let in_range k := (0 <=? k)%Z && (k <? n)%Z in
  same_inputs s s' /\
  (forall k,
     p s' k =
     p s k + (if in_range k
              then sum_over_wave_vectors k_int
                     (kspace_contrib k_int lx ly lz alpha U)
              else 0)) /\
  (forall k e,
     f s' k e =
     f s k e + (if in_range k
                then sum_over_wave_vectors k_int
                       (kspace_force k_int lx ly lz alpha U (x s) (q s) k e)
                else 0)) /\
  (forall k e, q s k = 0 -> f s' k e = f s k e).
Proof.
  cbv zeta.
  pose proof (for_each_adds s (range_lt 0 n) _ _ _
                (fun idx t Ht =>
                   kspace_potential_adds s k_int lx ly lz alpha U idx t Ht)
                s (same_inputs_refl s)) as (Hs & Hp & Hf).
  cbv beta in Hp, Hf.
  assert (Hf' : forall k e,
            f (for_each (range_lt 0 n)
                 (ForceEwald.kspace_potential k_int lx ly lz alpha U) s) k e =
            f s k e +
            (if (0 <=? k)%Z && (k <? n)%Z
             then sum_over_wave_vectors k_int
                    (kspace_force k_int lx ly lz alpha U (x s) (q s) k e)
             else 0)).
  { intros k e. rewrite Hf.
    rewrite (sum_over_indicator (range_lt 0 n) k
               (fun i => sum_over_wave_vectors k_int
                           (kspace_force k_int lx ly lz alpha U (x s) (q s)
                                         i e)))
      by apply NoDup_range_lt.
    rewrite in_range_lt_dec. reflexivity. }
  split; [exact Hs |]. split; [| split; [exact Hf' |]].
  - intros k. rewrite Hp.
    rewrite (sum_over_indicator (range_lt 0 n) k
               (fun _ => sum_over_wave_vectors k_int
                           (kspace_contrib k_int lx ly lz alpha U)))
      by apply NoDup_range_lt.
    rewrite in_range_lt_dec. reflexivity.
  - intros k e Hq. rewrite Hf'.
    destruct ((0 <=? k)%Z && (k <? n)%Z); [| lra].
    unfold sum_over_wave_vectors.
    rewrite sum_over_zero; [lra |]. intros kz _.
    apply sum_over_zero. intros ky _. apply sum_over_zero. intros kx _.
    unfold kspace_force. cbv zeta. rewrite Hq.
    destruct ((kx =? 0)%Z && (ky =? 0)%Z && (kz =? 0)%Z); [reflexivity |].
    destruct ((0 <=? e)%Z && (e <? 3)%Z); [ring | reflexivity].
Qed.

(** ** How a loop of fallible bodies ends *)

Lemma for_eachM_outcome {S : Type} (Inv : S -> Prop) (e : fault)
    (bad : Z -> bool) (body : Z -> M S unit) (l : list Z) :
  (forall i s, Inv s ->
     Inv (fst (body i s)) /\
     snd (body i s) = if bad i then Fault e else Ok tt) ->
  forall s, Inv s ->
    Inv (fst (for_eachM l body s)) /\
    snd (for_eachM l body s) = if existsb bad l then Fault e else Ok tt.
Proof.
  intros Hbody. induction l as [| i l IH]; intros s Hs.
  - cbn. split; [exact Hs | reflexivity].
  - cbn [for_eachM existsb]. unfold bind.
    destruct (Hbody i s Hs) as [Hinv Hout].
    destruct (body i s) as [s1 [[] | e1]]; cbn [fst snd] in *.
    + destruct (bad i); [discriminate |]. cbn [orb]. apply IH. exact Hinv.
    + destruct (bad i); [| discriminate]. cbn [orb fst snd].
      split; [exact Hinv | exact Hout].
Qed.

(** ** How the real-space kernel of ForceEwald ends *)

Lemma force_contribs_pair_keeps_inputs (s0 : System) (alpha : R) (i j : Z) :
  keeps (same_inputs s0) (ForceEwald.force_contribs_pair alpha i j).
Proof.
  unfold ForceEwald.force_contribs_pair. apply keeps_get_bind.
  intros t. cbv zeta. keeps_steps.
Qed.

Lemma pair_distance_same_inputs (s0 s : System) (i j : Z) :
  same_inputs s0 s -> pair_distance s i j = pair_distance s0 i j.
Proof.
  intros (_ & _ & _ & _ & _ & _ & Hx & _). unfold pair_distance.
  rewrite Hx. reflexivity.
Qed.

Lemma force_contribs_pair_outcome (s0 : System) (alpha : R) (i j : Z)
    (s : System) :
  same_inputs s0 s ->
  same_inputs s0 (fst (ForceEwald.force_contribs_pair alpha i j s)) /\
  snd (ForceEwald.force_contribs_pair alpha i j s) =
  if coincident s0 i j then Fault division_by_zero else Ok tt.
Proof.
  intros Hs. split; [apply force_contribs_pair_keeps_inputs; exact Hs |].
  unfold coincident. rewrite <- (pair_distance_same_inputs s0 s i j Hs).
  destruct (Req_dec_T (pair_distance s i j) 0) as [Hd | Hd].
  - rewrite (force_contribs_pair_coincident alpha i j s Hd). reflexivity.
  - destruct (force_contribs_pair_effect alpha i j s Hd) as (s' & Hrun & _).
    rewrite Hrun. reflexivity.
Qed.

Lemma force_contribs_outcome (s0 : System) (alpha : R)
    (neigh_list : NeighborList) (idx : Z) (s : System) :
  same_inputs s0 s ->
  same_inputs s0 (fst (ForceEwald.force_contribs alpha neigh_list idx s)) /\
  snd (ForceEwald.force_contribs alpha neigh_list idx s) =
  if has_coincident_neighbor neigh_list s0 idx
  then Fault division_by_zero else Ok tt.
Proof.
  unfold ForceEwald.force_contribs, has_coincident_neighbor. cbv zeta.
  apply (for_eachM_outcome (same_inputs s0) division_by_zero
           (fun ij => coincident s0 idx (getNeighbor neigh_list idx ij))).
  intros ij t Ht. apply force_contribs_pair_outcome. exact Ht.
Qed.

(** ** Newton's third law in the real-space kernel of ForceEwald *)

Lemma total_force_pair (L : list Z) (alpha : R) (i j : Z) (s : System)
    (e : Z) :
  NoDup L -> In i L -> In j L -> (0 <= e < 3)%Z ->
  total_force L (fst (ForceEwald.force_contribs_pair alpha i j s)) e =
  total_force L s e.
Proof.
  intros Hnd Hi Hj He.
  destruct (Req_dec_T (pair_distance s i j) 0) as [Hd | Hd].
  - rewrite (force_contribs_pair_coincident alpha i j s Hd). reflexivity.
  - destruct (force_contribs_pair_effect alpha i j s Hd)
      as (s' & Hrun & _ & _ & _ & Hf).
    rewrite Hrun. cbn [fst]. unfold total_force.
    rewrite (sum_over_ext L (fun k => f s' k e)
               (fun k =>
                  (f s k e +
                   (if (i =? k)%Z
                    then ewald_f_fact (q s i) (q s j) alpha
                           (pair_distance s i j) * (x s j e - x s i e)
                    else 0)) +
                  (if (j =? k)%Z
                   then - ewald_f_fact (q s i) (q s j) alpha
                            (pair_distance s i j) * (x s j e - x s i e)
                   else 0))).
    + rewrite !sum_over_plus.
      rewrite (sum_over_indicator L i
                 (fun _ => ewald_f_fact (q s i) (q s j) alpha
                             (pair_distance s i j) * (x s j e - x s i e)))
        by assumption.
      rewrite (sum_over_indicator L j
                 (fun _ => - ewald_f_fact (q s i) (q s j) alpha
                               (pair_distance s i j) * (x s j e - x s i e)))
        by assumption.
      destruct (in_dec Z.eq_dec i L); [| contradiction].
      destruct (in_dec Z.eq_dec j L); [| contradiction].
      lra.
    + intros k _. rewrite (Hf k e He). cbv zeta.
      rewrite (Z.eqb_sym i k), (Z.eqb_sym j k). reflexivity.
Qed.

(** The pair of [pair_on_axis] at distance 1/2 is no coincident pair. *)
Lemma pair_on_axis_no_coincident_neighbor :
  existsb (has_coincident_neighbor half_list_01 (pair_on_axis (1 / 2)))
          [0%Z; 1%Z] = false.
Proof.
  cbn [existsb]. unfold has_coincident_neighbor.
  cbn [numNeighbor getNeighbor half_list_01 Z.eqb Pos.eqb].
  change (range_lt 0 1) with [0%Z]. change (range_lt 0 0) with (@nil Z).
  cbn [existsb orb]. unfold coincident.
  rewrite (pair_on_axis_distance (1 / 2)) by lra.
  destruct (Req_dec_T (1 / 2) 0); [lra | reflexivity].
Qed.

(** X7. Newton's third law in the real-space loop of ForceEwald.  When no
    visited particle has a neighbor-list entry at distance zero, the loop
    ends normally and leaves the sum of the forces unchanged, component by
    component: what a pair adds to particle idx it takes from its neighbor
    j.  The sum runs over any list of distinct particles that holds the
    visited particles and their neighbors. *)
Theorem force_contribs_conserves_total_force (L particles : list Z)
    (alpha : R) (neigh_list : NeighborList) (s : System) (e : Z) :
  NoDup L ->
  (forall idx, In idx particles ->
     In idx L /\
     forall ij, (0 <= ij < numNeighbor neigh_list idx)%Z ->
                In (getNeighbor neigh_list idx ij) L) ->
  (0 <= e < 3)%Z ->
  existsb (has_coincident_neighbor neigh_list s) particles = false ->
  snd (for_eachM particles (ForceEwald.force_contribs alpha neigh_list) s) =
    Ok tt /\
  total_force L
    (fst (for_eachM particles (ForceEwald.force_contribs alpha neigh_list) s)) e =
  total_force L s e.
Proof.
  intros Hnd Hin He Hgood. split.
  { destruct (for_eachM_outcome (same_inputs s) division_by_zero
                (has_coincident_neighbor neigh_list s)
                (ForceEwald.force_contribs alpha neigh_list) particles
                (fun i t Ht => force_contribs_outcome s alpha neigh_list i t Ht)
                s (same_inputs_refl s)) as [_ Hout].
    rewrite Hgood in Hout. exact Hout. }
  set (Inv := fun t : System => total_force L t e = total_force L s e).
  assert (Hk : forall l,
            (forall idx, In idx l -> In idx particles) ->
            keeps Inv (for_eachM l (ForceEwald.force_contribs alpha neigh_list))).
  { intros l Hl. induction l as [| idx l IH].
    - apply keeps_ret.
    - cbn [for_eachM]. apply keeps_bind.
      + unfold ForceEwald.force_contribs. cbv zeta.
        destruct (Hin idx (Hl idx (or_introl eq_refl))) as [Hidx Hnb].
        assert (Hinner : forall l2,
                  (forall ij, In ij l2 ->
                              (0 <= ij < numNeighbor neigh_list idx)%Z) ->
                  keeps Inv
                    (for_eachM l2 (fun ij =>
                       ForceEwald.force_contribs_pair alpha idx
                         (getNeighbor neigh_list idx ij)))).
        { intros l2 Hl2. induction l2 as [| ij l2 IH2].
          - apply keeps_ret.
          - cbn [for_eachM]. apply keeps_bind.
            + intros t Ht. unfold Inv in *.
              rewrite total_force_pair; try assumption.
              apply Hnb. apply Hl2. left. reflexivity.
            + intros _. apply IH2. intros ij' Hij'. apply Hl2. right.
              exact Hij'. }
        apply Hinner. intros ij Hij. apply in_range_lt in Hij. exact Hij.
      + intros _. apply IH. intros idx' Hidx'. apply Hl. right. exact Hidx'. }
  apply (Hk particles (fun idx H => H) s). reflexivity.
Qed.

Lemma force_contribs_conserves_total_force_witness :
  snd (for_eachM [0%Z; 1%Z] (ForceEwald.force_contribs 1 half_list_01)
         (pair_on_axis (1 / 2))) = Ok tt /\
  total_force [0%Z; 1%Z]
    (fst (for_eachM [0%Z; 1%Z] (ForceEwald.force_contribs 1 half_list_01)
            (pair_on_axis (1 / 2)))) 0 =
  total_force [0%Z; 1%Z] (pair_on_axis (1 / 2)) 0.
Proof.
  apply (force_contribs_conserves_total_force [0%Z; 1%Z] [0%Z; 1%Z] 1
           half_list_01 (pair_on_axis (1 / 2)) 0).
  - repeat constructor; cbn; intuition lia.
  - intros idx Hidx. split; [exact Hidx |].
    intros ij _. cbn. right. left. reflexivity.
  - lia.
  - exact pair_on_axis_no_coincident_neighbor.
Defined.

(** ** ForceSPME::tune and the constructors *)

(** X8. [tune] forgets the parameters the solver held: on a cubic domain two
    solvers that agree on half_neigh and eps_r are left equal, so tuning
    twice gives what tuning once gives (on any domain: a rejected call
    changes nothing and is rejected again); half_neigh and eps_r are never
    written. *)
Theorem tune_forgets_previous_parameters (accuracy : R) (system : System)
    (this : ForceSPME.t) :
  let this' := fst (ForceSPME.tune accuracy system this) in
  ForceSPME.tune accuracy system this' = ForceSPME.tune accuracy system this /\
  ForceSPME.half_neigh this' = ForceSPME.half_neigh this /\
  ForceSPME._eps_r this' = ForceSPME._eps_r this /\
  (forall other,
     ForceSPME.half_neigh other = ForceSPME.half_neigh this ->
     ForceSPME._eps_r other = ForceSPME._eps_r this ->
     noncubic system = false ->
     ForceSPME.tune accuracy system other = ForceSPME.tune accuracy system this).
Proof.
  cbv zeta. unfold ForceSPME.tune.
  change (Rneb (domain_x system) (domain_y system)
          || Rneb (domain_x system) (domain_z system)) with (noncubic system).
  destruct (noncubic system) eqn:Hc.
  - cbn. repeat split; try reflexivity. intros; discriminate.
  - repeat split; try reflexivity.
    intros other Hh He _. cbv zeta.
    unfold bind, modify, ForceSPME.set_alpha, ForceSPME.set_k_max,
      ForceSPME.set_r_max.
    cbn [ForceSPME.half_neigh ForceSPME._alpha ForceSPME._r_max
         ForceSPME._k_max ForceSPME._eps_r].
    rewrite Hh, He. reflexivity.
Qed.

Lemma ln_lt_0 (eps : R) : 0 < eps < 1 -> ln eps < 0.
Proof.
  intros [H0 H1]. rewrite <- ln_1. apply ln_increasing; assumption.
Qed.

Lemma Rpower_pos (b e : R) : 0 < Rpower b e.
Proof. unfold Rpower. apply exp_pos. Qed.

(** X9. On a cubic domain of positive edge, with at least one particle and
    a target accuracy strictly between 0 and 1, the three tuned parameters
    are positive, and they are tied to p = - ln(accuracy) by
    alpha * r_max = sqrt p and k_max * r_max = 2 p. *)
Theorem tune_parameters_are_positive (this : ForceSPME.t) (eps : R)
    (system : System) :
  domain_x system = domain_y system -> domain_x system = domain_z system ->
  0 < domain_x system -> 0 < eps < 1 -> (0 < N system)%Z ->
  let this' := fst (ForceSPME.tune eps system this) in
  0 < ForceSPME._r_max this' /\
  0 < ForceSPME._alpha this' /\
  0 < ForceSPME._k_max this' /\
  ForceSPME._alpha this' * ForceSPME._r_max this' = sqrt (- ln eps) /\
  ForceSPME._k_max this' * ForceSPME._r_max this' = 2 * (- ln eps).
Proof.
  intros Hy Hz HL Heps HN. cbv zeta. unfold ForceSPME.tune.
  change (Rneb (domain_x system) (domain_y system)
          || Rneb (domain_x system) (domain_z system)) with (noncubic system).
  rewrite noncubic_false by assumption.
  cbn [fst bind modify ForceSPME._r_max ForceSPME._alpha ForceSPME._k_max
       ForceSPME.set_alpha ForceSPME.set_r_max ForceSPME.set_k_max].
  unfold ForceSPME.pow, ForceSPME.EXECUTION_TIME_RATIO_K_R, ForceSPME.lx.
  pose proof (ln_lt_0 eps Heps) as Hln.
  set (pp := - ln eps) in *.
  assert (Hp : 0 < pp) by (unfold pp; lra).
  pose proof literal_PI_bounds as HPI.
  assert (Hs : 0 < sqrt (pp / PI)).
  { apply sqrt_lt_R0. apply Rdiv_lt_0_compat; lra. }
  assert (Hsp : 0 < sqrt pp) by (apply sqrt_lt_R0; exact Hp).
  pose proof (Rpower_pos 2.0 (1.0 / 6.0)) as HA.
  pose proof (Rpower_pos (IZR (N system)) (1.0 / 6.0)) as HB.
  set (A := Rpower 2.0 (1.0 / 6.0)) in *.
  set (B := Rpower (IZR (N system)) (1.0 / 6.0)) in *.
  set (L := domain_x system) in *.
  assert (Hr : 0 < A * sqrt (pp / PI) / B * L).
  { apply Rmult_lt_0_compat; [| exact HL].
    apply Rdiv_lt_0_compat; [| exact HB].
    apply Rmult_lt_0_compat; assumption. }
  set (rr := A * sqrt (pp / PI) / B * L) in *.
  assert (Ha : 0 < sqrt pp / rr) by (apply Rdiv_lt_0_compat; assumption).
  split; [exact Hr |]. split; [exact Ha |]. split.
  - apply Rmult_lt_0_compat; [lra | exact Ha].
  - assert (Hcancel : forall a b, b <> 0 -> a / b * b = a)
      by (intros a b Hb; field; exact Hb).
    split.
    + apply Hcancel. lra.
    + replace 2.0 with 2 by lra.
      replace (2 * sqrt pp * (sqrt pp / rr) * rr)
        with (2 * (sqrt pp * (sqrt pp / rr * rr))) by ring.
      rewrite Hcancel by lra.
      rewrite sqrt_sqrt by lra. reflexivity.
Qed.

Lemma tune_parameters_are_positive_witness :
  let this' := fst (ForceSPME.tune 0.00001 cube10 solver0) in
  0 < ForceSPME._r_max this' /\
  0 < ForceSPME._alpha this' /\
  0 < ForceSPME._k_max this' /\
  ForceSPME._alpha this' * ForceSPME._r_max this' = sqrt (- ln 0.00001) /\
  ForceSPME._k_max this' * ForceSPME._r_max this' = 2 * (- ln 0.00001).
Proof.
  apply (tune_parameters_are_positive solver0 0.00001 cube10);
    cbn [domain_x domain_y domain_z N cube10]; try reflexivity; try lra; lia.
Defined.

(** X10. The two constructors.  With full neighbor lists (half_neigh_
    false) both stop at the assertion, the tuning constructor before it
    looks at the domain.  With half lists the tuning constructor gives what
    [tune] gives on any solver with the same eps_r: the r_max = 0 it sets
    first is not visible afterwards; the other constructor stores alpha and
    r_max and leaves k_max and eps_r as they were. *)
Theorem constructors_outcome (accuracy alpha r_max : R) (system : System)
    (this : ForceSPME.t) :
  snd (ForceSPME.construct alpha r_max false this) =
    Fault (assertion_failed "half_neigh == true") /\
  snd (ForceSPME.construct_tuned accuracy system false this) =
    Fault (assertion_failed "half_neigh == true") /\
  ForceSPME.construct alpha r_max true this =
    (ForceSPME.mk true alpha r_max (ForceSPME._k_max this)
                  (ForceSPME._eps_r this), Ok tt) /\
  snd (ForceSPME.construct_tuned accuracy system true this) =
    snd (ForceSPME.tune accuracy system this) /\
  (noncubic system = false ->
   ForceSPME.construct_tuned accuracy system true this =
   ForceSPME.tune accuracy system
     (ForceSPME.mk true (ForceSPME._alpha this) (ForceSPME._r_max this)
                   (ForceSPME._k_max this) (ForceSPME._eps_r this))).
Proof.
  repeat split.
  - unfold ForceSPME.construct_tuned, ForceSPME.tune.
    change (Rneb (domain_x system) (domain_y system)
            || Rneb (domain_x system) (domain_z system)) with (noncubic system).
    destruct (noncubic system); reflexivity.
  - intros Hc. unfold ForceSPME.construct_tuned, ForceSPME.tune.
    change (Rneb (domain_x system) (domain_y system)
            || Rneb (domain_x system) (domain_z system)) with (noncubic system).
    rewrite Hc. reflexivity.
Qed.

(** ** Range of the spline and of its derivative *)

Lemma oneDspline_1 : oneDspline 1 = 1 / 6.
Proof. unfold oneDspline. rcases; lra. Qed.

Lemma oneDspline_2 : oneDspline 2 = 2 / 3.
Proof. unfold oneDspline. rcases; lra. Qed.

(** X11. [oneDspline] takes its values between 0 and 2/3, whatever the
    argument; the value 2/3 is taken at 2, the argument of a mesh point at
    distance zero. *)
Theorem oneDspline_range (x : R) :
  0 <= oneDspline x <= 2 / 3 /\ oneDspline 2 = 2 / 3.
Proof.
  split; [| exact oneDspline_2].
  assert (Hc : forall y, 0 <= y <= 1 -> 0 <= 1.0 / 6.0 * y * y * y <= 2 / 3).
  { intros y Hy.
    assert (0 <= y * y) by nra. assert (0 <= y * y * y) by nra.
    assert (y * y <= 1) by nra. assert (y * y * y <= 1) by nra. lra. }
  assert (Hq : forall y, 1 <= y <= 2 ->
            0 <= - (1.0 / 2.0) * y * y * y + 2.0 * y * y - 2.0 * y + 2.0 / 3.0
              <= 2 / 3).
  { intros y Hy.
    assert (H1 : 0 <= (2 - y) * (2 - y) <= 2 - y) by nra.
    assert (H2 : 0 <= y * ((2 - y) * (2 - y))) by nra.
    assert (H3 : y * ((2 - y) * (2 - y)) <= y * (2 - y)) by nra.
    assert (H4 : y * (2 - y) <= 1) by nra.
    nra. }
  unfold oneDspline. rcases; try lra;
    first [apply Hc; lra | apply Hq; lra].
Qed.

(** X12. [oneDsplinederiv] takes its values between -2/3 and 2/3; it is 0
    at distance zero and at two mesh spacings or more. *)
Theorem oneDsplinederiv_range (u : R) :
  - (2 / 3) <= oneDsplinederiv u <= 2 / 3 /\
  oneDsplinederiv 0 = 0 /\
  (2 <= Rabs u -> oneDsplinederiv u = 0).
Proof.
  split; [| split].
  - unfold oneDsplinederiv. cbv zeta. set (x := 2.0 - Rabs u).
    assert (Hq : forall y, 1 <= y <= 2 ->
              0 <= - (3.0 / 2.0) * y * y + 4.0 * y - 2.0 <= 2 / 3).
    { intros y Hy.
      assert (0 <= (y - 4 / 3) * (y - 4 / 3)) by apply Rle_0_sqr.
      assert (0 <= (2 - y) * (y - 2 / 3)) by (apply Rmult_le_pos; lra).
      nra. }
    assert (Hc : forall y, 0 <= y <= 1 -> 0 <= 1.0 / 2.0 * y * y <= 2 / 3).
    { intros y Hy. assert (0 <= y * y) by nra. assert (y * y <= 1) by nra.
      lra. }
    clearbody x.
    rcases; try lra;
      first [ pose proof (Hc x ltac:(lra)); lra
            | pose proof (Hq x ltac:(lra)); lra ].
  - unfold oneDsplinederiv. rewrite Rabs_R0. rcases; lra.
  - intros Hu. unfold oneDsplinederiv. cbv zeta. rcases; try lra; nra.
Qed.

(** ** The four weights around a particle *)

Lemma spline_first_moment (s : R) :
  0 <= s <= 1 ->
  -1 * spreading_weight (- 1 - s) + 0 * spreading_weight (- s) +
  1 * spreading_weight (1 - s) + 2 * spreading_weight (2 - s) = s.
Proof.
  intros Hs.
  rewrite (spreading_weight_left_outer (- 1 - s)) by lra.
  rewrite (spreading_weight_left_inner (- s)) by lra.
  rewrite (spreading_weight_right_inner (1 - s)) by lra.
  rewrite (spreading_weight_right_outer (2 - s)) by lra.
  unfold cubic. field.
Qed.

Lemma splinederiv_sum_zero (s : R) :
  0 <= s <= 1 ->
  oneDsplinederiv (1 + s) + oneDsplinederiv s +
  oneDsplinederiv (s - 1) + oneDsplinederiv (s - 2) = 0.
Proof.
  intros Hs.
  destruct (oneDsplinederiv_pieces (1 + s)) as (_ & _ & _ & _ & H1).
  destruct (oneDsplinederiv_pieces s) as (_ & _ & _ & H2 & _).
  destruct (oneDsplinederiv_pieces (s - 1)) as (_ & _ & H3 & _ & _).
  destruct (oneDsplinederiv_pieces (s - 2)) as (_ & H4 & _ & _ & _).
  rewrite H1, H2, H3, H4 by lra. field.
Qed.

(** X13. For a particle at offset s (0 <= s <= 1, in mesh spacings) from
    the mesh point below it, the weights of the four mesh points at offsets
    -1, 0, 1, 2 sum to 1, their first moment is s (they place the charge at
    the position of the particle), and the four values of [oneDsplinederiv]
    that gather_f uses for these points sum to 0. *)
Theorem four_point_weights (s : R) :
  0 <= s <= 1 ->
  oneDspline (2.0 - Rabs (- 1 - s)) + oneDspline (2.0 - Rabs (0 - s)) +
  oneDspline (2.0 - Rabs (1 - s)) + oneDspline (2.0 - Rabs (2 - s)) = 1 /\
  -1 * oneDspline (2.0 - Rabs (- 1 - s)) + 0 * oneDspline (2.0 - Rabs (0 - s)) +
  1 * oneDspline (2.0 - Rabs (1 - s)) + 2 * oneDspline (2.0 - Rabs (2 - s)) = s /\
  oneDsplinederiv (s - -1) + oneDsplinederiv (s - 0) +
  oneDsplinederiv (s - 1) + oneDsplinederiv (s - 2) = 0.
Proof.
  intros Hs.
  pose proof (spline_partition_of_unity s Hs) as H1.
  pose proof (spline_first_moment s Hs) as H2.
  pose proof (splinederiv_sum_zero s Hs) as H3.
  unfold spreading_weight in H1, H2.
  replace (0 - s) with (- s) by ring.
  replace (s - -1) with (1 + s) by ring.
  replace (s - 0) with s by ring.
  repeat split; assumption.
Qed.

Lemma four_point_weights_witness :
  oneDspline (2.0 - Rabs (- 1 - 1 / 2)) + oneDspline (2.0 - Rabs (0 - 1 / 2)) +
  oneDspline (2.0 - Rabs (1 - 1 / 2)) + oneDspline (2.0 - Rabs (2 - 1 / 2)) = 1 /\
  -1 * oneDspline (2.0 - Rabs (- 1 - 1 / 2)) +
  0 * oneDspline (2.0 - Rabs (0 - 1 / 2)) +
  1 * oneDspline (2.0 - Rabs (1 - 1 / 2)) +
  2 * oneDspline (2.0 - Rabs (2 - 1 / 2)) = 1 / 2 /\
  oneDsplinederiv (1 / 2 - -1) + oneDsplinederiv (1 / 2 - 0) +
  oneDsplinederiv (1 / 2 - 1) + oneDsplinederiv (1 / 2 - 2) = 0.
Proof.
  apply (four_point_weights (1 / 2)). lra.
Defined.

(** ** The distances of spread_q and of gather_f *)

(** Case split on every absolute value and minimum of the goal. *)
Ltac abs_min_cases :=
  unfold Rmin, Rabs;
  repeat match goal with
         | |- context [Rcase_abs ?a] => destruct (Rcase_abs a)
         | |- context [Rle_dec ?a ?b] => destruct (Rle_dec a b)
         end;
  repeat match goal with
         | H0 : context [Rle_dec ?a ?b] |- _ => destruct (Rle_dec a b)
         end;
  lra.

Lemma gather_dist_cases (m r : R) :
  (m - r <= 1 / 2 -> - (1 / 2) <= m - r -> ForceSPME.gather_dist m r = r - m) /\
  (1 / 2 < m - r -> ForceSPME.gather_dist m r = r + 1 - m) /\
  (m - r < - (1 / 2) -> ForceSPME.gather_dist m r = r - 1 - m).
Proof.
  unfold ForceSPME.gather_dist, Rgtb, Rltb, Rabs. cbv zeta.
  repeat match goal with
         | |- context [Rcase_abs ?a] => destruct (Rcase_abs a)
         | |- context [Rlt_dec ?a ?b] => destruct (Rlt_dec a b)
         end;
    repeat split; intros; lra.
Qed.

(** X14. gather_f and spread_q measure the same distance: the absolute
    value of the signed distance that gather_f computes (to the particle or
    to its image at +1.0 or -1.0, whichever is nearest to the mesh point)
    is the distance that spread_q computes; the image is chosen exactly
    when the mesh coordinate is more than 1/2 away from the particle
    coordinate. *)
Theorem gather_dist_matches_spread_dist (m r : R) :
  Rabs (ForceSPME.gather_dist m r) = ForceSPME.spread_dist m r /\
  (Rabs (m - r) <= 1 / 2 -> ForceSPME.gather_dist m r = r - m).
Proof.
  destruct (gather_dist_cases m r) as (H0 & H1 & H2).
  split.
  - destruct (Rle_dec (m - r) (1 / 2)) as [Hle | Hgt].
    + destruct (Rle_dec (- (1 / 2)) (m - r)) as [Hge | Hlt].
      * rewrite H0 by assumption.
        unfold ForceSPME.spread_dist; abs_min_cases.
      * rewrite H2 by lra.
        unfold ForceSPME.spread_dist; abs_min_cases.
    + rewrite H1 by lra.
      unfold ForceSPME.spread_dist; abs_min_cases.
  - intros Habs. apply H0; unfold Rabs in Habs;
      destruct (Rcase_abs (m - r)); lra.
Qed.

(** ** TPME::oneDeuler *)

Lemma Rmin_literal_1 : Rmin (4.0 - (IZR 0 + 1.0)) (IZR 0 + 1.0) = 1.
Proof. unfold Rmin. destruct (Rle_dec _ _); lra. Qed.

Lemma Rmin_literal_2 : Rmin (4.0 - (IZR 1 + 1.0)) (IZR 1 + 1.0) = 2.
Proof. unfold Rmin. destruct (Rle_dec _ _); lra. Qed.

Lemma Rmin_literal_3 : Rmin (4.0 - (IZR 2 + 1.0)) (IZR 2 + 1.0) = 1.
Proof. unfold Rmin. destruct (Rle_dec _ _); lra. Qed.

Lemma oneDeuler_closed_form (k meshwidth : Z) :
  let c := cos (2.0 * PI * IZR k / IZR meshwidth) in
  ForceSPME.oneDeuler k meshwidth = 9 / ((2 + c) * (2 + c)).
Proof.
  cbv zeta. unfold ForceSPME.oneDeuler. cbv zeta.
  change (range_lt 0 3) with [0%Z; 1%Z; 2%Z].
  cbn [for_each fold_left fst snd].
  rewrite Rmin_literal_1, Rmin_literal_2, Rmin_literal_3.
  rewrite oneDspline_1, oneDspline_2.
  set (t := 2.0 * PI * IZR k / IZR meshwidth).
  replace (2.0 * PI * IZR k * IZR 0 / IZR meshwidth) with 0
    by (unfold Rdiv; ring).
  replace (2.0 * PI * IZR k * IZR 1 / IZR meshwidth) with t
    by (unfold t, Rdiv; ring).
  replace (2.0 * PI * IZR k * IZR 2 / IZR meshwidth) with (2 * t)
    by (unfold t, Rdiv; ring).
  rewrite cos_0, sin_0, cos_2a_cos, sin_2a.
  set (u := 2.0 * PI * 3.0 * IZR k / IZR meshwidth).
  pose proof (sin2_cos2 u) as Hu. unfold Rsqr in Hu.
  pose proof (sin2_cos2 t) as Ht. unfold Rsqr in Ht.
  pose proof (COS_bound t) as Hc.
  replace (cos u * cos u + sin u * sin u) with 1 by lra.
  set (c := cos t) in *. set (s := sin t) in *.
  assert (Hs : s * s = 1 - c * c) by lra.
  replace ((0.0 + 1 / 6 * 1 + 2 / 3 * c + 1 / 6 * (2 * c * c - 1)) *
           (0.0 + 1 / 6 * 1 + 2 / 3 * c + 1 / 6 * (2 * c * c - 1)) +
           (0.0 + 1 / 6 * 0 + 2 / 3 * s + 1 / 6 * (2 * s * c)) *
           (0.0 + 1 / 6 * 0 + 2 / 3 * s + 1 / 6 * (2 * s * c)))
    with ((2 + c) * (2 + c) / 9).
  - field. lra.
  - replace ((0.0 + 1 / 6 * 0 + 2 / 3 * s + 1 / 6 * (2 * s * c)) *
             (0.0 + 1 / 6 * 0 + 2 / 3 * s + 1 / 6 * (2 * s * c)))
      with ((s * s) * ((2 + c) * (2 + c) / 9)) by lra.
    rewrite Hs. lra.
Qed.

Lemma oneDeuler_bounds (k meshwidth : Z) :
  1 <= ForceSPME.oneDeuler k meshwidth <= 9.
Proof.
  rewrite oneDeuler_closed_form. cbv zeta.
  pose proof (COS_bound (2.0 * PI * IZR k / IZR meshwidth)) as Hc.
  set (c := cos (2.0 * PI * IZR k / IZR meshwidth)) in *.
  assert (H1 : 1 <= (2 + c) * (2 + c)) by nra.
  assert (H9 : (2 + c) * (2 + c) <= 9) by nra.
  split.
  - apply Rmult_le_reg_r with ((2 + c) * (2 + c)); [lra |].
    unfold Rdiv. rewrite Rmult_assoc, Rinv_l by lra. lra.
  - apply Rmult_le_reg_r with ((2 + c) * (2 + c)); [lra |].
    unfold Rdiv. rewrite Rmult_assoc, Rinv_l by lra. nra.
Qed.

(** X15. On a mesh of positive width, [oneDeuler] is 9 / (2 + cos theta)^2
    with theta = 2 PI k / meshwidth: the numerator of the source is
    cos^2 + sin^2 = 1, and the three spline values are 1/6, 2/3, 1/6.  It
    lies between 1 and 9 (the denominator never vanishes) and is 1 at
    k = 0. *)
Theorem oneDeuler_value (k meshwidth : Z) :
  (0 < meshwidth)%Z ->
  let c := cos (2.0 * PI * IZR k / IZR meshwidth) in
  ForceSPME.oneDeuler k meshwidth = 9 / ((2 + c) * (2 + c)) /\
  1 <= ForceSPME.oneDeuler k meshwidth <= 9 /\
  ForceSPME.oneDeuler 0 meshwidth = 1.
Proof.
  intros _. cbv zeta.
  split; [apply oneDeuler_closed_form |].
  split; [apply oneDeuler_bounds |].
  rewrite oneDeuler_closed_form. cbv zeta.
  replace (2.0 * PI * IZR 0 / IZR meshwidth) with 0 by (unfold Rdiv; ring).
  rewrite cos_0. field.
Qed.

Lemma oneDeuler_value_witness :
  let c := cos (2.0 * PI * IZR 3 / IZR 8) in
  ForceSPME.oneDeuler 3 8 = 9 / ((2 + c) * (2 + c)) /\
  1 <= ForceSPME.oneDeuler 3 8 <= 9 /\
  ForceSPME.oneDeuler 0 8 = 1.
Proof.
  apply (oneDeuler_value 3 8). lia.
Defined.

(** ** The mesh width *)

(** X16. For a mesh of M * M * M points (M positive) the width that
    [TPME::compute] recovers, round(pow(meshsize, 1/3)), is M. *)
Theorem meshwidth_of_cubic_mesh (M : Z) :
  (0 < M)%Z ->
  round (ForceSPME.pow (IZR (M * M * M)) (1.0 / 3.0)) = M.
Proof.
  intros HM.
  assert (Hm : 0 < IZR M) by (apply IZR_lt; exact HM).
  assert (Hpow : ForceSPME.pow (IZR (M * M * M)) (1.0 / 3.0) = IZR M).
  { unfold ForceSPME.pow, Rpower. rewrite !mult_IZR.
    rewrite !ln_mult; try assumption;
      [| apply Rmult_lt_0_compat; assumption].
    replace (1.0 / 3.0 * (ln (IZR M) + ln (IZR M) + ln (IZR M)))
      with (ln (IZR M)) by lra.
    apply exp_ln. exact Hm. }
  rewrite Hpow. unfold round. rewrite Rleb_true by lra.
  symmetry. apply Int_part_spec. lra.
Qed.

Lemma meshwidth_of_cubic_mesh_witness :
  round (ForceSPME.pow (IZR (8 * 8 * 8)) (1.0 / 3.0)) = 8%Z.
Proof.
  apply (meshwidth_of_cubic_mesh 8). lia.
Defined.

(** ** Loops that store into a complex array *)

Lemma for_each_writes (l : list Z) (body : Z -> cview -> cview)
    (foot : Z -> Z -> bool) (val : Z -> R * R) :
  (forall i B idx, In i l ->
     body i B idx = if foot i idx then val idx else B idx) ->
  forall B idx,
    for_each l body B idx =
    if existsb (fun i => foot i idx) l then val idx else B idx.
Proof.
  induction l as [| i l IH]; intros Hbody B idx.
  - reflexivity.
  - change (for_each (i :: l) body B) with (for_each l body (body i B)).
    rewrite IH by (intros j B' idx' Hj; apply Hbody; right; exact Hj).
    rewrite (Hbody i B idx) by (left; reflexivity).
    cbn [existsb].
    destruct (foot i idx); destruct (existsb (fun i0 => foot i0 idx) l);
      reflexivity.
Qed.

(** ** The BC array *)

Lemma BC_functor_body_stores (meshwidth : Z) (alpha lx ly lz : R)
    (kx ky kz : Z) (BC : cview) :
  ForceSPME.BC_functor_body meshwidth alpha lx ly lz kx ky kz BC =
  cassign BC (BC_index meshwidth kx ky kz)
          (BC_entry meshwidth alpha lx ly lz kx ky kz).
Proof.
  unfold ForceSPME.BC_functor_body, BC_entry, BC_index. cbv zeta.
  destruct (kx + ky + kz >? 0)%Z; reflexivity.
Qed.

Lemma BC_index_decode (meshwidth kx ky kz : Z) :
  (0 <= kx < meshwidth)%Z -> (0 <= ky < meshwidth)%Z ->
  (0 <= kz < meshwidth)%Z ->
  let idx := BC_index meshwidth kx ky kz in
  (idx mod meshwidth = kx /\ (idx / meshwidth) mod meshwidth = ky /\
   idx / meshwidth / meshwidth = kz)%Z /\
  (0 <= idx < meshwidth * meshwidth * meshwidth)%Z.
Proof.
  intros Hx Hy Hz. cbv zeta. unfold BC_index.
  assert (E1 : ((kx + ky * meshwidth + kz * meshwidth * meshwidth) / meshwidth
                = ky + kz * meshwidth)%Z).
  { symmetry. apply (Z.div_unique _ _ _ kx); [left; lia | ring]. }
  assert (E2 : ((ky + kz * meshwidth) / meshwidth = kz)%Z).
  { symmetry. apply (Z.div_unique _ _ _ ky); [left; lia | ring]. }
  split; [split; [| split] |].
  - symmetry. apply (Z.mod_unique _ _ (ky + kz * meshwidth));
      [left; lia | ring].
  - rewrite E1. symmetry. apply (Z.mod_unique _ _ kz); [left; lia | ring].
  - rewrite E1, E2. reflexivity.
  - split; [nia |].
    assert ((kx + ky * meshwidth + kz * meshwidth * meshwidth
             <= (meshwidth - 1) + (meshwidth - 1) * meshwidth
                + (meshwidth - 1) * meshwidth * meshwidth)%Z) by nia.
    nia.
Qed.

Lemma BC_index_encode (meshwidth idx : Z) :
  (0 <= idx < meshwidth * meshwidth * meshwidth)%Z ->
  let kx := (idx mod meshwidth)%Z in
  let ky := ((idx / meshwidth) mod meshwidth)%Z in
  let kz := (idx / meshwidth / meshwidth)%Z in
  (0 <= kx < meshwidth)%Z /\ (0 <= ky < meshwidth)%Z /\
  (0 <= kz < meshwidth)%Z /\ BC_index meshwidth kx ky kz = idx.
Proof.
  intros Hidx. cbv zeta.
  assert (Hm : (0 < meshwidth)%Z) by nia.
  pose proof (Z.mod_pos_bound idx meshwidth Hm) as B1.
  pose proof (Z.mod_pos_bound (idx / meshwidth) meshwidth Hm) as B2.
  pose proof (Z.div_mod idx meshwidth ltac:(lia)) as D1.
  pose proof (Z.div_mod (idx / meshwidth) meshwidth ltac:(lia)) as D2.
  assert (H0 : (0 <= idx / meshwidth)%Z) by (apply Z.div_pos; lia).
  assert (H1 : (0 <= idx / meshwidth / meshwidth)%Z) by (apply Z.div_pos; lia).
  assert (H2 : (idx / meshwidth / meshwidth < meshwidth)%Z).
  { apply Z.div_lt_upper_bound; [lia |].
    apply Z.div_lt_upper_bound; [lia |]. nia. }
  repeat split; try lia.
  unfold BC_index. nia.
Qed.

(** The footprint of the loops of BC_functor. *)
Lemma BC_footprint (meshwidth idx : Z) :
  existsb (fun kx =>
    existsb (fun ky =>
      existsb (fun kz => (idx =? BC_index meshwidth kx ky kz)%Z)
              (range_lt 0 meshwidth))
            (range_lt 0 meshwidth))
          (range_lt 0 meshwidth) = true <->
  (0 <= idx < meshwidth * meshwidth * meshwidth)%Z.
Proof.
  split.
  - intros H. apply existsb_exists in H. destruct H as (kx & Hx & H).
    apply existsb_exists in H. destruct H as (ky & Hy & H).
    apply existsb_exists in H. destruct H as (kz & Hz & H).
    apply in_range_lt in Hx, Hy, Hz. apply Z.eqb_eq in H. subst idx.
    apply (BC_index_decode meshwidth kx ky kz Hx Hy Hz).
  - intros Hr.
    destruct (BC_index_encode meshwidth idx Hr) as (Hx & Hy & Hz & E).
    cbv zeta in E.
    apply existsb_exists. exists (idx mod meshwidth)%Z.
    split; [apply in_range_lt; exact Hx |].
    apply existsb_exists. exists ((idx / meshwidth) mod meshwidth)%Z.
    split; [apply in_range_lt; exact Hy |].
    apply existsb_exists. exists (idx / meshwidth / meshwidth)%Z.
    split; [apply in_range_lt; exact Hz |].
    apply Z.eqb_eq. symmetry. exact E.
Qed.

Lemma BC_loops_store (meshwidth : Z) (alpha lx ly lz : R) (BC0 : cview)
    (idx : Z) :
  for_each (range_lt 0 meshwidth)
           (ForceSPME.BC_functor meshwidth alpha lx ly lz) BC0 idx =
  if (0 <=? idx)%Z && (idx <? meshwidth * meshwidth * meshwidth)%Z
  then BC_at meshwidth alpha lx ly lz idx else BC0 idx.
Proof.
  rewrite (for_each_writes _ _
             (fun kx idx =>
                existsb (fun ky =>
                  existsb (fun kz => (idx =? BC_index meshwidth kx ky kz)%Z)
                          (range_lt 0 meshwidth))
                        (range_lt 0 meshwidth))
             (BC_at meshwidth alpha lx ly lz)).
  - destruct (existsb _ (range_lt 0 meshwidth)) eqn:E.
    + apply BC_footprint in E.
      destruct (Z.leb_spec 0 idx); destruct (Z.ltb_spec idx
        (meshwidth * meshwidth * meshwidth)); cbn [andb]; try reflexivity; lia.
    + destruct (Z.leb_spec 0 idx); destruct (Z.ltb_spec idx
        (meshwidth * meshwidth * meshwidth)); cbn [andb]; try reflexivity.
      assert (Hr : (0 <= idx < meshwidth * meshwidth * meshwidth)%Z) by lia.
      apply BC_footprint in Hr. congruence.
  - intros kx B idx1 Hx. apply in_range_lt in Hx.
    unfold ForceSPME.BC_functor.
    apply (for_each_writes _ _
             (fun ky idx =>
                existsb (fun kz => (idx =? BC_index meshwidth kx ky kz)%Z)
                        (range_lt 0 meshwidth))
             (BC_at meshwidth alpha lx ly lz)).
    intros ky B1 idx2 Hy. apply in_range_lt in Hy.
    apply (for_each_writes _ _
             (fun kz idx => (idx =? BC_index meshwidth kx ky kz)%Z)
             (BC_at meshwidth alpha lx ly lz)).
    intros kz B2 idx3 Hz. apply in_range_lt in Hz.
    rewrite BC_functor_body_stores. unfold cassign.
    destruct (Z.eqb_spec idx3 (BC_index meshwidth kx ky kz)) as [-> |];
      [| reflexivity].
    unfold BC_at.
    destruct (BC_index_decode meshwidth kx ky kz Hx Hy Hz)
      as ((D1 & D2 & D3) & _).
    rewrite D1, D2, D3. reflexivity.
Qed.

Lemma BC_entry_parts (meshwidth : Z) (alpha lx ly lz : R) (kx ky kz : Z) :
  (0 <= kx < meshwidth)%Z -> (0 <= ky < meshwidth)%Z ->
  (0 <= kz < meshwidth)%Z ->
  snd (BC_entry meshwidth alpha lx ly lz kx ky kz) = 0 /\
  (0 < lx -> 0 < ly -> 0 < lz ->
   0 <= fst (BC_entry meshwidth alpha lx ly lz kx ky kz)).
Proof.
  intros Hx Hy Hz. unfold BC_entry. cbv zeta.
  destruct (Z.gtb_spec (kx + ky + kz) 0) as [Hpos | Hzero];
    cbn [fst snd]; [| split; [lra | intros; lra]].
  split; [lra |]. intros Hlx Hly Hlz.
  set (mx := if Rgtb (IZR kx) (IZR meshwidth / 2.0)
             then (kx - meshwidth)%Z else kx).
  set (my := if Rgtb (IZR ky) (IZR meshwidth / 2.0)
             then (ky - meshwidth)%Z else ky).
  set (mz := if Rgtb (IZR kz) (IZR meshwidth / 2.0)
             then (kz - meshwidth)%Z else kz).
  assert (Hm : (1 <= mx * mx + my * my + mz * mz)%Z).
  { assert (Hsq : forall k m : Z, (0 <= k < meshwidth)%Z ->
              m = k \/ m = (k - meshwidth)%Z ->
              (0 <= m * m)%Z /\ (1 <= k -> 1 <= m * m)%Z).
    { intros k m Hk [-> | ->]; split; nia. }
    assert (Cx : mx = kx \/ mx = (kx - meshwidth)%Z)
      by (unfold mx; destruct (Rgtb (IZR kx) (IZR meshwidth / 2.0)); auto).
    assert (Cy : my = ky \/ my = (ky - meshwidth)%Z)
      by (unfold my; destruct (Rgtb (IZR ky) (IZR meshwidth / 2.0)); auto).
    assert (Cz : mz = kz \/ mz = (kz - meshwidth)%Z)
      by (unfold mz; destruct (Rgtb (IZR kz) (IZR meshwidth / 2.0)); auto).
    destruct (Hsq kx mx Hx Cx) as [X0 X1].
    destruct (Hsq ky my Hy Cy) as [Y0 Y1].
    destruct (Hsq kz mz Hz Cz) as [Z0 Z1].
    clearbody mx my mz.
    destruct (Z_le_gt_dec 1 kx) as [Kx | Kx]; [specialize (X1 Kx); lia |].
    destruct (Z_le_gt_dec 1 ky) as [Ky | Ky]; [specialize (Y1 Ky); lia |].
    destruct (Z_le_gt_dec 1 kz) as [Kz | Kz]; [specialize (Z1 Kz); lia |].
    lia. }
  apply IZR_le in Hm.
  set (m2 := IZR (mx * mx + my * my + mz * mz)) in *.
  pose proof (oneDeuler_bounds kx meshwidth) as Ex.
  pose proof (oneDeuler_bounds ky meshwidth) as Ey.
  pose proof (oneDeuler_bounds kz meshwidth) as Ez.
  pose proof (exp_pos (- PI * PI * m2 / (alpha * alpha))) as He.
  pose proof literal_PI_bounds as HPI.
  set (ex := ForceSPME.oneDeuler kx meshwidth) in *.
  set (ey := ForceSPME.oneDeuler ky meshwidth) in *.
  set (ez := ForceSPME.oneDeuler kz meshwidth) in *.
  set (ee := exp (- PI * PI * m2 / (alpha * alpha))) in *.
  apply Rlt_le. apply Rdiv_lt_0_compat.
  - apply Rmult_lt_0_compat; [| lra].
    apply Rmult_lt_0_compat; [| lra].
    apply Rmult_lt_0_compat; lra.
  - apply Rmult_lt_0_compat; [| lra].
    apply Rmult_lt_0_compat; [| lra].
    apply Rmult_lt_0_compat; [| lra].
    apply Rmult_lt_0_compat; lra.
Qed.

(** X17. The loops of BC_functor store into every cell of a mesh of width
    meshwidth (indices 0 .. meshwidth^3 - 1) and into no other cell: after
    them the array does not depend on what the allocation held.  The cell
    of the wave-vector (kx, ky, kz) holds the entry computed for it, the
    imaginary parts are 0, the origin cell is (0, 0), and on a domain with
    positive edges no real part is negative. *)
Theorem BC_functor_fills_the_mesh (meshwidth : Z) (alpha lx ly lz : R)
    (BC0 BC0' : cview) :
  let fill BC0 :=
    for_each (range_lt 0 meshwidth)
             (ForceSPME.BC_functor meshwidth alpha lx ly lz) BC0 in
  let on_mesh idx := (0 <= idx < meshwidth * meshwidth * meshwidth)%Z in
  (forall kx ky kz,
     (0 <= kx < meshwidth)%Z -> (0 <= ky < meshwidth)%Z ->
     (0 <= kz < meshwidth)%Z ->
     fill BC0 (kx + ky * meshwidth + kz * meshwidth * meshwidth)%Z =
     BC_entry meshwidth alpha lx ly lz kx ky kz) /\
  (forall idx, on_mesh idx ->
     fill BC0 idx = fill BC0' idx /\ snd (fill BC0 idx) = 0) /\
  (forall idx, ~ on_mesh idx -> fill BC0 idx = BC0 idx) /\
  ((0 < meshwidth)%Z -> fill BC0 0%Z = (0, 0)) /\
  (0 < lx -> 0 < ly -> 0 < lz ->
   forall idx, on_mesh idx -> 0 <= fst (fill BC0 idx)).
Proof.
  cbv zeta.
  assert (Hon : forall B idx,
            (0 <= idx < meshwidth * meshwidth * meshwidth)%Z ->
            for_each (range_lt 0 meshwidth)
              (ForceSPME.BC_functor meshwidth alpha lx ly lz) B idx =
            BC_at meshwidth alpha lx ly lz idx).
  { intros B idx Hr. rewrite BC_loops_store.
    destruct (Z.leb_spec 0 idx); destruct (Z.ltb_spec idx
      (meshwidth * meshwidth * meshwidth)); cbn [andb]; try reflexivity; lia. }
  split; [| split; [| split; [| split]]].
  - intros kx ky kz Hx Hy Hz.
    destruct (BC_index_decode meshwidth kx ky kz Hx Hy Hz)
      as ((D1 & D2 & D3) & Hr).
    unfold BC_index in *. rewrite Hon by exact Hr.
    unfold BC_at. rewrite D1, D2, D3. reflexivity.
  - intros idx Hr. rewrite !Hon by exact Hr. split; [reflexivity |].
    destruct (BC_index_encode meshwidth idx Hr) as (Hx & Hy & Hz & _).
    apply (BC_entry_parts meshwidth alpha lx ly lz _ _ _ Hx Hy Hz).
  - intros idx Hout. rewrite BC_loops_store.
    destruct (Z.leb_spec 0 idx); destruct (Z.ltb_spec idx
      (meshwidth * meshwidth * meshwidth)); cbn [andb]; try reflexivity; lia.
  - intros Hm. rewrite Hon by nia.
    unfold BC_at, BC_entry.
    rewrite Z.mod_0_l, Z.div_0_l by lia. rewrite Z.mod_0_l by lia.
    rewrite Z.div_0_l by lia. cbn [Z.add Z.gtb Z.compare].
    f_equal; lra.
  - intros Hlx Hly Hlz idx Hr. rewrite Hon by exact Hr.
    destruct (BC_index_encode meshwidth idx Hr) as (Hx & Hy & Hz & _).
    apply (BC_entry_parts meshwidth alpha lx ly lz _ _ _ Hx Hy Hz);
      assumption.
Qed.

(** ** update_q *)

Lemma update_q_loop (BC : cview) (l : list Z) :
  NoDup l ->
  forall (Q : cview) (idx : Z),
    for_each l (ForceSPME.update_q BC) Q idx =
    if in_dec Z.eq_dec idx l
    then (fst (Q idx) * fst (BC idx), snd (Q idx) * fst (BC idx))
    else Q idx.
Proof.
  induction 1 as [| i l Hni Hnd IH]; intros Q idx.
  - reflexivity.
  - change (for_each (i :: l) (ForceSPME.update_q BC) Q)
      with (for_each l (ForceSPME.update_q BC) (ForceSPME.update_q BC i Q)).
    rewrite IH. unfold ForceSPME.update_q, cassign.
    destruct (in_dec Z.eq_dec idx l) as [Hin | Hout];
      destruct (in_dec Z.eq_dec idx (i :: l)) as [Hin' | Hout'];
      destruct (Z.eqb_spec idx i); subst; cbn [In] in *;
      first [reflexivity | exfalso; tauto | exfalso; intuition congruence].
Qed.

(** X18. The update_q loop over the indices 0 .. n-1 multiplies the real
    and the imaginary part of each of these cells of Qktest once by the
    real part of BC, and leaves every cell from index n on as the inverse
    transform gave it.  ([TPME::compute] runs the loop with n = n_max, the
    number of particles.) *)
Theorem update_q_loop_range (n : Z) (BC Qktest : cview) (idx : Z) :
  for_each (range_lt 0 n) (ForceSPME.update_q BC) Qktest idx =
  if (0 <=? idx)%Z && (idx <? n)%Z
  then (fst (Qktest idx) * fst (BC idx), snd (Qktest idx) * fst (BC idx))
  else Qktest idx.
Proof.
  rewrite update_q_loop by apply NoDup_range_lt.
  destruct (in_dec Z.eq_dec idx (range_lt 0 n)) as [Hin | Hin];
    rewrite in_range_lt in Hin;
    destruct (Z.leb_spec 0 idx); destruct (Z.ltb_spec idx n); cbn [andb];
    try reflexivity; lia.
Qed.

(** ** How a reduction over fallible bodies ends *)

Lemma reduce_chunk_outcome {S : Type} (Inv : S -> Prop) (e : fault)
    (bad : Z -> bool) (body : Z -> R -> M S R) (chunk : list Z) :
  (forall i acc s, Inv s ->
     Inv (fst (body i acc s)) /\
     if bad i then snd (body i acc s) = Fault e
     else exists a, snd (body i acc s) = Ok a) ->
  forall acc s, Inv s ->
    Inv (fst (reduce_chunk body chunk acc s)) /\
    if existsb bad chunk then snd (reduce_chunk body chunk acc s) = Fault e
    else exists a, snd (reduce_chunk body chunk acc s) = Ok a.
Proof.
  intros Hbody. induction chunk as [| i chunk IH]; intros acc s Hs.
  - cbn. split; [exact Hs |]. eexists. reflexivity.
  - cbn [reduce_chunk existsb]. unfold bind.
    destruct (Hbody i acc s Hs) as [Hinv Hout].
    destruct (body i acc s) as [s1 [a | e1]]; cbn [fst snd] in *.
    + destruct (bad i); [discriminate |]. cbn [orb]. apply IH. exact Hinv.
    + destruct (bad i); [| destruct Hout; discriminate].
      cbn [orb fst snd]. split; [exact Hinv | exact Hout].
Qed.

Lemma parallel_reduce_outcome {S : Type} (Inv : S -> Prop) (e : fault)
    (bad : Z -> bool) (body : Z -> R -> M S R) (schedule : list (list Z)) :
  (forall i acc s, Inv s ->
     Inv (fst (body i acc s)) /\
     if bad i then snd (body i acc s) = Fault e
     else exists a, snd (body i acc s) = Ok a) ->
  forall s, Inv s ->
    Inv (fst (parallel_reduce schedule body s)) /\
    if existsb (existsb bad) schedule
    then snd (parallel_reduce schedule body s) = Fault e
    else exists a, snd (parallel_reduce schedule body s) = Ok a.
Proof.
  intros Hbody. induction schedule as [| chunk schedule IH]; intros s Hs.
  - cbn. split; [exact Hs |]. eexists. reflexivity.
  - cbn [parallel_reduce existsb]. unfold bind, ret.
    destruct (reduce_chunk_outcome Inv e bad body chunk Hbody 0.0 s Hs)
      as [Hinv Hout].
    destruct (reduce_chunk body chunk 0.0 s) as [s1 [part | e1]];
      cbn [fst snd] in *.
    + destruct (existsb bad chunk); [discriminate |]. cbn [orb].
      destruct (IH s1 Hinv) as [Hinv2 Hout2].
      destruct (parallel_reduce schedule body s1) as [s2 [rest | e2]];
        cbn [fst snd] in *.
      * split; [exact Hinv2 |].
        destruct (existsb (existsb bad) schedule); [discriminate |].
        eexists. reflexivity.
      * split; [exact Hinv2 |].
        destruct (existsb (existsb bad) schedule);
          [exact Hout2 | destruct Hout2; discriminate].
    + destruct (existsb bad chunk); [| destruct Hout; discriminate].
      cbn [orb fst snd]. split; [exact Hinv | exact Hout].
Qed.

Lemma existsb_never (l : list Z) : existsb (fun _ => false) l = false.
Proof. induction l; [reflexivity | exact IHl]. Qed.

Lemma existsb_existsb_never (l : list (list Z)) :
  existsb (existsb (fun _ => false)) l = false.
Proof.
  induction l as [| c l IH]; [reflexivity |].
  cbn [existsb]. rewrite existsb_never, IH. reflexivity.
Qed.

(** Methods that end normally *)

Section Succeeds.

Context {S : Type}.
Variable Inv : S -> Prop.

Lemma succeeds_ret {A : Type} (a : A) : succeeds Inv (ret a).
Proof. intros s Hs. split; [exact Hs |]. exists a. reflexivity. Qed.

Lemma succeeds_bind {A B : Type} (m : M S A) (k : A -> M S B) :
  succeeds Inv m -> (forall a, succeeds Inv (k a)) -> succeeds Inv (bind m k).
Proof.
  intros Hm Hk s Hs. unfold bind.
  destruct (Hm s Hs) as [Hinv [a Ha]].
  destruct (m s) as [s1 [a1 | e1]]; cbn [fst snd] in *; [| discriminate].
  apply Hk. exact Hinv.
Qed.

Lemma succeeds_modify (g : S -> S) :
  (forall s, Inv s -> Inv (g s)) -> succeeds Inv (modify g).
Proof.
  intros Hg s Hs. split; [apply Hg; exact Hs |]. exists tt. reflexivity.
Qed.

Lemma succeeds_get_bind {B : Type} (k : S -> M S B) :
  (forall s0, Inv s0 -> succeeds Inv (k s0)) -> succeeds Inv (bind get k).
Proof. intros Hk s Hs. rewrite bind_get. apply (Hk s Hs s Hs). Qed.

Lemma succeeds_checked_div (a b : R) :
  b <> 0 -> succeeds Inv (@checked_div S a b).
Proof.
  intros Hb s Hs. unfold checked_div.
  destruct (Req_dec_T b 0); [contradiction |].
  split; [exact Hs |]. eexists. reflexivity.
Qed.

Lemma succeeds_reduce_chunk (body : Z -> R -> M S R) (chunk : list Z)
    (acc : R) :
  (forall i a, succeeds Inv (body i a)) ->
  succeeds Inv (reduce_chunk body chunk acc).
Proof.
  intros Hbody s Hs.
  pose proof (reduce_chunk_outcome Inv division_by_zero (fun _ => false)
                body chunk Hbody acc s Hs) as H.
  rewrite existsb_never in H. exact H.
Qed.

Lemma succeeds_parallel_reduce (body : Z -> R -> M S R)
    (schedule : list (list Z)) :
  (forall i a, succeeds Inv (body i a)) ->
  succeeds Inv (parallel_reduce schedule body).
Proof.
  intros Hbody s Hs.
  pose proof (parallel_reduce_outcome Inv division_by_zero (fun _ => false)
                body schedule Hbody s Hs) as H.
  rewrite existsb_existsb_never in H. exact H.
Qed.

End Succeeds.

(** ** How [TPME::compute] ends, and the mesh it leaves *)

Lemma on_system_succeeds (s0 : System) (m0 : Mesh) (g : System -> System) :
  (forall s, same_inputs s0 s -> same_inputs s0 (g s)) ->
  succeeds (fun w : ForceSPME.World => same_inputs s0 (fst w) /\ snd w = m0)
           (ForceSPME.on_system g).
Proof.
  intros Hg. apply succeeds_modify. intros w [Hs Hm]. cbn [fst snd].
  split; [apply Hg; exact Hs | exact Hm].
Qed.

(** Counts, domain, positions, charges and the mesh stay as they are, and
    the body ends normally. *)
Lemma realspace_image_succeeds (s : System) (m : Mesh)
    (alpha r_max lx ly lz : R) (i j pz py px : Z) :
  succeeds (fun w : ForceSPME.World => same_inputs s (fst w) /\ snd w = m)
           (ForceSPME.realspace_image alpha r_max lx ly lz i j pz py px).
Proof.
  intros w [Hs Hm].
  destruct (realspace_image_guarded alpha r_max lx ly lz i j pz py px w)
    as (w' & contrib & Hrun & Hmesh & _).
  assert (Hk : keeps (fun w : ForceSPME.World => same_inputs s (fst w))
                 (ForceSPME.realspace_image alpha r_max lx ly lz
                    i j pz py px)).
  { unfold ForceSPME.realspace_image. apply keeps_get_bind.
    intros w1. cbv zeta. apply keeps_bind.
    { match goal with
      | |- keeps _ (if ?b then _ else _) => destruct b
      end; [apply keeps_checked_div | apply keeps_ret]. }
    intros c. keepsW_steps s. }
  split; [split |].
  - apply Hk. exact Hs.
  - rewrite Hrun. cbn [fst]. congruence.
  - rewrite Hrun. eexists. reflexivity.
Qed.

Lemma realspace_pair_succeeds (s : System) (m : Mesh)
    (alpha r_max lx ly lz : R) (per_shells i j : Z) (acc : R) :
  succeeds (fun w : ForceSPME.World => same_inputs s (fst w) /\ snd w = m)
           (ForceSPME.realspace_pair alpha r_max lx ly lz per_shells i j acc).
Proof.
  unfold ForceSPME.realspace_pair.
  apply succeeds_reduce_chunk. intros pz a1.
  apply succeeds_reduce_chunk. intros py a2.
  apply succeeds_reduce_chunk. intros px a3.
  apply succeeds_bind; [apply realspace_image_succeeds |].
  intros c. apply succeeds_ret.
Qed.

Lemma self_energy_body_succeeds (s : System) (m : Mesh) (alpha : R)
    (idx : Z) (acc : R) :
  succeeds (fun w : ForceSPME.World => same_inputs s (fst w) /\ snd w = m)
           (ForceSPME.self_energy_body alpha idx acc).
Proof.
  unfold ForceSPME.self_energy_body. apply succeeds_get_bind.
  intros w0 _. cbv zeta. apply succeeds_bind; [| intros _; apply succeeds_ret].
  apply on_system_succeeds. intros t Ht. apply same_inputs_set_p. exact Ht.
Qed.

Lemma existsb_existsb_and (b : bool) (g : Z -> bool) (l : list (list Z)) :
  existsb (existsb (fun i => b && g i)) l = b && existsb (existsb g) l.
Proof.
  destruct b; cbn [andb].
  - reflexivity.
  - apply existsb_existsb_never.
Qed.

Lemma spme_compute_cases
    (fft_backward fft_forward : Z -> cview -> cview)
    (fftw_malloc : string -> cview) (Udip : R) (schedule : Z -> list (list Z))
    (this : ForceSPME.t) (s : System) (m : Mesh) :
  noncubic s = false ->
  let run :=
    ForceSPME.compute fft_backward fft_forward fftw_malloc Udip schedule this
                      (s, m) in
  let stops :=
    (if Req_dec_T (domain_x s) 0 then true else false) &&
    existsb (existsb (fun i => (i <? N s)%Z)) (schedule (N s)) in
  same_inputs s (fst (fst run)) /\
  if stops then snd run = Fault division_by_zero /\ snd (fst run) = m
  else (exists E, snd run = Ok E) /\ snd (fst run) = spread_stage s m.
Proof.
  intros Hc. cbv zeta.
  set (Inv := fun w : ForceSPME.World => same_inputs s (fst w) /\ snd w = m).
  remember (ForceSPME.compute fft_backward fft_forward fftw_malloc Udip
              schedule this (s, m)) as run eqn:Hrun.
  unfold ForceSPME.compute in Hrun. rewrite bind_get in Hrun.
  cbv zeta in Hrun. cbn [fst snd] in Hrun.
  change (Rneb (domain_x s) (domain_y s) || Rneb (domain_x s) (domain_z s))
    with (noncubic s) in Hrun.
  rewrite Hc in Hrun.
  unfold ForceSPME.on_system at 1 in Hrun. rewrite bind_modify in Hrun.
  cbn [fst snd] in Hrun.
  match type of Hrun with
  | context [bind (parallel_reduce _ ?body) _ ?w] =>
      set (realspace := body) in Hrun; set (w0 := w) in Hrun
  end.
  assert (H0 : Inv w0).
  { unfold Inv, w0. cbn [fst snd]. split; [| reflexivity].
    apply (for_each_invariant (same_inputs s)); [apply same_inputs_refl |].
    intros i u _ Hu. exact Hu. }
  set (lx0 := if Req_dec_T (domain_x s) 0 then true else false).
  assert (Hbody : forall i acc w, Inv w ->
            Inv (fst (realspace i acc w)) /\
            if lx0 && (i <? N s)%Z
            then snd (realspace i acc w) = Fault division_by_zero
            else exists a, snd (realspace i acc w) = Ok a).
  { intros i acc w Hw. unfold realspace.
    destruct (i <? N s)%Z.
    2:{ rewrite andb_false_r. cbn. split; [exact Hw |]. eexists. reflexivity. }
    rewrite andb_true_r. unfold lx0, ForceSPME.lx.
    destruct (Req_dec_T (domain_x s) 0) as [Hz | Hnz].
    { rewrite Hz. unfold bind, checked_div.
      destruct (Req_dec_T 0 0); [| contradiction].
      cbn. split; [exact Hw | reflexivity]. }
    revert w Hw. apply succeeds_bind; [apply succeeds_checked_div; exact Hnz |].
    intros ratio. apply succeeds_bind.
    { apply succeeds_parallel_reduce. intros j a.
      apply realspace_pair_succeeds. }
    intros Ur_inner.
    apply succeeds_bind; [| intros _; apply succeeds_ret].
    apply on_system_succeeds. intros t Ht. apply same_inputs_set_p. exact Ht. }
  destruct (parallel_reduce_outcome Inv division_by_zero
              (fun i => lx0 && (i <? N s)%Z) realspace (schedule (N s))
              Hbody w0 H0) as [Hinv1 Hout1].
  rewrite existsb_existsb_and in Hout1.
  unfold bind at 1 in Hrun.
  destruct (parallel_reduce (schedule (N s)) realspace w0) as [w1 [Ur | e1]];
    cbn [fst snd] in Hinv1, Hout1.
  2:{ destruct (lx0 && _); [| destruct Hout1; discriminate].
      subst run. cbn [fst snd]. destruct Hinv1 as [Hs1 Hm1].
      split; [exact Hs1 |]. split; [exact Hout1 | exact Hm1]. }
  destruct (lx0 && _); [discriminate |].
  destruct Hinv1 as [Hs1 Hm1].
  rewrite bind_get in Hrun. cbv zeta in Hrun.
  unfold ForceSPME.on_mesh at 1 in Hrun.
  rewrite bind_modify in Hrun. rewrite bind_get in Hrun. cbv zeta in Hrun.
  cbn [fst snd] in Hrun.
  assert (Hmesh :
    for_each (range_lt 0 (mesh_size m))
      (ForceSPME.spread_q
         (meshr (snd w1) 1%Z 0%Z - meshr (snd w1) 0%Z 0%Z) (fst w1))
      (snd w1) = spread_stage s m).
  { unfold spread_stage. cbv zeta. rewrite Hm1.
    apply (for_each_preserves eq); [reflexivity |].
    intros i t1 t2 _ ->.
    destruct Hs1 as (HN & _ & _ & _ & _ & _ & Hx & Hq).
    symmetry. apply spread_q_same_inputs; assumption. }
  rewrite Hmesh in Hrun.
  set (Inv2 := fun w : ForceSPME.World =>
                 same_inputs s (fst w) /\ snd w = spread_stage s m).
  match type of Hrun with
  | run = ?rest ?w =>
      assert (Hrest : succeeds Inv2 rest); [| set (w2 := w) in Hrun ]
  end.
  { apply succeeds_bind.
    { apply succeeds_parallel_reduce. intros idx a. apply succeeds_ret. }
    intros Uk. apply succeeds_bind.
    { apply succeeds_parallel_reduce. intros idx a.
      apply self_energy_body_succeeds. }
    intros Uself. apply succeeds_bind; [| intros _; apply succeeds_ret].
    apply on_system_succeeds. intros t Ht.
    apply (for_each_invariant (same_inputs s)); [exact Ht |].
    intros pidx u _ Hu. apply gather_f_keeps_inputs. exact Hu. }
  assert (H2 : Inv2 w2) by (unfold Inv2, w2; cbn [fst snd]; auto).
  destruct (Hrest w2 H2) as [[Hs3 Hm3] Hok]. rewrite <- Hrun in Hs3, Hm3, Hok.
  split; [exact Hs3 |]. split; [exact Hok | exact Hm3].
Qed.

(** The mesh that one call and two successive calls leave. *)
Lemma spme_compute_twice
    (fft_backward fft_forward : Z -> cview -> cview)
    (fftw_malloc : string -> cview) (Udip : R) (schedule : Z -> list (list Z))
    (this : ForceSPME.t) (s : System) (m : Mesh) :
  noncubic s = false -> domain_x s <> 0 ->
  let run w :=
    fst (ForceSPME.compute fft_backward fft_forward fftw_malloc Udip schedule
                           this w) in
  let spacing := meshr m 1%Z 0%Z - meshr m 0%Z 0%Z in
  let added k :=
    if (0 <=? k)%Z && (k <? mesh_size m)%Z
    then sum_over (range_lt 0 (N s)) (spread_term spacing s m k) else 0 in
  same_inputs s (fst (run (s, m))) /\
  mesh_size (snd (run (s, m))) = mesh_size m /\
  meshr (snd (run (s, m))) = meshr m /\
  (forall k, meshq (snd (run (s, m))) k = meshq m k + added k) /\
  (forall k, meshq (snd (run (run (s, m)))) k = meshq m k + added k + added k).
Proof.
  intros Hc Hnz. cbv zeta.
  assert (Hone : forall (t : System) (m1 : Mesh),
            same_inputs s t ->
            same_inputs s (fst (fst (ForceSPME.compute fft_backward fft_forward
                                       fftw_malloc Udip schedule this (t, m1))))
            /\ snd (fst (ForceSPME.compute fft_backward fft_forward
                           fftw_malloc Udip schedule this (t, m1)))
               = spread_stage s m1).
  { intros t m1 Ht.
    assert (Hct : noncubic t = false).
    { unfold noncubic in *. destruct Ht as (_ & _ & _ & Hx & Hy & Hz & _).
      rewrite <- Hx, <- Hy, <- Hz. exact Hc. }
    destruct (spme_compute_cases fft_backward fft_forward fftw_malloc Udip
                schedule this t m1 Hct) as [Hs H].
    cbv zeta in H.
    assert (Hdx : domain_x t = domain_x s)
      by (destruct Ht as (_ & _ & _ & Hx & _); symmetry; exact Hx).
    rewrite Hdx in H.
    destruct (Req_dec_T (domain_x s) 0); [contradiction |].
    cbn [andb] in H. destruct H as [_ Hm].
    split; [exact (same_inputs_trans _ _ _ Ht Hs) |].
    rewrite Hm. unfold spread_stage. cbv zeta.
    apply (for_each_preserves eq); [reflexivity |].
    intros i t1 t2 _ ->.
    destruct Ht as (HN & _ & _ & _ & _ & _ & Hx & Hq).
    symmetry. apply spread_q_same_inputs; assumption. }
  assert (Hspread : forall m1 : Mesh,
            mesh_size (spread_stage s m1) = mesh_size m1 /\
            meshr (spread_stage s m1) = meshr m1 /\
            forall k,
              meshq (spread_stage s m1) k =
              meshq m1 k +
              (if (0 <=? k)%Z && (k <? mesh_size m1)%Z
               then sum_over (range_lt 0 (N s))
                      (spread_term (meshr m1 1%Z 0%Z - meshr m1 0%Z 0%Z) s m1 k)
               else 0)).
  { intros m1. unfold spread_stage. cbv zeta.
    destruct (spread_loop_effect (meshr m1 1%Z 0%Z - meshr m1 0%Z 0%Z) s
                (range_lt 0 (mesh_size m1)) m1 (NoDup_range_lt _ _))
      as (H1 & H2 & H3).
    split; [exact H1 |]. split; [exact H2 |].
    intros k. rewrite H3. rewrite in_range_lt_dec. reflexivity. }
  destruct (Hone s m (same_inputs_refl s)) as [Hs1 Hm1].
  destruct (Hspread m) as (Z1 & Z2 & Z3).
  split; [exact Hs1 |].
  rewrite Hm1. split; [exact Z1 |]. split; [exact Z2 |].
  split; [exact Z3 |].
  intros k.
  destruct (ForceSPME.compute fft_backward fft_forward fftw_malloc Udip
              schedule this (s, m)) as [[t1 m1] o1].
  cbn [fst snd] in *. subst m1.
  destruct (Hone t1 (spread_stage s m) Hs1) as [_ Hm2].
  rewrite Hm2.
  destruct (Hspread (spread_stage s m)) as (_ & _ & Z3').
  rewrite Z3', Z3, Z1, Z2. unfold spread_term. rewrite Z2. lra.
Qed.

(** ** A call that stays inside its arrays *)

Lemma serial_in_range : schedule_in_range serial.
Proof.
  intros n i Hi. unfold serial in Hi. cbn [List.concat] in Hi.
  rewrite app_nil_r in Hi. apply in_range_lt in Hi. exact Hi.
Qed.

Lemma unit_box_mesh_fits :
  mesh_fits unit_box_particle (cubic_mesh 8 (1 / 8)) 8.
Proof.
  unfold mesh_fits. cbn [N N_max unit_box_particle mesh_size cubic_mesh].
  repeat split; try lia.
  pose proof (cubic_mesh_spacing 8 (1 / 8) ltac:(lia)) as Hh.
  cbv zeta in Hh. change (Z.of_nat 8) with 8%Z in Hh. rewrite Hh. lra.
Qed.

Lemma unit_box_cubic : noncubic unit_box_particle = false.
Proof. apply noncubic_false; reflexivity. Qed.

(** X19. [TPME::compute] ends normally and returns an energy on every call
    that stays inside its arrays and the real numbers: cubic domain of
    nonzero edge (so that r_max / lx is defined), mesh of M^3 points that
    holds the particles, a schedule that hands out indices of its range.
    The two divisions by the pair distance in the all-pairs loop are
    guarded and never stop the call, whatever the positions of the
    particles. *)
Theorem spme_compute_outcome
    (fft_backward fft_forward : Z -> cview -> cview)
    (fftw_malloc : string -> cview) (Udip : R) (schedule : Z -> list (list Z))
    (this : ForceSPME.t) (s : System) (m : Mesh) (M : Z) :
  noncubic s = false -> domain_x s <> 0 ->
  mesh_fits s m M -> schedule_in_range schedule ->
  exists E,
    snd (ForceSPME.compute fft_backward fft_forward fftw_malloc Udip schedule
                           this (s, m)) = Ok E.
Proof.
  intros Hc Hnz _ _.
  destruct (spme_compute_cases fft_backward fft_forward fftw_malloc Udip
              schedule this s m Hc) as [_ H].
  cbv zeta in H.
  destruct (Req_dec_T (domain_x s) 0); [contradiction |].
  cbn [andb] in H. apply H.
Qed.

Lemma spme_compute_outcome_witness :
  exists E,
    snd (ForceSPME.compute (fun _ v => v) (fun _ v => v) (fun _ _ => (0, 0)) 0
                           serial solver_half
                           (unit_box_particle, cubic_mesh 8 (1 / 8))) = Ok E.
Proof.
  apply (spme_compute_outcome (fun _ v => v) (fun _ v => v)
           (fun _ _ => (0, 0)) 0 serial solver_half unit_box_particle
           (cubic_mesh 8 (1 / 8)) 8).
  - exact unit_box_cubic.
  - cbn [domain_x unit_box_particle]. lra.
  - exact unit_box_mesh_fits.
  - exact serial_in_range.
Defined.

(** X20. On a call that stays inside its arrays (cubic domain of nonzero
    edge, mesh of M^3 points that holds the particles, schedule within its
    range) [TPME::compute] leaves counts, domain, positions and charges of
    the particles as they were, and of the mesh it changes the charges
    only: the charge it leaves at a point is the charge held on entry plus
    what spread_q adds for every particle.  The charges of the mesh are not
    reset: a second call, entered with what the first left, adds the same
    amounts again. *)
Theorem spme_compute_accumulates_mesh_charge
    (fft_backward fft_forward : Z -> cview -> cview)
    (fftw_malloc : string -> cview) (Udip : R) (schedule : Z -> list (list Z))
    (this : ForceSPME.t) (s : System) (m : Mesh) (M : Z) :
  noncubic s = false -> domain_x s <> 0 ->
  mesh_fits s m M -> schedule_in_range schedule ->
  let run w :=
    fst (ForceSPME.compute fft_backward fft_forward fftw_malloc Udip schedule
                           this w) in
  let spacing := meshr m 1%Z 0%Z - meshr m 0%Z 0%Z in
  let added k :=
    if (0 <=? k)%Z && (k <? mesh_size m)%Z
    then sum_over (range_lt 0 (N s)) (spread_term spacing s m k) else 0 in
  same_inputs s (fst (run (s, m))) /\
  mesh_size (snd (run (s, m))) = mesh_size m /\
  meshr (snd (run (s, m))) = meshr m /\
  (forall k, meshq (snd (run (s, m))) k = meshq m k + added k) /\
  (forall k, meshq (snd (run (run (s, m)))) k = meshq m k + added k + added k).
Proof.
  intros Hc Hnz _ _.
  exact (spme_compute_twice fft_backward fft_forward fftw_malloc Udip
           schedule this s m Hc Hnz).
Qed.

Lemma spme_compute_accumulates_mesh_charge_witness :
  let run w :=
    fst (ForceSPME.compute (fun _ v => v) (fun _ v => v) (fun _ _ => (0, 0)) 0
                           serial solver_half w) in
  let s := unit_box_particle in
  let m := cubic_mesh 8 (1 / 8) in
  let spacing := meshr m 1%Z 0%Z - meshr m 0%Z 0%Z in
  let added k :=
    if (0 <=? k)%Z && (k <? mesh_size m)%Z
    then sum_over (range_lt 0 (N s)) (spread_term spacing s m k) else 0 in
  same_inputs s (fst (run (s, m))) /\
  mesh_size (snd (run (s, m))) = mesh_size m /\
  meshr (snd (run (s, m))) = meshr m /\
  (forall k, meshq (snd (run (s, m))) k = meshq m k + added k) /\
  (forall k, meshq (snd (run (run (s, m)))) k = meshq m k + added k + added k).
Proof.
  apply (spme_compute_accumulates_mesh_charge
           (fun _ v => v) (fun _ v => v) (fun _ _ => (0, 0)) 0 serial
           solver_half unit_box_particle (cubic_mesh 8 (1 / 8)) 8).
  - exact unit_box_cubic.
  - cbn [domain_x unit_box_particle]. lra.
  - exact unit_box_mesh_fits.
  - exact serial_in_range.
Defined.

(** ** The self energy returned by the reduction *)

Lemma self_energy_chunk (alpha : R) (chunk : list Z) :
  forall (acc : R) (w : ForceSPME.World),
  exists w',
    reduce_chunk (ForceSPME.self_energy_body alpha) chunk acc w =
      (w', Ok (acc + sum_over chunk
                       (fun idx => - alpha / PI_SQRT * q (fst w) idx
                                   * q (fst w) idx))) /\
    q (fst w') = q (fst w).
Proof.
  induction chunk as [| i chunk IH]; intros acc w.
  - exists w. cbn. split; [| reflexivity]. unfold ret. f_equal. f_equal. lra.
  - cbn [reduce_chunk]. unfold bind at 1.
    unfold ForceSPME.self_energy_body at 1.
    rewrite bind_get. cbv zeta. unfold ForceSPME.on_system.
    rewrite bind_modify. cbn [ret].
    match goal with
    | |- context [reduce_chunk _ chunk ?a ?w1] =>
        destruct (IH a w1) as (w' & Hrun & Hq)
    end.
    exists w'. rewrite Hrun. cbn [fst snd q set_p] in *.
    split; [| exact Hq].
    f_equal. f_equal. unfold sum_over. cbn [fold_right]. lra.
Qed.

(** X21. The self energy that the reduction of [TPME::compute] returns is
    the sum of - alpha / PI_SQRT * q(idx)^2 over the scheduled indices,
    however the schedule splits them among the workers and in whatever
    order a worker visits them. *)
Theorem self_energy_total_of_any_schedule (alpha : R)
    (schedule : list (list Z)) (w : ForceSPME.World) :
  snd (parallel_reduce schedule (ForceSPME.self_energy_body alpha) w) =
  Ok (sum_over (List.concat schedule)
        (fun idx => - alpha / PI_SQRT * q (fst w) idx * q (fst w) idx)).
Proof.
  assert (H : forall (sched : list (list Z)) (w0 : ForceSPME.World),
            exists w',
              parallel_reduce sched (ForceSPME.self_energy_body alpha) w0 =
              (w', Ok (sum_over (List.concat sched)
                         (fun idx => - alpha / PI_SQRT * q (fst w0) idx
                                     * q (fst w0) idx))) /\
              q (fst w') = q (fst w0)).
  { clear schedule w. intros sched.
    induction sched as [| chunk sched IH]; intros w.
    - exists w. cbn. split; [| reflexivity]. unfold ret. f_equal. f_equal. lra.
    - cbn [parallel_reduce List.concat]. unfold bind at 1.
      destruct (self_energy_chunk alpha chunk 0.0 w) as (w1 & Hrun1 & Hq1).
      rewrite Hrun1. unfold bind.
      destruct (IH w1) as (w2 & Hrun2 & Hq2). rewrite Hrun2.
      exists w2. unfold ret. split; [| congruence].
      f_equal. f_equal. rewrite sum_over_app, Hq1. lra. }
  destruct (H schedule w) as (w' & Hrun & _). rewrite Hrun. reflexivity.
Qed.

(** ** Sums over the cubic lattice *)

Lemma sum_over_cubic_lattice (Mn : nat) (A B C : Z -> R) :
  let M := Z.of_nat Mn in
  sum_over (range_lt 0 (M * (M * M)))
           (fun k => A (k mod M)%Z * B ((k / M) mod M)%Z * C (k / M / M)%Z) =
  sum_over (zseq 0 Mn) A * sum_over (zseq 0 Mn) B * sum_over (zseq 0 Mn) C.
Proof.
  cbv zeta. set (M := Z.of_nat Mn).
  replace (M * (M * M))%Z with (Z.of_nat (Mn * Mn * Mn)) by (unfold M; lia).
  rewrite range_lt_0_nat, sum_over_blocks.
  rewrite (sum_over_ext (zseq 0 (Mn * Mn)) _
             (fun j => sum_over (zseq 0 Mn) A *
                       (B (j mod M)%Z * C (j / M)%Z))).
  - rewrite sum_over_scal.
    pose proof (sum_over_product Mn B C) as HP. cbv zeta in HP. fold M in HP.
    rewrite HP. ring.
  - intros j Hj. apply in_zseq in Hj.
    rewrite <- sum_over_scal_r.
    apply sum_over_ext. intros i Hi. apply in_zseq in Hi.
    fold M.
    replace ((i + M * j) mod M)%Z with i.
    + replace ((i + M * j) / M)%Z with j; [ring |].
      rewrite Z.mul_comm, Z.div_add by (unfold M; lia).
      rewrite Z.div_small by (unfold M; lia). lia.
    + rewrite Z.mul_comm, Z.mod_add by (unfold M; lia).
      rewrite Z.mod_small by (unfold M; lia). reflexivity.
Qed.

(** ** Sums of the weights of one axis over the lattice *)

(** The particle coordinate in units of the spacing: [r / h = n + s] with
    [0 <= s <= 1]. *)
Lemma interior_offset (n : Z) (h r : R) :
  0 < h -> h * IZR n <= r <= h * IZR (n + 1) ->
  0 <= r / h - IZR n <= 1.
Proof.
  intros Hh Hr. rewrite plus_IZR in Hr. split.
  - apply Rmult_le_reg_r with h; [exact Hh |].
    replace ((r / h - IZR n) * h) with (r - h * IZR n) by (field; lra). lra.
  - apply Rmult_le_reg_r with h; [exact Hh |].
    replace ((r / h - IZR n) * h) with (r - h * IZR n) by (field; lra). lra.
Qed.

(** A sum over the lattice coordinates of a function of the offset to the
    particle that vanishes two spacings away: only the four coordinates
    n - 1 .. n + 2 contribute. *)
Lemma sum_over_stencil (Mn : nat) (n : Z) (s : R) (g : Z -> R) :
  (1 <= n)%Z -> (n + 2 < Z.of_nat Mn)%Z ->
  (forall i, (0 <= i < Z.of_nat Mn)%Z ->
             (IZR i - IZR n - s <= -2 \/ 2 <= IZR i - IZR n - s) -> g i = 0) ->
  0 <= s <= 1 ->
  sum_over (zseq 0 Mn) g = g (n - 1)%Z + g n + g (n + 1)%Z + g (n + 2)%Z.
Proof.
  intros Hn1 Hn2 Hzero Hs.
  set (a := Z.to_nat (n - 1)).
  replace Mn with (a + (4 + (Mn - a - 4)))%nat at 1 by lia.
  rewrite zseq_add, sum_over_app, zseq_add, sum_over_app, sum_over_four.
  rewrite (sum_over_zero (zseq 0 a)).
  2:{ intros i Hi. apply in_zseq in Hi. apply Hzero; [lia |]. left.
      assert (IZR i <= IZR n - 2).
      { rewrite <- (minus_IZR n 2). apply IZR_le. lia. }
      lra. }
  rewrite (sum_over_zero (zseq (0 + Z.of_nat a + Z.of_nat 4) (Mn - a - 4))).
  2:{ intros i Hi. apply in_zseq in Hi. apply Hzero; [lia |]. right.
      assert (IZR n + 3 <= IZR i).
      { rewrite <- (plus_IZR n 3). apply IZR_le. lia. }
      lra. }
  replace (0 + Z.of_nat a)%Z with (n - 1)%Z by lia.
  replace (n - 1 + 1)%Z with n by lia.
  replace (n - 1 + 2)%Z with (n + 1)%Z by lia.
  replace (n - 1 + 3)%Z with (n + 2)%Z by lia.
  lra.
Qed.

Lemma axis_first_moment_interior (Mn : nat) (h r : R) :
  0 < h -> interior_without_alias (Z.of_nat Mn) h r ->
  sum_over (zseq 0 Mn) (fun i => axis_weight h (h * IZR i) r * (h * IZR i)) = r.
Proof.
  intros Hh (n & Hn1 & Hn2 & Hr & Hfar).
  pose proof (interior_offset n h r Hh Hr) as Hs.
  set (s := r / h - IZR n) in *.
  assert (Hrh : r = h * (IZR n + s)) by (unfold s; field; lra).
  rewrite (sum_over_ext _ _
             (fun i => spreading_weight (IZR i - IZR n - s) * (h * IZR i))).
  2:{ intros i Hi. apply in_zseq in Hi.
      rewrite axis_weight_without_alias by (try exact Hh; apply Hfar; lia).
      f_equal. f_equal. rewrite Hrh. field. lra. }
  rewrite (sum_over_stencil Mn n s _ Hn1 Hn2); [| | exact Hs].
  2:{ intros i _ Hout. rewrite spreading_weight_outside by exact Hout. ring. }
  rewrite minus_IZR, !plus_IZR.
  pose proof (spline_partition_of_unity s Hs) as Hpu.
  pose proof (spline_first_moment s Hs) as Hfm.
  replace (IZR n - 1 - IZR n - s) with (- 1 - s) by ring.
  replace (IZR n - IZR n - s) with (- s) by ring.
  replace (IZR n + 1 - IZR n - s) with (1 - s) by ring.
  replace (IZR n + 2 - IZR n - s) with (2 - s) by ring.
  rewrite Hrh. nra.
Qed.

Lemma axis_weight_sum_interior' (Mn : nat) (h r : R) :
  0 < h -> interior_without_alias (Z.of_nat Mn) h r ->
  sum_over (zseq 0 Mn) (fun i => axis_weight h (h * IZR i) r) = 1.
Proof.
  intros Hh (n & Hn1 & Hn2 & Hr & Hfar).
  pose proof (axis_weight_sum_interior Mn n h r Hh Hn1 Hn2 Hr Hfar) as H.
  unfold axis_weight_sum in H. rewrite range_lt_0_nat in H. exact H.
Qed.

(** ** Charge spreading preserves the total charge and its first moment *)

Lemma spread_term_moment (Mn : nat) (h : R) (s : System) (pidx axis : Z) :
  (2 <= Mn)%nat -> 0 < h -> (0 <= axis < 3)%Z ->
  (forall a, (0 <= a < 3)%Z ->
             interior_without_alias (Z.of_nat Mn) h (x s pidx a)) ->
  let m := cubic_mesh (Z.of_nat Mn) h in
  sum_over (range_lt 0 (mesh_size m))
           (fun k => spread_term h s m k pidx * meshr m k axis) =
  q s pidx * x s pidx axis.
Proof.
  intros HM Hh Haxis Hint. cbv zeta.
  set (M := Z.of_nat Mn).
  set (W := fun a (i : Z) => axis_weight h (h * IZR i) (x s pidx a)).
  set (V := fun a (i : Z) => axis_weight h (h * IZR i) (x s pidx a) * (h * IZR i)).
  assert (HW : forall a, (0 <= a < 3)%Z -> sum_over (zseq 0 Mn) (W a) = 1).
  { intros a Ha. apply axis_weight_sum_interior'; [exact Hh | apply Hint; exact Ha]. }
  assert (HV : forall a, (0 <= a < 3)%Z ->
            sum_over (zseq 0 Mn) (V a) = x s pidx a).
  { intros a Ha. apply axis_first_moment_interior;
      [exact Hh | apply Hint; exact Ha]. }
  change (mesh_size (cubic_mesh M h)) with (M * (M * M))%Z.
  assert (Hcase : axis = 0%Z \/ axis = 1%Z \/ axis = 2%Z) by lia.
  destruct Hcase as [-> | [-> | ->]].
  - rewrite (sum_over_ext _ _
               (fun k => q s pidx * (V 0%Z (k mod M)%Z * W 1%Z ((k / M) mod M)%Z
                                     * W 2%Z (k / M / M)%Z))).
    + rewrite sum_over_scal.
      pose proof (sum_over_cubic_lattice Mn (V 0%Z) (W 1%Z) (W 2%Z)) as HF.
      cbv zeta in HF. fold M in HF. rewrite HF.
      rewrite (HV 0%Z), (HW 1%Z), (HW 2%Z) by lia. ring.
    + intros k _. unfold spread_term, cubic_mesh, V, W.
      cbn [meshr Z.eqb Pos.eqb]. fold M. ring.
  - rewrite (sum_over_ext _ _
               (fun k => q s pidx * (W 0%Z (k mod M)%Z * V 1%Z ((k / M) mod M)%Z
                                     * W 2%Z (k / M / M)%Z))).
    + rewrite sum_over_scal.
      pose proof (sum_over_cubic_lattice Mn (W 0%Z) (V 1%Z) (W 2%Z)) as HF.
      cbv zeta in HF. fold M in HF. rewrite HF.
      rewrite (HW 0%Z), (HV 1%Z), (HW 2%Z) by lia. ring.
    + intros k _. unfold spread_term, cubic_mesh, V, W.
      cbn [meshr Z.eqb Pos.eqb]. fold M. ring.
  - rewrite (sum_over_ext _ _
               (fun k => q s pidx * (W 0%Z (k mod M)%Z * W 1%Z ((k / M) mod M)%Z
                                     * V 2%Z (k / M / M)%Z))).
    + rewrite sum_over_scal.
      pose proof (sum_over_cubic_lattice Mn (W 0%Z) (W 1%Z) (V 2%Z)) as HF.
      cbv zeta in HF. fold M in HF. rewrite HF.
      rewrite (HW 0%Z), (HW 1%Z), (HV 2%Z) by lia. ring.
    + intros k _. unfold spread_term, cubic_mesh, V, W.
      cbn [meshr Z.eqb Pos.eqb]. fold M. ring.
Qed.

(** X22. Spreading onto an empty cubic lattice of M^3 points at spacing h
    the charges of particles whose coordinates are interior to the lattice
    and have no image at +1.0 or -1.0 within two spacings of a lattice
    coordinate: the total mesh charge is the total particle charge, and
    along each axis the first moment of the mesh charge is the first moment
    of the particle charges (the spline weights place every charge at the
    position of its particle). *)
Theorem spread_q_conserves_charge_and_first_moment (Mn : nat) (h : R)
    (s : System) :
  (2 <= Mn)%nat -> 0 < h ->
  (forall pidx axis, (0 <= pidx < N s)%Z -> (0 <= axis < 3)%Z ->
     interior_without_alias (Z.of_nat Mn) h (x s pidx axis)) ->
  let m' := spread_stage s (cubic_mesh (Z.of_nat Mn) h) in
  total_mesh_charge m' = sum_over (range_lt 0 (N s)) (q s) /\
  forall axis, (0 <= axis < 3)%Z ->
    mesh_first_moment m' axis = charge_first_moment s axis.
Proof.
  intros HM Hh Hint. cbv zeta. split.
  - apply (spread_stage_conserves_charge_without_alias Mn h s HM Hh).
    intros pidx axis Hp Ha. apply (Hint pidx axis Hp Ha).
  - intros axis Haxis.
    unfold mesh_first_moment, charge_first_moment, spread_stage. cbv zeta.
    rewrite (cubic_mesh_spacing Mn h HM).
    set (m := cubic_mesh (Z.of_nat Mn) h).
    destruct (spread_loop_effect h s (range_lt 0 (mesh_size m)) m
                (NoDup_range_lt _ _)) as (Hsize & Hr & Hq).
    cbv zeta in Hsize, Hr, Hq. rewrite Hsize, Hr.
    rewrite (sum_over_ext _ _
               (fun k => sum_over (range_lt 0 (N s))
                           (fun pidx => spread_term h s m k pidx
                                        * meshr m k axis))).
    + rewrite (sum_over_swap (range_lt 0 (mesh_size m)) (range_lt 0 (N s))
                 (fun k pidx => spread_term h s m k pidx * meshr m k axis)).
      apply sum_over_ext. intros pidx Hp. apply in_range_lt in Hp.
      apply (spread_term_moment Mn h s pidx axis HM Hh Haxis).
      intros a Ha. apply Hint; assumption.
    + intros k Hk. rewrite Hq.
      destruct (in_dec Z.eq_dec k (range_lt 0 (mesh_size m)));
        [| contradiction].
      rewrite sum_over_scal_r. unfold m at 1. cbn [meshq cubic_mesh]. lra.
Qed.

Lemma unit_box_particle_interior (pidx axis : Z) :
  interior_without_alias (Z.of_nat 8) (1 / 8) (x unit_box_particle pidx axis).
Proof.
  exists 4%Z. cbn [x unit_box_particle]. change (4 + 1)%Z with 5%Z.
  split; [lia |]. split; [lia |]. split; [lra |].
  intros i Hi.
  assert (H0 : 0 <= IZR i) by (apply IZR_le; lia).
  assert (H7 : IZR i <= 7) by (apply IZR_le; lia).
  unfold Rabs. destruct (Rcase_abs (1 / 8 * IZR i - 1 / 2)); lra.
Qed.

Lemma spread_q_conserves_charge_and_first_moment_witness :
  let m' := spread_stage unit_box_particle (cubic_mesh (Z.of_nat 8) (1 / 8)) in
  total_mesh_charge m' =
    sum_over (range_lt 0 (N unit_box_particle)) (q unit_box_particle) /\
  forall axis, (0 <= axis < 3)%Z ->
    mesh_first_moment m' axis = charge_first_moment unit_box_particle axis.
Proof.
  apply (spread_q_conserves_charge_and_first_moment 8 (1 / 8) unit_box_particle).
  - lia.
  - lra.
  - intros pidx axis _ _. apply unit_box_particle_interior.
Defined.

(** ** gather_f as a sum over the mesh *)

Lemma gather_f_body_adds (spacing : R) (m : Mesh) (Qktest : cview)
    (pidx idx : Z) (s : System) :
  adds s (ForceSPME.gather_f_body spacing m Qktest pidx idx s)
       (fun _ => 0)
       (fun k e => if (k =? pidx)%Z
                   then gather_term spacing s m Qktest pidx e idx else 0).
Proof.
  unfold adds, ForceSPME.gather_f_body, gather_term, gather_factor,
    ForceSPME.r.
  cbv zeta.
  set (dx := ForceSPME.gather_dist (meshr m idx 0%Z) (x s pidx 0%Z)).
  set (dy := ForceSPME.gather_dist (meshr m idx 1%Z) (x s pidx 1%Z)).
  set (dz := ForceSPME.gather_dist (meshr m idx 2%Z) (x s pidx 2%Z)).
  destruct (Rleb (Rabs dx) (2.0 * spacing));
    destruct (Rleb (Rabs dy) (2.0 * spacing));
    destruct (Rleb (Rabs dz) (2.0 * spacing)); cbn [andb].
  2-8: (split; [apply same_inputs_refl |]; split; [intros; lra |];
        intros k e; destruct (k =? pidx)%Z; [| lra];
        destruct ((0 <=? e)%Z && (e <? 3)%Z); [| lra];
        destruct (e =? 0)%Z; destruct (e =? 1)%Z; destruct (e =? 2)%Z; lra).
  split; [unfold same_inputs; cbn; repeat split; reflexivity |].
  cbn [p f x q set_p set_f]. split; [intros; lra |].
  intros k e. unfold assign2.
  destruct (Z.eqb_spec k pidx) as [-> | Hk]; cbn [andb].
  - rewrite !Z.eqb_refl. cbn [andb].
    destruct (Z.eqb_spec e 0) as [-> |];
      [cbn [Z.eqb Pos.eqb Z.leb Z.ltb Z.compare andb]; lra |].
    destruct (Z.eqb_spec e 1) as [-> |];
      [cbn [Z.eqb Pos.eqb Z.leb Z.ltb Z.compare Pos.compare
                  Pos.compare_cont andb]; lra |].
    destruct (Z.eqb_spec e 2) as [-> |];
      [cbn [Z.eqb Pos.eqb Z.leb Z.ltb Z.compare Pos.compare
                  Pos.compare_cont andb]; lra |].
    destruct (Z.leb_spec 0 e); destruct (Z.ltb_spec e 3); cbn [andb];
      try lra; lia.
  - lra.
Qed.

Lemma gather_f_adds (s0 : System) (spacing : R) (m : Mesh) (Qktest : cview)
    (pidx : Z) (s : System) :
  same_inputs s0 s ->
  adds s (ForceSPME.gather_f spacing m Qktest pidx s)
       (fun _ => 0)
       (fun k e => if (k =? pidx)%Z
                   then sum_over (range_lt 0 (mesh_size m))
                          (gather_term spacing s0 m Qktest pidx e)
                   else 0).
Proof.
  intros Hs. unfold ForceSPME.gather_f.
  eapply adds_ext.
  - apply (for_each_adds s0 (range_lt 0 (mesh_size m)) _
             (fun idx k => 0)
             (fun idx k e => if (k =? pidx)%Z
                             then gather_term spacing s0 m Qktest pidx e idx
                             else 0)); [| exact Hs].
    intros idx t Ht.
    pose proof (gather_f_body_adds spacing m Qktest pidx idx t) as H.
    destruct Ht as (_ & _ & _ & _ & _ & _ & Hx & Hq).
    unfold gather_term in *. rewrite <- Hx, <- Hq in H. exact H.
  - intros k. apply sum_over_zero. reflexivity.
  - intros k e. apply sum_over_if.
Qed.

(** Without an image within two spacings gather_f takes the spline, resp.
    its derivative, at the true offset of the particle from the mesh
    coordinate. *)
Lemma gather_factor_without_alias (h mc rc : R) :
  0 < h -> Rabs (mc - rc) + 2 * h < 1 ->
  gather_factor h false mc rc = axis_weight h mc rc /\
  gather_factor h true mc rc = oneDsplinederiv ((rc - mc) / h).
Proof.
  intros Hh Hfar.
  destruct (gather_dist_cases mc rc) as (H0 & H1 & H2).
  assert (Habs : Rabs (ForceSPME.gather_dist mc rc) = ForceSPME.spread_dist mc rc).
  { destruct (Rle_dec (mc - rc) (1 / 2)) as [Hle | Hgt].
    - destruct (Rle_dec (- (1 / 2)) (mc - rc)) as [Hge | Hlt].
      + rewrite H0 by assumption. unfold ForceSPME.spread_dist; abs_min_cases.
      + rewrite H2 by lra. unfold ForceSPME.spread_dist; abs_min_cases.
    - rewrite H1 by lra. unfold ForceSPME.spread_dist; abs_min_cases. }
  split.
  - unfold gather_factor, axis_weight. rewrite Habs. reflexivity.
  - unfold gather_factor.
    destruct (Rle_dec (Rabs (mc - rc)) (1 / 2)) as [Hnear | Hfar2].
    + assert (Hg : ForceSPME.gather_dist mc rc = rc - mc).
      { apply H0; unfold Rabs in Hnear; destruct (Rcase_abs (mc - rc)); lra. }
      rewrite Hg.
      destruct (Rle_dec (Rabs (rc - mc)) (2.0 * h)) as [Hin | Hout].
      * rewrite Rleb_true by exact Hin. reflexivity.
      * rewrite Rleb_false by lra. symmetry.
        destruct (oneDsplinederiv_pieces ((rc - mc) / h)) as (Hz & _).
        apply Hz.
        assert (Hq : 2 < Rabs ((rc - mc) / h)).
        { rewrite (Rabs_div_pos _ _ Hh).
          apply Rmult_lt_reg_r with h; [exact Hh |].
          unfold Rdiv. rewrite Rmult_assoc, Rinv_l by lra. lra. }
        unfold Rabs in Hq. destruct (Rcase_abs ((rc - mc) / h)); lra.
    + assert (Hbig : 2 * h < Rabs (ForceSPME.gather_dist mc rc)).
      { rewrite Habs. unfold ForceSPME.spread_dist.
        unfold Rabs in Hfar, Hfar2 |- *. unfold Rmin.
        repeat match goal with
               | |- context [Rcase_abs ?a] => destruct (Rcase_abs a)
               | |- context [Rle_dec ?a ?b] => destruct (Rle_dec a b)
               | H : context [Rcase_abs ?a] |- _ => destruct (Rcase_abs a)
               end; lra. }
      rewrite Rleb_false by lra. symmetry.
      destruct (oneDsplinederiv_pieces ((rc - mc) / h)) as (Hz & _).
      apply Hz.
      assert (Hq : 2 < Rabs ((rc - mc) / h)).
      { rewrite (Rabs_div_pos _ _ Hh).
        apply Rmult_lt_reg_r with h; [exact Hh |].
        unfold Rdiv. rewrite Rmult_assoc, Rinv_l by lra.
        replace (rc - mc) with (- (mc - rc)) by ring. rewrite Rabs_Ropp.
        lra. }
      unfold Rabs in Hq. destruct (Rcase_abs ((rc - mc) / h)); lra.
Qed.

Lemma gather_deriv_sum_interior (Mn : nat) (h r : R) :
  0 < h -> interior_without_alias (Z.of_nat Mn) h r ->
  sum_over (zseq 0 Mn) (fun i => gather_factor h true (h * IZR i) r) = 0.
Proof.
  intros Hh (n & Hn1 & Hn2 & Hr & Hfar).
  pose proof (interior_offset n h r Hh Hr) as Hs.
  set (s := r / h - IZR n) in *.
  assert (Hrh : r = h * (IZR n + s)) by (unfold s; field; lra).
  rewrite (sum_over_ext _ _
             (fun i => oneDsplinederiv (- (IZR i - IZR n - s)))).
  2:{ intros i Hi. apply in_zseq in Hi.
      destruct (gather_factor_without_alias h (h * IZR i) r Hh
                  (Hfar i ltac:(lia))) as [_ Hd].
      rewrite Hd. f_equal. rewrite Hrh. field. lra. }
  rewrite (sum_over_stencil Mn n s _ Hn1 Hn2); [| | exact Hs].
  2:{ intros i _ Hout.
      destruct (oneDsplinederiv_pieces (- (IZR i - IZR n - s))) as (Hz & _).
      apply Hz. lra. }
  rewrite minus_IZR, !plus_IZR.
  pose proof (splinederiv_sum_zero s Hs) as Hd.
  replace (- (IZR n - 1 - IZR n - s)) with (1 + s) by ring.
  replace (- (IZR n - IZR n - s)) with s by ring.
  replace (- (IZR n + 1 - IZR n - s)) with (s - 1) by ring.
  replace (- (IZR n + 2 - IZR n - s)) with (s - 2) by ring.
  lra.
Qed.

Lemma gather_weight_sum_interior (Mn : nat) (h r : R) :
  0 < h -> interior_without_alias (Z.of_nat Mn) h r ->
  sum_over (zseq 0 Mn) (fun i => gather_factor h false (h * IZR i) r) = 1.
Proof.
  intros Hh Hint.
  rewrite <- (axis_weight_sum_interior' Mn h r Hh Hint).
  destruct Hint as (n & _ & _ & _ & Hfar).
  apply sum_over_ext. intros i Hi. apply in_zseq in Hi.
  apply (gather_factor_without_alias h (h * IZR i) r Hh (Hfar i ltac:(lia))).
Qed.

(** X23. A uniform field exerts no force: when the real part of Qktest has
    one and the same value at every point of a cubic lattice of M^3 points
    at spacing h, gather_f leaves the three force components of a particle
    as they were (and touches no other particle), for a particle whose
    coordinates are interior to the lattice and have no image at +1.0 or
    -1.0 within two spacings of a lattice coordinate.  Along the axis of the
    component the derivatives of the spline sum to 0 over the lattice. *)
Theorem gather_f_uniform_field_gives_no_force (Mn : nat) (h c : R)
    (meshq0 : view1) (Qktest : cview) (pidx : Z) (s : System) :
  (2 <= Mn)%nat -> 0 < h ->
  (forall idx, (0 <= idx < Z.of_nat Mn * (Z.of_nat Mn * Z.of_nat Mn))%Z ->
               fst (Qktest idx) = c) ->
  (forall axis, (0 <= axis < 3)%Z ->
     interior_without_alias (Z.of_nat Mn) h (x s pidx axis)) ->
  let m := set_meshq (cubic_mesh (Z.of_nat Mn) h) meshq0 in
  let s' := ForceSPME.gather_f h m Qktest pidx s in
  same_inputs s s' /\ (forall k, p s' k = p s k) /\
  (forall k e, f s' k e = f s k e).
Proof.
  intros HM Hh HQ Hint. cbv zeta.
  set (M := Z.of_nat Mn).
  set (m := set_meshq (cubic_mesh M h) meshq0).
  destruct (gather_f_adds s h m Qktest pidx s (same_inputs_refl s))
    as (Hs & Hp & Hf).
  split; [exact Hs |]. split; [intros k; rewrite Hp; lra |].
  intros k e. rewrite Hf.
  destruct (k =? pidx)%Z; [| lra].
  enough (Hsum : sum_over (range_lt 0 (mesh_size m))
                   (gather_term h s m Qktest pidx e) = 0) by lra.
  unfold gather_term.
  destruct ((0 <=? e)%Z && (e <? 3)%Z) eqn:He;
    [| apply sum_over_zero; reflexivity].
  set (G := fun (d : bool) a (i : Z) =>
              gather_factor h d (h * IZR i) (x s pidx a)).
  change (mesh_size m) with (M * (M * M))%Z.
  rewrite (sum_over_ext _ _
             (fun k => q s pidx * c *
                       (G (e =? 0)%Z 0%Z (k mod M)%Z *
                        G (e =? 1)%Z 1%Z ((k / M) mod M)%Z *
                        G (e =? 2)%Z 2%Z (k / M / M)%Z))).
  2:{ intros idx Hidx. apply in_range_lt in Hidx.
      rewrite (HQ idx Hidx). unfold G, m, cubic_mesh.
      cbn [meshr set_meshq Z.eqb Pos.eqb]. fold M. ring. }
  rewrite sum_over_scal.
  pose proof (sum_over_cubic_lattice Mn (G (e =? 0)%Z 0%Z) (G (e =? 1)%Z 1%Z)
                (G (e =? 2)%Z 2%Z)) as HF.
  cbv zeta in HF. fold M in HF. rewrite HF.
  assert (HD : forall a, (0 <= a < 3)%Z -> sum_over (zseq 0 Mn) (G true a) = 0).
  { intros a Ha. apply gather_deriv_sum_interior; [exact Hh |].
    apply Hint. exact Ha. }
  apply andb_prop in He. destruct He as [He0 He3].
  apply Z.leb_le in He0. apply Z.ltb_lt in He3.
  assert (Hcase : e = 0%Z \/ e = 1%Z \/ e = 2%Z) by lia.
  destruct Hcase as [-> | [-> | ->]]; cbn [Z.eqb Pos.eqb].
  - rewrite (HD 0%Z) by lia. ring.
  - rewrite (HD 1%Z) by lia. ring.
  - rewrite (HD 2%Z) by lia. ring.
Qed.

Lemma gather_f_uniform_field_gives_no_force_witness :
  let m := set_meshq (cubic_mesh (Z.of_nat 8) (1 / 8)) (fun _ => 0) in
  let s' := ForceSPME.gather_f (1 / 8) m (fun _ => (3, 0)) 0
                               unit_box_particle in
  same_inputs unit_box_particle s' /\
  (forall k, p s' k = p unit_box_particle k) /\
  (forall k e, f s' k e = f unit_box_particle k e).
Proof.
  apply (gather_f_uniform_field_gives_no_force 8 (1 / 8) 3 (fun _ => 0)
           (fun _ => (3, 0)) 0 unit_box_particle).
  - lia.
  - lra.
  - intros idx _. reflexivity.
  - intros axis _. apply unit_box_particle_interior.
Defined.

(** ** The order in which a parallel loop visits the particles *)

Lemma sum_over_perm (l l' : list Z) (g : Z -> R) :
  Permutation l l' -> sum_over l g = sum_over l' g.
Proof.
  induction 1 as [| i l l' _ IH | i j l | l1 l2 l3 _ IH1 _ IH2];
    unfold sum_over in *; cbn [fold_right]; lra.
Qed.

Lemma calc_Uself_adds (alpha : R) (idx : Z) (s : System) :
  adds s (ForceEwald.calc_Uself alpha idx s)
       (fun k => if (k =? idx)%Z
                 then - alpha / PI_SQRT * q s idx * q s idx else 0)
       (fun _ _ => 0).
Proof.
  unfold adds, ForceEwald.calc_Uself.
  split; [unfold same_inputs; cbn; repeat split; reflexivity |].
  cbn [p f set_p]. split.
  - intros k. unfold assign1. destruct (Z.eqb_spec k idx); subst; lra.
  - intros; lra.
Qed.

(** X24. The two loops of [ForceEwald::compute] that add to the potentials
    and forces without a fallible step (k-space pass, self energy) give the
    same result in whatever order the particles are visited: every
    potential and every force component ends with the same value for two
    visiting orders that are permutations of each other.  The content of
    the contribution array, which the k-space pass only reads, is
    arbitrary. *)
Theorem ewald_accumulation_loops_are_order_independent (l l' : list Z)
    (k_int : Z) (lx ly lz alpha : R) (U : view1) (s : System) :
  Permutation l l' ->
  (forall k e,
     p (for_each l (ForceEwald.kspace_potential k_int lx ly lz alpha U) s) k =
     p (for_each l' (ForceEwald.kspace_potential k_int lx ly lz alpha U) s) k /\
     f (for_each l (ForceEwald.kspace_potential k_int lx ly lz alpha U) s) k e =
     f (for_each l' (ForceEwald.kspace_potential k_int lx ly lz alpha U) s) k e) /\
  (forall k e,
     p (for_each l (ForceEwald.calc_Uself alpha) s) k =
     p (for_each l' (ForceEwald.calc_Uself alpha) s) k /\
     f (for_each l (ForceEwald.calc_Uself alpha) s) k e =
     f (for_each l' (ForceEwald.calc_Uself alpha) s) k e).
Proof.
  intros Hperm. split.
  - intros k e.
    pose proof (fun order =>
                  for_each_adds s order _ _ _
                    (fun idx t Ht =>
                       kspace_potential_adds s k_int lx ly lz alpha U idx t Ht)
                    s (same_inputs_refl s)) as H.
    destruct (H l) as (_ & Hp1 & Hf1). destruct (H l') as (_ & Hp2 & Hf2).
    rewrite Hp1, Hp2, Hf1, Hf2.
    split; f_equal; apply sum_over_perm; exact Hperm.
  - intros k e.
    assert (H : forall order,
              adds s (for_each order (ForceEwald.calc_Uself alpha) s)
                   (fun k => sum_over order (fun idx =>
                      if (k =? idx)%Z
                      then - alpha / PI_SQRT * q s idx * q s idx else 0))
                   (fun k e => sum_over order (fun _ => 0))).
    { intros order.
      apply (for_each_adds s order _
               (fun idx k => if (k =? idx)%Z
                             then - alpha / PI_SQRT * q s idx * q s idx else 0)
               (fun idx k e => 0)); [| apply same_inputs_refl].
      intros idx t Ht.
      pose proof (calc_Uself_adds alpha idx t) as Ha.
      destruct Ht as (_ & _ & _ & _ & _ & _ & _ & Hq).
      rewrite <- Hq in Ha. exact Ha. }
    destruct (H l) as (_ & Hp1 & Hf1). destruct (H l') as (_ & Hp2 & Hf2).
    rewrite Hp1, Hp2, Hf1, Hf2.
    split; f_equal; apply sum_over_perm; exact Hperm.
Qed.

Lemma ewald_accumulation_loops_are_order_independent_witness :
  (forall k e,
     p (for_each [0%Z; 1%Z] (ForceEwald.kspace_potential 1 4 4 4 1 q_one)
                 two_unit_charges) k =
     p (for_each [1%Z; 0%Z] (ForceEwald.kspace_potential 1 4 4 4 1 q_one)
                 two_unit_charges) k /\
     f (for_each [0%Z; 1%Z] (ForceEwald.kspace_potential 1 4 4 4 1 q_one)
                 two_unit_charges) k e =
     f (for_each [1%Z; 0%Z] (ForceEwald.kspace_potential 1 4 4 4 1 q_one)
                 two_unit_charges) k e) /\
  (forall k e,
     p (for_each [0%Z; 1%Z] (ForceEwald.calc_Uself 1) two_unit_charges) k =
     p (for_each [1%Z; 0%Z] (ForceEwald.calc_Uself 1) two_unit_charges) k /\
     f (for_each [0%Z; 1%Z] (ForceEwald.calc_Uself 1) two_unit_charges) k e =
     f (for_each [1%Z; 0%Z] (ForceEwald.calc_Uself 1) two_unit_charges) k e).
Proof.
  apply (ewald_accumulation_loops_are_order_independent [0%Z; 1%Z] [1%Z; 0%Z]
           1 4 4 4 1 q_one two_unit_charges).
  apply perm_swap.
Defined.

(** ** The real-space loop of ForceEwald as a sum over the pairs *)

Lemma force_contribs_pair_other_components (alpha : R) (i j e : Z)
    (s : System) :
  ~ (0 <= e < 3)%Z ->
  forall k, f (fst (ForceEwald.force_contribs_pair alpha i j s)) k e = f s k e.
Proof.
  intros He.
  assert (Hk : keeps (fun t : System => forall k, f t k e = f s k e)
                 (ForceEwald.force_contribs_pair alpha i j)).
  { unfold ForceEwald.force_contribs_pair. apply keeps_get_bind.
    intros t. cbv zeta.
    repeat first
      [ apply keeps_bind; [| intros ?]
      | apply keeps_checked_div
      | apply keeps_modify; intros u Hu k; cbn [f set_f set_p];
        first [ apply Hu
              | unfold atomic_add2, assign2;
                match goal with
                | |- context [(e =? ?d)%Z] =>
                    destruct (Z.eqb_spec e d); [lia |]
                end;
                rewrite andb_false_r; apply Hu ] ]. }
  apply Hk. reflexivity.
Qed.

Lemma force_contribs_pair_adds (alpha : R) (i j : Z) (s : System) :
  pair_distance s i j <> 0 ->
  exists s',
    ForceEwald.force_contribs_pair alpha i j s = (s', Ok tt) /\
    adds s s' (pair_potential_term s alpha i j) (pair_force_term s alpha i j).
Proof.
  intros Hd.
  destruct (force_contribs_pair_effect alpha i j s Hd)
    as (s' & Hrun & _ & _ & Hp & Hf).
  exists s'. split; [exact Hrun |].
  pose proof (force_contribs_pair_keeps_inputs s alpha i j s
                (same_inputs_refl s)) as Hs.
  pose proof (force_contribs_pair_other_components alpha i j) as Hother.
  rewrite Hrun in Hs. cbn [fst] in Hs.
  split; [exact Hs |]. split.
  - intros k. rewrite Hp. unfold pair_potential_term. cbv zeta. lra.
  - intros k e. unfold pair_force_term. cbv zeta.
    destruct (Z.leb_spec 0 e); destruct (Z.ltb_spec e 3); cbn [andb].
    1: { rewrite Hf by lia. cbv zeta. lra. }
    all: specialize (Hother e s ltac:(lia) k); rewrite Hrun in Hother;
         cbn [fst] in Hother; rewrite Hother; lra.
Qed.

Lemma for_eachM_adds (s0 : System) (l : list Z) (body : Z -> M System unit)
    (dp : Z -> Z -> R) (df : Z -> Z -> Z -> R) :
  (forall i s, In i l -> same_inputs s0 s ->
     exists s', body i s = (s', Ok tt) /\ adds s s' (dp i) (df i)) ->
  forall s, same_inputs s0 s ->
    exists s',
      for_eachM l body s = (s', Ok tt) /\
      adds s s' (fun k => sum_over l (fun i => dp i k))
                (fun k e => sum_over l (fun i => df i k e)).
Proof.
  induction l as [| i l IH]; intros Hbody s Hs.
  - exists s. split; [reflexivity |].
    split; [apply same_inputs_refl |]. cbn. split; intros; lra.
  - destruct (Hbody i s (or_introl eq_refl) Hs) as (s1 & Hrun1 & Hs1 & Hp1 & Hf1).
    destruct (IH (fun j t Hj Ht => Hbody j t (or_intror Hj) Ht) s1
                (same_inputs_trans _ _ _ Hs Hs1))
      as (s2 & Hrun2 & Hs2 & Hp2 & Hf2).
    exists s2. cbn [for_eachM]. unfold bind. rewrite Hrun1, Hrun2.
    split; [reflexivity |].
    split; [exact (same_inputs_trans _ _ _ Hs1 Hs2) |].
    unfold sum_over in *. cbn [fold_right]. split.
    + intros k. rewrite Hp2, Hp1. lra.
    + intros k e. rewrite Hf2, Hf1. lra.
Qed.

Lemma pair_terms_same_inputs (s0 s : System) (alpha : R) (i j : Z) :
  same_inputs s0 s ->
  pair_potential_term s alpha i j = pair_potential_term s0 alpha i j /\
  pair_force_term s alpha i j = pair_force_term s0 alpha i j.
Proof.
  intros (_ & _ & _ & _ & _ & _ & Hx & Hq).
  unfold pair_potential_term, pair_force_term, pair_distance.
  rewrite Hx, Hq. split; reflexivity.
Qed.

Lemma force_contribs_loop_adds (alpha : R) (neigh_list : NeighborList)
    (particles : list Z) (s : System) :
  existsb (has_coincident_neighbor neigh_list s) particles = false ->
  exists s',
    for_eachM particles (ForceEwald.force_contribs alpha neigh_list) s =
      (s', Ok tt) /\
    adds s s'
      (fun k => sum_over particles (fun idx =>
         sum_over (range_lt 0 (numNeighbor neigh_list idx)) (fun ij =>
           pair_potential_term s alpha idx (getNeighbor neigh_list idx ij) k)))
      (fun k e => sum_over particles (fun idx =>
         sum_over (range_lt 0 (numNeighbor neigh_list idx)) (fun ij =>
           pair_force_term s alpha idx (getNeighbor neigh_list idx ij) k e))).
Proof.
  intros Hgood.
  apply (for_eachM_adds s particles _
           (fun idx k =>
              sum_over (range_lt 0 (numNeighbor neigh_list idx)) (fun ij =>
                pair_potential_term s alpha idx
                                    (getNeighbor neigh_list idx ij) k))
           (fun idx k e =>
              sum_over (range_lt 0 (numNeighbor neigh_list idx)) (fun ij =>
                pair_force_term s alpha idx
                                (getNeighbor neigh_list idx ij) k e)));
    [| apply same_inputs_refl].
  intros idx t Hidx Ht. unfold ForceEwald.force_contribs. cbv zeta.
  assert (Hidx_good : has_coincident_neighbor neigh_list s idx = false).
  { rewrite <- Bool.not_true_iff_false. intros Hbad.
    rewrite <- Bool.not_true_iff_false in Hgood. apply Hgood.
    apply existsb_exists. exists idx. split; assumption. }
  apply (for_eachM_adds s (range_lt 0 (numNeighbor neigh_list idx)) _
           (fun ij k =>
              pair_potential_term s alpha idx (getNeighbor neigh_list idx ij) k)
           (fun ij k e =>
              pair_force_term s alpha idx (getNeighbor neigh_list idx ij) k e));
    [| exact Ht].
  intros ij u Hij Hu.
  assert (Hd : pair_distance u idx (getNeighbor neigh_list idx ij) <> 0).
  { rewrite (pair_distance_same_inputs s u _ _ Hu). intros Hzero.
    rewrite <- Bool.not_true_iff_false in Hidx_good. apply Hidx_good.
    unfold has_coincident_neighbor. apply existsb_exists. exists ij.
    split; [exact Hij |]. unfold coincident.
    destruct (Req_dec_T _ 0); [reflexivity | contradiction]. }
  destruct (force_contribs_pair_adds alpha idx (getNeighbor neigh_list idx ij)
              u Hd) as (u' & Hrun & Hadds).
  exists u'. split; [exact Hrun |].
  destruct (pair_terms_same_inputs s u alpha idx
              (getNeighbor neigh_list idx ij) Hu) as [E1 E2].
  rewrite <- E1, <- E2. exact Hadds.
Qed.

(** X25. When no visited particle has a neighbor-list entry at distance
    zero, the real-space loop of ForceEwald ends normally and every
    potential and force component ends with the same value in whatever
    order the particles are visited: each receives what it held plus the sum
    over the listed pairs of the pair's contribution. *)
Theorem force_contribs_loop_is_order_independent (l l' : list Z) (alpha : R)
    (neigh_list : NeighborList) (s : System) :
  Permutation l l' ->
  existsb (has_coincident_neighbor neigh_list s) l = false ->
  let run order :=
    for_eachM order (ForceEwald.force_contribs alpha neigh_list) s in
  snd (run l) = Ok tt /\ snd (run l') = Ok tt /\
  (forall k,
     p (fst (run l)) k =
     p s k + sum_over l (fun idx =>
       sum_over (range_lt 0 (numNeighbor neigh_list idx)) (fun ij =>
         pair_potential_term s alpha idx (getNeighbor neigh_list idx ij) k))) /\
  (forall k e,
     p (fst (run l)) k = p (fst (run l')) k /\
     f (fst (run l)) k e = f (fst (run l')) k e).
Proof.
  intros Hperm Hgood. cbv zeta.
  assert (Hgood' : existsb (has_coincident_neighbor neigh_list s) l' = false).
  { rewrite <- Bool.not_true_iff_false in *. intros Hbad. apply Hgood.
    apply existsb_exists in Hbad. destruct Hbad as (idx & Hin & Hb).
    apply existsb_exists. exists idx. split; [| exact Hb].
    apply (Permutation_in idx (Permutation_sym Hperm) Hin). }
  destruct (force_contribs_loop_adds alpha neigh_list l s Hgood)
    as (s1 & Hrun1 & _ & Hp1 & Hf1).
  destruct (force_contribs_loop_adds alpha neigh_list l' s Hgood')
    as (s2 & Hrun2 & _ & Hp2 & Hf2).
  rewrite Hrun1, Hrun2. cbn [fst snd].
  split; [reflexivity |]. split; [reflexivity |].
  split; [exact Hp1 |].
  intros k e. rewrite Hp1, Hp2, Hf1, Hf2.
  split; f_equal; apply sum_over_perm; exact Hperm.
Qed.

Lemma force_contribs_loop_is_order_independent_witness :
  let s := pair_on_axis (1 / 2) in
  let run order :=
    for_eachM order (ForceEwald.force_contribs 1 half_list_01) s in
  snd (run [0%Z; 1%Z]) = Ok tt /\ snd (run [1%Z; 0%Z]) = Ok tt /\
  (forall k,
     p (fst (run [0%Z; 1%Z])) k =
     p s k + sum_over [0%Z; 1%Z] (fun idx =>
       sum_over (range_lt 0 (numNeighbor half_list_01 idx)) (fun ij =>
         pair_potential_term s 1 idx (getNeighbor half_list_01 idx ij) k))) /\
  (forall k e,
     p (fst (run [0%Z; 1%Z])) k = p (fst (run [1%Z; 0%Z])) k /\
     f (fst (run [0%Z; 1%Z])) k e = f (fst (run [1%Z; 0%Z])) k e).
Proof.
  apply (force_contribs_loop_is_order_independent [0%Z; 1%Z] [1%Z; 0%Z] 1
           half_list_01 (pair_on_axis (1 / 2))).
  - apply perm_swap.
  - cbn [existsb]. unfold has_coincident_neighbor.
    cbn [numNeighbor getNeighbor half_list_01 Z.eqb Pos.eqb].
    change (range_lt 0 1) with [0%Z]. change (range_lt 0 0) with (@nil Z).
    cbn [existsb orb]. unfold coincident.
    rewrite (pair_on_axis_distance (1 / 2)) by lra.
    destruct (Req_dec_T (1 / 2) 0); [lra | reflexivity].
Defined.

(** ** Reductions that add to the potentials and forces *)

Lemma reduce_chunk_yields (s0 : System) (body : Z -> R -> M ForceSPME.World R)
    (c : Z -> R) (dp : Z -> Z -> R) (df : Z -> Z -> Z -> R) (chunk : list Z) :
  (forall i acc w, In i chunk -> same_inputs s0 (fst w) ->
     yields (body i acc) w (acc + c i) (dp i) (df i)) ->
  forall acc w, same_inputs s0 (fst w) ->
    yields (reduce_chunk body chunk acc) w (acc + sum_over chunk c)
           (fun k => sum_over chunk (fun i => dp i k))
           (fun k e => sum_over chunk (fun i => df i k e)).
Proof.
  induction chunk as [| i chunk IH]; intros Hbody acc w Hw.
  - exists w. cbn. split; [unfold ret; f_equal; f_equal; lra |].
    split; [reflexivity |]. split; [apply same_inputs_refl |].
    split; intros; lra.
  - destruct (Hbody i acc w (or_introl eq_refl) Hw)
      as (w1 & Hrun1 & Hm1 & Hs1 & Hp1 & Hf1).
    destruct (IH (fun j a t Hj Ht => Hbody j a t (or_intror Hj) Ht)
                (acc + c i) w1 (same_inputs_trans _ _ _ Hw Hs1))
      as (w2 & Hrun2 & Hm2 & Hs2 & Hp2 & Hf2).
    exists w2. cbn [reduce_chunk]. unfold bind. rewrite Hrun1, Hrun2.
    unfold sum_over in *. cbn [fold_right].
    split; [f_equal; f_equal; lra |].
    split; [congruence |].
    split; [exact (same_inputs_trans _ _ _ Hs1 Hs2) |]. split.
    + intros k. rewrite Hp2, Hp1. lra.
    + intros k e. rewrite Hf2, Hf1. lra.
Qed.

Lemma parallel_reduce_yields (s0 : System)
    (body : Z -> R -> M ForceSPME.World R)
    (c : Z -> R) (dp : Z -> Z -> R) (df : Z -> Z -> Z -> R)
    (schedule : list (list Z)) :
  (forall i acc w, In i (List.concat schedule) -> same_inputs s0 (fst w) ->
     yields (body i acc) w (acc + c i) (dp i) (df i)) ->
  forall w, same_inputs s0 (fst w) ->
    yields (parallel_reduce schedule body) w
           (sum_over (List.concat schedule) c)
           (fun k => sum_over (List.concat schedule) (fun i => dp i k))
           (fun k e => sum_over (List.concat schedule) (fun i => df i k e)).
Proof.
  induction schedule as [| chunk schedule IH]; intros Hbody w Hw.
  - exists w. cbn. split; [unfold ret; f_equal; f_equal; lra |].
    split; [reflexivity |]. split; [apply same_inputs_refl |].
    split; intros; lra.
  - cbn [List.concat] in *.
    destruct (reduce_chunk_yields s0 body c dp df chunk
                (fun i a t Hi Ht =>
                   Hbody i a t (in_or_app _ _ _ (or_introl Hi)) Ht)
                0.0 w Hw)
      as (w1 & Hrun1 & Hm1 & Hs1 & Hp1 & Hf1).
    destruct (IH (fun i a t Hi Ht =>
                    Hbody i a t (in_or_app _ _ _ (or_intror Hi)) Ht)
                w1 (same_inputs_trans _ _ _ Hw Hs1))
      as (w2 & Hrun2 & Hm2 & Hs2 & Hp2 & Hf2).
    exists w2. cbn [parallel_reduce]. unfold bind. rewrite Hrun1, Hrun2.
    unfold ret. rewrite !sum_over_app.
    split; [f_equal; f_equal; lra |].
    split; [congruence |].
    split; [exact (same_inputs_trans _ _ _ Hs1 Hs2) |]. split.
    + intros k. rewrite Hp2, Hp1, sum_over_app. lra.
    + intros k e. rewrite Hf2, Hf1, sum_over_app. lra.
Qed.

Lemma yields_ext (m : M ForceSPME.World R) (w : ForceSPME.World) (v v' : R)
    (dp dp' : Z -> R) (df df' : Z -> Z -> R) :
  yields m w v dp df -> v = v' ->
  (forall k, dp k = dp' k) -> (forall k e, df k e = df' k e) ->
  yields m w v' dp' df'.
Proof.
  intros (w' & Hrun & Hm & Ha) <- Edp Edf.
  exists w'. split; [exact Hrun |]. split; [exact Hm |].
  apply (adds_ext _ _ _ _ _ _ Ha Edp Edf).
Qed.

(** ** The all-pairs loop as a sum over pairs and images *)

Lemma realspace_image_yields (alpha r_max lx ly lz : R) (i j pz py px : Z)
    (w : ForceSPME.World) :
  yields (ForceSPME.realspace_image alpha r_max lx ly lz i j pz py px) w
         (image_contrib (fst w) alpha r_max lx ly lz i j pz py px)
         (fun _ => 0)
         (fun k e => if (k =? i)%Z
                     then image_force (fst w) alpha r_max lx ly lz
                                      i j e pz py px
                     else 0).
Proof.
  unfold yields, image_contrib, image_force, image_f_fact, image_separation.
  cbv zeta.
  set (d := image_distance (fst w) lx ly lz i j pz py px).
  assert (Hd0 : 0 <= d) by (unfold d, image_distance; apply sqrt_pos).
  unfold ForceSPME.realspace_image, bind, get.
  cbv zeta. fold (image_distance (fst w) lx ly lz i j pz py px). fold d.
  rewrite (Rabs_pos_eq d Hd0).
  unfold checked_div, ret, throw, ForceSPME.on_system, modify.
  unfold Rgeb, Rleb, b2r, ForceSPME.r.
  destruct (Rle_dec d r_max) as [Hr | Hr];
    destruct (Rle_dec 1e-12 d) as [Ht | Ht];
    destruct (Rle_dec d 1e-12) as [Hs | Hs]; cbn [andb];
    repeat match goal with
           | |- context [Req_dec_T ?a 0] =>
               destruct (Req_dec_T a 0); [exfalso; nra |]
           end;
    (eexists; split; [reflexivity |]);
    cbn [fst snd]; (split; [reflexivity |]);
    (split; [unfold same_inputs; cbn; repeat split; reflexivity |]);
    cbn [x q p f set_f];
    (split; [intros; lra |]);
    intros k e; unfold atomic_add2, assign2;
    repeat match goal with
           | |- context [(?a =? ?b)%Z] => destruct (Z.eqb_spec a b)
           end; cbn [andb]; subst; try lia; lra.
Qed.

Lemma image_terms_same_inputs (s0 s : System) (alpha r_max lx ly lz : R)
    (i j : Z) :
  same_inputs s0 s ->
  image_contrib s alpha r_max lx ly lz i j =
    image_contrib s0 alpha r_max lx ly lz i j /\
  image_force s alpha r_max lx ly lz i j =
    image_force s0 alpha r_max lx ly lz i j.
Proof.
  intros (_ & _ & _ & _ & _ & _ & Hx & Hq).
  unfold image_contrib, image_force, image_f_fact, image_separation,
    image_distance, ForceSPME.r.
  rewrite Hx, Hq. split; reflexivity.
Qed.

Lemma realspace_pair_yields (s0 : System) (alpha r_max lx ly lz : R)
    (per_shells i j : Z) (acc : R) (w : ForceSPME.World) :
  same_inputs s0 (fst w) ->
  yields (ForceSPME.realspace_pair alpha r_max lx ly lz per_shells i j acc) w
         (acc + sum_over_images per_shells
                  (image_contrib s0 alpha r_max lx ly lz i j))
         (fun _ => 0)
         (fun k e => if (k =? i)%Z
                     then sum_over_images per_shells
                            (image_force s0 alpha r_max lx ly lz i j e)
                     else 0).
Proof.
  intros Hw. unfold ForceSPME.realspace_pair, sum_over_images.
  set (P := range_le (- per_shells) per_shells).
  eapply yields_ext.
  - apply (reduce_chunk_yields s0 _
             (fun pz => sum_over P (fun py => sum_over P (fun px =>
                image_contrib s0 alpha r_max lx ly lz i j pz py px)))
             (fun pz k => 0)
             (fun pz k e =>
                if (k =? i)%Z
                then sum_over P (fun py => sum_over P (fun px =>
                       image_force s0 alpha r_max lx ly lz i j e pz py px))
                else 0) P); [| exact Hw].
    intros pz a1 w1 _ Hw1. eapply yields_ext.
    + apply (reduce_chunk_yields s0 _
               (fun py => sum_over P (fun px =>
                  image_contrib s0 alpha r_max lx ly lz i j pz py px))
               (fun py k => 0)
               (fun py k e =>
                  if (k =? i)%Z
                  then sum_over P (fun px =>
                         image_force s0 alpha r_max lx ly lz i j e pz py px)
                  else 0) P); [| exact Hw1].
      intros py a2 w2 _ Hw2. eapply yields_ext.
      * apply (reduce_chunk_yields s0 _
                 (fun px => image_contrib s0 alpha r_max lx ly lz i j pz py px)
                 (fun px k => 0)
                 (fun px k e =>
                    if (k =? i)%Z
                    then image_force s0 alpha r_max lx ly lz i j e pz py px
                    else 0) P); [| exact Hw2].
        intros px a3 w3 _ Hw3.
        destruct (realspace_image_yields alpha r_max lx ly lz i j pz py px w3)
          as (w4 & Hrun & Hm & Ha).
        destruct (image_terms_same_inputs s0 (fst w3) alpha r_max lx ly lz i j
                    Hw3) as [E1 E2].
        rewrite E1, E2 in *.
        exists w4. unfold bind. rewrite Hrun. unfold ret.
        split; [reflexivity |]. split; [exact Hm | exact Ha].
      * reflexivity.
      * intros k. apply sum_over_zero. reflexivity.
      * intros k e. apply sum_over_if.
    + reflexivity.
    + intros k. apply sum_over_zero. reflexivity.
    + intros k e. apply sum_over_if.
  - reflexivity.
  - intros k. apply sum_over_zero. reflexivity.
  - intros k e. apply sum_over_if.
Qed.

Lemma realspace_particle_yields (s0 : System) (alpha r_max lx ly lz : R)
    (n_max : Z) (schedule : list (list Z)) (i : Z) (acc : R)
    (w : ForceSPME.World) :
  lx <> 0 -> (i < n_max)%Z -> same_inputs s0 (fst w) ->
  let per_shells := ceil (r_max / lx) in
  let J := List.concat schedule in
  yields (realspace_particle alpha r_max lx ly lz n_max schedule i acc) w
         (acc + sum_over J (fun j =>
                  sum_over_images per_shells
                    (image_contrib s0 alpha r_max lx ly lz i j)))
         (fun k => if (k =? i)%Z
                   then sum_over J (fun j =>
                          sum_over_images per_shells
                            (image_contrib s0 alpha r_max lx ly lz i j))
                   else 0)
         (fun k e => if (k =? i)%Z
                     then sum_over J (fun j =>
                            sum_over_images per_shells
                              (image_force s0 alpha r_max lx ly lz i j e))
                     else 0).
Proof.
  intros Hlx Hi Hw. cbv zeta.
  unfold yields, realspace_particle.
  rewrite (proj2 (Z.ltb_lt i n_max) Hi).
  unfold bind at 1, checked_div.
  destruct (Req_dec_T lx 0); [contradiction |]. unfold ret at 1.
  cbv beta iota zeta.
  destruct (parallel_reduce_yields s0
              (ForceSPME.realspace_pair alpha r_max lx ly lz
                                        (ceil (r_max / lx)) i)
              (fun j => sum_over_images (ceil (r_max / lx))
                          (image_contrib s0 alpha r_max lx ly lz i j))
              (fun j k => 0)
              (fun j k e =>
                 if (k =? i)%Z
                 then sum_over_images (ceil (r_max / lx))
                        (image_force s0 alpha r_max lx ly lz i j e)
                 else 0)
              schedule
              (fun j a t _ Ht =>
                 realspace_pair_yields s0 alpha r_max lx ly lz
                   (ceil (r_max / lx)) i j a t Ht)
              w Hw) as (w1 & Hrun & Hm & Hs & Hp & Hf).
  unfold bind at 1. rewrite Hrun.
  unfold ForceSPME.on_system. rewrite bind_modify. unfold ret.
  eexists. split; [reflexivity |]. cbn [fst snd].
  split; [exact Hm |].
  split; [apply same_inputs_set_p; exact Hs |].
  cbn [p f set_p]. split.
  - intros k. unfold assign1.
    destruct (Z.eqb_spec k i) as [-> |].
    + rewrite Hp. rewrite (sum_over_zero _ (fun _ => 0)) by reflexivity. lra.
    + rewrite Hp. rewrite (sum_over_zero _ (fun _ => 0)) by reflexivity. lra.
  - intros k e. rewrite Hf. rewrite sum_over_if. reflexivity.
Qed.

(** ** Newton's third law in the all-pairs loop *)

Lemma image_distance_sym (s : System) (lx ly lz : R) (i j pz py px : Z) :
  image_distance s lx ly lz j i (- pz) (- py) (- px) =
  image_distance s lx ly lz i j pz py px.
Proof.
  unfold image_distance. cbv zeta. rewrite !opp_IZR. f_equal. ring.
Qed.

Lemma image_contrib_sym (s : System) (alpha r_max lx ly lz : R)
    (i j pz py px : Z) :
  image_contrib s alpha r_max lx ly lz j i (- pz) (- py) (- px) =
  image_contrib s alpha r_max lx ly lz i j pz py px.
Proof.
  unfold image_contrib. cbv zeta. rewrite image_distance_sym.
  destruct (Rleb _ r_max && Rgeb _ 1e-12); [| reflexivity].
  unfold Rdiv. ring.
Qed.

Lemma image_force_antisym (s : System) (alpha r_max lx ly lz : R)
    (i j e pz py px : Z) :
  image_force s alpha r_max lx ly lz j i e (- pz) (- py) (- px) =
  - image_force s alpha r_max lx ly lz i j e pz py px.
Proof.
  unfold image_force, image_f_fact, image_separation. cbv zeta.
  rewrite image_distance_sym. rewrite !opp_IZR.
  destruct (e =? 0)%Z; [unfold Rdiv; ring |].
  destruct (e =? 1)%Z; [unfold Rdiv; ring |].
  destruct (e =? 2)%Z; unfold Rdiv; ring.
Qed.

Lemma range_le_opp (P : Z) :
  Permutation (map Z.opp (range_le (- P) P)) (range_le (- P) P).
Proof.
  apply NoDup_Permutation.
  - apply Injective_map_NoDup; [| apply NoDup_range_le].
    intros a b H. lia.
  - apply NoDup_range_le.
  - intros a. rewrite in_map_iff. split.
    + intros (b & <- & Hb). apply in_range_le in Hb. apply in_range_le. lia.
    + intros Ha. apply in_range_le in Ha. exists (- a)%Z.
      split; [lia |]. apply in_range_le. lia.
Qed.

Lemma sum_over_range_opp (P : Z) (g : Z -> R) :
  sum_over (range_le (- P) P) (fun a => g (- a)%Z) =
  sum_over (range_le (- P) P) g.
Proof.
  rewrite <- (sum_over_map (range_le (- P) P) Z.opp g).
  apply sum_over_perm. apply range_le_opp.
Qed.

Lemma sum_over_images_opp (per_shells : Z) (g : Z -> Z -> Z -> R) :
  sum_over_images per_shells (fun pz py px => g (- pz) (- py) (- px))%Z =
  sum_over_images per_shells g.
Proof.
  unfold sum_over_images.
  rewrite (sum_over_range_opp per_shells
             (fun pz => sum_over (range_le (- per_shells) per_shells)
                (fun py => sum_over (range_le (- per_shells) per_shells)
                   (fun px => g pz (- py)%Z (- px)%Z)))).
  apply sum_over_ext. intros pz _.
  rewrite (sum_over_range_opp per_shells
             (fun py => sum_over (range_le (- per_shells) per_shells)
                (fun px => g pz py (- px)%Z))).
  apply sum_over_ext. intros py _.
  apply (sum_over_range_opp per_shells (fun px => g pz py px)).
Qed.

Lemma sum_over_opp (l : list Z) (g : Z -> R) :
  sum_over l (fun i => - g i) = - sum_over l g.
Proof.
  induction l as [| i l IH]; unfold sum_over in *; cbn [fold_right]; lra.
Qed.

Lemma antisymmetric_double_sum (J : list Z) (A : Z -> Z -> R) :
  (forall i j, A j i = - A i j) ->
  sum_over J (fun i => sum_over J (fun j => A i j)) = 0.
Proof.
  intros Hanti.
  assert (H : sum_over J (fun i => sum_over J (fun j => A i j)) =
              - sum_over J (fun i => sum_over J (fun j => A i j))).
  { rewrite (sum_over_swap J J A) at 1.
    rewrite <- sum_over_opp. apply sum_over_ext. intros i _.
    rewrite <- sum_over_opp. apply sum_over_ext. intros j _.
    apply Hanti. }
  lra.
Qed.

Lemma sum_over_pick (L : list Z) (i : Z) (a : R) :
  NoDup L -> In i L ->
  sum_over L (fun k => if (k =? i)%Z then a else 0) = a.
Proof.
  intros Hnd Hin.
  rewrite (sum_over_ext L _ (fun k => if (i =? k)%Z then a else 0))
    by (intros k _; rewrite Z.eqb_sym; reflexivity).
  rewrite (sum_over_indicator L i (fun _ => a)) by exact Hnd.
  destruct (in_dec Z.eq_dec i L); [reflexivity | contradiction].
Qed.

(** X26. The real-space loop of [TPME::compute] on a domain whose edge lx
    is not zero, for a schedule that hands out particle indices below n_max
    only: it ends normally; the forces it adds sum to zero over the
    particles, component by component (what the image (px, py, pz) of j
    adds to i is the opposite of what the image (-px, -py, -pz) of i adds to
    j, and both are visited); and the energy Ur it returns is the sum of
    what it adds to the potentials.  The sums run over any list of distinct
    particles that holds the scheduled ones; the mesh is left as it was. *)
Theorem realspace_loop_conserves_momentum_and_counts_energy
    (alpha r_max lx ly lz : R) (n_max : Z) (schedule : list (list Z))
    (L : list Z) (w : ForceSPME.World) :
  lx <> 0 -> NoDup L ->
  (forall i, In i (List.concat schedule) -> (i < n_max)%Z /\ In i L) ->
  exists w' Ur,
    parallel_reduce schedule
      (realspace_particle alpha r_max lx ly lz n_max schedule) w =
      (w', Ok Ur) /\
    snd w' = snd w /\
    (forall e, total_force L (fst w') e = total_force L (fst w) e) /\
    sum_over L (p (fst w')) = sum_over L (p (fst w)) + Ur.
Proof.
  intros Hlx Hnd Hsched.
  set (s0 := fst w). set (J := List.concat schedule).
  set (per := ceil (r_max / lx)).
  set (C := fun i => sum_over J (fun j =>
              sum_over_images per (image_contrib s0 alpha r_max lx ly lz i j))).
  set (D := fun e i => sum_over J (fun j =>
              sum_over_images per (image_force s0 alpha r_max lx ly lz i j e))).
  destruct (parallel_reduce_yields s0
              (realspace_particle alpha r_max lx ly lz n_max schedule)
              C (fun i k => if (k =? i)%Z then C i else 0)
              (fun i k e => if (k =? i)%Z then D e i else 0)
              schedule
              (fun i a t Hi Ht =>
                 realspace_particle_yields s0 alpha r_max lx ly lz n_max
                   schedule i a t Hlx (proj1 (Hsched i Hi)) Ht)
              w (same_inputs_refl s0))
    as (w' & Hrun & Hm & _ & Hp & Hf).
  fold J in Hrun, Hp, Hf.
  exists w', (sum_over J C). split; [exact Hrun |]. split; [exact Hm |].
  split.
  - intros e. unfold total_force.
    rewrite (sum_over_ext L _
               (fun k => f (fst w) k e +
                         sum_over J (fun i => if (k =? i)%Z then D e i else 0)))
      by (intros k _; apply Hf).
    rewrite sum_over_plus.
    rewrite (sum_over_swap L J (fun k i => if (k =? i)%Z then D e i else 0)).
    rewrite (sum_over_ext J _ (D e)).
    2:{ intros i Hi. apply sum_over_pick; [exact Hnd |].
        apply (Hsched i Hi). }
    unfold D.
    rewrite (antisymmetric_double_sum J
               (fun i j => sum_over_images per
                             (image_force s0 alpha r_max lx ly lz i j e))).
    + unfold s0. lra.
    + intros i j.
      rewrite <- (sum_over_images_opp per
                    (image_force s0 alpha r_max lx ly lz j i e)).
      unfold sum_over_images.
      rewrite <- sum_over_opp. apply sum_over_ext. intros pz _.
      rewrite <- sum_over_opp. apply sum_over_ext. intros py _.
      rewrite <- sum_over_opp. apply sum_over_ext. intros px _.
      apply image_force_antisym.
  - rewrite (sum_over_ext L (p (fst w'))
               (fun k => p (fst w) k +
                         sum_over J (fun i => if (k =? i)%Z then C i else 0)))
      by (intros k _; apply Hp).
    rewrite sum_over_plus. f_equal.
    rewrite (sum_over_swap L J (fun k i => if (k =? i)%Z then C i else 0)).
    apply sum_over_ext. intros i Hi.
    apply sum_over_pick; [exact Hnd |]. apply (Hsched i Hi).
Qed.

Lemma realspace_loop_conserves_momentum_and_counts_energy_witness :
  exists w' Ur,
    parallel_reduce (serial 2)
      (realspace_particle 1 1 1 1 1 2 (serial 2)) (two_unit_charges, mesh0) =
      (w', Ok Ur) /\
    snd w' = snd (two_unit_charges, mesh0) /\
    (forall e, total_force [0%Z; 1%Z] (fst w') e =
               total_force [0%Z; 1%Z] (fst (two_unit_charges, mesh0)) e) /\
    sum_over [0%Z; 1%Z] (p (fst w')) =
    sum_over [0%Z; 1%Z] (p (fst (two_unit_charges, mesh0))) + Ur.
Proof.
  apply (realspace_loop_conserves_momentum_and_counts_energy 1 1 1 1 1 2
           (serial 2) [0%Z; 1%Z] (two_unit_charges, mesh0)).
  - lra.
  - repeat constructor; cbn; intuition lia.
  - intros i Hi. change (List.concat (serial 2)) with [0%Z; 1%Z] in Hi.
    cbn [In] in Hi. split; [lia | cbn [In]; tauto].
Defined.

(** ** What [ForceEwald::compute] leaves in the potentials and forces *)

Lemma has_coincident_neighbor_same_inputs (neigh_list : NeighborList)
    (s0 s : System) (idx : Z) :
  same_inputs s0 s ->
  has_coincident_neighbor neigh_list s idx =
  has_coincident_neighbor neigh_list s0 idx.
Proof.
  intros Hs. unfold has_coincident_neighbor, coincident.
  induction (range_lt 0 (numNeighbor neigh_list idx)) as [| ij l IH];
    [reflexivity |].
  cbn [existsb]. rewrite IH.
  rewrite (pair_distance_same_inputs s0 s _ _ Hs). reflexivity.
Qed.

Lemma existsb_ext_in (g1 g2 : Z -> bool) (l : list Z) :
  (forall i, In i l -> g1 i = g2 i) -> existsb g1 l = existsb g2 l.
Proof.
  induction l as [| i l IH]; intros H; [reflexivity |].
  cbn [existsb]. rewrite (H i (or_introl eq_refl)).
  rewrite IH by (intros j Hj; apply H; right; exact Hj). reflexivity.
Qed.

(** The self-energy loop adds to every particle of its range its own self
    term, and to nothing else. *)
Lemma calc_Uself_loop_adds (alpha : R) (n : Z) (s s3 : System) :
  same_inputs s s3 ->
  let s4 := for_each (range_lt 0 n) (ForceEwald.calc_Uself alpha) s3 in
  same_inputs s s4 /\
  (forall k, p s4 k =
             p s3 k + (if (0 <=? k)%Z && (k <? n)%Z
                       then - alpha / PI_SQRT * q s k * q s k else 0)) /\
  (forall k e, f s4 k e = f s3 k e).
Proof.
  intros Hs3. cbv zeta.
  assert (H4 : adds s3 (for_each (range_lt 0 n)
                          (ForceEwald.calc_Uself alpha) s3)
                 (fun k => sum_over (range_lt 0 n) (fun idx =>
                    if (k =? idx)%Z
                    then - alpha / PI_SQRT * q s idx * q s idx else 0))
                 (fun k e => sum_over (range_lt 0 n) (fun _ => 0))).
  { apply (for_each_adds s (range_lt 0 n) _
             (fun idx k => if (k =? idx)%Z
                           then - alpha / PI_SQRT * q s idx * q s idx else 0)
             (fun idx k e => 0)); [| exact Hs3].
    intros idx t Ht.
    pose proof (calc_Uself_adds alpha idx t) as Ha.
    destruct Ht as (_ & _ & _ & _ & _ & _ & _ & Hq).
    rewrite <- Hq in Ha. exact Ha. }
  destruct H4 as (Hs34 & Hp4 & Hf4).
  split; [exact (same_inputs_trans _ _ _ Hs3 Hs34) |]. split.
  - intros k. rewrite Hp4.
    rewrite (sum_over_indicator (range_lt 0 n) k
               (fun idx => - alpha / PI_SQRT * q s idx * q s idx))
      by apply NoDup_range_lt.
    rewrite in_range_lt_dec. reflexivity.
  - intros k e. rewrite Hf4.
    rewrite (sum_over_zero _ (fun _ => 0)) by reflexivity. lra.
Qed.

(** The three particle loops that precede the self energy, run in the order
    of [ForceEwald::compute] on any content [U] of the contribution array:
    zeroing, k-space pass, real-space loop. *)
Lemma ewald_loops_before_self_energy (k_int : Z) (alpha : R) (U : view1)
    (nl : NeighborList) (s : System) :
  existsb (has_coincident_neighbor nl s) (range_lt 0 (N_local s)) = false ->
  let s2 :=
    for_each (range_lt 0 (N_max s))
      (ForceEwald.kspace_potential k_int (domain_x s) (domain_y s)
                                   (domain_z s) alpha U)
      (for_each (range_lt 0 (N_max s)) ForceEwald.init_parameters s) in
  exists s3,
    for_eachM (range_lt 0 (N_local s)) (ForceEwald.force_contribs alpha nl) s2
      = (s3, Ok tt) /\
    same_inputs s s3 /\
    forall k, (0 <= k < N_max s)%Z ->
      p s3 k =
        sum_over_wave_vectors k_int
          (kspace_contrib k_int (domain_x s) (domain_y s) (domain_z s)
                          alpha U) +
        sum_over (range_lt 0 (N_local s)) (fun idx =>
          sum_over (range_lt 0 (numNeighbor nl idx)) (fun ij =>
            pair_potential_term s alpha idx (getNeighbor nl idx ij) k)) /\
      forall e, (0 <= e < 3)%Z ->
        f s3 k e =
          sum_over_wave_vectors k_int
            (kspace_force k_int (domain_x s) (domain_y s) (domain_z s) alpha U
                          (x s) (q s) k e) +
          sum_over (range_lt 0 (N_local s)) (fun idx =>
            sum_over (range_lt 0 (numNeighbor nl idx)) (fun ij =>
              pair_force_term s alpha idx (getNeighbor nl idx ij) k e)).
Proof.
  intros Hgood. cbv zeta.
  set (s1 := for_each (range_lt 0 (N_max s)) ForceEwald.init_parameters s).
  destruct (init_loop_zero (range_lt 0 (N_max s)) s) as [Hs1 Hzero].
  fold s1 in Hs1, Hzero.
  set (s2 := for_each (range_lt 0 (N_max s))
               (ForceEwald.kspace_potential k_int (domain_x s) (domain_y s)
                  (domain_z s) alpha U) s1).
  destruct (for_each_adds s (range_lt 0 (N_max s)) _ _ _
              (fun idx t Ht =>
                 kspace_potential_adds s k_int (domain_x s) (domain_y s)
                   (domain_z s) alpha U idx t Ht)
              s1 Hs1) as (Hs12 & Hp2 & Hf2).
  fold s2 in Hs12, Hp2, Hf2.
  assert (Hs2 : same_inputs s s2) by exact (same_inputs_trans _ _ _ Hs1 Hs12).
  assert (Hgood2 : existsb (has_coincident_neighbor nl s2)
                     (range_lt 0 (N_local s)) = false).
  { rewrite <- Hgood. apply existsb_ext_in. intros i _.
    apply has_coincident_neighbor_same_inputs. exact Hs2. }
  destruct (force_contribs_loop_adds alpha nl (range_lt 0 (N_local s)) s2
              Hgood2) as (s3 & Hrun3 & Hs23 & Hp3 & Hf3).
  exists s3. split; [exact Hrun3 |].
  split; [exact (same_inputs_trans _ _ _ Hs2 Hs23) |].
  intros k Hk.
  assert (Hin : In k (range_lt 0 (N_max s))) by (apply in_range_lt; exact Hk).
  destruct (Hzero k Hin) as [Hp0 Hf0].
  assert (Hterms : forall idx ij,
            pair_potential_term s2 alpha idx (getNeighbor nl idx ij) =
              pair_potential_term s alpha idx (getNeighbor nl idx ij) /\
            pair_force_term s2 alpha idx (getNeighbor nl idx ij) =
              pair_force_term s alpha idx (getNeighbor nl idx ij)).
  { intros idx ij. apply pair_terms_same_inputs. exact Hs2. }
  split.
  - rewrite Hp3, Hp2, Hp0.
    rewrite (sum_over_indicator (range_lt 0 (N_max s)) k
               (fun _ => sum_over_wave_vectors k_int
                           (kspace_contrib k_int (domain_x s) (domain_y s)
                              (domain_z s) alpha U)))
      by apply NoDup_range_lt.
    destruct (in_dec Z.eq_dec k (range_lt 0 (N_max s))); [| contradiction].
    rewrite (sum_over_ext (range_lt 0 (N_local s)) _
               (fun idx => sum_over (range_lt 0 (numNeighbor nl idx)) (fun ij =>
                  pair_potential_term s alpha idx (getNeighbor nl idx ij) k))).
    + lra.
    + intros idx _. apply sum_over_ext. intros ij _.
      rewrite (proj1 (Hterms idx ij)). reflexivity.
  - intros e He. rewrite Hf3, Hf2, (Hf0 e He).
    rewrite (sum_over_indicator (range_lt 0 (N_max s)) k
               (fun idx => sum_over_wave_vectors k_int
                             (kspace_force k_int (domain_x s) (domain_y s)
                                (domain_z s) alpha U (x s) (q s) idx e)))
      by apply NoDup_range_lt.
    destruct (in_dec Z.eq_dec k (range_lt 0 (N_max s))); [| contradiction].
    rewrite (sum_over_ext (range_lt 0 (N_local s)) _
               (fun idx => sum_over (range_lt 0 (numNeighbor nl idx)) (fun ij =>
                  pair_force_term s alpha idx (getNeighbor nl idx ij) k e))).
    + lra.
    + intros idx _. apply sum_over_ext. intros ij _.
      rewrite (proj2 (Hterms idx ij)). reflexivity.
Qed.

Lemma pair_on_axis_neighbors_in_slices :
  neighbors_in_slices half_list_01 (pair_on_axis (1 / 2)).
Proof.
  split; [cbn; lia |]. intros idx ij _ _. cbn. lia.
Qed.



(** ** [ForceEwald::compute] without a k-space part *)

Lemma ceil_minus_one : ceil (-1) = (-1)%Z.
Proof.
  unfold ceil. replace (- -1) with 1 by lra.
  rewrite <- (Int_part_spec 1 1); [reflexivity |]. lra.
Qed.

(** With [k_int = 0] the only wave-vector of the cube is (0,0,0), which
    both passes skip. *)
Lemma sum_over_wave_vectors_0 (g : Z -> Z -> Z -> R) :
  sum_over_wave_vectors 0 g = g 0%Z 0%Z 0%Z.
Proof.
  unfold sum_over_wave_vectors. change (range_le (- 0) 0) with [0%Z].
  unfold sum_over. cbn [fold_right]. lra.
Qed.

(** X6. [ForceEwald::compute] with ceil(k_max) = -1, that is k_int = 0: the
    cube of wave-vectors is the single vector (0,0,0), which both passes
    skip, and the contribution array, of extent 0, is neither written nor
    read.  When the neighbor list names particles of the slices and no
    particle below N_local has a neighbor-list entry at distance zero, the
    call ends normally if N_max equals N_local and with the failed
    assertion otherwise; the assertion comes after the real-space loop and
    before the self energy, so every particle k below N_max is left with
    the sums over the listed pairs in its potential and force, and with the
    self term - alpha / PI_SQRT * q(k)^2 only when the assertion holds. *)
Theorem ewald_compute_without_kspace_part
    (MPI_Allreduce_sum : Z -> view1 -> view1) (memory : view1)
    (this : ForceEwald.t) (s : System) :
  ceil (ForceEwald._k_max this) = (-1)%Z ->
  neighbors_in_slices (ForceEwald.neigh_list this) s ->
  existsb (has_coincident_neighbor (ForceEwald.neigh_list this) s)
          (range_lt 0 (N_local s)) = false ->
  let run := ForceEwald.compute MPI_Allreduce_sum memory this s in
  let alpha := ForceEwald._alpha this in
  let nl := ForceEwald.neigh_list this in
  (ForceEwald.n_kvec (ceil (ForceEwald._k_max this) + 1) = 0)%Z /\
  snd run = (if (N_max s =? N_local s)%Z then Ok tt
             else Fault (assertion_failed "N_max == N_local")) /\
  forall k, (0 <= k < N_max s)%Z ->
    p (fst run) k =
      sum_over (range_lt 0 (N_local s)) (fun idx =>
        sum_over (range_lt 0 (numNeighbor nl idx)) (fun ij =>
          pair_potential_term s alpha idx (getNeighbor nl idx ij) k)) +
      (if (N_max s =? N_local s)%Z
       then - alpha / PI_SQRT * q s k * q s k else 0) /\
    forall e, (0 <= e < 3)%Z ->
      f (fst run) k e =
        sum_over (range_lt 0 (N_local s)) (fun idx =>
          sum_over (range_lt 0 (numNeighbor nl idx)) (fun ij =>
            pair_force_term s alpha idx (getNeighbor nl idx ij) k e)).
Proof.
  intros Hk _ Hgood. cbv zeta.
  set (alpha := ForceEwald._alpha this).
  set (nl := ForceEwald.neigh_list this).
  split; [rewrite Hk; reflexivity |].
  remember (ForceEwald.compute MPI_Allreduce_sum memory this s) as run
    eqn:Hrun.
  unfold ForceEwald.compute in Hrun. rewrite bind_get in Hrun.
  cbv zeta in Hrun. rewrite !bind_modify in Hrun.
  rewrite Hk in Hrun. change (-1 + 1)%Z with 0%Z in Hrun.
  fold alpha nl in Hrun.
  match type of Hrun with
  | context [ForceEwald.kspace_potential 0 _ _ _ alpha ?U0] =>
      set (U := U0) in Hrun
  end.
  destruct (ewald_loops_before_self_energy 0 alpha U nl s Hgood)
    as (s3 & Hrun3 & Hs3 & Hpf3).
  cbv zeta in Hrun3. unfold bind at 1 in Hrun. rewrite Hrun3 in Hrun.
  assert (Hsums : forall k,
            (0 <= k < N_max s)%Z ->
            p s3 k =
              sum_over (range_lt 0 (N_local s)) (fun idx =>
                sum_over (range_lt 0 (numNeighbor nl idx)) (fun ij =>
                  pair_potential_term s alpha idx (getNeighbor nl idx ij) k)) /\
            forall e, (0 <= e < 3)%Z ->
              f s3 k e =
                sum_over (range_lt 0 (N_local s)) (fun idx =>
                  sum_over (range_lt 0 (numNeighbor nl idx)) (fun ij =>
                    pair_force_term s alpha idx (getNeighbor nl idx ij) k e))).
  { intros k Hkr. destruct (Hpf3 k Hkr) as [Hp3 Hf3]. split.
    - rewrite Hp3, sum_over_wave_vectors_0. unfold kspace_contrib.
      cbn [Z.eqb andb]. lra.
    - intros e He. rewrite (Hf3 e He), sum_over_wave_vectors_0.
      unfold kspace_force. cbn [Z.eqb andb]. lra. }
  destruct (N_max s =? N_local s)%Z.
  - unfold bind, ret, modify in Hrun. cbv beta iota in Hrun.
    subst run. cbn [fst snd]. split; [reflexivity |].
    destruct (calc_Uself_loop_adds alpha (N_max s) s s3 Hs3)
      as (_ & Hp4 & Hf4).
    intros k Hkr. destruct (Hsums k Hkr) as [Hp3 Hf3]. split.
    + rewrite Hp4, Hp3.
      destruct (Z.leb_spec 0 k); [| lia].
      destruct (Z.ltb_spec k (N_max s)); [| lia].
      cbn [andb]. reflexivity.
    + intros e He. rewrite Hf4. apply Hf3. exact He.
  - unfold bind, throw in Hrun. cbv beta iota in Hrun. subst run.
    cbn [fst snd].
    split; [reflexivity |].
    intros k Hkr. destruct (Hsums k Hkr) as [Hp3 Hf3]. split.
    + rewrite Hp3. lra.
    + exact Hf3.
Qed.

Lemma ewald_compute_without_kspace_part_witness :
  let this := ForceEwald.mk true 1 half_list_01 1 1 1 (-1) in
  let s := pair_on_axis (1 / 2) in
  let run := ForceEwald.compute (fun _ v => v) zero_view this s in
  let alpha := ForceEwald._alpha this in
  let nl := ForceEwald.neigh_list this in
  (ForceEwald.n_kvec (ceil (ForceEwald._k_max this) + 1) = 0)%Z /\
  snd run = (if (N_max s =? N_local s)%Z then Ok tt
             else Fault (assertion_failed "N_max == N_local")) /\
  forall k, (0 <= k < N_max s)%Z ->
    p (fst run) k =
      sum_over (range_lt 0 (N_local s)) (fun idx =>
        sum_over (range_lt 0 (numNeighbor nl idx)) (fun ij =>
          pair_potential_term s alpha idx (getNeighbor nl idx ij) k)) +
      (if (N_max s =? N_local s)%Z
       then - alpha / PI_SQRT * q s k * q s k else 0) /\
    forall e, (0 <= e < 3)%Z ->
      f (fst run) k e =
        sum_over (range_lt 0 (N_local s)) (fun idx =>
          sum_over (range_lt 0 (numNeighbor nl idx)) (fun ij =>
            pair_force_term s alpha idx (getNeighbor nl idx ij) k e)).
Proof.
  apply (ewald_compute_without_kspace_part (fun _ v => v) zero_view
           (ForceEwald.mk true 1 half_list_01 1 1 1 (-1))
           (pair_on_axis (1 / 2))).
  - exact ceil_minus_one.
  - exact pair_on_axis_neighbors_in_slices.
  - exact pair_on_axis_no_coincident_neighbor.
Defined.
(** * Force evaluations and the values held on entry *)

Lemma same_inputs_with_entry_values (s : System) (p' : view1) (f' : view2) :
  same_inputs s (with_entry_values s p' f').
Proof. unfold same_inputs, with_entry_values. cbn. repeat split. Qed.

(** X28. [TPME::compute] forgets the potentials and forces held on entry.
    On a call that stays inside its arrays (cubic domain of nonzero edge,
    mesh of M^3 points that holds the particles, schedule within its
    range), replacing the values that the Potentials and Forces slices hold
    at entry by any others, with the same mesh, changes neither the
    returned energy, nor the mesh the call leaves, nor the final potential
    and force of any particle below N: the loop init_p has set them to zero
    before anything is added. *)
Theorem spme_compute_forgets_entry_values
    (fft_backward fft_forward : Z -> cview -> cview)
    (fftw_malloc : string -> cview) (Udip : R) (schedule : Z -> list (list Z))
    (this : ForceSPME.t) (s : System) (m : Mesh) (M : Z)
    (p' : view1) (f' : view2) :
  noncubic s = false -> domain_x s <> 0 ->
  mesh_fits s m M -> schedule_in_range schedule ->
  let s' := with_entry_values s p' f' in
  let run t :=
    ForceSPME.compute fft_backward fft_forward fftw_malloc Udip schedule this
                      (t, m) in
  (exists E, snd (run s) = Ok E /\ snd (run s') = Ok E) /\
  snd (fst (run s)) = snd (fst (run s')) /\
  agree_below (N s) (fst (fst (run s))) (fst (fst (run s'))).
Proof.
  intros Hc Hnz _ _. cbv zeta.
  pose proof (same_inputs_with_entry_values s p' f') as Hsame.
  destruct (spme_compute_same_inputs fft_backward fft_forward fftw_malloc Udip
              schedule this s (with_entry_values s p' f') m Hsame)
    as (Hv & Hm & Hs).
  cbv beta in Hv, Hm, Hs.
  destruct (spme_compute_cases fft_backward fft_forward fftw_malloc Udip
              schedule this s m Hc) as [_ H].
  cbv zeta in H.
  destruct (Req_dec_T (domain_x s) 0); [contradiction |].
  cbn [andb] in H. destruct H as [[E HE] _].
  split.
  { exists E. split; [exact HE |]. rewrite <- Hv. exact HE. }
  split; [exact Hm |].
  assert (Hcubic : domain_x s = domain_y s /\ domain_x s = domain_z s).
  { unfold noncubic, Rneb in Hc.
    destruct (Req_dec_T (domain_x s) (domain_y s));
      destruct (Req_dec_T (domain_x s) (domain_z s));
      try discriminate. split; assumption. }
  destruct (Hs Hcubic) as [_ Hpf]. exact Hpf.
Qed.

Lemma spme_compute_forgets_entry_values_witness :
  let s := unit_box_particle in
  let s' := with_entry_values s (fun _ => 7) (fun _ _ => 7) in
  let run t :=
    ForceSPME.compute (fun _ v => v) (fun _ v => v) (fun _ _ => (0, 0)) 0
                      serial solver_half (t, cubic_mesh 8 (1 / 8)) in
  (exists E, snd (run s) = Ok E /\ snd (run s') = Ok E) /\
  snd (fst (run s)) = snd (fst (run s')) /\
  agree_below (N s) (fst (fst (run s))) (fst (fst (run s'))).
Proof.
  apply (spme_compute_forgets_entry_values
           (fun _ v => v) (fun _ v => v) (fun _ _ => (0, 0)) 0 serial
           solver_half unit_box_particle (cubic_mesh 8 (1 / 8)) 8
           (fun _ => 7) (fun _ _ => 7)).
  - exact unit_box_cubic.
  - cbn [domain_x unit_box_particle]. lra.
  - exact unit_box_mesh_fits.
  - exact serial_in_range.
Defined.

(** * A second evaluation on the same mesh *)



(** * The energy that [TPME::compute] returns *)

(** ** Reductions of pure and of self-energy bodies *)

Lemma reduce_chunk_pure {S : Type} (c : Z -> R) (chunk : list Z) :
  forall (acc : R) (w : S),
    reduce_chunk (fun idx a => ret (a + c idx)) chunk acc w =
    (w, Ok (acc + sum_over chunk c)).
Proof.
  induction chunk as [| i chunk IH]; intros acc w.
  - cbn. unfold ret. f_equal. f_equal. lra.
  - cbn [reduce_chunk]. unfold bind at 1. unfold ret at 1. rewrite IH.
    f_equal. f_equal. unfold sum_over. cbn [fold_right]. lra.
Qed.

Lemma parallel_reduce_pure {S : Type} (c : Z -> R) (schedule : list (list Z)) :
  forall w : S,
    parallel_reduce schedule (fun idx a => ret (a + c idx)) w =
    (w, Ok (sum_over (List.concat schedule) c)).
Proof.
  induction schedule as [| chunk schedule IH]; intros w.
  - cbn. unfold ret. f_equal. f_equal. lra.
  - cbn [parallel_reduce List.concat]. unfold bind at 1.
    rewrite reduce_chunk_pure. unfold bind. rewrite IH. unfold ret.
    f_equal. f_equal. rewrite sum_over_app. lra.
Qed.

Lemma self_energy_reduce (alpha : R) (schedule : list (list Z)) :
  forall w : ForceSPME.World,
  exists w',
    parallel_reduce schedule (ForceSPME.self_energy_body alpha) w =
    (w', Ok (sum_over (List.concat schedule)
               (fun idx => - alpha / PI_SQRT * q (fst w) idx
                           * q (fst w) idx))) /\
    q (fst w') = q (fst w).
Proof.
  induction schedule as [| chunk schedule IH]; intros w.
  - exists w. cbn. split; [| reflexivity]. unfold ret. f_equal. f_equal. lra.
  - cbn [parallel_reduce List.concat]. unfold bind at 1.
    destruct (self_energy_chunk alpha chunk 0.0 w) as (w1 & Hrun1 & Hq1).
    rewrite Hrun1. unfold bind.
    destruct (IH w1) as (w2 & Hrun2 & Hq2). rewrite Hrun2.
    exists w2. unfold ret. split; [| congruence].
    f_equal. f_equal. rewrite sum_over_app, Hq1. lra.
Qed.

(** ** The returned energy *)

Lemma spme_compute_energy
    (fft_backward fft_forward : Z -> cview -> cview)
    (fftw_malloc : string -> cview) (Udip : R) (schedule : Z -> list (list Z))
    (this : ForceSPME.t) (s : System) (m : Mesh) :
  noncubic s = false -> domain_x s <> 0 -> schedule_in_range schedule ->
  snd (ForceSPME.compute fft_backward fft_forward fftw_malloc Udip schedule
                         this (s, m)) =
  Ok (realspace_energy this schedule s +
      kspace_energy fft_backward fftw_malloc schedule this s
                    (spread_stage s m) * 0.5 +
      self_energy this schedule s + Udip).
Proof.
  intros Hc Hnz Hsched.
  remember (ForceSPME.compute fft_backward fft_forward fftw_malloc Udip
              schedule this (s, m)) as run eqn:Hrun.
  unfold ForceSPME.compute in Hrun. rewrite bind_get in Hrun.
  cbv zeta in Hrun. cbn [fst snd] in Hrun.
  change (Rneb (domain_x s) (domain_y s) || Rneb (domain_x s) (domain_z s))
    with (noncubic s) in Hrun.
  rewrite Hc in Hrun.
  unfold ForceSPME.on_system at 1 in Hrun. rewrite bind_modify in Hrun.
  cbn [fst snd] in Hrun.
  set (alpha := ForceSPME._alpha this) in *.
  set (r_max := ForceSPME._r_max this) in *.
  set (s1 := for_each (range_lt 0 (N s)) ForceSPME.init_p s) in Hrun.
  assert (Hs1 : same_inputs s s1).
  { unfold s1. apply (for_each_invariant (same_inputs s));
      [apply same_inputs_refl |].
    intros i u _ Hu. rewrite init_p_is_init_parameters.
    apply (same_inputs_trans _ _ _ Hu).
    apply init_parameters_same_inputs. apply same_inputs_refl. }
  set (J := List.concat (schedule (N s))).
  set (per := ceil (r_max / ForceSPME.lx s)).
  set (C := fun i => sum_over J (fun j =>
              sum_over_images per
                (image_contrib s alpha r_max (ForceSPME.lx s) (ForceSPME.ly s)
                               (ForceSPME.lz s) i j))).
  set (D := fun e i => sum_over J (fun j =>
              sum_over_images per
                (image_force s alpha r_max (ForceSPME.lx s) (ForceSPME.ly s)
                             (ForceSPME.lz s) i j e))).
  destruct (parallel_reduce_yields s
              (realspace_particle alpha r_max (ForceSPME.lx s)
                 (ForceSPME.ly s) (ForceSPME.lz s) (N s) (schedule (N s)))
              C (fun i k => if (k =? i)%Z then C i else 0)
              (fun i k e => if (k =? i)%Z then D e i else 0)
              (schedule (N s))
              (fun i a t Hi Ht =>
                 realspace_particle_yields s alpha r_max (ForceSPME.lx s)
                   (ForceSPME.ly s) (ForceSPME.lz s) (N s) (schedule (N s))
                   i a t Hnz (proj2 (Hsched (N s) i Hi)) Ht)
              (s1, m) Hs1)
    as (w1 & Hrun1 & Hm1 & Hsw1 & _).
  cbn [fst snd] in Hm1, Hsw1.
  change (parallel_reduce (schedule (N s))
            (realspace_particle alpha r_max (ForceSPME.lx s) (ForceSPME.ly s)
               (ForceSPME.lz s) (N s) (schedule (N s))) (s1, m))
    with (parallel_reduce (schedule (N s))
            (fun (i : Z) (Ur_i : R) =>
               if (i <? N s)%Z
               then
                 ratio <- r_max /? ForceSPME.lx s;;
                 Ur_inner <- parallel_reduce (schedule (N s))
                               (ForceSPME.realspace_pair alpha r_max
                                  (ForceSPME.lx s) (ForceSPME.ly s)
                                  (ForceSPME.lz s) (ceil ratio) i);;
                 ForceSPME.on_system
                   (fun s0 : System =>
                      set_p s0 (assign1 (p s0) i (p s0 i + Ur_inner)));;
                 ret (Ur_i + Ur_inner)
               else ret Ur_i) (s1, m)) in Hrun1.
  unfold bind at 1 in Hrun. rewrite Hrun1 in Hrun.
  rewrite bind_get in Hrun. cbv zeta in Hrun.
  unfold ForceSPME.on_mesh at 1 in Hrun.
  rewrite bind_modify in Hrun. rewrite bind_get in Hrun. cbv zeta in Hrun.
  cbn [fst snd] in Hrun.
  assert (Hsw : same_inputs s (fst w1))
    by exact (same_inputs_trans _ _ _ Hs1 Hsw1).
  assert (Hmesh :
    for_each (range_lt 0 (mesh_size m))
      (ForceSPME.spread_q
         (meshr (snd w1) 1%Z 0%Z - meshr (snd w1) 0%Z 0%Z) (fst w1))
      (snd w1) = spread_stage s m).
  { unfold spread_stage. cbv zeta. rewrite Hm1.
    apply (for_each_preserves eq); [reflexivity |].
    intros i t1 t2 _ ->.
    destruct Hsw as (HN & _ & _ & _ & _ & _ & Hx & Hq).
    symmetry. apply spread_q_same_inputs; assumption. }
  rewrite Hmesh in Hrun.
  unfold bind at 1 in Hrun.
  match type of Hrun with
  | context [parallel_reduce ?sch
               (fun idx Uk_part => ret (Uk_part + @?c idx)) ?w] =>
      let Hp := fresh "Hp" in
      pose proof (@parallel_reduce_pure ForceSPME.World c sch w) as Hp;
      cbv beta in Hp; rewrite Hp in Hrun; clear Hp
  end.
  cbv beta iota in Hrun. unfold bind at 1 in Hrun.
  match type of Hrun with
  | context [parallel_reduce _ (ForceSPME.self_energy_body alpha) ?w] =>
      destruct (self_energy_reduce alpha (schedule (N s)) w)
        as (w3 & Hrun3 & _)
  end.
  rewrite Hrun3 in Hrun. cbv beta iota in Hrun.
  unfold ForceSPME.on_system in Hrun. rewrite bind_modify in Hrun.
  unfold ret in Hrun. subst run. cbn [fst snd].
  f_equal.
  assert (Hsize : mesh_size (spread_stage s m) = mesh_size m).
  { unfold spread_stage. cbv zeta.
    destruct (spread_loop_effect (meshr m 1%Z 0%Z - meshr m 0%Z 0%Z) s
                (range_lt 0 (mesh_size m)) m (NoDup_range_lt _ _))
      as (H1 & _). exact H1. }
  unfold realspace_energy, self_energy, kspace_energy, BC_array, Qr_array.
  cbv zeta. rewrite Hsize.
  destruct Hsw as (_ & _ & _ & _ & _ & _ & _ & Hq).
  rewrite <- Hq. reflexivity.
Qed.

(** The terms of the energy read positions, charges, counts and domain
    only. *)
Lemma energy_terms_same_inputs (fft_backward : Z -> cview -> cview)
    (fftw_malloc : string -> cview) (schedule : Z -> list (list Z))
    (this : ForceSPME.t) (s t : System) :
  same_inputs s t ->
  noncubic t = noncubic s /\
  realspace_energy this schedule t = realspace_energy this schedule s /\
  self_energy this schedule t = self_energy this schedule s /\
  (forall m, spread_stage t m = spread_stage s m) /\
  (forall m, kspace_energy fft_backward fftw_malloc schedule this t m =
             kspace_energy fft_backward fftw_malloc schedule this s m).
Proof.
  destruct s as [n1 nl1 nm1 dx1 dy1 dz1 x1 f1 q1 p1].
  destruct t as [n2 nl2 nm2 dx2 dy2 dz2 x2 f2 q2 p2].
  unfold same_inputs. cbn [N N_local N_max domain_x domain_y domain_z x q].
  intros (-> & -> & -> & -> & -> & -> & -> & ->).
  repeat split.
Qed.

(** X29. The energy that [TPME::compute] returns on a call that stays
    inside its arrays (cubic domain of nonzero edge, mesh of M^3 points
    that holds the particles, schedule within its range), entered with the
    particle data [t] and the mesh [m]:
      Ur + 0.5 * Uk + Uself + Udip,
    with Ur the sum of [contrib] over the scheduled pairs and their images,
    Uk the sum over the scheduled mesh points of BC[idx][0] * |Qktest[idx]|^2
    for the inverse transform Qktest of the mesh charge that spread_q has
    left, and Uself the sum of - alpha / PI_SQRT * q(idx)^2.  No term reads
    the potentials or forces held on entry: the value is the same for every
    [t] with the positions, charges, counts and domain of [s].  The mesh
    charge held on entry enters through Uk. *)
Theorem spme_compute_energy_formula
    (fft_backward fft_forward : Z -> cview -> cview)
    (fftw_malloc : string -> cview) (Udip : R) (schedule : Z -> list (list Z))
    (this : ForceSPME.t) (s t : System) (m : Mesh) (M : Z) :
  noncubic s = false -> domain_x s <> 0 ->
  mesh_fits s m M -> schedule_in_range schedule ->
  same_inputs s t ->
  snd (ForceSPME.compute fft_backward fft_forward fftw_malloc Udip schedule
                         this (t, m)) =
  Ok (realspace_energy this schedule s +
      kspace_energy fft_backward fftw_malloc schedule this s
                    (spread_stage s m) * 0.5 +
      self_energy this schedule s + Udip).
Proof.
  intros Hc Hnz _ Hsched Hst.
  destruct (energy_terms_same_inputs fft_backward fftw_malloc schedule this
              s t Hst) as (Hct & Hr & Hself & Hspread & Hk).
  assert (Hnzt : domain_x t <> 0).
  { destruct Hst as (_ & _ & _ & Hx & _). rewrite <- Hx. exact Hnz. }
  rewrite (spme_compute_energy fft_backward fft_forward fftw_malloc Udip
             schedule this t m (eq_trans Hct Hc) Hnzt Hsched).
  rewrite Hr, Hself, Hspread, Hk. reflexivity.
Qed.

Lemma spme_compute_energy_formula_witness :
  let s := unit_box_particle in
  let t := with_entry_values s (fun _ => 7) (fun _ _ => 7) in
  let m := cubic_mesh 8 (1 / 8) in
  snd (ForceSPME.compute (dft_3d 1) (dft_3d (-1)) (fun _ _ => (0, 0)) 0
                         serial solver_half (t, m)) =
  Ok (realspace_energy solver_half serial s +
      kspace_energy (dft_3d 1) (fun _ _ => (0, 0)) serial solver_half s
                    (spread_stage s m) * 0.5 +
      self_energy solver_half serial s + 0).
Proof.
  apply (spme_compute_energy_formula (dft_3d 1) (dft_3d (-1))
           (fun _ _ => (0, 0)) 0 serial solver_half unit_box_particle
           (with_entry_values unit_box_particle (fun _ => 7) (fun _ _ => 7))
           (cubic_mesh 8 (1 / 8)) 8).
  - exact unit_box_cubic.
  - cbn [domain_x unit_box_particle]. lra.
  - exact unit_box_mesh_fits.
  - exact serial_in_range.
  - apply same_inputs_with_entry_values.
Defined.

(** * Two evaluations, with the discrete Fourier transform as FFT *)

Lemma meshwidth_512 : round (ForceSPME.pow (IZR 512) (1.0 / 3.0)) = 8%Z.
Proof.
  assert (Hpow : ForceSPME.pow (IZR 512) (1.0 / 3.0) = 8).
  { unfold ForceSPME.pow, Rpower. replace (IZR 512) with (8 * 8 * 8) by lra.
    rewrite !ln_mult by lra.
    replace (1.0 / 3.0 * (ln 8 + ln 8 + ln 8)) with (ln 8) by lra.
    apply exp_ln. lra. }
  rewrite Hpow. unfold round. rewrite Rleb_true by lra.
  symmetry. apply Int_part_spec. lra.
Qed.

(** copy_charge over the mesh stores the mesh charge as real parts. *)
Lemma Qr_array_at (fftw_malloc : string -> cview) (m : Mesh) (j : Z) :
  (0 <= j < mesh_size m)%Z -> Qr_array fftw_malloc m j = (meshq m j, 0.0).
Proof.
  intros Hj. unfold Qr_array.
  rewrite (for_each_writes _ _ (fun i idx => (idx =? i)%Z)
             (fun idx => (meshq m idx, 0.0))).
  - destruct (existsb (fun i => (j =? i)%Z) (range_lt 0 (mesh_size m))) eqn:E;
      [reflexivity |].
    exfalso. rewrite <- Bool.not_true_iff_false in E. apply E.
    apply existsb_exists. exists j. split; [apply in_range_lt; exact Hj |].
    apply Z.eqb_refl.
  - intros i B idx _. unfold ForceSPME.copy_charge, cassign.
    destruct (Z.eqb_spec idx i) as [-> |]; reflexivity.
Qed.

(** The transform is homogeneous: doubling the input doubles the output. *)
Lemma dft_3d_double (sign : R) (n : Z) (v1 v2 : cview) :
  (forall j, (0 <= j < n * (n * n))%Z ->
             v2 j = (2 * fst (v1 j), 2 * snd (v1 j))) ->
  forall k,
    fst (dft_3d sign n v2 k) = 2 * fst (dft_3d sign n v1 k) /\
    snd (dft_3d sign n v2 k) = 2 * snd (dft_3d sign n v1 k).
Proof.
  intros H k. unfold dft_3d. cbn [fst snd].
  split; rewrite <- sum_over_scal; apply sum_over_ext; intros j Hj;
    apply in_range_lt in Hj; rewrite (H j Hj); cbn [fst snd]; ring.
Qed.

(** The mesh that the spreading stage leaves. *)
Lemma spread_stage_effect (s : System) (m : Mesh) :
  mesh_size (spread_stage s m) = mesh_size m /\
  meshr (spread_stage s m) = meshr m /\
  forall k,
    meshq (spread_stage s m) k =
    meshq m k +
    (if (0 <=? k)%Z && (k <? mesh_size m)%Z
     then sum_over (range_lt 0 (N s))
            (spread_term (meshr m 1%Z 0%Z - meshr m 0%Z 0%Z) s m k)
     else 0).
Proof.
  unfold spread_stage. cbv zeta.
  destruct (spread_loop_effect (meshr m 1%Z 0%Z - meshr m 0%Z 0%Z) s
              (range_lt 0 (mesh_size m)) m (NoDup_range_lt _ _))
    as (H1 & H2 & H3).
  split; [exact H1 |]. split; [exact H2 |].
  intros k. rewrite H3. rewrite in_range_lt_dec. reflexivity.
Qed.

(** The charge of the lattice after one and after two spreading stages, for
    the particle at the centre of the unit box. *)
Lemma unit_box_mesh_charges (k : Z) :
  (0 <= k < 512)%Z ->
  let s := unit_box_particle in
  let m := cubic_mesh 8 (1 / 8) in
  let aw := fun i : Z => axis_weight (1 / 8) (1 / 8 * IZR i) (1 / 2) in
  meshq (spread_stage s m) k =
    aw (k mod 8)%Z * aw ((k / 8) mod 8)%Z * aw (k / 8 / 8)%Z /\
  meshq (spread_stage s (spread_stage s m)) k =
    2 * meshq (spread_stage s m) k.
Proof.
  intros Hk. cbv zeta.
  set (s := unit_box_particle). set (m := cubic_mesh 8 (1 / 8)).
  destruct (spread_stage_effect s m) as (Hsz1 & Hr1 & Hq1).
  destruct (spread_stage_effect s (spread_stage s m)) as (_ & _ & Hq2).
  rewrite Hsz1, Hr1 in Hq2.
  assert (Hh : meshr m 1%Z 0%Z - meshr m 0%Z 0%Z = 1 / 8).
  { pose proof (cubic_mesh_spacing 8 (1 / 8) ltac:(lia)) as Hh.
    cbv zeta in Hh. exact Hh. }
  rewrite Hh in Hq1, Hq2.
  assert (Hin : (0 <=? k)%Z && (k <? mesh_size m)%Z = true).
  { change (mesh_size m) with 512%Z.
    destruct (Z.leb_spec 0 k); [| lia]. destruct (Z.ltb_spec k 512); [| lia].
    reflexivity. }
  assert (Hterm : forall m1 : Mesh, meshr m1 = meshr m ->
            sum_over (range_lt 0 (N s)) (spread_term (1 / 8) s m1 k) =
            axis_weight (1 / 8) (1 / 8 * IZR (k mod 8)) (1 / 2) *
            axis_weight (1 / 8) (1 / 8 * IZR ((k / 8) mod 8)) (1 / 2) *
            axis_weight (1 / 8) (1 / 8 * IZR (k / 8 / 8)) (1 / 2)).
  { intros m1 Hm1. change (range_lt 0 (N s)) with [0%Z].
    unfold sum_over. cbn [fold_right]. unfold spread_term. rewrite Hm1.
    unfold m, cubic_mesh. cbn [meshr q x s unit_box_particle Z.eqb Pos.eqb].
    lra. }
  assert (H1 : meshq (spread_stage s m) k =
               axis_weight (1 / 8) (1 / 8 * IZR (k mod 8)) (1 / 2) *
               axis_weight (1 / 8) (1 / 8 * IZR ((k / 8) mod 8)) (1 / 2) *
               axis_weight (1 / 8) (1 / 8 * IZR (k / 8 / 8)) (1 / 2)).
  { rewrite Hq1, Hin, (Hterm m eq_refl). unfold m, cubic_mesh. cbn [meshq].
    lra. }
  split; [exact H1 |].
  rewrite Hq2, Hin, (Hterm (spread_stage s m) Hr1), H1. lra.
Qed.

(** The axis weights of the particle, weighted by the cosines of the
    transform at the first wave-vector: the three points that carry weight
    lie in the half period where the cosine is negative. *)
Lemma unit_box_axis_cosine_sum :
  sum_over (zseq 0 8)
    (fun a => axis_weight (1 / 8) (1 / 8 * IZR a) (1 / 2) *
              cos (2 * Rtrigo1.PI * IZR a / 8)) <= - (1 / 3).
Proof.
  change (zseq 0 8) with [0; 1; 2; 3; 4; 5; 6; 7]%Z.
  unfold sum_over. cbn [fold_right].
  destruct axis_weights_unit_box as (H0 & H1 & H2 & H3 & H4 & H5 & H6 & H7).
  rewrite H0, H1, H2, H3, H4, H5, H6, H7.
  replace (2 * Rtrigo1.PI * 4 / 8) with Rtrigo1.PI by lra. rewrite cos_PI.
  pose proof (COS_bound (2 * Rtrigo1.PI * 3 / 8)) as [_ B3].
  pose proof (COS_bound (2 * Rtrigo1.PI * 5 / 8)) as [_ B5].
  lra.
Qed.

Lemma unit_box_axis_sum :
  sum_over (zseq 0 8)
    (fun a => axis_weight (1 / 8) (1 / 8 * IZR a) (1 / 2)) = 1.
Proof.
  pose proof axis_weight_sum_unit_box as H. unfold axis_weight_sum in H.
  exact H.
Qed.

(** The real part of the transform of the first mesh charge at index 1. *)
Lemma unit_box_transform_at_1 (fftw_malloc : string -> cview) :
  fst (dft_3d 1 8
         (Qr_array fftw_malloc
            (spread_stage unit_box_particle (cubic_mesh 8 (1 / 8)))) 1%Z)
  <= - (1 / 3).
Proof.
  unfold dft_3d. cbn [fst].
  set (aw := fun i : Z => axis_weight (1 / 8) (1 / 8 * IZR i) (1 / 2)).
  rewrite (sum_over_ext _ _
             (fun j => (aw (j mod 8)%Z *
                        cos (2 * Rtrigo1.PI * IZR (j mod 8) / 8)) *
                       aw ((j / 8) mod 8)%Z * aw (j / 8 / 8)%Z)).
  - pose proof (sum_over_cubic_lattice 8
                  (fun a => aw a * cos (2 * Rtrigo1.PI * IZR a / 8)) aw aw)
      as H.
    cbv zeta in H. change (Z.of_nat 8) with 8%Z in H. rewrite H.
    unfold aw. rewrite unit_box_axis_sum.
    pose proof unit_box_axis_cosine_sum. lra.
  - intros j Hj. apply in_range_lt in Hj.
    assert (Hj' : (0 <= j < 512)%Z) by lia.
    destruct (spread_stage_effect unit_box_particle (cubic_mesh 8 (1 / 8)))
      as (Hsz & _).
    rewrite Qr_array_at by (rewrite Hsz; exact Hj').
    cbn [fst snd].
    destruct (unit_box_mesh_charges j Hj') as [Hq _]. cbv zeta in Hq.
    rewrite Hq. fold aw.
    unfold dft_angle.
    change (1 / 8 / 8)%Z with 0%Z. change ((1 / 8) mod 8)%Z with 0%Z.
    change (1 mod 8)%Z with 1%Z.
    replace (0 * (j / 8 / 8) + 0 * ((j / 8) mod 8) + 1 * (j mod 8))%Z
      with (j mod 8)%Z by ring.
    replace (1 * (2 * Rtrigo1.PI) * IZR (j mod 8) / IZR 8)
      with (2 * Rtrigo1.PI * IZR (j mod 8) / 8) by lra.
    unfold aw. replace 0.0 with 0 by lra. ring.
Qed.

Lemma sum_over_nonneg (l : list Z) (g : Z -> R) :
  (forall j, In j l -> 0 <= g j) -> 0 <= sum_over l g.
Proof.
  unfold sum_over. induction l as [| i l IH]; intros H; cbn [fold_right].
  - lra.
  - pose proof (H i (or_introl eq_refl)).
    pose proof (IH (fun j Hj => H j (or_intror Hj))). lra.
Qed.

Lemma sum_over_positive (l : list Z) (g : Z -> R) (i : Z) :
  In i l -> (forall j, In j l -> 0 <= g j) -> 0 < g i -> 0 < sum_over l g.
Proof.
  induction l as [| a l IH]; intros Hin Hnn Hpos; [contradiction |].
  change (sum_over (a :: l) g) with (g a + sum_over l g).
  destruct Hin as [-> | Hin].
  - pose proof (sum_over_nonneg l g (fun j Hj => Hnn j (or_intror Hj))). lra.
  - pose proof (Hnn a (or_introl eq_refl)).
    pose proof (IH Hin (fun j Hj => Hnn j (or_intror Hj)) Hpos). lra.
Qed.

(** The array BC of the unit box on the 8 x 8 x 8 lattice: no real part is
    negative, and the entry of the first wave-vector is positive. *)
Lemma unit_box_BC (fftw_malloc : string -> cview) :
  let BC := BC_array fftw_malloc solver_half unit_box_particle 512 in
  0 < fst (BC 1%Z) /\ forall idx, (0 <= idx < 512)%Z -> 0 <= fst (BC idx).
Proof.
  cbv zeta. unfold BC_array. cbv zeta. rewrite meshwidth_512.
  cbn [ForceSPME._alpha solver_half domain_x domain_y domain_z
       unit_box_particle].
  split.
  - rewrite BC_loops_store.
    change ((0 <=? 1)%Z && (1 <? 8 * 8 * 8)%Z) with true. cbv iota.
    unfold BC_at. change (1 mod 8)%Z with 1%Z.
    change ((1 / 8) mod 8)%Z with 0%Z. change (1 / 8 / 8)%Z with 0%Z.
    unfold BC_entry. change (1 + 0 + 0 >? 0)%Z with true. cbv iota.
    assert (G1 : Rgtb (IZR 1) (IZR 8 / 2.0) = false).
    { unfold Rgtb. apply Rltb_false. lra. }
    assert (G0 : Rgtb (IZR 0) (IZR 8 / 2.0) = false).
    { unfold Rgtb. apply Rltb_false. lra. }
    rewrite G1, G0. cbv zeta. cbn [fst].
    change (1 * 1 + 0 * 0 + 0 * 0)%Z with 1%Z.
    pose proof (oneDeuler_bounds 1 8) as [E1 _].
    pose proof (oneDeuler_bounds 0 8) as [E0 _].
    pose proof literal_PI_bounds as [HPI _].
    apply Rdiv_lt_0_compat; [| lra].
    apply Rmult_lt_0_compat; [| apply exp_pos].
    apply Rmult_lt_0_compat; [| lra].
    apply Rmult_lt_0_compat; lra.
  - intros idx Hidx. rewrite BC_loops_store.
    replace ((0 <=? idx)%Z && (idx <? 8 * 8 * 8)%Z) with true.
    2:{ destruct (Z.leb_spec 0 idx); [| lia].
        destruct (Z.ltb_spec idx (8 * 8 * 8)); [reflexivity | lia]. }
    unfold BC_at.
    assert (R0 : (0 <= idx mod 8 < 8)%Z) by (apply Z.mod_pos_bound; lia).
    assert (R1 : (0 <= (idx / 8) mod 8 < 8)%Z) by (apply Z.mod_pos_bound; lia).
    assert (R2 : (0 <= idx / 8 / 8 < 8)%Z).
    { split.
      - apply Z.div_pos; [apply Z.div_pos |]; lia.
      - apply Z.div_lt_upper_bound; [lia |].
        apply Z.div_lt_upper_bound; lia. }
    destruct (BC_entry_parts 8 1 1 1 1 (idx mod 8) ((idx / 8) mod 8)
                (idx / 8 / 8) R0 R1 R2) as [_ Hnn].
    apply Hnn; lra.
Qed.

(** The reciprocal-space sum of the second spreading is four times that of
    the first, which is positive. *)
Lemma unit_box_kspace_energies (fftw_malloc : string -> cview) :
  let s := unit_box_particle in
  let m := cubic_mesh 8 (1 / 8) in
  let Uk m' :=
    kspace_energy (dft_3d 1) fftw_malloc serial solver_half s m' in
  Uk (spread_stage s (spread_stage s m)) = 4 * Uk (spread_stage s m) /\
  0 < Uk (spread_stage s m).
Proof.
  cbv zeta. set (s := unit_box_particle). set (m := cubic_mesh 8 (1 / 8)).
  destruct (spread_stage_effect s m) as (Hsz1 & _).
  destruct (spread_stage_effect s (spread_stage s m)) as (Hsz2 & _).
  rewrite Hsz1 in Hsz2. change (mesh_size m) with 512%Z in Hsz1, Hsz2.
  unfold kspace_energy. cbv zeta. rewrite Hsz1, Hsz2, meshwidth_512.
  unfold serial. cbn [List.concat]. rewrite app_nil_r.
  destruct (unit_box_BC fftw_malloc) as [HBC1 HBC]. cbv zeta in HBC1, HBC.
  fold s in HBC1, HBC.
  set (BC := BC_array fftw_malloc solver_half s 512) in *.
  set (Q1 := dft_3d 1 8 (Qr_array fftw_malloc (spread_stage s m))).
  set (Q2 := dft_3d 1 8
               (Qr_array fftw_malloc (spread_stage s (spread_stage s m)))).
  assert (H2 : forall k, fst (Q2 k) = 2 * fst (Q1 k) /\
                         snd (Q2 k) = 2 * snd (Q1 k)).
  { apply dft_3d_double. intros j Hj.
    assert (Hj' : (0 <= j < 512)%Z) by lia.
    rewrite !Qr_array_at by (rewrite ?Hsz1, ?Hsz2; exact Hj').
    cbn [fst snd].
    destruct (unit_box_mesh_charges j Hj') as [_ Hq]. cbv zeta in Hq.
    fold s m in Hq. rewrite Hq. f_equal. lra. }
  split.
  - rewrite <- sum_over_scal. apply sum_over_ext. intros idx _.
    destruct (H2 idx) as [Hre Him]. rewrite Hre, Him. ring.
  - apply (sum_over_positive _ _ 1%Z).
    + apply in_range_lt. lia.
    + intros idx Hidx. apply in_range_lt in Hidx.
      pose proof (HBC idx Hidx).
      apply Rmult_le_pos; [assumption |]. nra.
    + pose proof (unit_box_transform_at_1 fftw_malloc) as Hre.
      fold s m in Hre. fold Q1 in Hre.
      apply Rmult_lt_0_compat; [exact HBC1 |]. nra.
Qed.

(** X30. Two successive evaluations with the discrete Fourier transform as
    inverse FFT, at the input of C10: one particle of charge 1 at the
    centre of the unit box, the empty 8 x 8 x 8 lattice of spacing 1/8,
    alpha = 1, r_max = 1/2, serial schedule; any forward FFT, any content of
    fresh memory, any Udip.  Both evaluations end normally.  The second,
    entered with what the first left, returns the energy of the first plus
    three times the reciprocal-space energy 0.5 * Uk of the first, which is
    positive: the mesh charge has doubled, Uk is quadratic in it, and the
    other terms of the energy are those of the first evaluation. *)
Theorem second_evaluation_returns_larger_energy
    (fft_forward : Z -> cview -> cview) (fftw_malloc : string -> cview)
    (Udip : R) :
  let run :=
    ForceSPME.compute (dft_3d 1) fft_forward fftw_malloc Udip serial
                      solver_half in
  let s := unit_box_particle in
  let m := cubic_mesh 8 (1 / 8) in
  let Uk :=
    kspace_energy (dft_3d 1) fftw_malloc serial solver_half s
                  (spread_stage s m) in
  exists E1 E2 : R,
    snd (run (s, m)) = Ok E1 /\
    snd (run (fst (run (s, m)))) = Ok E2 /\
    E2 = E1 + 3 * (Uk * 0.5) /\
    E1 < E2.
Proof.
  cbv zeta.
  set (run := ForceSPME.compute (dft_3d 1) fft_forward fftw_malloc Udip
                serial solver_half).
  set (s := unit_box_particle). set (m := cubic_mesh 8 (1 / 8)).
  assert (Hnz : domain_x s <> 0) by (cbn [domain_x s unit_box_particle]; lra).
  pose proof (spme_compute_energy (dft_3d 1) fft_forward fftw_malloc Udip
                serial solver_half s m unit_box_cubic Hnz serial_in_range)
    as HE1.
  fold run in HE1.
  destruct (spme_compute_cases (dft_3d 1) fft_forward fftw_malloc Udip
              serial solver_half s m unit_box_cubic) as [Hst Hcase].
  cbv zeta in Hcase. fold run in Hst, Hcase.
  destruct (Req_dec_T (domain_x s) 0); [contradiction |].
  cbn [andb] in Hcase. destruct Hcase as [_ Hmesh].
  assert (Hw1 : fst (run (s, m)) = (fst (fst (run (s, m))), spread_stage s m)).
  { rewrite <- Hmesh. destruct (fst (run (s, m))); reflexivity. }
  set (t := fst (fst (run (s, m)))) in *.
  destruct (energy_terms_same_inputs (dft_3d 1) fftw_malloc serial solver_half
              s t Hst) as (Hct & Hr & Hself & Hspread & Hk).
  assert (Hnzt : domain_x t <> 0).
  { destruct Hst as (_ & _ & _ & Hx & _). rewrite <- Hx. exact Hnz. }
  pose proof (spme_compute_energy (dft_3d 1) fft_forward fftw_malloc Udip
                serial solver_half t (spread_stage s m)
                (eq_trans Hct unit_box_cubic) Hnzt serial_in_range) as HE2.
  fold run in HE2. rewrite Hr, Hself, Hspread, Hk in HE2.
  destruct (unit_box_kspace_energies fftw_malloc) as [H4 Hpos].
  cbv zeta in H4, Hpos. fold s m in H4, Hpos. rewrite H4 in HE2.
  eexists. eexists.
  split; [exact HE1 |]. split; [rewrite Hw1; exact HE2 |].
  split; lra.
Qed.
